(** * report-site: normalisation, aggregation and period comparison

    A shallow embedding of the data core of [App.tsx] (the later, more
    complete variant of the component) and the properties its
    specification states about it.

    The component is written in TypeScript; the embedding follows the
    ECMAScript semantics of the operations the source uses:

    - a JS string is a sequence of UTF-16 code units ([jsstring]);
    - a JS number is an IEEE-754 binary64 value ([number]); every
      arithmetic operation is the exact operation followed by rounding to
      nearest, ties to even;
    - [Map] and [Set] keep insertion order, so they are association lists
      and duplicate-free lists;
    - code that may throw or loop returns an [outcome].

    Source names are kept for functions; the record fields carry the
    English names of the specification:
      月份 = month, 代理商 = agent, 商戶 = merchant, 開分量 = openAmount,
      營業額 = revenueAmount, 比率 = ratio. *)

From Stdlib Require Import Ascii String.
From Stdlib Require Import ZArith List Bool Lia Sorted.
From Stdlib Require Import Floats.PrimFloat Floats.SpecFloat Floats.FloatOps.
Import ListNotations.
Local Open Scope Z_scope.

(* ===================================================================== *)
(** * Part I: definitions *)
(* ===================================================================== *)

(** ** JS strings: sequences of UTF-16 code units *)

Definition jsstring := list N.

Definition jsstring_eq_dec : forall a b : jsstring, {a = b} + {a <> b} :=
  list_eq_dec N.eq_dec.

Definition str_eqb (a b : jsstring) : bool :=
  if jsstring_eq_dec a b then true else false.

(** Literals of this file are written as UTF-8 text and decoded to code
    units ([lit]). *)
Fixpoint utf8_points (bs : list N) : list N :=
  match bs with
  | [] => []
  | b0 :: r0 =>
    if (b0 <? 128)%N then b0 :: utf8_points r0 else
    match r0 with
    | [] => []
    | b1 :: r1 =>
      if (b0 <? 224)%N
      then ((b0 - 192) * 64 + (b1 - 128))%N :: utf8_points r1 else
      match r1 with
      | [] => []
      | b2 :: r2 =>
        if (b0 <? 240)%N
        then ((b0 - 224) * 4096 + (b1 - 128) * 64 + (b2 - 128))%N
             :: utf8_points r2 else
        match r2 with
        | [] => []
        | b3 :: r3 =>
          ((b0 - 240) * 262144 + (b1 - 128) * 4096
           + (b2 - 128) * 64 + (b3 - 128))%N :: utf8_points r3
        end
      end
    end
  end.

Definition utf16_units (p : N) : list N :=
  if (p <? 65536)%N then [p]
  else [(55296 + (p - 65536) / 1024)%N; (56320 + (p - 65536) mod 1024)%N].

Definition lit (s : string) : jsstring :=
  flat_map utf16_units
    (utf8_points (map N_of_ascii (list_ascii_of_string s))).

(** Character classes of the regular expressions in the source. *)
Definition is_digit (c : N) : bool := ((48 <=? c) && (c <=? 57))%N.

Definition digit_val (c : N) : Z := Z.of_N c - 48.

(** [\s] and the set removed by [trim]: WhiteSpace and LineTerminator. *)
Definition is_space (c : N) : bool :=
  existsb (N.eqb c)
    [9; 10; 11; 12; 13; 32; 160; 5760; 8232; 8233; 8239; 8287; 12288; 65279]%N
  || ((8192 <=? c) && (c <=? 8202))%N.

Definition c_comma : N := 44.
Definition c_percent : N := 37.
Definition c_dot : N := 46.
Definition c_minus : N := 45.
Definition c_plus : N := 43.
Definition c_zero : N := 48.

Fixpoint dropWhile {A} (p : A -> bool) (l : list A) : list A :=
  match l with
  | [] => []
  | x :: l' => if p x then dropWhile p l' else l
  end.

Fixpoint takeWhile {A} (p : A -> bool) (l : list A) : list A :=
  match l with
  | [] => []
  | x :: l' => if p x then x :: takeWhile p l' else []
  end.

(** [String.prototype.trimStart], [trimEnd], [trim]. *)
Definition trimStart (s : jsstring) : jsstring := dropWhile is_space s.
Definition trimEnd (s : jsstring) : jsstring := rev (dropWhile is_space (rev s)).
Definition trim (s : jsstring) : jsstring := trimEnd (trimStart s).

Fixpoint startsWith (s t : jsstring) {struct t} : bool :=
  match t, s with
  | [], _ => true
  | _ :: _, [] => false
  | b :: t', a :: s' => (a =? b)%N && startsWith s' t'
  end.

(** [s.includes(t)]: [t] occurs in [s] as a contiguous run of code units. *)
Fixpoint includes (s t : jsstring) : bool :=
  startsWith s t ||
  match s with
  | [] => false
  | _ :: s' => includes s' t
  end.

Definition endsWith (s t : jsstring) : bool := startsWith (rev s) (rev t).

(** [s.replace(/[...]/g, "")]: every code unit of the class is deleted. *)
Definition removeAll (p : N -> bool) (s : jsstring) : jsstring :=
  filter (fun c => negb (p c)) s.

(** [s.replace(c, "")] with a one-character string pattern: only the first
    occurrence is deleted. *)
Fixpoint removeFirst (c : N) (s : jsstring) : jsstring :=
  match s with
  | [] => []
  | a :: s' => if (a =? c)%N then s' else a :: removeFirst c s'
  end.

(** [s.split(/[...]+/)] for a class [sep] of single code units: the pieces
    between maximal runs of separators, empty pieces at both ends
    included. *)
Fixpoint split_go (sep : N -> bool) (s cur : jsstring) (insep : bool)
  : list jsstring :=
  match s with
  | [] => [rev cur]
  | c :: s' =>
    if sep c
    then if insep then split_go sep s' cur true
         else rev cur :: split_go sep s' [] true
    else split_go sep s' (c :: cur) false
  end.

Definition split (sep : N -> bool) (s : jsstring) : list jsstring :=
  split_go sep s [] false.

(** [s.padStart(n, "0")]. *)
Definition padStart0 (n : nat) (s : jsstring) : jsstring :=
  repeat c_zero (n - length s) ++ s.

(** ** JS numbers: IEEE-754 binary64

    Every finite double is an integer multiple of 2^-1074, so a finite
    number is kept as its sign bit and its magnitude counted in units of
    2^-1074 ([Fin]); [Fin s 0] are the two zeros.  A magnitude is
    representable when it has at most 53 significant bits and stays below
    2^1024 (2^2098 units); the operations below only produce such
    magnitudes. *)

Inductive number : Set :=
| NaN
| Inf (neg : bool)
| Fin (neg : bool) (m : Z).

(** The value 1, in units. *)
Definition U : Z := 2 ^ 1074.

(** The first magnitude that overflows to infinity: 2^1024. *)
Definition OVF : Z := 2 ^ 2098.

(** [rne p q]: the integer nearest to [p/q], ties to even ([0 <= p], [0 < q]). *)
Definition rne (p q : Z) : Z :=
  let f := p / q in
  let r := p mod q in
  if 2 * r <? q then f
  else if q <? 2 * r then f + 1
  else if Z.even f then f else f + 1.

(** [round_mag p q]: [p/q] units rounded to 53 significant bits. *)
Definition round_mag (p q : Z) : Z :=
  let sh := Z.max 0 (Z.log2 (p / q) - 52) in
  rne p (q * 2 ^ sh) * 2 ^ sh.

(** The number of sign [s] nearest to [p/q] units. *)
Definition mk (s : bool) (p q : Z) : number :=
  let m := round_mag p q in
  if m <? OVF then Fin s m else Inf s.

Definition signed (s : bool) (m : Z) : Z := if s then - m else m.

Definition zero : number := Fin false 0.
Definition of_Z (z : Z) : number := mk (z <? 0) (Z.abs z * U) 1.
Definition of_nat (n : nat) : number := of_Z (Z.of_nat n).
Definition one : number := of_Z 1.

(** The value of the decimal literal [M]e[E] ([0 <= M]) with sign [s]. *)
Definition decimal (s : bool) (M E : Z) : number :=
  if 0 <=? E then mk s (M * 10 ^ E * U) 1 else mk s (M * U) (10 ^ (- E)).

Definition neg (x : number) : number :=
  match x with
  | NaN => NaN
  | Inf s => Inf (negb s)
  | Fin s m => Fin (negb s) m
  end.

Definition add (x y : number) : number :=
  match x, y with
  | NaN, _ | _, NaN => NaN
  | Inf a, Inf b => if Bool.eqb a b then Inf a else NaN
  | Inf a, Fin _ _ => Inf a
  | Fin _ _, Inf b => Inf b
  | Fin a m, Fin b n =>
    let z := signed a m + signed b n in
    if z =? 0 then Fin (a && b) 0 else mk (z <? 0) (Z.abs z) 1
  end.

Definition sub (x y : number) : number := add x (neg y).

Definition mul (x y : number) : number :=
  match x, y with
  | NaN, _ | _, NaN => NaN
  | Inf a, Inf b => Inf (xorb a b)
  | Inf a, Fin b n => if n =? 0 then NaN else Inf (xorb a b)
  | Fin a m, Inf b => if m =? 0 then NaN else Inf (xorb a b)
  | Fin a m, Fin b n => mk (xorb a b) (m * n) U
  end.

Definition div (x y : number) : number :=
  match x, y with
  | NaN, _ | _, NaN => NaN
  | Inf _, Inf _ => NaN
  | Inf a, Fin b _ => Inf (xorb a b)
  | Fin a _, Inf b => Fin (xorb a b) 0
  | Fin a m, Fin b n =>
    if n =? 0 then (if m =? 0 then NaN else Inf (xorb a b))
    else mk (xorb a b) (m * U) n
  end.

(** [x < y], [x <= y], [x == y] on numbers: false as soon as one side is
    NaN, and the two zeros are equal. *)
Definition lt (x y : number) : bool :=
  match x, y with
  | NaN, _ | _, NaN => false
  | Inf a, Inf b => a && negb b
  | Inf a, Fin _ _ => a
  | Fin _ _, Inf b => negb b
  | Fin a m, Fin b n => signed a m <? signed b n
  end.

Definition le (x y : number) : bool :=
  match x, y with
  | NaN, _ | _, NaN => false
  | Inf a, Inf b => a || negb b
  | Inf a, Fin _ _ => a
  | Fin _ _, Inf b => negb b
  | Fin a m, Fin b n => signed a m <=? signed b n
  end.

Definition num_eqb (x y : number) : bool := le x y && le y x.

Definition isNaN (x : number) : bool :=
  match x with NaN => true | _ => false end.

(** [Number.isFinite]. *)
Definition isFinite (x : number) : bool :=
  match x with Fin _ _ => true | _ => false end.

(** Truthiness of a number (the left operand of [||], [!x]): NaN and the
    zeros are falsy. *)
Definition truthy (x : number) : bool :=
  match x with
  | NaN => false
  | Inf _ => true
  | Fin _ m => negb (m =? 0)
  end.

Definition signbit (x : number) : bool :=
  match x with
  | NaN => false
  | Inf s => s
  | Fin s _ => s
  end.

(** [Math.min] and [Math.max] of two arguments: NaN is contagious and -0
    is below +0. *)
Definition min2 (x y : number) : number :=
  if isNaN x || isNaN y then NaN
  else if lt x y then x
  else if lt y x then y
  else if signbit x then x else y.

Definition max2 (x y : number) : number :=
  if isNaN x || isNaN y then NaN
  else if lt x y then y
  else if lt y x then x
  else if signbit x then y else x.

(** [Math.min(...l)] and [Math.max(...l)]. *)
Definition Math_min (l : list number) : number := fold_left min2 l (Inf false).
Definition Math_max (l : list number) : number := fold_left max2 l (Inf true).

(** [Math.floor] and [Math.ceil]. *)
Definition Math_floor (x : number) : number :=
  match x with
  | Fin s m =>
    if m mod U =? 0 then x
    else if s then Fin true ((m / U + 1) * U) else Fin false (m / U * U)
  | _ => x
  end.

Definition Math_ceil (x : number) : number :=
  match x with
  | Fin s m =>
    if m mod U =? 0 then x
    else if s then Fin true (m / U * U) else Fin false ((m / U + 1) * U)
  | _ => x
  end.

(** The index an array is read at when subscripted with the number [x]
    (the subscript is converted to a property key, and only the canonical
    strings of non-negative integers designate elements). *)
Definition array_index (x : number) : option nat :=
  match x with
  | Fin s m =>
    if (m mod U =? 0) && (negb s || (m =? 0)) then Some (Z.to_nat (m / U))
    else None
  | _ => None
  end.

(** The same double as a primitive float of Rocq, to compare the
    operations above with the machine's. *)
Definition to_prim (x : number) : float :=
  match x with
  | NaN => nan
  | Inf s => if s then neg_infinity else infinity
  | Fin s m => SF2Prim (binary_normalize 53 1024 (signed s m) (-1074) s)
  end.

(** ** Outcomes of code that may throw or run on for ever *)

Inductive outcome (A : Type) : Type :=
| Ok (a : A)
| Throws
| OutOfFuel.
Arguments Ok {A} a.
Arguments Throws {A}.
Arguments OutOfFuel {A}.

(** ** Numbers and strings *)

Definition digit_char (d : Z) : N := Z.to_N (48 + d).

Fixpoint digits_go (fuel : nat) (n : Z) (acc : jsstring) : jsstring :=
  match fuel with
  | O => acc
  | S f =>
    let acc' := digit_char (n mod 10) :: acc in
    if n <? 10 then acc' else digits_go f (n / 10) acc'
  end.

(** The decimal digits of [n] ([0 <= n]), most significant first. *)
Definition digits_of (n : Z) : jsstring :=
  digits_go (S (Z.to_nat (Z.log2 n))) n [].

(** The natural number a run of decimal digits denotes. *)
Definition digits_value (ds : jsstring) : Z :=
  fold_left (fun a c => a * 10 + digit_val c) ds 0.

(** ExponentPart: [e] or [E], an optional sign, at least one digit; when
    that is not there, nothing is consumed. *)
Definition scan_exponent (s : jsstring) : Z * jsstring :=
  match s with
  | c :: s1 =>
    if ((c =? 101) || (c =? 69))%N then
      let '(sg, s2) :=
        match s1 with
        | d :: s2 =>
          if (d =? c_minus)%N then (true, s2)
          else if (d =? c_plus)%N then (false, s2) else (false, s1)
        | [] => (false, s1)
        end in
      match takeWhile is_digit s2 with
      | [] => (0, s)
      | ds => (signed sg (digits_value ds), dropWhile is_digit s2)
      end
    else (0, s)
  | [] => (0, s)
  end.

(** The longest prefix of [s] that is a StrUnsignedDecimalLiteral, with
    its value under the sign [sg] and what follows it. *)
Definition scan_unsigned (sg : bool) (s : jsstring)
  : option (number * jsstring) :=
  if startsWith s (lit "Infinity") then Some (Inf sg, skipn 8 s) else
  let ip := takeWhile is_digit s in
  let r1 := dropWhile is_digit s in
  let '(fp, r3) :=
    match r1 with
    | c :: r2 =>
      if (c =? c_dot)%N then (takeWhile is_digit r2, dropWhile is_digit r2)
      else ([], r1)
    | [] => ([], r1)
    end in
  match ip ++ fp with
  | [] => None
  | ds =>
    let '(e, r4) := scan_exponent r3 in
    Some (decimal sg (digits_value ds) (e - Z.of_nat (length fp)), r4)
  end.

(** The longest prefix that is a StrDecimalLiteral (sign included). *)
Definition scan_decimal (s : jsstring) : option (number * jsstring) :=
  match s with
  | c :: s' =>
    if (c =? c_minus)%N then scan_unsigned true s'
    else if (c =? c_plus)%N then scan_unsigned false s'
    else scan_unsigned false s
  | [] => None
  end.

(** [parseFloat(s)]. *)
Definition parseFloat (s : jsstring) : number :=
  match scan_decimal (trimStart s) with
  | Some (n, _) => n
  | None => NaN
  end.

Definition radix_digit (radix : Z) (c : N) : option Z :=
  let v :=
    if is_digit c then Z.of_N c - 48
    else if ((97 <=? c) && (c <=? 102))%N then Z.of_N c - 87
    else if ((65 <=? c) && (c <=? 70))%N then Z.of_N c - 55
    else 99 in
  if v <? radix then Some v else None.

Fixpoint radix_value (radix : Z) (s : jsstring) (acc : Z) : option Z :=
  match s with
  | [] => Some acc
  | c :: s' =>
    match radix_digit radix c with
    | Some v => radix_value radix s' (acc * radix + v)
    | None => None
    end
  end.

(** NonDecimalIntegerLiteral: [0x], [0o], [0b] and at least one digit. *)
Definition scan_radix (s : jsstring) : option number :=
  match s with
  | a :: p :: ((_ :: _) as ds) =>
    let radix :=
      if ((p =? 120) || (p =? 88))%N then 16
      else if ((p =? 111) || (p =? 79))%N then 8
      else if ((p =? 98) || (p =? 66))%N then 2 else 0 in
    if (a =? c_zero)%N && negb (radix =? 0) then
      match radix_value radix ds 0 with
      | Some v => Some (of_Z v)
      | None => None
      end
    else None
  | _ => None
  end.

(** [Number(s)] on a string: StringToNumber. *)
Definition Number_of_string (s : jsstring) : number :=
  let t := trim s in
  match t with
  | [] => zero
  | _ =>
    match scan_radix t with
    | Some n => n
    | None =>
      match scan_decimal t with
      | Some (n, []) => n
      | _ => NaN
      end
    end
  end.

(** The decimal exponent [n] of a positive magnitude [m]:
    10^(n-1) <= m/U < 10^n. *)
Fixpoint lead_go (fuel : nat) (m : Z) (j : Z) : Z :=
  match fuel with
  | O => j
  | S f => if U <=? m * 10 ^ j then j else lead_go f m (j + 1)
  end.

Definition dec_exponent (m : Z) : Z :=
  if U <=? m then Z.of_nat (length (digits_of (m / U)))
  else 1 - lead_go 400 m 1.

(** [floor (m/U / 10^e)] and the two distances that decide between it
    and its successor. *)
Definition scaled_floor (m e : Z) : Z :=
  if 0 <=? e then m / (U * 10 ^ e) else m * 10 ^ (- e) / U.

Definition nearer_low (m e s : Z) : bool :=
  let '(a, b) :=
    if 0 <=? e
    then (m - s * 10 ^ e * U, (s + 1) * 10 ^ e * U - m)
    else (m * 10 ^ (- e) - s * U, (s + 1) * U - m * 10 ^ (- e)) in
  (a <? b) || ((a =? b) && Z.even s).

(** The shortest digit string [s] (k digits) with [s]e[n0-k] rounding to
    the magnitude [m]; the nearest one when two fit. *)
Fixpoint shortest (fuel : nat) (m n0 k : Z) : Z * Z :=
  let e := n0 - k in
  let lo := scaled_floor m e in
  match fuel with
  | O => (lo, e)
  | S f =>
    let oklo := match decimal false lo e with Fin _ r => r =? m | _ => false end in
    let okhi := match decimal false (lo + 1) e with Fin _ r => r =? m | _ => false end in
    if oklo && okhi then (if nearer_low m e lo then (lo, e) else (lo + 1, e))
    else if oklo then (lo, e)
    else if okhi then (lo + 1, e)
    else shortest f m n0 (k + 1)
  end.

Definition strip_zeros (ds : jsstring) : jsstring :=
  rev (dropWhile (N.eqb c_zero) (rev ds)).

(** [String(x)] for a number: Number::toString, radix 10. *)
Definition numberToString (x : number) : jsstring :=
  match x with
  | NaN => lit "NaN"
  | Inf s => (if s then [c_minus] else []) ++ lit "Infinity"
  | Fin s m =>
    if m =? 0 then [c_zero] else
    let '(sd, e) := shortest 20 m (dec_exponent m) 1 in
    let ds0 := digits_of sd in
    let n := e + Z.of_nat (length ds0) in
    let ds := strip_zeros ds0 in
    let k := Z.of_nat (length ds) in
    let body :=
      if (k <=? n) && (n <=? 21) then ds ++ repeat c_zero (Z.to_nat (n - k))
      else if (0 <? n) && (n <=? 21)
      then firstn (Z.to_nat n) ds ++ [c_dot] ++ skipn (Z.to_nat n) ds
      else if (-6 <? n) && (n <=? 0)
      then [c_zero; c_dot] ++ repeat c_zero (Z.to_nat (- n)) ++ ds
      else
        let ex := [101%N] ++ [if n - 1 <? 0 then c_minus else c_plus]
                  ++ digits_of (Z.abs (n - 1)) in
        match ds with
        | [d] => [d] ++ ex
        | d :: ds' => [d; c_dot] ++ ds' ++ ex
        | [] => ex
        end in
    (if s then [c_minus] else []) ++ body
  end.

(** The integer [n] for which [n / 10^f] is nearest to [m] units, the
    larger one of two. *)
Definition fixed_units (f : nat) (m : Z) : Z :=
  (2 * m * 10 ^ Z.of_nat f + U) / (2 * U).

(** [x.toFixed(f)]. *)
Definition toFixed (f : nat) (x : number) : jsstring :=
  match x with
  | Fin s m =>
    if 10 ^ 21 * U <=? m then numberToString x else
    let ds := padStart0 (f + 1) (digits_of (fixed_units f m)) in
    let k := (length ds - f)%nat in
    let body :=
      match f with
      | O => ds
      | _ => firstn k ds ++ [c_dot] ++ skipn k ds
      end in
    (if s && negb (m =? 0) then [c_minus] else []) ++ body
  | _ => numberToString x
  end.

(** ** JS values held by a raw record *)

Inductive value : Type :=
| VUndefined
| VNull
| VBool (b : bool)
| VNum (n : number)
| VStr (s : jsstring).

(** [String(v)]. *)
Definition String_ (v : value) : jsstring :=
  match v with
  | VUndefined => lit "undefined"
  | VNull => lit "null"
  | VBool b => if b then lit "true" else lit "false"
  | VNum n => numberToString n
  | VStr s => s
  end.

Definition nullish (v : value) : bool :=
  match v with VUndefined | VNull => true | _ => false end.

(** [a ?? b]. *)
Definition coalesce (a b : value) : value := if nullish a then b else a.

(** [!v] is false, that is [v] is truthy. *)
Definition value_truthy (v : value) : bool :=
  match v with
  | VUndefined | VNull => false
  | VBool b => b
  | VNum n => truthy n
  | VStr s => match s with [] => false | _ => true end
  end.

(** A raw record: the object one row of a sheet or of a feed is parsed
    to; reading a key that is not there gives [undefined]. *)
Definition record := list (jsstring * value).

Definition get (r : record) (k : string) : value :=
  match find (fun kv => str_eqb (fst kv) (lit k)) r with
  | Some kv => snd kv
  | None => VUndefined
  end.

(** ** Field coercion *)

(** [num], the coercion of the ingestor:
    [Number(String(v).replace(/[\,\s%]/g,""))], 0 when that is not finite. *)
Definition num (v : value) : number :=
  match v with
  | VNull | VUndefined | VStr [] => zero
  | _ =>
    let n := Number_of_string
               (removeAll (fun c => (c =? c_comma)%N || is_space c
                                    || (c =? c_percent)%N)
                          (String_ v)) in
    if isFinite n then n else zero
  end.

(** The characters [/[^\d.\-]/g] keeps. *)
Definition plain_char (c : N) : bool :=
  is_digit c || (c =? c_dot)%N || (c =? c_minus)%N.

(** [let mult = 1; if (s.includes('億')) mult = 1e8; else if ...]. *)
Definition unitMultiplier (s : jsstring) : number :=
  if includes s (lit "億") then decimal false 1 8
  else if includes s (lit "百萬") then decimal false 1 6
  else if includes s (lit "萬") then decimal false 1 4
  else of_Z 1.

(** [coerceNumber], the coercion of the sortable-value accessor. *)
Definition coerceNumber (v : value) : number :=
  match v with
  | VNum n => n
  | VNull | VUndefined => zero
  | _ =>
    let s := trim (removeAll (N.eqb c_comma) (String_ v)) in
    if endsWith s [c_percent]
    then div (parseFloat (removeFirst c_percent s)) (of_Z 100)
    else
      let mult := unitMultiplier s in
      let n := parseFloat (removeAll (fun c => negb (plain_char c)) s) in
      if isFinite n then mul n mult else zero
  end.

(** ** Month normaliser *)

Fixpoint find_match {A} (f : jsstring -> option A) (s : jsstring) : option A :=
  match f s with
  | Some a => Some a
  | None =>
    match s with
    | [] => None
    | _ :: s' => find_match f s'
    end
  end.

(** [/(20\d{2})[\-/\.年]?(\d{1,2})/] matched at the head of [s]: the two
    groups. *)
Definition match_year_month (s : jsstring) : option (jsstring * jsstring) :=
  match s with
  | 50%N :: 48%N :: d1 :: d2 :: r =>
    if is_digit d1 && is_digit d2 then
      let r' :=
        match r with
        | c :: r1 => if existsb (N.eqb c) (lit "-/.年") then r1 else r
        | [] => r
        end in
      match r' with
      | e1 :: r2 =>
        if is_digit e1 then
          match r2 with
          | e2 :: _ =>
            if is_digit e2 then Some ([50%N; 48%N; d1; d2], [e1; e2])
            else Some ([50%N; 48%N; d1; d2], [e1])
          | [] => Some ([50%N; 48%N; d1; d2], [e1])
          end
        else None
      | [] => None
      end
    else None
  | _ => None
  end.

(** [/(\d{1,2})\s*月/] matched at the head of [s]: the group. *)
Definition match_month (s : jsstring) : option jsstring :=
  match s with
  | d1 :: r =>
    if is_digit d1 then
      match r with
      | d2 :: r2 =>
        if is_digit d2
        then if startsWith (dropWhile is_space r2) (lit "月")
             then Some [d1; d2] else None
        else if startsWith (dropWhile is_space r) (lit "月")
             then Some [d1] else None
      | [] => None
      end
    else None
  | [] => None
  end.

(** [String(Number(g)).padStart(2, "0")]. *)
Definition two_digits (g : jsstring) : jsstring :=
  padStart0 2 (numberToString (Number_of_string g)).

Section Ingestion.

(** [new Date().getFullYear()]. *)
Variable thisYear : Z.

Definition normalizeMonth (s : value) : option jsstring :=
  if negb (value_truthy s) then None else
  let t := trim (String_ s) in
  match find_match match_year_month t with
  | Some (y, g) => Some (y ++ [c_minus] ++ two_digits g)
  | None =>
    match find_match match_month t with
    | Some g =>
      Some (numberToString (of_Z thisYear) ++ [c_minus] ++ two_digits g)
    | None => None
    end
  end.

(** ** Rows and the record ingestor *)

Record Row : Type := mkRow {
  month : option jsstring;
  agent : jsstring;
  merchant : jsstring;
  openAmount : number;
  revenueAmount : number;
  ratio : number;
  machines : value;
  note : value;
  low25 : value;
  hours : value
}.

Definition seedRow (m a s : string) (o v : Z) : Row :=
  mkRow (Some (lit m)) (lit a) (lit s) (of_Z o) (of_Z v)
        (div (of_Z v) (of_Z o)) VUndefined VUndefined VUndefined VUndefined.

Definition seed : list Row :=
  [ seedRow "2025-07" "金傑克" "萬豪" 1200000 300000;
    seedRow "2025-07" "金傑克" "新吉星" 900000 210000;
    seedRow "2025-08" "阿峰" "千弈" 500000 150000;
    seedRow "2025-08" "阿峰" "布拉德" 380000 98000;
    seedRow "2025-08" "國正" "皇室" 350000 70000 ].

(** The explicit ratio-bearing field of a record:
    [r["營業額/開分量"] ?? r["營業額/開分量百分比"] ?? r["Revenue/Open"] ?? r["ROI"] ?? ""]. *)
Definition ratioSrc (r : record) : value :=
  coalesce (get r "營業額/開分量")
    (coalesce (get r "營業額/開分量百分比")
       (coalesce (get r "Revenue/Open")
          (coalesce (get r "ROI") (VStr [])))).

Definition openSrc (r : record) : value :=
  coalesce (get r "開分量") (coalesce (get r "開分") (get r "Open")).

Definition revenueSrc (r : record) : value :=
  coalesce (get r "營業額") (coalesce (get r "Revenue") (get r "Sales")).

Definition toRow (batchMonth : jsstring) (r : record) : Row :=
  let agent :=
    trim (String_ (coalesce (get r "代理商")
            (coalesce (get r "代理") (coalesce (get r "Agent") (VStr []))))) in
  let store :=
    trim (String_ (coalesce (get r "商戶") (coalesce (get r "Store") (VStr [])))) in
  let open := num (openSrc r) in
  let rev := num (revenueSrc r) in
  let raw := String_ (ratioSrc r) in
  let ratio :=
    match raw with
    | [] => if lt zero open then div rev open else zero
    | _ => if includes raw [c_percent]
           then div (num (VStr raw)) (of_Z 100) else num (VStr raw)
    end in
  let machine := coalesce (get r "機台數量") (coalesce (get r "機台") (get r "Machines")) in
  let note := coalesce (get r "備註") (coalesce (get r "Remark") (get r "Note")) in
  let low25 := coalesce (get r "開分量低於25%") (get r "低於25%") in
  let hours := coalesce (get r "營業時間") (get r "Hours") in
  let m := normalizeMonth
             (coalesce (get r "月份") (coalesce (get r "月") (coalesce (get r "Month")
                (coalesce (get r "日期") (coalesce (get r "Date") (VStr batchMonth)))))) in
  mkRow m agent store open rev ratio machine note low25 hours.

(** [x => x.代理商 && x.商戶]: both strings are non-empty. *)
Definition hasIdentity (x : Row) : bool :=
  value_truthy (VStr (agent x)) && value_truthy (VStr (merchant x)).

(** The ingestion paths.  Each receives the records its transport (the
    CSV parser, the sheet reader, the JSON feed) has produced. *)
Definition loadFromCsvUrl (data : list record) (batchMonth : jsstring) : list Row :=
  filter hasIdentity (map (toRow batchMonth) data).

Definition loadFromJsonUrl (arr : list record) (batchMonth : jsstring) : list Row :=
  filter hasIdentity (map (toRow batchMonth) arr).

(** An uploaded file: its name and the records read from it. *)
Record File : Type := mkFile { fileName : jsstring; fileData : list record }.

Definition parseOne (batchMonth : jsstring) (file : File) : list Row :=
  filter hasIdentity (map (toRow batchMonth) (fileData file)).

(** ** Batch merger *)

(** [new Set(l)] on strings, in insertion order. *)
Definition Set_add (k : jsstring) (s : list jsstring) : list jsstring :=
  if existsb (str_eqb k) s then s else s ++ [k].

Definition Set_of (l : list jsstring) : list jsstring :=
  fold_left (fun s k => Set_add k s) l [].

Record AppState : Type := mkState {
  rows : list Row;
  appendMode : bool;
  batchMonth : jsstring;
  monthA : option jsstring;
  monthB : option jsstring
}.

Definition initialState : AppState :=
  let monthSet := Set_of (flat_map (fun r => match month r with
                                             | Some ((_ :: _) as m) => [m]
                                             | _ => []
                                             end) seed) in
  mkState seed true []
          (nth_error monthSet 0)
          (match nth_error monthSet 1 with
           | Some m => Some m
           | None => nth_error monthSet 0
           end).

(** [{...r, 月份: r.月份 ?? normalizeMonth(batchMonth) ?? "未指定"}]. *)
Definition backfill (batchMonth : jsstring) (r : Row) : Row :=
  mkRow (match month r with
         | Some m => Some m
         | None =>
           match normalizeMonth (VStr batchMonth) with
           | Some m => Some m
           | None => Some (lit "未指定")
           end
         end)
        (agent r) (merchant r) (openAmount r) (revenueAmount r) (ratio r)
        (machines r) (note r) (low25 r) (hours r).

(** [batches.flat().map(...)]. *)
Definition merged (batchMonth : jsstring) (batches : list (list Row)) : list Row :=
  map (backfill batchMonth) (concat batches).

(** The dataset after a merge: [[...prev, ...merged]] or [merged]. *)
Definition merge (prev : list Row) (incoming : list Row) (append : bool) : list Row :=
  if append then prev ++ incoming else incoming.

Definition onFiles (st : AppState) (files : list File) : AppState :=
  match files with
  | [] => st
  | _ =>
    let batches := map (parseOne (batchMonth st)) files in
    let bm :=
      match batchMonth st with
      | [] =>
        fold_left (fun v f =>
                     match v, normalizeMonth (VStr (fileName f)) with
                     | [], Some fromName => fromName
                     | _, _ => v
                     end) files []
      | v => v
      end in
    let mg := merged (batchMonth st) batches in
    let months :=
      filter (fun m => value_truthy (VStr m))
             (Set_of (flat_map (fun r => match month r with
                                         | Some m => [m]
                                         | None => []
                                         end) mg)) in
    let '(ma, mb) :=
      match months with
      | [] => (monthA st, monthB st)
      | m0 :: _ =>
        (Some m0, match nth_error months 1 with
                  | Some m1 => Some m1
                  | None => Some m0
                  end)
      end in
    mkState (merge (rows st) mg (appendMode st)) (appendMode st) bm ma mb
  end.

(** The load on mount: [if (loaded.length) setRows(loaded)]. *)
Definition onMount (st : AppState) (isCsv : bool) (data : list record) : AppState :=
  let loaded := if isCsv then loadFromCsvUrl data [] else loadFromJsonUrl data [] in
  match loaded with
  | [] => st
  | _ => mkState loaded (appendMode st) (batchMonth st) (monthA st) (monthB st)
  end.

(** The clear button. *)
Definition onClear (st : AppState) : AppState :=
  mkState [] (appendMode st) (batchMonth st) None None.

(** What the administrator and the page can do to the dataset. *)
Inductive event : Type :=
| Mount (isCsv : bool) (data : list record)
| Upload (files : list File)
| SetAppend (b : bool)
| SetBatchMonth (s : jsstring)
| SelectA (m : jsstring)
| SelectB (m : jsstring)
| Clear.

(** The period selectors store [e.target.value || undefined]. *)
Definition selected (m : jsstring) : option jsstring :=
  match m with [] => None | _ => Some m end.

Definition step (st : AppState) (e : event) : AppState :=
  match e with
  | Mount c d => onMount st c d
  | Upload fs => onFiles st fs
  | SetAppend b => mkState (rows st) b (batchMonth st) (monthA st) (monthB st)
  | SetBatchMonth s => mkState (rows st) (appendMode st) s (monthA st) (monthB st)
  | SelectA m => mkState (rows st) (appendMode st) (batchMonth st) (selected m) (monthB st)
  | SelectB m => mkState (rows st) (appendMode st) (batchMonth st) (monthA st) (selected m)
  | Clear => onClear st
  end.

Definition run (st : AppState) (es : list event) : AppState :=
  fold_left step es st.

End Ingestion.

(** ** Insertion-ordered maps and stable sorting *)

Section Containers.
Context {V : Type}.

(** [m.set(k, v)]: a key already there keeps its position. *)
Fixpoint Map_set (k : jsstring) (v : V) (m : list (jsstring * V))
  : list (jsstring * V) :=
  match m with
  | [] => [(k, v)]
  | (k', v') :: m' =>
    if str_eqb k' k then (k', v) :: m' else (k', v') :: Map_set k v m'
  end.

(** [m.get(k)]. *)
Fixpoint Map_get (k : jsstring) (m : list (jsstring * V)) : option V :=
  match m with
  | [] => None
  | (k', v') :: m' => if str_eqb k' k then Some v' else Map_get k m'
  end.

Definition Map_keys (m : list (jsstring * V)) : list jsstring := map fst m.

(** [Array.prototype.sort] with a comparator: [after a b] says that the
    comparator is positive on [(a, b)].  The sort is stable; a comparator
    result that is zero or NaN leaves the pair in its order.  (On a
    comparator that is not a consistent ordering the language leaves the
    order to the engine; this is the order of a stable insertion sort.) *)
Fixpoint sort_insert (after : V -> V -> bool) (x : V) (l : list V) : list V :=
  match l with
  | [] => [x]
  | y :: l' => if after x y then y :: sort_insert after x l' else x :: l
  end.

Definition sortBy (after : V -> V -> bool) (l : list V) : list V :=
  fold_right (sort_insert after) [] l.

End Containers.

(** ** Filter and search pipeline *)

Definition is_token_sep (c : N) : bool := (c =? c_comma)%N || is_space c.

(** [excludeAgent.split(/[,\s]+/).map(s => s.trim()).filter(Boolean)]. *)
Definition excludeTokens (excludeAgent : jsstring) : list jsstring :=
  filter (fun s => value_truthy (VStr s))
         (map trim (split is_token_sep excludeAgent)).

(** [passExclude]: the row is kept. *)
Definition passExclude (tokens : list jsstring) (r : Row) : bool :=
  (length tokens =? 0)%nat
  || negb (existsb (fun tok => includes (String_ (VStr (agent r))) tok) tokens).

(** [s.split('-')]: the pieces between the hyphens. *)
Fixpoint split_char (c : N) (s cur : jsstring) : list jsstring :=
  match s with
  | [] => [rev cur]
  | a :: s' =>
    if (a =? c)%N then rev cur :: split_char c s' []
    else split_char c s' (a :: cur)
  end.

(** [normMonth], the re-padding normaliser of the display and of the month
    filter. *)
Definition normMonth (m : option jsstring) : jsstring :=
  match m with
  | None => []
  | Some m =>
    let s := trim m in
    match split_char c_minus s [] with
    | ((_ :: _) as y) :: ((_ :: _) as raw) :: _ => y ++ [c_minus] ++ padStart0 2 raw
    | _ => s
    end
  end.

(** Strings compare by code units. *)
Fixpoint str_ltb (a b : jsstring) : bool :=
  match a, b with
  | _, [] => false
  | [], _ :: _ => true
  | x :: a', y :: b' => (x <? y)%N || ((x =? y)%N && str_ltb a' b')
  end.

Definition allMonths (rows : list Row) : list jsstring :=
  sortBy (fun a b => str_ltb b a) (Set_of (map (fun r => normMonth (month r)) rows)).

Record Criteria : Type := mkCriteria {
  selectedMonths : list jsstring;
  agentFilter : jsstring;
  merchantFilter : jsstring;
  excludeAgent : jsstring;
  q : jsstring
}.

Section Pipeline.

(** [String.prototype.toLowerCase], which follows the Unicode case
    tables. *)
Variable toLowerCase : jsstring -> jsstring.

Definition filtered (rows : list Row) (c : Criteria) : list Row :=
  let d := rows in
  let d :=
    if negb (length (selectedMonths c) =? 0)%nat
       && negb (length (selectedMonths c) =? length (allMonths rows))%nat
    then filter (fun r => existsb (str_eqb (normMonth (month r)))
                                  (Set_of (selectedMonths c))) d
    else d in
  let d := if negb (str_eqb (agentFilter c) (lit "ALL"))
           then filter (fun r => str_eqb (agent r) (agentFilter c)) d else d in
  let d := if negb (str_eqb (merchantFilter c) (lit "ALL"))
           then filter (fun r => str_eqb (merchant r) (merchantFilter c)) d else d in
  let d := if negb (length (excludeTokens (excludeAgent c)) =? 0)%nat
           then filter (passExclude (excludeTokens (excludeAgent c))) d else d in
  match trim (q c) with
  | [] => d
  | t =>
    let s := toLowerCase t in
    filter (fun r => includes (toLowerCase (agent r)) s
                     || includes (toLowerCase (merchant r)) s) d
  end.

End Pipeline.

(** The rows the comparator works on. *)
Definition baseRowsForCompare (rows : list Row) (tokens : list jsstring) : list Row :=
  filter (passExclude tokens) rows.

(** ** Period comparator *)

Inductive KeyJoin : Set := AgentAndMerchant | MerchantOnly.

Definition keyFn (keyJoin : KeyJoin) (r : Row) : jsstring :=
  match keyJoin with
  | MerchantOnly => merchant r
  | AgentAndMerchant => agent r ++ lit "__" ++ merchant r
  end.

Record ComparisonRow : Type := mkComparison {
  c_agent : jsstring;
  c_merchant : jsstring;
  openA : number;
  openB : number;
  deltaOpen : number;
  revenueA : number;
  revenueB : number;
  deltaRevenue : number;
  ratioA : number;
  ratioB : number;
  deltaRatio : number
}.

(** [r.月份 === m]. *)
Definition inMonth (m : jsstring) (r : Row) : bool :=
  match month r with
  | Some m' => str_eqb m' m
  | None => false
  end.

(** [A.forEach(r => mapA.set(keyFn(r), r))]. *)
Definition keyMap (keyJoin : KeyJoin) (part : list Row) : list (jsstring * Row) :=
  fold_left (fun m r => Map_set (keyFn keyJoin r) r m) part [].

(** [a?.f ?? d]. *)
Definition field {A} (f : Row -> A) (a : option Row) (d : A) : A :=
  match a with
  | Some r => f r
  | None => d
  end.

(** The ComparisonRow of one key. *)
Definition compareKey (mapA mapB : list (jsstring * Row)) (k : jsstring)
  : ComparisonRow :=
  let a := Map_get k mapA in
  let b := Map_get k mapB in
  let oA := field openAmount a zero in
  let oB := field openAmount b zero in
  let vA := field revenueAmount a zero in
  let vB := field revenueAmount b zero in
  let rA := field ratio a zero in
  let rB := field ratio b zero in
  mkComparison
    (field agent a (field agent b []))
    (field merchant a (field merchant b []))
    oA oB (sub oB oA) vA vB (sub vB vA) rA rB (sub rB rA).

(** The join keys, in the order of [new Set([...mapA.keys(), ...mapB.keys()])]. *)
Definition joinKeys (mapA mapB : list (jsstring * Row)) : list jsstring :=
  Set_of (Map_keys mapA ++ Map_keys mapB).

(** [(a, b) => (b["Δ營業額"] ?? 0) - (a["Δ營業額"] ?? 0)] is positive. *)
Definition byDeltaRevenue (a b : ComparisonRow) : bool :=
  lt zero (sub (deltaRevenue b) (deltaRevenue a)).

Definition compareRows (base : list Row) (monthA monthB : option jsstring)
           (keyJoin : KeyJoin) : list ComparisonRow :=
  match monthA, monthB with
  | Some ((_ :: _) as mA), Some ((_ :: _) as mB) =>
    let A := filter (inMonth mA) base in
    let B := filter (inMonth mB) base in
    let mapA := keyMap keyJoin A in
    let mapB := keyMap keyJoin B in
    sortBy byDeltaRevenue (map (compareKey mapA mapB) (joinKeys mapA mapB))
  | _, _ => []
  end.

(** ** Aggregator: Pareto by merchant *)

(** [rows.forEach(r => m.set(key, (m.get(key) ?? 0) + val))]. *)
Definition groupSum (key : Row -> jsstring) (val : Row -> number)
           (rows : list Row) : list (jsstring * number) :=
  fold_left (fun m r =>
               Map_set (key r)
                       (add (match Map_get (key r) m with
                             | Some v => v
                             | None => zero
                             end) (val r)) m)
            rows [].

Record ParetoPoint : Type := mkPareto {
  p_merchant : jsstring;
  p_open : number;
  cumulativeSharePercent : number
}.

(** [(a, b) => b.開分量 - a.開分量] is positive. *)
Definition byOpenDesc (a b : jsstring * number) : bool :=
  lt zero (sub (snd b) (snd a)).

(** [list.map(d => ({...d, 累積比例: +(((cum += d.開分量)/total*100).toFixed(2))}))]. *)
Fixpoint paretoMap (total cum : number) (l : list (jsstring * number))
  : list ParetoPoint :=
  match l with
  | [] => []
  | d :: l' =>
    let cum' := add cum (snd d) in
    mkPareto (fst d) (snd d)
             (Number_of_string (toFixed 2 (mul (div cum' total) (of_Z 100))))
    :: paretoMap total cum' l'
  end.

Definition paretoList (rows : list Row) : list (jsstring * number) :=
  sortBy byOpenDesc (groupSum merchant openAmount rows).

(** [list.reduce((s,d)=>s+d.開分量,0) || 1]. *)
Definition paretoTotal (l : list (jsstring * number)) : number :=
  let s := fold_left (fun s d => add s (snd d)) l zero in
  if truthy s then s else of_Z 1.

Definition useParetoByMerchant (rows : list Row) : list ParetoPoint :=
  let l := paretoList rows in
  paretoMap (paretoTotal l) zero l.

(** ** Aggregator: ratio histogram *)

Record Bin : Type := mkBin {
  rangeLabel : jsstring;
  count : number;
  lowerBound : number;
  upperBound : number
}.

(** The design default of [step], 0.05. *)
Definition defaultStep : number := decimal false 5 (-2).

(** The array length limit: [push] on a full array throws. *)
Definition maxArrayLength : Z := 2 ^ 32 - 1.

(** [for (let a=lo; a<hi; a+=step) {...}]. *)
Fixpoint buildBins (fuel : nat) (a hi stp : number) (bins : list Bin)
  : outcome (list Bin) :=
  if lt a hi then
    match fuel with
    | O => OutOfFuel
    | S f =>
      if maxArrayLength <=? Z.of_nat (length bins) then Throws else
      let b := Number_of_string (toFixed 10 (add a stp)) in
      let lbl := toFixed 0 (mul a (of_Z 100)) ++ lit "%~"
                 ++ toFixed 0 (mul b (of_Z 100)) ++ lit "%" in
      buildBins f (add a stp) hi stp (bins ++ [mkBin lbl zero a b])
    end
  else Ok bins.

(** The subscript computed for a ratio. *)
Definition binIndex (lo hi stp : number) (nbins : nat) (x0 : number) : number :=
  let x := min2 x0 (sub hi (decimal false 1 (-12))) in
  max2 zero (min2 (sub (of_nat nbins) (of_Z 1))
                  (Math_floor (div (sub x lo) stp))).

Fixpoint bumpAt (i : nat) (bins : list Bin) : option (list Bin) :=
  match bins, i with
  | [], _ => None
  | b :: bins', O =>
    Some (mkBin (rangeLabel b) (add (count b) (of_Z 1)) (lowerBound b) (upperBound b)
          :: bins')
  | b :: bins', S i' =>
    match bumpAt i' bins' with
    | Some bs => Some (b :: bs)
    | None => None
    end
  end.

(** [bins[idx].數量++]: a subscript that designates no element makes the
    statement throw. *)
Definition countRow (lo hi stp : number) (bins : list Bin) (r : Row)
  : outcome (list Bin) :=
  match array_index (binIndex lo hi stp (length bins) (ratio r)) with
  | Some i =>
    match bumpAt i bins with
    | Some bins' => Ok bins'
    | None => Throws
    end
  | None => Throws
  end.

Fixpoint countRows (lo hi stp : number) (bins : list Bin) (rows : list Row)
  : outcome (list Bin) :=
  match rows with
  | [] => Ok bins
  | r :: rows' =>
    match countRow lo hi stp bins r with
    | Ok bins' => countRows lo hi stp bins' rows'
    | Throws => Throws
    | OutOfFuel => OutOfFuel
    end
  end.

Definition finiteOr0 (x : number) : number := if isFinite x then x else zero.

Definition histLo (rows : list Row) (stp : number) : number :=
  let mn := finiteOr0 (Math_min (map ratio rows)) in
  mul (Math_floor (div (sub mn stp) stp)) stp.

Definition histHi (rows : list Row) (stp : number) : number :=
  let mx := finiteOr0 (Math_max (map ratio rows)) in
  mul (Math_ceil (div (add mx stp) stp)) stp.

Definition useRatioHistogram (fuel : nat) (rows : list Row) (stp : number)
  : outcome (list Bin) :=
  match rows with
  | [] => Ok []
  | _ =>
    let lo := histLo rows stp in
    let hi := histHi rows stp in
    match buildBins fuel lo hi stp [] with
    | Ok bins => countRows lo hi stp bins rows
    | Throws => Throws
    | OutOfFuel => OutOfFuel
    end
  end.

(** ** Vocabulary of the properties *)

(** No period is selected: the selector holds [undefined] or the empty
    string (both are falsy in [!monthA]). *)
Definition notSelected (m : option jsstring) : Prop := m = None \/ m = Some [].

(** The rows of the dataset in a selected period. *)
Definition periodRows (m : option jsstring) (base : list Row) : list Row :=
  match m with
  | Some s => filter (inMonth s) base
  | None => []
  end.

(** A period is unresolved: not selected, or without rows. *)
Definition unresolved (m : option jsstring) (base : list Row) : Prop :=
  notSelected m \/ periodRows m base = [].

(** A row carries its two identity fields: both are non-empty, and both
    are in trimmed form. *)
Definition identified (r : Row) : Prop :=
  (agent r <> [] /\ merchant r <> [])
  /\ (trim (agent r) = agent r /\ trim (merchant r) = merchant r).

(** The keys under which a record may carry an explicit ratio. *)
Definition ratioKeys : list string :=
  ["營業額/開分量"; "營業額/開分量百分比"; "Revenue/Open"; "ROI"]%string.

(** A record has no explicit ratio-bearing field, or an empty one: each
    accepted key is absent, null, or holds the empty string. *)
Definition noExplicitRatio (r : record) : Prop :=
  forall k, In k ratioKeys -> nullish (get r k) = true \/ get r k = VStr [].

(** A row and its copy in the merged dataset differ at most in a month
    that was missing. *)
Definition sameButMissingMonth (r r' : Row) : Prop :=
  agent r' = agent r /\ merchant r' = merchant r
  /\ openAmount r' = openAmount r /\ revenueAmount r' = revenueAmount r
  /\ ratio r' = ratio r
  /\ (month r <> None -> month r' = month r)
  /\ month r' <> None.

(** [tok] occurs in [s] as a contiguous run of code units, compared unit
    by unit (so case matters). *)
Definition substring (tok s : jsstring) : Prop :=
  exists pre post, s = pre ++ tok ++ post.

(** A plain decimal numeral: an optional minus sign, integer digits, and
    an optional fraction. *)
Inductive numeral : Type :=
| Numeral (negative : bool) (ip : jsstring) (fp : option jsstring).

Definition fraction (fp : option jsstring) : jsstring :=
  match fp with
  | Some f => f
  | None => []
  end.

(** The numeral is made of digits, and has at least one. *)
Definition numeral_ok (nm : numeral) : bool :=
  match nm with
  | Numeral _ ip fp =>
    forallb is_digit ip && forallb is_digit (fraction fp)
    && negb (length (ip ++ fraction fp) =? 0)%nat
  end.

(** How the numeral is written. *)
Definition render (nm : numeral) : jsstring :=
  match nm with
  | Numeral sg ip fp =>
    (if sg then [c_minus] else []) ++ ip
    ++ match fp with
       | Some f => c_dot :: f
       | None => []
       end
  end.

(** The double nearest to what the numeral denotes. *)
Definition numeral_value (nm : numeral) : number :=
  match nm with
  | Numeral sg ip fp =>
    decimal sg (digits_value (ip ++ fraction fp))
            (- Z.of_nat (length (fraction fp)))
  end.

(** The exponent of the unit in the last place of a magnitude: what is
    left of its bit length after 53 significant bits. *)
Definition shift_of (f : Z) : Z := Z.max 0 (Z.log2 f - 52).

(** A magnitude is representable when its bits below the 53 leading ones
    are zero. *)
Definition canon (m : Z) : Prop := m mod 2 ^ shift_of m = 0.

(** The values of [number] that are doubles. *)
Definition is_double (x : number) : Prop :=
  match x with
  | Fin _ m => 0 <= m < OVF /\ canon m
  | _ => True
  end.

(** A finite double that is not below zero. *)
Definition nonNegative (x : number) : Prop :=
  is_double x /\ isFinite x = true /\ le zero x = true.

(** Each element is at most the next, in the order of [<=] on numbers. *)
Fixpoint nonDecreasing (l : list number) : Prop :=
  match l with
  | [] => True
  | x :: l' =>
    match l' with
    | [] => True
    | y :: _ => le x y = true
    end /\ nonDecreasing l'
  end.

(** [x] is 100 within 0.01. *)
Definition near100 (x : number) : Prop :=
  le (decimal false 9999 (-2)) x = true /\ le x (decimal false 10001 (-2)) = true.

(** The sum the Pareto shares are taken of, before the [|| 1]. *)
Definition paretoSum (rows : list Row) : number :=
  fold_left (fun s d => add s (snd d)) (paretoList rows) zero.

(** One cumulative share: [+((cum/total*100).toFixed(2))]. *)
Definition share (total cum : number) : number :=
  Number_of_string (toFixed 2 (mul (div cum total) (of_Z 100))).

(** A string without leading white space. *)
Definition noLead (s : jsstring) : Prop :=
  match s with
  | [] => True
  | c :: _ => is_space c = false
  end.

(** A string without any separator. *)
Definition sepFree (sep : N -> bool) (s : jsstring) : Prop :=
  forallb (fun c => negb (sep c)) s = true.


(** What a running sum of non-negative doubles can be: positive infinity
    after an overflow, or a non-negative representable magnitude. *)
Definition accum (x : number) : Prop :=
  x = Inf false \/ exists m, x = Fin false m /\ 0 <= m /\ canon m.

(** The magnitude of a finite number is not negative (the sign is kept
    apart). *)
Definition wfn (x : number) : Prop :=
  match x with
  | Fin _ m => 0 <= m
  | _ => True
  end.

(** The value of a finite number, in units. *)
Definition val (x : number) : Z :=
  match x with
  | Fin s m => signed s m
  | _ => 0
  end.

(** The binned range is not empty and of ordinary size: both ends are
    finite doubles of magnitude at most 2^23. *)
Definition ordinaryRange (lo hi : number) : Prop :=
  (is_double lo /\ isFinite lo = true)
  /\ (is_double hi /\ isFinite hi = true)
  /\ lt lo hi = true
  /\ (- (2 ^ 23 * U) <= val lo /\ val hi <= 2 ^ 23 * U).

(** The bin a row is counted in. *)
Definition binOf (lo hi stp : number) (nbins : nat) (r : Row) : option nat :=
  array_index (binIndex lo hi stp nbins (ratio r)).

(** How many of the rows are counted in bin [i]. *)
Definition tally (lo hi stp : number) (nbins : nat) (rs : list Row) (i : nat) : nat :=
  length (filter (fun r => match binOf lo hi stp nbins r with
                           | Some j => (j =? i)%nat
                           | None => false
                           end) rs).

(** What a bin is, apart from its count. *)
Definition layout (b : Bin) : jsstring * number * number :=
  (rangeLabel b, lowerBound b, upperBound b).

(** One more in position [i]. *)
Fixpoint incr (i : nat) (cs : list nat) : list nat :=
  match cs, i with
  | [], _ => []
  | c :: cs', O => S c :: cs'
  | c :: cs', S i' => c :: incr i' cs'
  end.

(** A bin width of ordinary size: a double between 1/32 and 2^23. *)
Definition ordinaryStep (stp : number) : Prop :=
  exists t, stp = Fin false t /\ 2 ^ 1069 <= t <= 2 ^ 23 * U.

(** What may follow a numeral without being read as part of it. *)
Definition stops (rest : jsstring) : Prop :=
  match rest with
  | [] => True
  | c :: _ => is_digit c = false /\ c <> c_dot /\ c <> 101%N /\ c <> 69%N
  end.

(** The unit tokens of the source domain. *)
Inductive unit_token : Set := NoUnit | Wan | BaiWan | Yi.

Definition unitToken (u : unit_token) : jsstring :=
  match u with
  | NoUnit => []
  | Wan => lit "萬"
  | BaiWan => lit "百萬"
  | Yi => lit "億"
  end.

Definition unitFactor (u : unit_token) : number :=
  match u with
  | NoUnit => of_Z 1
  | Wan => decimal false 1 4
  | BaiWan => decimal false 1 6
  | Yi => decimal false 1 8
  end.

(** What [coerceNumber] works on: [String(v).replace(/,/g, '').trim()]. *)
Definition cleaned (s : jsstring) : jsstring := trim (removeAll (N.eqb c_comma) s).

(** What [num] converts: [String(v).replace(/[\,\s%]/g,"")]. *)
Definition stripped (s : jsstring) : jsstring :=
  removeAll (fun c => (c =? c_comma)%N || is_space c || (c =? c_percent)%N) s.

(** The share of a running sum [a] in a total [t], in units. *)
Definition share_units (a t : Z) : Z :=
  round_mag
    (fixed_units 2 (round_mag (round_mag (a * U) t * (100 * U)) U) * U) 100.

(** ** Aggregators: revenue share by agent, top merchants, KPI *)

(** [(a, b) => b.value - a.value] is positive. *)
Definition byValueDesc (a b : jsstring * number) : bool :=
  lt zero (sub (snd b) (snd a)).

(** [useRevenueShareByAgent]: the (name, value) pairs. *)
Definition useRevenueShareByAgent (rows : list Row) : list (jsstring * number) :=
  sortBy byValueDesc (groupSum agent revenueAmount rows).

(** ToIntegerOrInfinity: NaN is 0, a finite number is truncated. *)
Inductive integerOrInfinity : Set :=
| MinusInfinity
| Integer (z : Z)
| PlusInfinity.

Definition ToIntegerOrInfinity (x : number) : integerOrInfinity :=
  match x with
  | NaN => Integer 0
  | Inf s => if s then MinusInfinity else PlusInfinity
  | Fin s m => Integer (signed s (m / U))
  end.

(** A relative index of [slice], clamped to the array: a negative one
    counts from the end. *)
Definition relativeIndex (len : nat) (i : integerOrInfinity) : nat :=
  match i with
  | MinusInfinity => 0%nat
  | PlusInfinity => len
  | Integer r =>
    if r <? 0 then Z.to_nat (Z.max (Z.of_nat len + r) 0)
    else Nat.min (Z.to_nat r) len
  end.

(** [l.slice(start, end)]; [l.slice(start)] when [end] is absent. *)
Definition slice {A} (l : list A) (start : number) (end_ : option number)
  : list A :=
  let len := length l in
  let k := relativeIndex len (ToIntegerOrInfinity start) in
  let final :=
    match end_ with
    | None => len
    | Some e => relativeIndex len (ToIntegerOrInfinity e)
    end in
  firstn (final - k) (skipn k l).

(** [useTopOpenByMerchant]: the [n] largest merchants, smallest first. *)
Definition useTopOpenByMerchant (rows : list Row) (n : number)
  : list (jsstring * number) :=
  rev (slice (sortBy byOpenDesc (groupSum merchant openAmount rows))
             zero (Some n)).

(** The KPI block: [filtered.reduce((s,r)=>s+r.f,0)] for the two amounts,
    and the mean ratio, 0 for no rows. *)
Record Kpi : Type := mkKpi {
  kpiOpen : number;
  kpiRev : number;
  kpiRatio : number
}.

Definition reduceSum (f : Row -> number) (rows : list Row) : number :=
  fold_left (fun s r => add s (f r)) rows zero.

Definition kpi (filtered : list Row) : Kpi :=
  mkKpi (reduceSum openAmount filtered)
        (reduceSum revenueAmount filtered)
        (match filtered with
         | [] => zero
         | _ => div (reduceSum ratio filtered) (of_nat (length filtered))
         end).

(** [share.reduce((s, d) => s + Number(d.value || 0), 0)]: the total the
    pie's percentages are taken of. *)
Definition shareTotal (share : list (jsstring * number)) : number :=
  fold_left (fun s d => add s (if truthy (snd d) then snd d else zero))
            share zero.

(** ** Sortable table *)

Inductive SortKey : Set :=
| KMonth | KAgent | KMerchant | KOpen | KRevenue | KRatio.

Inductive SortDir : Set := Asc | Desc.

Record Sorter : Type := mkSorter { sortKey : SortKey; sortDir : SortDir }.

Definition SortKey_eqb (a b : SortKey) : bool :=
  match a, b with
  | KMonth, KMonth | KAgent, KAgent | KMerchant, KMerchant
  | KOpen, KOpen | KRevenue, KRevenue | KRatio, KRatio => true
  | _, _ => false
  end.

(** The sorter the table starts with: revenue, largest first. *)
Definition defaultSorter : Sorter := mkSorter KRevenue Desc.

(** [toggleSort]: the same key flips the direction, another key starts
    descending.  (The sorter state is never null.) *)
Definition toggleSort (prev : Sorter) (key : SortKey) : Sorter :=
  if SortKey_eqb (sortKey prev) key
  then mkSorter key (match sortDir prev with Asc => Desc | Desc => Asc end)
  else mkSorter key Desc.

(** [getSortValue].  The amounts and the ratio of a [Row] are numbers, so
    [coerceNumber] returns them as they are and the quotient that stands
    in for a ratio that is not a number is never taken. *)
Definition getSortValue (row : Row) (key : SortKey) : value :=
  match key with
  | KMonth => match month row with Some m => VStr m | None => VStr [] end
  | KAgent => VStr (agent row)
  | KMerchant => VStr (merchant row)
  | KOpen => VNum (coerceNumber (VNum (openAmount row)))
  | KRevenue => VNum (coerceNumber (VNum (revenueAmount row)))
  | KRatio => VNum (ratio row)
  end.

(** ToNumber on the values of a record. *)
Definition ToNumber (v : value) : number :=
  match v with
  | VUndefined => NaN
  | VNull => zero
  | VBool b => if b then of_Z 1 else zero
  | VNum n => n
  | VStr s => Number_of_string s
  end.

(** [a < b] on values: two strings compare by code units, anything else
    as numbers. *)
Definition value_lt (a b : value) : bool :=
  match a, b with
  | VStr s, VStr t => str_ltb s t
  | _, _ => lt (ToNumber a) (ToNumber b)
  end.

(** The comparator of [sortedRows], as its sign. *)
Definition sortCompare (s : Sorter) (a b : Row) : Z :=
  let av := getSortValue a (sortKey s) in
  let bv := getSortValue b (sortKey s) in
  if nullish av && nullish bv then 0
  else if nullish av then 1
  else if nullish bv then -1
  else if value_lt bv av then match sortDir s with Asc => 1 | Desc => -1 end
  else if value_lt av bv then match sortDir s with Asc => -1 | Desc => 1 end
  else 0.

Definition sortedRows (filtered : list Row) (s : Sorter) : list Row :=
  sortBy (fun a b => 0 <? sortCompare s a b) filtered.

(** ** Month selection *)

(** The effect that selects every month when none is selected. *)
Definition selectDefault (allMonths selectedMonths : list jsstring)
  : list jsstring :=
  if negb (length allMonths =? 0)%nat && (length selectedMonths =? 0)%nat
  then allMonths else selectedMonths.

Definition pickAll (allMonths : list jsstring) : list jsstring := allMonths.
Definition clearAll : list jsstring := [].

(** [allMonths.slice(-n)]: the last [n] months. *)
Definition quickPick (allMonths : list jsstring) (n : number) : list jsstring :=
  slice allMonths (neg n) None.

(** [Array.prototype.sort()] on strings, without a comparator. *)
Definition sortStrings (l : list jsstring) : list jsstring :=
  sortBy (fun a b => str_ltb b a) l.

(** A Ctrl-click on the chip of month [m]:
    [prev.includes(m) ? prev.filter(x => x !== m) : [...prev, m].sort()]. *)
Definition toggleMonth (prev : list jsstring) (m : jsstring) : list jsstring :=
  if existsb (str_eqb m) prev
  then filter (fun x => negb (str_eqb x m)) prev
  else sortStrings (prev ++ [m]).

(** A plain click: [setSelectedMonths([m])]. *)
Definition pickOnly (m : jsstring) : list jsstring := [m].

(** [rows.map(r=>r.月份).filter(Boolean)] as a set: the periods the
    comparator offers. *)
Definition monthSet (rows : list Row) : list jsstring :=
  Set_of (flat_map (fun r => match month r with
                             | Some ((_ :: _) as m) => [m]
                             | _ => []
                             end) rows).

(** The select menus. *)
Definition agents (rows : list Row) : list jsstring := Set_of (map agent rows).

Definition merchants (rows : list Row) (agentFilter : jsstring) : list jsstring :=
  let base := if str_eqb agentFilter (lit "ALL") then rows
              else filter (fun r => str_eqb (agent r) agentFilter) rows in
  Set_of (map merchant base).

(** The rows an upload contributes: every file parsed with the batch
    month of the state, the missing months back-filled. *)
Definition uploaded (thisYear : Z) (st : AppState) (files : list File) : list Row :=
  merged thisYear (batchMonth st) (map (parseOne thisYear (batchMonth st)) files).

(** The months of a list of rows, in the order of their first row. *)
Definition monthsOf (rs : list Row) : list jsstring :=
  Set_of (flat_map (fun r => match month r with
                             | Some m => [m]
                             | None => []
                             end) rs).

(** The [d] low decimal digits of [k], most significant first. *)
Fixpoint decimalOf (d : nat) (k : Z) : jsstring :=
  match d with
  | O => []
  | S d' => decimalOf d' (k / 10) ++ [digit_char (k mod 10)]
  end.

(** A month in canonical form: 20, two digits, a hyphen, two digits. *)
Definition canonicalMonth (m : jsstring) : Prop :=
  exists d1 d2 a b,
    m = [50; 48; d1; d2; 45; a; b]%N
    /\ is_digit d1 = true /\ is_digit d2 = true
    /\ is_digit a = true /\ is_digit b = true.

(** The row is of one of the selected months. *)
Definition monthIn (sel : list jsstring) (r : Row) : bool :=
  existsb (str_eqb (normMonth (month r))) (Set_of sel).

(** The criteria with the month selection dropped. *)
Definition anyMonth (c : Criteria) : Criteria :=
  mkCriteria [] (agentFilter c) (merchantFilter c) (excludeAgent c) (q c).

(** The criteria that keep every row. *)
Definition noCriteria : Criteria := mkCriteria [] (lit "ALL") (lit "ALL") [] [].

(** A selection of months: in strictly ascending order, each a month of
    the data. *)
Definition selection (all sel : list jsstring) : Prop :=
  StronglySorted (fun a b => str_ltb a b = true) sel /\ incl sel all.

(** The stages of [filtered] that follow the month lock: agent, merchant,
    exclusion and search. *)
Definition afterMonths (toLowerCase : jsstring -> jsstring) (c : Criteria)
           (d : list Row) : list Row :=
  let d := if negb (str_eqb (agentFilter c) (lit "ALL"))
           then filter (fun r => str_eqb (agent r) (agentFilter c)) d else d in
  let d := if negb (str_eqb (merchantFilter c) (lit "ALL"))
           then filter (fun r => str_eqb (merchant r) (merchantFilter c)) d else d in
  let d := if negb (length (excludeTokens (excludeAgent c)) =? 0)%nat
           then filter (passExclude (excludeTokens (excludeAgent c))) d else d in
  match trim (q c) with
  | [] => d
  | t =>
    let s := toLowerCase t in
    filter (fun r => includes (toLowerCase (agent r)) s
                     || includes (toLowerCase (merchant r)) s) d
  end.

(** The numbers of a row are as the ingestor leaves them: the two amounts
    finite doubles, the ratio a double that is not NaN. *)
Definition measured (r : Row) : Prop :=
  (is_double (openAmount r) /\ isFinite (openAmount r) = true)
  /\ (is_double (revenueAmount r) /\ isFinite (revenueAmount r) = true)
  /\ (is_double (ratio r) /\ isNaN (ratio r) = false).

(** The first month that the name of a file gives, the empty string when
    none does. *)
Definition nameMonth (thisYear : Z) (files : list File) : jsstring :=
  match flat_map (fun f => match normalizeMonth thisYear (VStr (fileName f)) with
                           | Some m => [m]
                           | None => []
                           end) files with
  | m :: _ => m
  | [] => []
  end.

(** An amount that is a whole number from 0 to 2^53, where every whole
    number is a double. *)
Definition wholeAmount (x : number) : Prop :=
  exists k, 0 <= k <= 2 ^ 53 /\ x = of_Z k.

(** The whole number of a whole amount. *)
Definition wholeOf (x : number) : Z := val x / U.

Definition sumWhole (l : list number) : Z :=
  fold_right (fun x s => wholeOf x + s) 0 l.

(** The exact total of a field over the rows. *)
Definition totalWhole (f : Row -> number) (rows : list Row) : Z :=
  sumWhole (map f rows).

(** [a] comes before [b] in [l]. *)
Definition before {A} (a b : A) (l : list A) : Prop :=
  exists p q r, l = p ++ a :: q ++ b :: r.

(** ** The comparison as text *)

(** A property value of a comparison object: a string or a number. *)
Inductive cell : Type :=
| CellStr (s : jsstring)
| CellNum (n : number).

(** The properties of the object literal [compareRows] pushes, in the
    order they are written; [mA] and [mB] are the two months. *)
Definition comparisonEntries (mA mB : jsstring) (c : ComparisonRow)
  : list (jsstring * cell) :=
  [ (lit "代理商", CellStr (c_agent c));
    (lit "商戶", CellStr (c_merchant c));
    (lit "開分量@" ++ mA, CellNum (openA c));
    (lit "開分量@" ++ mB, CellNum (openB c));
    (lit "Δ開分量", CellNum (deltaOpen c));
    (lit "營業額@" ++ mA, CellNum (revenueA c));
    (lit "營業額@" ++ mB, CellNum (revenueB c));
    (lit "Δ營業額", CellNum (deltaRevenue c));
    (lit "比率@" ++ mA, CellNum (ratioA c));
    (lit "比率@" ++ mB, CellNum (ratioB c));
    (lit "Δ比率", CellNum (deltaRatio c)) ].

(** The object: a property written twice keeps its first place and its
    last value. *)
Definition comparisonObject (mA mB : jsstring) (c : ComparisonRow)
  : list (jsstring * cell) :=
  fold_left (fun o kv => Map_set (fst kv) (snd kv) o)
            (comparisonEntries mA mB c) [].

(** [l.join(sep)]. *)
Fixpoint join (sep : jsstring) (l : list jsstring) : jsstring :=
  match l with
  | [] => []
  | x :: l' =>
    match l' with
    | [] => x
    | _ => x ++ sep ++ join sep l'
    end
  end.

Definition c_tab : N := 9.
Definition c_newline : N := 10.

(** One cell of the text: [String(v)] for a number, otherwise
    [(v ?? "").toString().replace(/\t/g, " ")]. *)
Definition cellText (v : option cell) : jsstring :=
  match v with
  | Some (CellNum n) => numberToString n
  | Some (CellStr s) => map (fun ch => if (ch =? c_tab)%N then 32%N else ch) s
  | None => []
  end.

(** [Object.keys(compareRows[0])]. *)
Definition tsvColumns (mA mB : jsstring) (c0 : ComparisonRow) : list jsstring :=
  Map_keys (comparisonObject mA mB c0).

Definition tsvLine (mA mB : jsstring) (cols : list jsstring) (r : ComparisonRow)
  : jsstring :=
  join [c_tab] (map (fun c => cellText (Map_get c (comparisonObject mA mB r))) cols).

(** [copyTSV]: the text written to the clipboard, none when there is no
    comparison row. *)
Definition copyTSV (compareRows : list ComparisonRow) (mA mB : jsstring)
  : option jsstring :=
  match compareRows with
  | [] => None
  | c0 :: _ =>
    let cols := tsvColumns mA mB c0 in
    Some (join [c_newline]
               (join [c_tab] cols :: map (tsvLine mA mB cols) compareRows))
  end.

(** The number of tabs of a line. *)
Definition tabs (s : jsstring) : nat := count_occ N.eq_dec s c_tab.

(** The numbers of a comparison row are as the comparator computes them
    from measured rows: their magnitudes are not negative. *)
Definition printable (c : ComparisonRow) : Prop :=
  (wfn (openA c) /\ wfn (openB c) /\ wfn (deltaOpen c))
  /\ (wfn (revenueA c) /\ wfn (revenueB c) /\ wfn (deltaRevenue c))
  /\ (wfn (ratioA c) /\ wfn (ratioB c) /\ wfn (deltaRatio c)).

(** The code units a printed number is made of: digits, the point, the
    signs and letters, all from the plus sign upwards. *)
Definition numberChar (c : N) : Prop := (43 <= c)%N.

(* ===================================================================== *)
(** The row that a period holds under a join key: the last row of the
    period with that key, none when no row of the period has the key. *)
Definition lastWithKey (kj : KeyJoin) (k : jsstring) (part : list Row)
  : option Row :=
  find (fun r => str_eqb (keyFn kj r) k) (rev part).

(** The join key that the two labels of a ComparisonRow spell. *)
Definition labelKey (kj : KeyJoin) (c : ComparisonRow) : jsstring :=
  match kj with
  | MerchantOnly => c_merchant c
  | AgentAndMerchant => c_agent c ++ lit "__" ++ c_merchant c
  end.

(** [c] is the outer-join row of the key [k] for the periods [A] and [B]:
    each side holds the open amount, the revenue and the ratio of the
    period's row under [k], zeros when the period has none; the labels are
    those of the row of [A], of the row of [B] when [A] has none; every
    delta is the side of [B] minus the side of [A]. *)
Definition outerJoinRow (kj : KeyJoin) (A B : list Row) (k : jsstring)
           (c : ComparisonRow) : Prop :=
  match lastWithKey kj k A with
  | Some a => openA c = openAmount a /\ revenueA c = revenueAmount a
              /\ ratioA c = ratio a
  | None => openA c = zero /\ revenueA c = zero /\ ratioA c = zero
  end
  /\ match lastWithKey kj k B with
     | Some b => openB c = openAmount b /\ revenueB c = revenueAmount b
                 /\ ratioB c = ratio b
     | None => openB c = zero /\ revenueB c = zero /\ ratioB c = zero
     end
  /\ match lastWithKey kj k A, lastWithKey kj k B with
     | Some r, _ | None, Some r =>
       c_agent c = agent r /\ c_merchant c = merchant r
     | None, None => c_agent c = [] /\ c_merchant c = []
     end
  /\ (deltaOpen c = sub (openB c) (openA c)
      /\ deltaRevenue c = sub (revenueB c) (revenueA c)
      /\ deltaRatio c = sub (ratioB c) (ratioA c)).

(** The number of line feeds of a text. *)
Definition lineFeeds (s : jsstring) : nat := count_occ N.eq_dec s c_newline.

(** Neither label of a row holds a line feed. *)
Definition oneLine (r : Row) : Prop :=
  lineFeeds (agent r) = 0%nat /\ lineFeeds (merchant r) = 0%nat.

(** * Part II: properties *)
(* ===================================================================== *)

From Stdlib Require Import Permutation.

(** ** Strings *)

Lemma str_eqb_eq (a b : jsstring) : str_eqb a b = true <-> a = b.
Proof.
  unfold str_eqb. destruct (jsstring_eq_dec a b); split; congruence.
Qed.

Lemma str_eqb_refl (a : jsstring) : str_eqb a a = true.
Proof. now apply str_eqb_eq. Qed.

Lemma str_eqb_neq (a b : jsstring) : str_eqb a b = false <-> a <> b.
Proof.
  unfold str_eqb. destruct (jsstring_eq_dec a b); split; congruence.
Qed.

Lemma existsb_str_eqb (k : jsstring) (s : list jsstring) :
  existsb (str_eqb k) s = true <-> In k s.
Proof.
  rewrite existsb_exists. split.
  - intros (x & Hx & E). apply str_eqb_eq in E. now subst.
  - intros H. exists k. split; [assumption | apply str_eqb_refl].
Qed.

Lemma startsWith_app (s t : jsstring) :
  startsWith s t = true <-> exists post, s = t ++ post.
Proof.
  revert s. induction t as [|b t IH]; intros s; simpl.
  - split; [intros _; now exists s | reflexivity].
  - destruct s as [|a s].
    + split; [discriminate | intros (post & E); discriminate].
    + rewrite andb_true_iff, N.eqb_eq, IH. split.
      * intros (-> & post & ->). now exists post.
      * intros (post & E). injection E as -> ->. split; [reflexivity | now exists post].
Qed.

(** [includes] is the substring relation. *)
Lemma includes_substring (s t : jsstring) :
  includes s t = true <-> exists pre post, s = pre ++ t ++ post.
Proof.
  induction s as [|a s IH]; simpl.
  - rewrite orb_false_r, startsWith_app. split.
    + intros (post & E). exists [], post. exact E.
    + intros (pre & post & E). destruct pre; simpl in E.
      * now exists post.
      * discriminate.
  - rewrite orb_true_iff, IH, startsWith_app. split.
    + intros [(post & E) | (pre & post & E)].
      * exists [], post. exact E.
      * exists (a :: pre), post. simpl. now rewrite E.
    + intros (pre & post & E). destruct pre as [|x pre]; simpl in E.
      * left. now exists post.
      * right. injection E as _ E. now exists pre, post.
Qed.

(** ** Sets, maps and sorting *)

Lemma Set_add_In (k x : jsstring) (s : list jsstring) :
  In x (Set_add k s) <-> x = k \/ In x s.
Proof.
  unfold Set_add. destruct (existsb (str_eqb k) s) eqn:E.
  - apply existsb_str_eqb in E. split; [now right | intros [->|]; assumption].
  - rewrite in_app_iff. simpl. intuition congruence.
Qed.

Lemma Set_add_NoDup (k : jsstring) (s : list jsstring) :
  NoDup s -> NoDup (Set_add k s).
Proof.
  intros H. unfold Set_add. destruct (existsb (str_eqb k) s) eqn:E; [assumption|].
  apply NoDup_app; [assumption | repeat constructor; intros [] |].
  intros x Hx [<-|[]].
  apply existsb_str_eqb in Hx. congruence.
Qed.

Lemma Set_fold_In (l s : list jsstring) (x : jsstring) :
  In x (fold_left (fun s k => Set_add k s) l s) <-> In x s \/ In x l.
Proof.
  revert s. induction l as [|k l IH]; intros s; simpl.
  - intuition.
  - rewrite IH, Set_add_In. intuition congruence.
Qed.

Lemma Set_fold_NoDup (l s : list jsstring) :
  NoDup s -> NoDup (fold_left (fun s k => Set_add k s) l s).
Proof.
  revert s. induction l as [|k l IH]; intros s H; simpl; [assumption|].
  apply IH, Set_add_NoDup, H.
Qed.

Lemma Set_of_In (l : list jsstring) (x : jsstring) : In x (Set_of l) <-> In x l.
Proof. unfold Set_of. rewrite Set_fold_In. simpl. intuition. Qed.

Lemma Set_of_NoDup (l : list jsstring) : NoDup (Set_of l).
Proof. apply Set_fold_NoDup. constructor. Qed.

(** A set built from a list has as many elements as the list has distinct
    ones. *)
Lemma Set_of_length (l : list jsstring) :
  length (Set_of l) = length (nodup jsstring_eq_dec l).
Proof.
  apply Permutation_length, NoDup_Permutation.
  - apply Set_of_NoDup.
  - apply NoDup_nodup.
  - intros x. now rewrite Set_of_In, nodup_In.
Qed.

Section MapFacts.
Context {V : Type}.
Implicit Types (m : list (jsstring * V)) (k : jsstring) (v : V).

Lemma Map_get_set_same m k v : Map_get k (Map_set k v m) = Some v.
Proof.
  induction m as [|[k' v'] m IH]; simpl.
  - now rewrite str_eqb_refl.
  - destruct (str_eqb k' k) eqn:E; simpl; rewrite E; [reflexivity | exact IH].
Qed.

Lemma Map_get_set_other m k k' v :
  k' <> k -> Map_get k' (Map_set k v m) = Map_get k' m.
Proof.
  intros Hne. induction m as [|[k0 v0] m IH]; simpl.
  - apply str_eqb_neq in Hne.
    destruct (str_eqb k k') eqn:E; [|reflexivity].
    apply str_eqb_eq in E. apply str_eqb_neq in Hne. congruence.
  - destruct (str_eqb k0 k) eqn:E; simpl.
    + apply str_eqb_eq in E. subst k0.
      destruct (str_eqb k k') eqn:E'; [|reflexivity].
      apply str_eqb_eq in E'. congruence.
    + destruct (str_eqb k0 k'); [reflexivity | exact IH].
Qed.

Lemma Map_keys_set m k v :
  Map_keys (Map_set k v m) =
  if existsb (str_eqb k) (Map_keys m) then Map_keys m else Map_keys m ++ [k].
Proof.
  unfold Map_keys. induction m as [|[k' v'] m IH]; simpl; [reflexivity|].
  destruct (str_eqb k' k) eqn:E; simpl.
  - apply str_eqb_eq in E. subst. now rewrite str_eqb_refl.
  - rewrite IH.
    destruct (str_eqb k k') eqn:E'.
    + apply str_eqb_eq in E'. subst. now rewrite str_eqb_refl in E.
    + simpl. now destruct (existsb (str_eqb k) (map fst m)).
Qed.

Lemma Map_keys_set_Set_add m k v :
  Map_keys (Map_set k v m) = Set_add k (Map_keys m).
Proof. apply Map_keys_set. Qed.

Lemma Map_get_None m k : Map_get k m = None <-> ~ In k (Map_keys m).
Proof.
  unfold Map_keys. induction m as [|[k' v'] m IH]; simpl.
  - intuition.
  - destruct (str_eqb k' k) eqn:E.
    + apply str_eqb_eq in E. split; [discriminate | intuition].
    + apply str_eqb_neq in E. rewrite IH. intuition.
Qed.

(** Two maps with the same keys in the same order and the same lookups
    are the same list. *)
Lemma Map_ext m1 m2 :
  NoDup (Map_keys m1) ->
  Map_keys m1 = Map_keys m2 ->
  (forall k, Map_get k m1 = Map_get k m2) ->
  m1 = m2.
Proof.
  revert m2. induction m1 as [|[k1 v1] m1 IH]; intros [|[k2 v2] m2] Hnd Hk Hg;
    try discriminate; [reflexivity|].
  simpl in Hk. injection Hk as -> Hk.
  inversion Hnd as [|? ? Hnotin Hnd']; subst.
  pose proof (Hg k2) as H2. simpl in H2. rewrite str_eqb_refl in H2.
  injection H2 as ->. f_equal.
  apply IH; [assumption | assumption |].
  intros k. specialize (Hg k). simpl in Hg.
  destruct (str_eqb k2 k) eqn:E; [|exact Hg].
  apply str_eqb_eq in E. subst k.
  assert (H1 : Map_get k2 m1 = None) by (apply Map_get_None; exact Hnotin).
  assert (H3 : Map_get k2 m2 = None) by (apply Map_get_None; rewrite <- Hk; exact Hnotin).
  congruence.
Qed.

Lemma sort_insert_perm (after : V -> V -> bool) (x : V) (l : list V) :
  Permutation (sort_insert after x l) (x :: l).
Proof.
  induction l as [|y l IH]; simpl; [reflexivity|].
  destruct (after x y); [|reflexivity].
  rewrite IH. apply perm_swap.
Qed.

(** Sorting rearranges: nothing is added, dropped or changed. *)
Lemma sortBy_perm (after : V -> V -> bool) (l : list V) :
  Permutation (sortBy after l) l.
Proof.
  induction l as [|x l IH]; simpl; [reflexivity|].
  rewrite sort_insert_perm. now constructor.
Qed.

Lemma sortBy_length (after : V -> V -> bool) (l : list V) :
  length (sortBy after l) = length l.
Proof. apply Permutation_length, sortBy_perm. Qed.

Lemma sortBy_In (after : V -> V -> bool) (l : list V) (x : V) :
  In x (sortBy after l) <-> In x l.
Proof.
  split; apply Permutation_in; [apply sortBy_perm | symmetry; apply sortBy_perm].
Qed.

Lemma sortBy_nil (after : V -> V -> bool) (l : list V) :
  sortBy after l = [] <-> l = [].
Proof.
  split; intros H.
  - apply length_zero_iff_nil. rewrite <- (sortBy_length after), H. reflexivity.
  - now subst.
Qed.

End MapFacts.

(** ** The key map of a period *)

Lemma keyMap_snoc (kj : KeyJoin) (l : list Row) (r : Row) :
  keyMap kj (l ++ [r]) = Map_set (keyFn kj r) r (keyMap kj l).
Proof. unfold keyMap. now rewrite fold_left_app. Qed.

(** The row a key maps to is the last row of the period with that key. *)
Lemma keyMap_last (kj : KeyJoin) (l : list Row) (k : jsstring) :
  Map_get k (keyMap kj l) = find (fun r => str_eqb (keyFn kj r) k) (rev l).
Proof.
  induction l as [|r l IH] using rev_ind; [reflexivity|].
  rewrite keyMap_snoc, rev_app_distr. simpl.
  destruct (str_eqb (keyFn kj r) k) eqn:E.
  - apply str_eqb_eq in E. subst. apply Map_get_set_same.
  - apply str_eqb_neq in E. rewrite Map_get_set_other by congruence. exact IH.
Qed.

Lemma keyMap_keys (kj : KeyJoin) (l : list Row) :
  Map_keys (keyMap kj l) = Set_of (map (keyFn kj) l).
Proof.
  induction l as [|r l IH] using rev_ind; [reflexivity|].
  rewrite keyMap_snoc, Map_keys_set_Set_add, IH, map_app.
  unfold Set_of. now rewrite fold_left_app.
Qed.

Lemma keyMap_keys_In (kj : KeyJoin) (l : list Row) (k : jsstring) :
  In k (Map_keys (keyMap kj l)) <-> In k (map (keyFn kj) l).
Proof. rewrite keyMap_keys. apply Set_of_In. Qed.

Lemma joinKeys_In (kj : KeyJoin) (A B : list Row) (k : jsstring) :
  In k (joinKeys (keyMap kj A) (keyMap kj B)) <->
  In k (map (keyFn kj) A) \/ In k (map (keyFn kj) B).
Proof.
  unfold joinKeys. now rewrite Set_of_In, in_app_iff, !keyMap_keys_In.
Qed.

Lemma joinKeys_length (kj : KeyJoin) (A B : list Row) :
  length (joinKeys (keyMap kj A) (keyMap kj B)) =
  length (nodup jsstring_eq_dec (map (keyFn kj) A ++ map (keyFn kj) B)).
Proof.
  apply Permutation_length, NoDup_Permutation.
  - apply Set_of_NoDup.
  - apply NoDup_nodup.
  - intros k. rewrite nodup_In, in_app_iff. apply joinKeys_In.
Qed.

Lemma find_none_iff {A} (p : A -> bool) (l : list A) :
  find p l = None <-> forall x, In x l -> p x = false.
Proof.
  split; [apply find_none|].
  induction l as [|x l IH]; intros H; simpl; [reflexivity|].
  rewrite (H x (or_introl eq_refl)). apply IH. intros y Hy. apply H. now right.
Qed.

Lemma find_app {A} (p : A -> bool) (l1 l2 : list A) :
  find p (l1 ++ l2) = match find p l1 with Some x => Some x | None => find p l2 end.
Proof.
  induction l1 as [|x l1 IH]; simpl; [reflexivity|].
  destruct (p x); [reflexivity | exact IH].
Qed.

(** Going through a period twice leaves its key map as it was. *)
Lemma keyMap_twice (kj : KeyJoin) (l : list Row) :
  keyMap kj (l ++ l) = keyMap kj l.
Proof.
  apply Map_ext.
  - rewrite keyMap_keys. apply Set_of_NoDup.
  - rewrite !keyMap_keys, map_app. unfold Set_of. rewrite fold_left_app.
    fold (Set_of (map (keyFn kj) l)).
    assert (H : forall l' s, (forall x, In x l' -> In x s) ->
                fold_left (fun s k => Set_add k s) l' s = s).
    { induction l' as [|k l' IH]; intros s Hs; simpl; [reflexivity|].
      assert (E : Set_add k s = s).
      { unfold Set_add.
        destruct (existsb (str_eqb k) s) eqn:E; [reflexivity|].
        assert (In k s) by (apply Hs; now left).
        apply existsb_str_eqb in H. congruence. }
      rewrite E. apply IH. intros x Hx. apply Hs. now right. }
    apply H. intros x Hx. now apply Set_of_In.
  - intros k. rewrite !keyMap_last, rev_app_distr, find_app.
    now destruct (find _ (rev l)).
Qed.

(** ** Period comparator *)

Lemma compareRows_selected (base : list Row) (mA mB : jsstring) (kj : KeyJoin) :
  mA <> [] -> mB <> [] ->
  compareRows base (Some mA) (Some mB) kj =
  sortBy byDeltaRevenue
    (map (compareKey (keyMap kj (filter (inMonth mA) base))
                     (keyMap kj (filter (inMonth mB) base)))
         (joinKeys (keyMap kj (filter (inMonth mA) base))
                   (keyMap kj (filter (inMonth mB) base)))).
Proof.
  intros HA HB. destruct mA; [congruence|]. destruct mB; [congruence|]. reflexivity.
Qed.

Lemma compareRows_notSelected (base : list Row) (mA mB : option jsstring) (kj : KeyJoin) :
  notSelected mA \/ notSelected mB -> compareRows base mA mB kj = [].
Proof.
  unfold notSelected, compareRows.
  intros [[-> | ->] | [-> | ->]]; try reflexivity.
  - destruct mA as [[|]|]; reflexivity.
  - destruct mA as [[|]|]; reflexivity.
Qed.

Lemma joinKeys_nil (kj : KeyJoin) (A B : list Row) :
  joinKeys (keyMap kj A) (keyMap kj B) = [] <-> A = [] /\ B = [].
Proof.
  split.
  - intros H.
    assert (HA : forall k, ~ In k (map (keyFn kj) A)).
    { intros k Hk. assert (In k (joinKeys (keyMap kj A) (keyMap kj B)))
        by (apply joinKeys_In; now left). rewrite H in H0. exact H0. }
    assert (HB : forall k, ~ In k (map (keyFn kj) B)).
    { intros k Hk. assert (In k (joinKeys (keyMap kj A) (keyMap kj B)))
        by (apply joinKeys_In; now right). rewrite H in H0. exact H0. }
    split.
    + destruct A as [|r A]; [reflexivity|]. exfalso. apply (HA (keyFn kj r)). now left.
    + destruct B as [|r B]; [reflexivity|]. exfalso. apply (HB (keyFn kj r)). now left.
  - intros [-> ->]. reflexivity.
Qed.

(** ** The outer join of the comparator *)

Lemma lastWithKey_keyMap (kj : KeyJoin) (k : jsstring) (l : list Row) :
  Map_get k (keyMap kj l) = lastWithKey kj k l.
Proof. apply keyMap_last. Qed.

(** The row a period holds under a key is the last of its rows with the
    key. *)
Lemma lastWithKey_Some (kj : KeyJoin) (k : jsstring) (l : list Row) (r : Row) :
  lastWithKey kj k l = Some r <->
  exists l1 l2, l = l1 ++ r :: l2 /\ keyFn kj r = k
                /\ forall r', In r' l2 -> keyFn kj r' <> k.
Proof.
  unfold lastWithKey. induction l as [|x l IH] using rev_ind.
  - split; [discriminate|]. intros (l1 & l2 & E & _). now destruct l1.
  - rewrite rev_app_distr. cbn [rev app find].
    destruct (str_eqb (keyFn kj x) k) eqn:Ex.
    + apply str_eqb_eq in Ex. split.
      * intros [= <-]. exists l, []. split; [reflexivity|]. split; [exact Ex|].
        intros r' [].
      * intros (l1 & l2 & E & Hk & Hl2).
        destruct l2 as [|y l2] using rev_ind.
        -- apply app_inj_tail in E. destruct E as [_ ->]. reflexivity.
        -- exfalso. clear IHl2.
           change (l ++ [x] = l1 ++ (r :: l2) ++ [y]) in E.
           rewrite app_assoc in E. apply app_inj_tail in E. destruct E as [_ ->].
           apply (Hl2 y); [apply in_or_app; right; now left | exact Ex].
    + apply str_eqb_neq in Ex. rewrite IH. split.
      * intros (l1 & l2 & -> & Hk & Hl2). exists l1, (l2 ++ [x]).
        split; [now rewrite <- app_assoc|]. split; [exact Hk|].
        intros r' Hr'. apply in_app_or in Hr'. destruct Hr' as [Hr' | [<- | []]].
        -- now apply Hl2.
        -- exact Ex.
      * intros (l1 & l2 & E & Hk & Hl2).
        destruct l2 as [|y l2] using rev_ind.
        -- apply app_inj_tail in E. destruct E as [_ ->]. congruence.
        -- clear IHl2.
           change (l ++ [x] = l1 ++ (r :: l2) ++ [y]) in E.
           rewrite app_assoc in E. apply app_inj_tail in E. destruct E as [-> ->].
           exists l1, l2. split; [reflexivity|]. split; [exact Hk|].
           intros r' Hr'. apply Hl2. apply in_or_app. now left.
Qed.

Lemma lastWithKey_None (kj : KeyJoin) (k : jsstring) (l : list Row) :
  lastWithKey kj k l = None <-> ~ In k (map (keyFn kj) l).
Proof.
  rewrite <- lastWithKey_keyMap, Map_get_None. now rewrite keyMap_keys_In.
Qed.

Lemma lastWithKey_key (kj : KeyJoin) (k : jsstring) (l : list Row) (r : Row) :
  lastWithKey kj k l = Some r -> In r l /\ keyFn kj r = k.
Proof.
  intros H. apply lastWithKey_Some in H. destruct H as (l1 & l2 & -> & Hk & _).
  split; [apply in_or_app; right; now left | exact Hk].
Qed.

(** The row that the comparator builds for a key is the outer-join row of
    the key. *)
Lemma compareKey_joins (kj : KeyJoin) (A B : list Row) (k : jsstring) :
  outerJoinRow kj A B k (compareKey (keyMap kj A) (keyMap kj B) k).
Proof.
  unfold outerJoinRow, compareKey. cbn.
  rewrite !lastWithKey_keyMap.
  destruct (lastWithKey kj k A), (lastWithKey kj k B); cbn [field];
    repeat split; reflexivity.
Qed.

(** The labels of the outer-join row of a key spell the key, when a period
    has it. *)
Lemma outerJoinRow_labelKey (kj : KeyJoin) (A B : list Row) (k : jsstring)
      (c : ComparisonRow) :
  In k (map (keyFn kj) A) \/ In k (map (keyFn kj) B) ->
  outerJoinRow kj A B k c -> labelKey kj c = k.
Proof.
  intros Hk (_ & _ & HL & _).
  assert (G : forall r, keyFn kj r = k -> c_agent c = agent r ->
                        c_merchant c = merchant r -> labelKey kj c = k).
  { intros r <- Ea Em. unfold labelKey, keyFn. destruct kj; congruence. }
  destruct (lastWithKey kj k A) as [a|] eqn:Ea.
  - destruct HL. apply lastWithKey_key in Ea. apply (G a); tauto.
  - destruct (lastWithKey kj k B) as [b|] eqn:Eb.
    + destruct HL. apply lastWithKey_key in Eb. apply (G b); tauto.
    + apply lastWithKey_None in Ea, Eb. tauto.
Qed.

(** The comparison of two selected periods: one outer-join row for every
    key of either period, and nothing else. *)
Lemma compareRows_outer_join (base : list Row) (mA mB : jsstring) (kj : KeyJoin) :
  mA <> [] -> mB <> [] ->
  exists (keys : list jsstring) (rowOf : jsstring -> ComparisonRow),
    NoDup keys
    /\ (forall k, In k keys <->
                  In k (map (keyFn kj) (filter (inMonth mA) base))
                  \/ In k (map (keyFn kj) (filter (inMonth mB) base)))
    /\ Permutation (compareRows base (Some mA) (Some mB) kj) (map rowOf keys)
    /\ (forall k, In k keys ->
          outerJoinRow kj (filter (inMonth mA) base) (filter (inMonth mB) base)
                       k (rowOf k)
          /\ labelKey kj (rowOf k) = k).
Proof.
  intros HA HB.
  set (A := filter (inMonth mA) base). set (B := filter (inMonth mB) base).
  exists (joinKeys (keyMap kj A) (keyMap kj B)),
         (compareKey (keyMap kj A) (keyMap kj B)).
  split; [apply Set_of_NoDup|]. split; [apply joinKeys_In|]. split.
  - rewrite compareRows_selected by assumption. apply sortBy_perm.
  - intros k Hk. apply joinKeys_In in Hk. split; [apply compareKey_joins|].
    apply (outerJoinRow_labelKey kj A B k _ Hk), compareKey_joins.
Qed.

(** In a list of rows, one for each of distinct keys, the row of a key is
    the only one whose labels spell it. *)
Lemma keyed_row_unique (kj : KeyJoin) (keys : list jsstring)
      (rowOf : jsstring -> ComparisonRow) (out : list ComparisonRow)
      (k : jsstring) :
  Permutation out (map rowOf keys) ->
  (forall k', In k' keys -> labelKey kj (rowOf k') = k') ->
  In k keys ->
  In (rowOf k) out
  /\ forall c, In c out -> labelKey kj c = k -> c = rowOf k.
Proof.
  intros P HL Hk. split.
  - apply (Permutation_in _ (Permutation_sym P)). now apply in_map.
  - intros c Hc Ec. apply (Permutation_in _ P) in Hc.
    apply in_map_iff in Hc. destruct Hc as (k' & <- & Hk').
    rewrite (HL k' Hk') in Ec. now subst k'.
Qed.

(** C1, as the specification states it, fails: on the demo dataset the
    period 2025-09 has no rows, yet comparing 2025-07 with it gives rows
    (the outer join keeps the keys of the other period). *)
Lemma C1_unresolved_period_counterexample :
  ~ (forall (base : list Row) (mA mB : option jsstring) (kj : KeyJoin),
        unresolved mA base \/ unresolved mB base ->
        compareRows base mA mB kj = []).
Proof.
  intros H.
  specialize (H seed (Some (lit "2025-07")) (Some (lit "2025-09")) AgentAndMerchant).
  assert (U9 : unresolved (Some (lit "2025-09")) seed) by (right; reflexivity).
  specialize (H (or_intror U9)).
  assert (L : length (compareRows seed (Some (lit "2025-07")) (Some (lit "2025-09"))
                                  AgentAndMerchant) = 2%nat)
    by (vm_compute; reflexivity).
  rewrite H in L. discriminate L.
Qed.

(** C1 (amended): the comparator is given the rows that pass the agent
    exclusion.  It returns the empty list exactly when a period is not
    selected or when neither selected period has a row among them.  When
    only one of the two selected periods has none, the result is the outer
    join with the other period: one ComparisonRow for every key of that
    period, which carries the labels and the amounts of the period's row
    under the key, and zeros on the empty side. *)
Theorem C1_compare_empty_iff :
  forall (rows : list Row) (tokens : list jsstring) (mA mB : option jsstring)
         (kj : KeyJoin),
    let base := baseRowsForCompare rows tokens in
    let out := compareRows base mA mB kj in
    (out = [] <->
     (notSelected mA \/ notSelected mB \/
      (periodRows mA base = [] /\ periodRows mB base = [])))
    /\ (~ notSelected mA -> ~ notSelected mB -> periodRows mB base = [] ->
        exists (keys : list jsstring) (rowOf : jsstring -> ComparisonRow),
          NoDup keys
          /\ (forall k, In k keys <-> In k (map (keyFn kj) (periodRows mA base)))
          /\ Permutation out (map rowOf keys)
          /\ forall k, In k keys ->
               (exists r, lastWithKey kj k (periodRows mA base) = Some r
                          /\ c_agent (rowOf k) = agent r
                          /\ c_merchant (rowOf k) = merchant r
                          /\ openA (rowOf k) = openAmount r
                          /\ revenueA (rowOf k) = revenueAmount r
                          /\ ratioA (rowOf k) = ratio r)
               /\ openB (rowOf k) = zero /\ revenueB (rowOf k) = zero
               /\ ratioB (rowOf k) = zero)
    /\ (~ notSelected mA -> ~ notSelected mB -> periodRows mA base = [] ->
        exists (keys : list jsstring) (rowOf : jsstring -> ComparisonRow),
          NoDup keys
          /\ (forall k, In k keys <-> In k (map (keyFn kj) (periodRows mB base)))
          /\ Permutation out (map rowOf keys)
          /\ forall k, In k keys ->
               (exists r, lastWithKey kj k (periodRows mB base) = Some r
                          /\ c_agent (rowOf k) = agent r
                          /\ c_merchant (rowOf k) = merchant r
                          /\ openB (rowOf k) = openAmount r
                          /\ revenueB (rowOf k) = revenueAmount r
                          /\ ratioB (rowOf k) = ratio r)
               /\ openA (rowOf k) = zero /\ revenueA (rowOf k) = zero
               /\ ratioA (rowOf k) = zero).
Proof.
  intros rows tokens mA mB kj base out. subst out. generalize base. clear.
  intros base. split; [|split].
  - split.
    + destruct mA as [mA|]; [|intros _; left; now left].
      destruct mB as [mB|]; [|intros _; right; left; now left].
      destruct mA as [|a mA]; [intros _; left; now right|].
      destruct mB as [|b mB]; [intros _; right; left; now right|].
      rewrite compareRows_selected by discriminate.
      rewrite sortBy_nil. intros H. apply map_eq_nil in H.
      apply joinKeys_nil in H. right. right. exact H.
    + intros [H | [H | [HA HB]]].
      * apply compareRows_notSelected. now left.
      * apply compareRows_notSelected. now right.
      * destruct mA as [[|a mA]|]; try reflexivity.
        destruct mB as [[|b mB]|]; try reflexivity.
        rewrite compareRows_selected by discriminate.
        simpl in HA, HB. now rewrite HA, HB.
  - intros NA NB HB.
    destruct mA as [mA|]; [|exfalso; apply NA; now left].
    destruct mB as [mB|]; [|exfalso; apply NB; now left].
    assert (HmA : mA <> []) by (intros ->; apply NA; now right).
    assert (HmB : mB <> []) by (intros ->; apply NB; now right).
    cbn [periodRows] in HB |- *.
    destruct (compareRows_outer_join base mA mB kj HmA HmB)
      as (keys & rowOf & ND & Hk & P & HR).
    exists keys, rowOf. split; [exact ND|]. rewrite HB in Hk, HR. split.
    { intros k. rewrite Hk. cbn [map In]. tauto. }
    split; [exact P|].
    intros k Hin. destruct (HR k Hin) as ((JA & JB & JL & _) & _).
    apply Hk in Hin. destruct Hin as [Hin | []].
    destruct (lastWithKey kj k (filter (inMonth mA) base)) as [r|] eqn:Er.
    + split; [|exact JB]. exists r. tauto.
    + apply lastWithKey_None in Er. tauto.
  - intros NA NB HA.
    destruct mA as [mA|]; [|exfalso; apply NA; now left].
    destruct mB as [mB|]; [|exfalso; apply NB; now left].
    assert (HmA : mA <> []) by (intros ->; apply NA; now right).
    assert (HmB : mB <> []) by (intros ->; apply NB; now right).
    cbn [periodRows] in HA |- *.
    destruct (compareRows_outer_join base mA mB kj HmA HmB)
      as (keys & rowOf & ND & Hk & P & HR).
    exists keys, rowOf. split; [exact ND|]. rewrite HA in Hk, HR. split.
    { intros k. rewrite Hk. cbn [map In]. tauto. }
    split; [exact P|].
    intros k Hin. destruct (HR k Hin) as ((JA & JB & JL & _) & _).
    apply Hk in Hin. destruct Hin as [[] | Hin].
    change (lastWithKey kj k []) with (@None Row) in JL.
    destruct (lastWithKey kj k (filter (inMonth mB) base)) as [r|] eqn:Er.
    + split; [|exact JA]. exists r. tauto.
    + apply lastWithKey_None in Er. tauto.
Qed.

(** C4: for selected periods the comparator emits exactly one row per join
    key of either period, so that the result is as long as the union of
    the two key sets; the row of a key is its outer-join row: each side
    holds the amounts of the period's row under the key, zeros when the
    period lacks the key, the labels are those of a side that has the key,
    and every delta, the revenue delta among them, is B minus A. *)
Theorem C4_outer_join_complete :
  forall (base : list Row) (mA mB : jsstring) (kj : KeyJoin),
    mA <> [] -> mB <> [] ->
    let A := filter (inMonth mA) base in
    let B := filter (inMonth mB) base in
    let out := compareRows base (Some mA) (Some mB) kj in
    length out
    = length (nodup jsstring_eq_dec (map (keyFn kj) A ++ map (keyFn kj) B))
    /\ (exists (keys : list jsstring) (rowOf : jsstring -> ComparisonRow),
           NoDup keys
           /\ (forall k, In k keys <->
                         In k (map (keyFn kj) A) \/ In k (map (keyFn kj) B))
           /\ Permutation out (map rowOf keys)
           /\ (forall k, In k keys ->
                 outerJoinRow kj A B k (rowOf k) /\ labelKey kj (rowOf k) = k))
    /\ (forall c, In c out ->
          deltaRevenue c = sub (revenueB c) (revenueA c)
          /\ deltaOpen c = sub (openB c) (openA c)
          /\ deltaRatio c = sub (ratioB c) (ratioA c))
    /\ (forall k c, In c out -> labelKey kj c = k ->
          (~ In k (map (keyFn kj) A) ->
           revenueA c = zero /\ openA c = zero /\ ratioA c = zero)
          /\ (~ In k (map (keyFn kj) B) ->
              revenueB c = zero /\ openB c = zero /\ ratioB c = zero)).
Proof.
  intros base mA mB kj HA HB A B out.
  destruct (compareRows_outer_join base mA mB kj HA HB)
    as (keys & rowOf & ND & Hk & P & HR).
  fold A B in Hk, HR. fold out in P.
  assert (Hrow : forall c, In c out -> exists k, In k keys /\ c = rowOf k).
  { intros c Hc. apply (Permutation_in _ P) in Hc. apply in_map_iff in Hc.
    destruct Hc as (k & <- & Hin). now exists k. }
  split; [|split; [|split]].
  - rewrite (Permutation_length P), length_map.
    apply Permutation_length, NoDup_Permutation;
      [exact ND | apply NoDup_nodup |].
    intros k. now rewrite nodup_In, in_app_iff.
  - exists keys, rowOf. auto.
  - intros c Hc. destruct (Hrow c Hc) as (k & Hin & ->).
    destruct (HR k Hin) as ((_ & _ & _ & D1 & D2 & D3) & _). auto.
  - intros k c Hc Ek. destruct (Hrow c Hc) as (k' & Hin & ->).
    destruct (HR k' Hin) as ((JA & JB & _) & EL).
    rewrite EL in Ek. subst k'. split; intros Hno.
    + apply lastWithKey_None in Hno. rewrite Hno in JA. tauto.
    + apply lastWithKey_None in Hno. rewrite Hno in JB. tauto.
Qed.

(** C10: in a period, the last row with a join key supplies the open
    amount, the revenue and the ratio of that key's side: the comparison
    holds exactly one row whose labels spell the key, and its side is this
    last row's values, whatever rows with the key come before it (the map
    overwrites, nothing is summed); and a dataset in which every row occurs
    twice compares as the dataset itself. *)
Theorem C10_last_row_wins :
  forall (base : list Row) (mA mB : jsstring) (kj : KeyJoin),
    mA <> [] -> mB <> [] ->
    let A := filter (inMonth mA) base in
    let B := filter (inMonth mB) base in
    let out := compareRows base (Some mA) (Some mB) kj in
    (forall l1 r l2,
        A = l1 ++ r :: l2 ->
        (forall r', In r' l2 -> keyFn kj r' <> keyFn kj r) ->
        exists c, In c out
                  /\ (forall c', In c' out -> labelKey kj c' = keyFn kj r -> c' = c)
                  /\ c_agent c = agent r /\ c_merchant c = merchant r
                  /\ openA c = openAmount r
                  /\ revenueA c = revenueAmount r
                  /\ ratioA c = ratio r)
    /\ (forall l1 r l2,
           B = l1 ++ r :: l2 ->
           (forall r', In r' l2 -> keyFn kj r' <> keyFn kj r) ->
           exists c, In c out
                     /\ (forall c', In c' out -> labelKey kj c' = keyFn kj r -> c' = c)
                     /\ labelKey kj c = keyFn kj r
                     /\ openB c = openAmount r
                     /\ revenueB c = revenueAmount r
                     /\ ratioB c = ratio r)
    /\ compareRows (base ++ base) (Some mA) (Some mB) kj = out.
Proof.
  intros base mA mB kj HA HB A B out.
  destruct (compareRows_outer_join base mA mB kj HA HB)
    as (keys & rowOf & ND & Hk & P & HR).
  fold A B in Hk, HR. fold out in P.
  assert (HL : forall k', In k' keys -> labelKey kj (rowOf k') = k')
    by (intros k' Hin; apply HR, Hin).
  split; [|split].
  - intros l1 r l2 EA Hlast.
    assert (Er : lastWithKey kj (keyFn kj r) A = Some r).
    { apply lastWithKey_Some. exists l1, l2. auto. }
    assert (Hin : In (keyFn kj r) keys).
    { apply Hk. left. apply in_map. rewrite EA. apply in_or_app. right. now left. }
    destruct (keyed_row_unique kj keys rowOf out _ P HL Hin) as [Hc Hu].
    exists (rowOf (keyFn kj r)). split; [exact Hc|]. split; [exact Hu|].
    destruct (HR _ Hin) as ((JA & _ & JL & _) & _).
    rewrite Er in JA, JL. tauto.
  - intros l1 r l2 EB Hlast.
    assert (Er : lastWithKey kj (keyFn kj r) B = Some r).
    { apply lastWithKey_Some. exists l1, l2. auto. }
    assert (Hin : In (keyFn kj r) keys).
    { apply Hk. right. apply in_map. rewrite EB. apply in_or_app. right. now left. }
    destruct (keyed_row_unique kj keys rowOf out _ P HL Hin) as [Hc Hu].
    exists (rowOf (keyFn kj r)). split; [exact Hc|]. split; [exact Hu|].
    split; [apply HL, Hin|].
    destruct (HR _ Hin) as ((_ & JB & _) & _).
    rewrite Er in JB. tauto.
  - subst out A B. clear.
    destruct mA as [|a mA]; [reflexivity|]. destruct mB as [|b mB]; [reflexivity|].
    rewrite !compareRows_selected by discriminate.
    rewrite !filter_app, !keyMap_twice. reflexivity.
Qed.

(** Witness of C4 on the demo dataset, 2025-07 against 2025-08. *)
Lemma C4_outer_join_complete_witness :
  lit "2025-07" <> [] /\ lit "2025-08" <> [] /\
  length (compareRows seed (Some (lit "2025-07")) (Some (lit "2025-08"))
                      AgentAndMerchant)
  = length (nodup jsstring_eq_dec
              (map (keyFn AgentAndMerchant) (filter (inMonth (lit "2025-07")) seed)
               ++ map (keyFn AgentAndMerchant) (filter (inMonth (lit "2025-08")) seed))).
Proof.
  assert (HA : lit "2025-07" <> []) by (vm_compute; discriminate).
  assert (HB : lit "2025-08" <> []) by (vm_compute; discriminate).
  split; [exact HA | split; [exact HB |]].
  exact (proj1 (C4_outer_join_complete seed (lit "2025-07") (lit "2025-08")
                                        AgentAndMerchant HA HB)).
Defined.

(** Witness of C10: in the demo dataset followed by a second July row of
    its first merchant, the July side of that merchant is the second row's. *)
Lemma C10_last_row_wins_witness :
  let r := seedRow "2025-07" "金傑克" "萬豪" 5 7 in
  let base := seed ++ [r] in
  exists c, In c (compareRows base (Some (lit "2025-07")) (Some (lit "2025-08"))
                              AgentAndMerchant)
            /\ c_merchant c = merchant r
            /\ openA c = openAmount r
            /\ revenueA c = revenueAmount r.
Proof.
  intros r base.
  assert (HA : lit "2025-07" <> []) by (vm_compute; discriminate).
  assert (HB : lit "2025-08" <> []) by (vm_compute; discriminate).
  destruct (proj1 (C10_last_row_wins base (lit "2025-07") (lit "2025-08")
                                     AgentAndMerchant HA HB)
                  (firstn 2 seed) r [] eq_refl (fun r' (H : In r' []) => match H with end))
    as (c & Hc & _ & _ & Em & Eo & Ev & _).
  exists c. exact (conj Hc (conj Em (conj Eo Ev))).
Defined.

(** ** Batch merger *)

Section Merger.
Variable thisYear : Z.

Lemma backfill_same (bm : jsstring) (r : Row) :
  sameButMissingMonth r (backfill thisYear bm r).
Proof.
  unfold sameButMissingMonth, backfill; simpl. repeat split.
  - destruct (month r); [reflexivity | congruence].
  - destruct (month r); [discriminate|].
    destruct (normalizeMonth thisYear (VStr bm)); discriminate.
Qed.

(** What [onFiles] stores is the merge of the dataset with the parsed
    batches. *)
Lemma onFiles_rows (st : AppState) (files : list File) :
  files <> [] ->
  rows (onFiles thisYear st files)
  = merge (rows st)
          (merged thisYear (batchMonth st)
                  (map (parseOne thisYear (batchMonth st)) files))
          (appendMode st).
Proof.
  intros H. destruct files as [|f files]; [congruence|].
  unfold onFiles.
  match goal with |- rows (let '(_, _) := ?p in _) = _ => destruct p end.
  reflexivity.
Qed.

Lemma onFiles_none (st : AppState) : onFiles thisYear st [] = st.
Proof. reflexivity. Qed.

End Merger.

(** C7: an upload of at least one file leaves, in Append mode, the
    existing rows followed by the incoming rows, each in its order, so that
    the dataset is as long as the two together; in Replace mode it leaves
    the incoming rows only.  The incoming rows are the rows parsed from the
    files, in the order of the files, a missing month filled in.  An upload
    without a file changes nothing. *)
Theorem C7_append_replace_lengths :
  forall (thisYear : Z) (st : AppState) (files : list File),
    let existing := rows st in
    let incoming := concat (map (parseOne thisYear (batchMonth st)) files) in
    let st' := onFiles thisYear st files in
    (files = [] -> st' = st)
    /\ (files <> [] ->
        exists incoming',
          Forall2 sameButMissingMonth incoming incoming'
          /\ (appendMode st = true ->
              rows st' = existing ++ incoming'
              /\ length (rows st') = (length existing + length incoming)%nat)
          /\ (appendMode st = false ->
              rows st' = incoming'
              /\ length (rows st') = length incoming)
          /\ appendMode st' = appendMode st).
Proof.
  intros thisYear st files existing incoming st'.
  split; [intros ->; reflexivity|].
  intros Hne.
  exists (merged thisYear (batchMonth st)
                 (map (parseOne thisYear (batchMonth st)) files)).
  assert (F : Forall2 sameButMissingMonth incoming
                      (merged thisYear (batchMonth st)
                              (map (parseOne thisYear (batchMonth st)) files))).
  { subst incoming. unfold merged.
    induction (concat (map (parseOne thisYear (batchMonth st)) files))
      as [|r l IH]; simpl; constructor.
    - apply backfill_same.
    - exact IH. }
  pose proof (Forall2_length F) as L.
  assert (R : rows st' = merge existing
                               (merged thisYear (batchMonth st)
                                       (map (parseOne thisYear (batchMonth st)) files))
                               (appendMode st))
    by (apply onFiles_rows; exact Hne).
  assert (M : appendMode st' = appendMode st).
  { subst st'. destruct files as [|f files]; [congruence|]. unfold onFiles.
    match goal with |- appendMode (let '(_, _) := ?p in _) = _ => destruct p end.
    reflexivity. }
  split; [exact F|]. split; [|split; [|exact M]].
  - intros E. rewrite R, E. cbn [merge]. split; [reflexivity|].
    rewrite length_app. lia.
  - intros E. rewrite R, E. cbn [merge]. split; [reflexivity | lia].
Qed.

(** Witness of C7: one file with one record, appended to the demo dataset. *)
Lemma C7_append_replace_lengths_witness :
  let f := mkFile (lit "june.csv")
                  [[(lit "代理商", VStr (lit "X")); (lit "商戶", VStr (lit "M1"));
                    (lit "月份", VStr (lit "2025-06"));
                    (lit "開分量", VStr (lit "100"));
                    (lit "營業額", VStr (lit "30"))]] in
  length (rows (onFiles 2025 initialState [f]))
  = (length (rows initialState)
     + length (concat (map (parseOne 2025 (batchMonth initialState)) [f])))%nat.
Proof.
  intros f.
  assert (H : [f] <> []) by discriminate.
  destruct (proj2 (C7_append_replace_lengths 2025 initialState [f]) H)
    as (incoming' & _ & HA & _).
  exact (proj2 (HA eq_refl)).
Defined.

(** ** Exclusion tokens *)

Lemma takeWhile_dropWhile {A} (p : A -> bool) (l : list A) :
  l = takeWhile p l ++ dropWhile p l.
Proof.
  induction l as [|x l IH]; simpl; [reflexivity|].
  destruct (p x); simpl; [now f_equal | reflexivity].
Qed.

Lemma takeWhile_all {A} (p : A -> bool) (l : list A) :
  forallb p (takeWhile p l) = true.
Proof.
  induction l as [|x l IH]; simpl; [reflexivity|].
  destruct (p x) eqn:E; simpl; [now rewrite E | reflexivity].
Qed.

Lemma dropWhile_noLead (s : jsstring) : noLead (dropWhile is_space s).
Proof.
  induction s as [|c s IH]; simpl; [exact I|].
  destruct (is_space c) eqn:E; [exact IH | exact E].
Qed.

Lemma noLead_dropWhile (s : jsstring) : noLead s -> dropWhile is_space s = s.
Proof. destruct s as [|c s]; simpl; [reflexivity | now intros ->]. Qed.

Lemma trimEnd_prefix (s : jsstring) : exists w, s = trimEnd s ++ w.
Proof.
  unfold trimEnd. exists (rev (takeWhile is_space (rev s))).
  rewrite <- rev_app_distr, <- takeWhile_dropWhile. now rewrite rev_involutive.
Qed.

Lemma trimEnd_noLead (s : jsstring) : noLead s -> noLead (trimEnd s).
Proof.
  intros H. destruct (trimEnd_prefix s) as (w & E).
  destruct (trimEnd s) as [|c t]; [exact I|].
  rewrite E in H. exact H.
Qed.

Lemma trim_noLead (s : jsstring) : noLead (trim s).
Proof. apply trimEnd_noLead, dropWhile_noLead. Qed.

Lemma trim_noTrail (s : jsstring) : noLead (rev (trim s)).
Proof.
  unfold trim, trimEnd. rewrite rev_involutive. apply dropWhile_noLead.
Qed.

(** Trimming twice is trimming once. *)
Lemma trim_idempotent (s : jsstring) : trim (trim s) = trim s.
Proof.
  unfold trim at 1. unfold trimStart, trimEnd.
  rewrite (noLead_dropWhile (trim s)) by apply trim_noLead.
  rewrite (noLead_dropWhile (rev (trim s))) by apply trim_noTrail.
  apply rev_involutive.
Qed.

Lemma trim_no_space (s : jsstring) :
  forallb (fun c => negb (is_space c)) s = true -> trim s = s.
Proof.
  intros H.
  assert (R : forallb (fun c => negb (is_space c)) (rev s) = true).
  { rewrite forallb_forall in *. intros c Hc. apply H. now apply in_rev. }
  unfold trim, trimStart, trimEnd.
  assert (L : forall t, forallb (fun c => negb (is_space c)) t = true -> noLead t).
  { intros [|c t]; simpl; [trivial|]. rewrite andb_true_iff, negb_true_iff. tauto. }
  rewrite (noLead_dropWhile s) by now apply L.
  rewrite (noLead_dropWhile (rev s)) by now apply L.
  apply rev_involutive.
Qed.

Lemma sepFree_rev (sep : N -> bool) (s : jsstring) :
  sepFree sep s -> sepFree sep (rev s).
Proof.
  unfold sepFree. rewrite !forallb_forall. intros H c Hc. apply H. now apply in_rev.
Qed.

Lemma split_go_pieces (sep : N -> bool) (s cur : jsstring) (insep : bool) :
  sepFree sep cur ->
  Forall (sepFree sep) (split_go sep s cur insep)
  /\ concat (split_go sep s cur insep) = rev cur ++ removeAll sep s.
Proof.
  revert cur insep. induction s as [|c s IH]; intros cur insep Hc; simpl.
  - split; [repeat constructor; now apply sepFree_rev | now rewrite app_nil_r].
  - destruct (sep c) eqn:E; simpl.
    + destruct insep.
      * apply IH, Hc.
      * destruct (IH [] true eq_refl) as [F C]. split.
        -- constructor; [now apply sepFree_rev | exact F].
        -- simpl. now rewrite C.
    + assert (Hc' : sepFree sep (c :: cur)).
      { unfold sepFree in *. simpl. now rewrite E, Hc. }
      destruct (IH (c :: cur) false Hc') as [F C]. split; [exact F|].
      rewrite C. simpl. now rewrite <- app_assoc.
Qed.

Lemma concat_filter_nonempty (l : list jsstring) :
  concat (filter (fun s => value_truthy (VStr s)) l) = concat l.
Proof.
  induction l as [|s l IH]; [reflexivity|].
  destruct s as [|c s].
  - exact IH.
  - change (concat ((c :: s) :: filter (fun s => value_truthy (VStr s)) l)
            = concat ((c :: s) :: l)).
    rewrite !concat_cons. now rewrite IH.
Qed.

Lemma map_trim_sepFree (l : list jsstring) :
  Forall (sepFree is_token_sep) l -> map trim l = l.
Proof.
  induction 1 as [|p l Hp F IH]; simpl; [reflexivity|].
  rewrite IH. f_equal. apply trim_no_space.
  unfold sepFree in Hp. rewrite forallb_forall in *.
  intros c Hin. specialize (Hp c Hin). unfold is_token_sep in Hp.
  rewrite negb_orb, andb_true_iff in Hp. tauto.
Qed.

(** The tokens are the non-empty pieces of the input between commas and
    white space. *)
Lemma excludeTokens_spec (input : jsstring) :
  excludeTokens input
  = filter (fun s => value_truthy (VStr s)) (split is_token_sep input)
  /\ Forall (fun tok => tok <> [] /\ sepFree is_token_sep tok) (excludeTokens input)
  /\ concat (excludeTokens input) = removeAll is_token_sep input.
Proof.
  destruct (split_go_pieces is_token_sep input [] false eq_refl) as [F C].
  fold (split is_token_sep input) in F, C.
  pose proof (map_trim_sepFree _ F) as T.
  unfold excludeTokens. rewrite T. split; [reflexivity|]. split.
  - apply Forall_forall. intros tok Hin. apply filter_In in Hin.
    destruct Hin as [Hin Ht]. split.
    + destruct tok; [discriminate | discriminate].
    + rewrite Forall_forall in F. now apply F.
  - rewrite concat_filter_nonempty. exact C.
Qed.

(** C8: the exclusion filter drops a row exactly when its agent contains
    one of the tokens as a substring; the tokens are the non-empty pieces
    of the free-text input between commas and white space; with no token
    nothing is excluded. *)
Theorem C8_exclusion_by_substring :
  forall (input : jsstring) (r : Row),
    let tokens := excludeTokens input in
    (passExclude tokens r = false <->
     exists tok, In tok tokens /\ substring tok (agent r))
    /\ (forall rows : list Row,
           In r (baseRowsForCompare rows tokens) <->
           In r rows /\ ~ exists tok, In tok tokens /\ substring tok (agent r))
    /\ (tokens = [] -> passExclude tokens r = true)
    /\ tokens = filter (fun s => value_truthy (VStr s)) (split is_token_sep input)
    /\ Forall (fun tok => tok <> [] /\ sepFree is_token_sep tok) tokens
    /\ concat tokens = removeAll is_token_sep input.
Proof.
  intros input r tokens.
  assert (P : passExclude tokens r = false <->
              exists tok, In tok tokens /\ substring tok (agent r)).
  { unfold passExclude. simpl String_.
    rewrite orb_false_iff, negb_false_iff, existsb_exists. split.
    - intros [_ (tok & Hin & Hinc)]. exists tok. split; [exact Hin|].
      now apply includes_substring.
    - intros (tok & Hin & Hsub). split.
      + destruct tokens; [destruct Hin | reflexivity].
      + exists tok. split; [exact Hin | now apply includes_substring]. }
  split; [exact P|]. split; [|split].
  - intros rws. unfold baseRowsForCompare. rewrite filter_In, <- P.
    destruct (passExclude tokens r); intuition congruence.
  - intros ->. reflexivity.
  - apply excludeTokens_spec.
Qed.

(** ** Record ingestor *)

Section Ingestor.
Variable thisYear : Z.

Lemma hasIdentity_nonempty (x : Row) :
  hasIdentity x = true <-> agent x <> [] /\ merchant x <> [].
Proof.
  unfold hasIdentity. rewrite andb_true_iff. simpl.
  destruct (agent x), (merchant x); intuition congruence.
Qed.

Lemma toRow_identity_trimmed (bm : jsstring) (r : record) :
  trim (agent (toRow thisYear bm r)) = agent (toRow thisYear bm r)
  /\ trim (merchant (toRow thisYear bm r)) = merchant (toRow thisYear bm r).
Proof.
  unfold toRow. cbn [agent merchant]. split; apply trim_idempotent.
Qed.

(** Every ingestion path is this pipeline: convert, then keep the rows
    with both identity fields. *)
Lemma ingest_identified (bm : jsstring) (data : list record) :
  Forall identified (filter hasIdentity (map (toRow thisYear bm) data)).
Proof.
  apply Forall_forall. intros x Hx. apply filter_In in Hx. destruct Hx as [Hin Hid].
  apply in_map_iff in Hin. destruct Hin as (r & <- & _).
  split; [now apply hasIdentity_nonempty | apply toRow_identity_trimmed].
Qed.

Lemma backfill_identified (bm : jsstring) (r : Row) :
  identified r -> identified (backfill thisYear bm r).
Proof. intros H. exact H. Qed.

Lemma merged_identified (bm : jsstring) (batches : list (list Row)) :
  Forall (Forall identified) batches ->
  Forall identified (merged thisYear bm batches).
Proof.
  intros H. unfold merged. apply Forall_forall. intros x Hx.
  apply in_map_iff in Hx. destruct Hx as (r & <- & Hr).
  apply backfill_identified. apply in_concat in Hr. destruct Hr as (b & Hb & Hr).
  rewrite Forall_forall in H. specialize (H b Hb).
  rewrite Forall_forall in H. now apply H.
Qed.

Lemma merge_identified (prev incoming : list Row) (append : bool) :
  Forall identified prev -> Forall identified incoming ->
  Forall identified (merge prev incoming append).
Proof.
  intros Hp Hi. destruct append; simpl; [|exact Hi].
  apply Forall_app. now split.
Qed.

Lemma seed_identified : Forall identified seed.
Proof.
  unfold seed, seedRow.
  repeat constructor; cbn [agent merchant];
    try (vm_compute; discriminate); vm_compute; reflexivity.
Qed.

Lemma step_identified (st : AppState) (e : event) :
  Forall identified (rows st) -> Forall identified (rows (step thisYear st e)).
Proof.
  intros H. destruct e as [c d | fs | b | s | m | m |]; simpl; try exact H.
  - unfold onMount.
    destruct c.
    + pose proof (ingest_identified [] d) as I. unfold loadFromCsvUrl.
      destruct (filter hasIdentity (map (toRow thisYear []) d)); [exact H | exact I].
    + pose proof (ingest_identified [] d) as I. unfold loadFromJsonUrl.
      destruct (filter hasIdentity (map (toRow thisYear []) d)); [exact H | exact I].
  - destruct fs as [|f fs]; [exact H|].
    rewrite onFiles_rows by discriminate.
    apply merge_identified; [exact H|].
    apply merged_identified. apply Forall_forall. intros b Hb.
    apply in_map_iff in Hb. destruct Hb as (f' & <- & _).
    apply ingest_identified.
  - constructor.
Qed.

Lemma run_identified (st : AppState) (es : list event) :
  Forall identified (rows st) -> Forall identified (rows (run thisYear st es)).
Proof.
  revert st. induction es as [|e es IH]; intros st H; simpl; [exact H|].
  apply IH, step_identified, H.
Qed.

Lemma ratioSrc_blank (r : record) : noExplicitRatio r -> ratioSrc r = VStr [].
Proof.
  intros H. unfold ratioSrc.
  assert (H1 := H _ (or_introl eq_refl)).
  assert (H2 := H _ (or_intror (or_introl eq_refl))).
  assert (H3 := H _ (or_intror (or_intror (or_introl eq_refl)))).
  assert (H4 := H _ (or_intror (or_intror (or_intror (or_introl eq_refl))))).
  unfold coalesce.
  destruct H1 as [-> | ->]; [|reflexivity].
  destruct H2 as [-> | ->]; [|reflexivity].
  destruct H3 as [-> | ->]; [|reflexivity].
  destruct H4 as [-> | ->]; reflexivity.
Qed.

End Ingestor.

(** C9: every row of the working dataset has a non-empty agent and a
    non-empty merchant, both in trimmed form: each ingestion path keeps
    only such rows, a merge preserves the property, and so does everything
    that can happen to the dataset from the demo data on. *)
Theorem C9_identity_invariant :
  forall thisYear : Z,
    (forall data bm, Forall identified (loadFromCsvUrl thisYear data bm))
    /\ (forall data bm, Forall identified (loadFromJsonUrl thisYear data bm))
    /\ (forall bm file, Forall identified (parseOne thisYear bm file))
    /\ (forall bm batches prev append,
           Forall identified prev -> Forall (Forall identified) batches ->
           Forall identified (merge prev (merged thisYear bm batches) append))
    /\ (forall es, Forall identified (rows (run thisYear initialState es))).
Proof.
  intros thisYear. repeat split.
  - intros. apply ingest_identified.
  - intros. apply ingest_identified.
  - intros. apply ingest_identified.
  - intros. apply merge_identified; [assumption | now apply merged_identified].
  - intros es. apply run_identified. apply seed_identified.
Qed.

(** C6: a record with no explicit ratio field (or an empty one) is
    ingested with ratio revenue/open, the quotient of the two ingested
    amounts, when the open amount is greater than 0, and with ratio 0
    otherwise. *)
Theorem C6_ratio_fallback :
  forall (thisYear : Z) (bm : jsstring) (r : record),
    noExplicitRatio r ->
    let row := toRow thisYear bm r in
    (openAmount row = num (openSrc r) /\ revenueAmount row = num (revenueSrc r))
    /\ (lt zero (openAmount row) = true ->
        ratio row = div (revenueAmount row) (openAmount row))
    /\ (lt zero (openAmount row) = false -> ratio row = zero).
Proof.
  intros thisYear bm r H row. subst row. unfold toRow.
  cbn [openAmount revenueAmount ratio].
  rewrite (ratioSrc_blank r H). cbn [String_].
  split; [split; reflexivity|].
  split; intros ->; reflexivity.
Qed.

(** Witness of C6: the first record of the specification's example. *)
Lemma C6_ratio_fallback_witness :
  let r := [(lit "代理商", VStr (lit "X")); (lit "商戶", VStr (lit "M1"));
            (lit "開分量", VStr (lit "1,200,000"));
            (lit "營業額", VStr (lit "300000"))] in
  noExplicitRatio r
  /\ ratio (toRow 2025 (lit "2025-07") r)
     = div (revenueAmount (toRow 2025 (lit "2025-07") r))
           (openAmount (toRow 2025 (lit "2025-07") r)).
Proof.
  intros r.
  assert (H : noExplicitRatio r).
  { intros k [<- | [<- | [<- | [<- | []]]]]; left; vm_compute; reflexivity. }
  split; [exact H|].
  apply (proj1 (proj2 (C6_ratio_fallback 2025 (lit "2025-07") r H))).
  vm_compute. reflexivity.
Defined.

(** ** Rounding *)

Lemma rne_bounds (p q : Z) :
  0 <= p -> 0 < q -> p / q <= rne p q <= p / q + 1.
Proof.
  intros Hp Hq. unfold rne.
  destruct (2 * (p mod q) <? q); [lia|].
  destruct (q <? 2 * (p mod q)); [lia|].
  destruct (Z.even (p / q)); lia.
Qed.

Lemma rne_exact (p q : Z) : 0 < q -> p mod q = 0 -> rne p q = p / q.
Proof.
  intros Hq Hr. unfold rne. rewrite Hr.
  destruct (2 * 0 <? q) eqn:E; [reflexivity|].
  apply Z.ltb_ge in E. lia.
Qed.

Lemma rne_mul (k q : Z) : 0 < q -> rne (k * q) q = k.
Proof.
  intros Hq.
  rewrite rne_exact; [apply Z.div_mul; lia | lia | apply Z.mod_mul; lia].
Qed.

(** Rounding to the nearest integer is monotone. *)
Lemma rne_mono (p1 p2 q : Z) :
  0 <= p1 <= p2 -> 0 < q -> rne p1 q <= rne p2 q.
Proof.
  intros Hp Hq.
  assert (Hd : p1 / q <= p2 / q) by (apply Z.div_le_mono; lia).
  destruct (Z.eq_dec (p1 / q) (p2 / q)) as [E | NE].
  - assert (Hm : p1 mod q <= p2 mod q).
    { pose proof (Z.div_mod p1 q ltac:(lia)). pose proof (Z.div_mod p2 q ltac:(lia)).
      rewrite E in *. lia. }
    unfold rne. rewrite E.
    destruct (2 * (p1 mod q) <? q) eqn:A1;
      destruct (2 * (p2 mod q) <? q) eqn:A2;
      destruct (q <? 2 * (p1 mod q)) eqn:B1;
      destruct (q <? 2 * (p2 mod q)) eqn:B2;
      destruct (Z.even (p2 / q)); lia.
  - pose proof (rne_bounds p1 q ltac:(lia) Hq).
    pose proof (rne_bounds p2 q ltac:(lia) Hq). lia.
Qed.

Lemma rne_le_int (p q n : Z) :
  0 <= p -> 0 < q -> p <= n * q -> rne p q <= n.
Proof.
  intros Hp Hq H. rewrite <- (rne_mul n q Hq). apply rne_mono; lia.
Qed.

Lemma rne_ge_int (p q n : Z) :
  0 <= n -> 0 < q -> n * q <= p -> n <= rne p q.
Proof.
  intros Hn Hq H. rewrite <- (rne_mul n q Hq). apply rne_mono; nia.
Qed.

Lemma round_mag_unfold (p q : Z) :
  round_mag p q = rne p (q * 2 ^ shift_of (p / q)) * 2 ^ shift_of (p / q).
Proof. reflexivity. Qed.

Lemma shift_of_nonneg (f : Z) : 0 <= shift_of f.
Proof. unfold shift_of. lia. Qed.

Lemma shift_of_mono (f g : Z) : f <= g -> shift_of f <= shift_of g.
Proof.
  intros H. unfold shift_of. pose proof (Z.log2_le_mono f g H). lia.
Qed.

(** Below the next power of two. *)
Lemma shift_of_upper (f : Z) : 0 <= f -> f < 2 ^ (shift_of f + 53).
Proof.
  intros Hf. unfold shift_of.
  destruct (Z.eq_dec f 0) as [-> | Hnz].
  - simpl. lia.
  - pose proof (Z.log2_spec f ltac:(lia)) as [_ Hu].
    apply Z.lt_le_trans with (1 := Hu).
    apply Z.pow_le_mono_r; lia.
Qed.

(** At or above the power of two of a positive shift. *)
Lemma shift_of_lower (f : Z) : 0 < shift_of f -> 2 ^ (shift_of f + 52) <= f.
Proof.
  unfold shift_of. intros H.
  assert (Hf : 0 < f).
  { destruct (Z_lt_le_dec 0 f); [assumption|].
    rewrite Z.log2_nonpos in H by lia. lia. }
  pose proof (Z.log2_spec f Hf) as [Hl _].
  replace (Z.max 0 (Z.log2 f - 52) + 52) with (Z.log2 f) by lia. exact Hl.
Qed.

Lemma round_mag_nonneg (p q : Z) : 0 <= p -> 0 < q -> 0 <= round_mag p q.
Proof.
  intros Hp Hq. rewrite round_mag_unfold.
  pose proof (shift_of_nonneg (p / q)).
  assert (0 < 2 ^ shift_of (p / q)) by (apply Z.pow_pos_nonneg; lia).
  pose proof (rne_bounds p (q * 2 ^ shift_of (p / q)) Hp ltac:(nia)).
  assert (0 <= p / (q * 2 ^ shift_of (p / q))) by (apply Z.div_pos; nia).
  nia.
Qed.

(** The rounded significand has at most 53 bits. *)
Lemma round_mag_significand (p q : Z) :
  0 <= p -> 0 < q ->
  rne p (q * 2 ^ shift_of (p / q)) <= 2 ^ 53.
Proof.
  intros Hp Hq.
  pose proof (shift_of_nonneg (p / q)) as Hs.
  assert (H2 : 0 < 2 ^ shift_of (p / q)) by (apply Z.pow_pos_nonneg; lia).
  apply rne_le_int; [assumption | nia |].
  pose proof (shift_of_upper (p / q) ltac:(apply Z.div_pos; lia)) as Hu.
  rewrite Z.pow_add_r in Hu by lia.
  pose proof (Z.mul_succ_div_gt p q Hq) as Hd.
  assert (p < (2 ^ shift_of (p / q) * 2 ^ 53) * q) by nia.
  nia.
Qed.

(** Rounding to 53 significant bits is monotone. *)
Lemma round_mag_mono (p1 p2 q : Z) :
  0 <= p1 <= p2 -> 0 < q -> round_mag p1 q <= round_mag p2 q.
Proof.
  intros Hp Hq. rewrite !round_mag_unfold.
  assert (Hf : p1 / q <= p2 / q) by (apply Z.div_le_mono; lia).
  pose proof (shift_of_mono _ _ Hf) as Hs.
  pose proof (shift_of_nonneg (p1 / q)) as Hs1.
  set (s1 := shift_of (p1 / q)) in *. set (s2 := shift_of (p2 / q)) in *.
  assert (P1 : 0 < 2 ^ s1) by (apply Z.pow_pos_nonneg; lia).
  assert (P2 : 0 < 2 ^ s2) by (apply Z.pow_pos_nonneg; lia).
  destruct (Z.eq_dec s1 s2) as [E | NE].
  - rewrite <- E. apply Z.mul_le_mono_nonneg_r; [lia|].
    apply rne_mono; [lia | nia].
  - assert (Hlt : s1 + 1 <= s2) by lia.
    pose proof (round_mag_significand p1 q ltac:(lia) Hq) as Hup. fold s1 in Hup.
    assert (Hlo : 2 ^ 52 <= rne p2 (q * 2 ^ s2)).
    { apply rne_ge_int; [lia | nia |].
      pose proof (shift_of_lower (p2 / q) ltac:(fold s2; lia)) as Hl. fold s2 in Hl.
      rewrite Z.pow_add_r in Hl by lia.
      assert (2 ^ s2 * 2 ^ 52 * q <= p2).
      { pose proof (Z.mul_div_le p2 q Hq). nia. }
      nia. }
    assert (Hpow : 2 ^ 53 * 2 ^ s1 <= 2 ^ 52 * 2 ^ s2).
    { rewrite <- !Z.pow_add_r by lia. apply Z.pow_le_mono_r; lia. }
    assert (0 <= rne p1 (q * 2 ^ s1)).
    { pose proof (rne_bounds p1 (q * 2 ^ s1) ltac:(lia) ltac:(nia)).
      assert (0 <= p1 / (q * 2 ^ s1)) by (apply Z.div_pos; nia). lia. }
    nia.
Qed.

Lemma round_mag_exact (m q : Z) :
  0 <= m -> canon m -> 0 < q -> round_mag (m * q) q = m.
Proof.
  intros Hm Hc Hq. rewrite round_mag_unfold, Z.div_mul by lia.
  pose proof (shift_of_nonneg m) as Hs.
  assert (P : 0 < 2 ^ shift_of m) by (apply Z.pow_pos_nonneg; lia).
  unfold canon in Hc. apply Z.mod_divide in Hc; [|lia].
  destruct Hc as (k & Hk).
  remember (shift_of m) as sh eqn:Esh. clear Esh.
  replace (m * q) with (k * (q * 2 ^ sh)) by (rewrite Hk; ring).
  rewrite rne_mul by nia. symmetry. exact Hk.
Qed.

Lemma canon_pow2_mul (n s : Z) :
  0 <= n <= 2 ^ 53 -> 0 <= s -> canon (n * 2 ^ s).
Proof.
  intros Hn Hs. unfold canon.
  assert (P : 0 < 2 ^ s) by (apply Z.pow_pos_nonneg; lia).
  destruct (Z.eq_dec n 0) as [-> | Hnz]; [now rewrite Z.mul_0_l, Zmod_0_l|].
  assert (Hl : Z.log2 (n * 2 ^ s) <= 53 + s).
  { destruct (Z.eq_dec n (2 ^ 53)) as [-> | Hlt].
    - rewrite <- Z.pow_add_r by lia. rewrite Z.log2_pow2 by lia. lia.
    - assert (Z.log2 (n * 2 ^ s) < 53 + s); [|lia].
      apply Z.log2_lt_pow2; [nia|].
      rewrite Z.pow_add_r by lia. nia. }
  destruct (Z.eq_dec n (2 ^ 53)) as [-> | Hlt].
  - rewrite <- Z.pow_add_r by lia. unfold shift_of.
    rewrite Z.log2_pow2 by lia.
    apply Z.mod_divide; [apply Z.pow_nonzero; lia|].
    exists (2 ^ (53 + s - Z.max 0 (53 + s - 52))).
    rewrite <- Z.pow_add_r by lia. f_equal. lia.
  - assert (Hl' : Z.log2 (n * 2 ^ s) < 53 + s).
    { apply Z.log2_lt_pow2; [nia|]. rewrite Z.pow_add_r by lia. nia. }
    unfold shift_of.
    apply Z.mod_divide; [apply Z.pow_nonzero; lia|].
    pose proof (Z.log2_nonneg (n * 2 ^ s)).
    exists (n * 2 ^ (s - Z.max 0 (Z.log2 (n * 2 ^ s) - 52))).
    rewrite <- Z.mul_assoc, <- Z.pow_add_r by lia. do 2 f_equal. lia.
Qed.

(** What rounding gives is representable. *)
Lemma round_mag_canon (p q : Z) : 0 <= p -> 0 < q -> canon (round_mag p q).
Proof.
  intros Hp Hq. rewrite round_mag_unfold.
  apply canon_pow2_mul; [|apply shift_of_nonneg].
  split; [|now apply round_mag_significand].
  pose proof (shift_of_nonneg (p / q)).
  assert (0 < 2 ^ shift_of (p / q)) by (apply Z.pow_pos_nonneg; lia).
  pose proof (rne_bounds p (q * 2 ^ shift_of (p / q)) Hp ltac:(nia)).
  assert (0 <= p / (q * 2 ^ shift_of (p / q))) by (apply Z.div_pos; nia).
  lia.
Qed.

Lemma round_mag_le (p q m : Z) :
  0 <= p -> 0 < q -> 0 <= m -> canon m -> p <= m * q -> round_mag p q <= m.
Proof.
  intros Hp Hq Hm Hc H. rewrite <- (round_mag_exact m q Hm Hc Hq).
  apply round_mag_mono; lia.
Qed.

Lemma round_mag_ge (p q m : Z) :
  0 <= p -> 0 < q -> 0 <= m -> canon m -> m * q <= p -> m <= round_mag p q.
Proof.
  intros Hp Hq Hm Hc H. rewrite <- (round_mag_exact m q Hm Hc Hq) at 1.
  apply round_mag_mono; nia.
Qed.

(** ** Reading numerals *)

Lemma digits_value_snoc (ds : jsstring) (c : N) :
  digits_value (ds ++ [c]) = digits_value ds * 10 + digit_val c.
Proof. unfold digits_value. now rewrite fold_left_app. Qed.

Lemma digits_value_app (a b : jsstring) :
  digits_value (a ++ b) = digits_value a * 10 ^ Z.of_nat (length b) + digits_value b.
Proof.
  induction b as [|c b IH] using rev_ind.
  - rewrite app_nil_r. simpl. unfold digits_value at 3. simpl. lia.
  - rewrite app_assoc, !digits_value_snoc, IH, length_app. simpl.
    rewrite Nat2Z.inj_add, Z.pow_add_r by lia. simpl Z.of_nat. ring.
Qed.

Lemma digits_value_zeros (n : nat) (ds : jsstring) :
  digits_value (repeat c_zero n ++ ds) = digits_value ds.
Proof.
  induction n as [|n IH]; simpl; [reflexivity|].
  change (c_zero :: repeat c_zero n ++ ds) with ([c_zero] ++ (repeat c_zero n ++ ds)).
  rewrite digits_value_app, IH. reflexivity.
Qed.

Lemma digit_char_is_digit (d : Z) : 0 <= d < 10 -> is_digit (digit_char d) = true.
Proof.
  intros H. unfold is_digit, digit_char.
  apply andb_true_iff. split; apply N.leb_le; lia.
Qed.

Lemma digit_char_val (d : Z) : 0 <= d < 10 -> digit_val (digit_char d) = d.
Proof. intros H. unfold digit_val, digit_char. lia. Qed.

Lemma digits_go_spec (fuel : nat) (n : Z) (acc : jsstring) :
  (0 < fuel)%nat ->
  0 <= n < 2 ^ Z.of_nat fuel ->
  forallb is_digit acc = true ->
  forallb is_digit (digits_go fuel n acc) = true
  /\ digits_value (digits_go fuel n acc)
     = n * 10 ^ Z.of_nat (length acc) + digits_value acc
  /\ (length acc < length (digits_go fuel n acc))%nat.
Proof.
  revert n acc. induction fuel as [|f IH]; intros n acc Hfuel Hn Ha.
  - lia.
  - cbn [digits_go].
    assert (Hd : 0 <= n mod 10 < 10) by (apply Z.mod_pos_bound; lia).
    assert (Ha' : forallb is_digit (digit_char (n mod 10) :: acc) = true).
    { simpl. rewrite digit_char_is_digit by assumption. exact Ha. }
    assert (Hv : digits_value (digit_char (n mod 10) :: acc)
                 = n mod 10 * 10 ^ Z.of_nat (length acc) + digits_value acc).
    { change (digit_char (n mod 10) :: acc) with ([digit_char (n mod 10)] ++ acc).
      rewrite digits_value_app. unfold digits_value at 1. simpl fold_left.
      rewrite digit_char_val by assumption. ring. }
    destruct (n <? 10) eqn:E.
    + apply Z.ltb_lt in E. rewrite (Z.mod_small n 10) in * by lia.
      split; [exact Ha' | split; [exact Hv | simpl; lia]].
    + apply Z.ltb_ge in E.
      assert (Hn' : 0 <= n / 10 < 2 ^ Z.of_nat f).
      { split; [apply Z.div_pos; lia|].
        rewrite Nat2Z.inj_succ, Z.pow_succ_r in Hn by lia.
        apply Z.div_lt_upper_bound; lia. }
      assert (Hf : (0 < f)%nat).
      { destruct f; [|lia]. change (2 ^ Z.of_nat 0) with 1 in Hn'.
        assert (1 <= n / 10) by (apply Z.div_le_lower_bound; lia). lia. }
      destruct (IH (n / 10) _ Hf Hn' Ha') as (H1 & H2 & H3).
      split; [exact H1|]. split.
      * rewrite H2, Hv. cbn [length]. rewrite Nat2Z.inj_succ, Z.pow_succ_r by lia.
        pose proof (Z.div_mod n 10 ltac:(lia)). nia.
      * cbn [length] in H3. lia.
Qed.

(** Printing the digits of a natural number and reading them back. *)
Lemma digits_of_spec (n : Z) :
  0 <= n ->
  forallb is_digit (digits_of n) = true
  /\ digits_value (digits_of n) = n
  /\ (0 < length (digits_of n))%nat.
Proof.
  intros Hn. unfold digits_of.
  assert (Hb : 0 <= n < 2 ^ Z.of_nat (S (Z.to_nat (Z.log2 n)))).
  { split; [assumption|].
    rewrite Nat2Z.inj_succ, Z2Nat.id by apply Z.log2_nonneg.
    destruct (Z.eq_dec n 0) as [-> | Hz]; [simpl; lia|].
    apply Z.log2_spec. lia. }
  destruct (digits_go_spec (S (Z.to_nat (Z.log2 n))) n [] (Nat.lt_0_succ _) Hb eq_refl)
    as (H1 & H2 & H3).
  split; [exact H1|]. split; [|exact H3].
  rewrite H2. simpl. unfold digits_value. simpl. lia.
Qed.

Lemma takeWhile_app_stop {A} (p : A -> bool) (l r : list A) :
  forallb p l = true ->
  match r with [] => True | x :: _ => p x = false end ->
  takeWhile p (l ++ r) = l /\ dropWhile p (l ++ r) = r.
Proof.
  intros Hl Hr. induction l as [|x l IH]; simpl.
  - destruct r as [|x r]; simpl; [auto|]. now rewrite Hr.
  - simpl in Hl. apply andb_true_iff in Hl. destruct Hl as [Hx Hl].
    rewrite Hx. destruct (IH Hl) as [-> ->]. auto.
Qed.

Lemma lit_Infinity : lit "Infinity" = [73; 110; 102; 105; 110; 105; 116; 121]%N.
Proof. vm_compute. reflexivity. Qed.

Lemma not_Infinity (s : jsstring) :
  match s with [] => True | c :: _ => is_digit c = true \/ c = c_dot end ->
  startsWith s (lit "Infinity") = false.
Proof.
  rewrite lit_Infinity. destruct s as [|c s]; [reflexivity|].
  intros H. cbn [startsWith].
  destruct (c =? 73)%N eqn:E; [|reflexivity].
  apply N.eqb_eq in E. subst c. destruct H as [H | H]; discriminate H.
Qed.

Lemma dot_not_digit : is_digit c_dot = false.
Proof. reflexivity. Qed.

Lemma scan_exponent_stops (rest : jsstring) :
  stops rest -> scan_exponent rest = (0, rest).
Proof.
  destruct rest as [|c r]; [reflexivity|]. intros (_ & _ & He & HE).
  unfold scan_exponent.
  apply N.eqb_neq in He, HE. now rewrite He, HE.
Qed.

(** The scanner reads a well-formed unsigned numeral, up to what stops it. *)
Lemma scan_unsigned_numeral (sg : bool) (ip : jsstring) (fp : option jsstring)
      (rest : jsstring) :
  numeral_ok (Numeral sg ip fp) = true ->
  stops rest ->
  scan_unsigned sg (render (Numeral false ip fp) ++ rest)
  = Some (numeral_value (Numeral sg ip fp), rest).
Proof.
  unfold numeral_ok. rewrite !andb_true_iff, negb_true_iff, Nat.eqb_neq.
  intros [[Hi Hf] Hne] Hstop. cbn [render app].
  assert (Hd : match rest with [] => True | c :: _ => is_digit c = false end).
  { destruct rest; [exact I | apply Hstop]. }
  unfold scan_unsigned.
  rewrite not_Infinity.
  2:{ destruct ip as [|c ip]; cbn [app].
      - destruct fp as [f|]; [now right|]. simpl in Hne. congruence.
      - left. simpl in Hi. apply andb_true_iff in Hi. tauto. }
  rewrite <- app_assoc.
  destruct fp as [f|]; cbn [fraction] in *.
  - cbn [app].
    destruct (takeWhile_app_stop is_digit ip (c_dot :: f ++ rest) Hi dot_not_digit)
      as [-> ->].
    rewrite N.eqb_refl.
    destruct (takeWhile_app_stop is_digit f rest Hf Hd) as [-> ->].
    destruct (ip ++ f) eqn:E; [simpl in Hne; congruence|].
    rewrite scan_exponent_stops by assumption. rewrite <- E.
    cbn [numeral_value fraction]. now rewrite Z.sub_0_l.
  - cbn [app].
    destruct (takeWhile_app_stop is_digit ip rest Hi Hd) as [-> ->].
    pose proof (scan_exponent_stops rest Hstop) as Ex.
    rewrite app_nil_r in Hne.
    destruct ip as [|c ip]; [simpl in Hne; congruence|].
    destruct rest as [|d r].
    + cbn [app]. rewrite Ex. cbn [numeral_value fraction length].
      rewrite !app_nil_r. reflexivity.
    + destruct Hstop as (_ & Hc & _). apply N.eqb_neq in Hc. rewrite Hc.
      cbn [app]. rewrite Ex. cbn [numeral_value fraction length].
      rewrite !app_nil_r. reflexivity.
Qed.

Lemma scan_decimal_numeral (nm : numeral) (rest : jsstring) :
  numeral_ok nm = true ->
  stops rest ->
  scan_decimal (render nm ++ rest) = Some (numeral_value nm, rest).
Proof.
  destruct nm as [sg ip fp]. intros Hok Hstop.
  pose proof (scan_unsigned_numeral sg ip fp rest Hok Hstop) as H.
  destruct sg.
  - cbn [render app]. unfold scan_decimal. rewrite N.eqb_refl.
    cbn [render app] in H. exact H.
  - cbn [render app] in *. unfold scan_decimal.
    unfold numeral_ok in Hok. rewrite !andb_true_iff in Hok.
    destruct Hok as [[Hi Hf] Hne].
    destruct ip as [|c ip].
    + destruct fp as [f|]; [|discriminate Hne].
      cbn [app]. change ((c_dot =? c_minus)%N) with false.
      change ((c_dot =? c_plus)%N) with false. exact H.
    + cbn [app] in *. simpl in Hi. apply andb_true_iff in Hi. destruct Hi as [Hc _].
      assert (Hm : (c =? c_minus)%N = false).
      { apply N.eqb_neq. intros ->. discriminate Hc. }
      assert (Hp : (c =? c_plus)%N = false).
      { apply N.eqb_neq. intros ->. discriminate Hc. }
      rewrite Hm, Hp. exact H.
Qed.

Lemma render_plain (nm : numeral) :
  numeral_ok nm = true -> forallb plain_char (render nm) = true.
Proof.
  destruct nm as [sg ip fp]. unfold numeral_ok.
  rewrite !andb_true_iff. intros [[Hi Hf] _].
  assert (D : forall l, forallb is_digit l = true -> forallb plain_char l = true).
  { intros l. rewrite !forallb_forall. intros H c Hc. unfold plain_char.
    now rewrite (H c Hc). }
  cbn [render]. rewrite !forallb_app. rewrite (D ip Hi).
  destruct sg, fp as [f|]; cbn [fraction] in *; simpl; try rewrite (D f Hf); reflexivity.
Qed.

Lemma render_nonempty (nm : numeral) : numeral_ok nm = true -> render nm <> [].
Proof.
  destruct nm as [sg ip fp]. unfold numeral_ok.
  rewrite !andb_true_iff, negb_true_iff, Nat.eqb_neq. intros [_ Hne].
  cbn [render]. destruct sg; [discriminate|]. cbn [app].
  destruct ip; [|discriminate]. destruct fp; [discriminate|].
  simpl in Hne. congruence.
Qed.

Lemma plain_not_space (c : N) : plain_char c = true -> is_space c = false.
Proof.
  unfold plain_char, is_digit. rewrite !orb_true_iff, andb_true_iff, !N.eqb_eq, !N.leb_le.
  intros H. unfold is_space.
  apply orb_false_iff. split.
  - apply not_true_is_false. intros E. apply existsb_exists in E.
    destruct E as (x & Hx & E). apply N.eqb_eq in E. subst x.
    simpl in Hx. unfold c_dot, c_minus in H. lia.
  - apply andb_false_iff. unfold c_dot, c_minus in H.
    destruct (N.leb_spec 8192 c); [|now left]. lia.
Qed.

Lemma trim_plain (s : jsstring) : forallb plain_char s = true -> trim s = s.
Proof.
  intros H. apply trim_no_space. rewrite forallb_forall in *.
  intros c Hc. now rewrite (plain_not_space c (H c Hc)).
Qed.

Lemma scan_radix_plain (s : jsstring) :
  forallb plain_char s = true -> scan_radix s = None.
Proof.
  destruct s as [|a [|p [|d ds]]]; try reflexivity.
  intros H. cbn [forallb] in H. rewrite !andb_true_iff in H.
  destruct H as (_ & Hp & _). unfold scan_radix.
  assert (E : forall k, (k <> 46)%N -> (k <> 45)%N -> (k < 48 \/ 57 < k)%N ->
                        (p =? k)%N = false).
  { intros k H1 H2 H3. apply N.eqb_neq. intros ->.
    unfold plain_char, is_digit, c_dot, c_minus in Hp.
    rewrite !orb_true_iff, andb_true_iff, !N.eqb_eq, !N.leb_le in Hp. lia. }
  rewrite !E by lia. cbn [orb]. change (0 =? 0) with true.
  now rewrite andb_false_r.
Qed.

(** [Number] and [parseFloat] read a well-formed numeral as the double
    nearest to it. *)
Lemma Number_of_numeral (nm : numeral) :
  numeral_ok nm = true -> Number_of_string (render nm) = numeral_value nm.
Proof.
  intros Hok. unfold Number_of_string.
  rewrite (trim_plain _ (render_plain nm Hok)).
  pose proof (render_nonempty nm Hok) as Hne.
  destruct (render nm) as [|c s] eqn:E; [congruence|]. rewrite <- E.
  rewrite (scan_radix_plain _ (render_plain nm Hok)).
  pose proof (scan_decimal_numeral nm [] Hok I) as S.
  rewrite app_nil_r in S. now rewrite S.
Qed.

Lemma trimStart_plain (s : jsstring) :
  forallb plain_char s = true -> trimStart s = s.
Proof.
  destruct s as [|c s]; [reflexivity|]. cbn [forallb]. rewrite andb_true_iff.
  intros [Hc _]. unfold trimStart. cbn [dropWhile].
  now rewrite (plain_not_space c Hc).
Qed.

Lemma parseFloat_numeral (nm : numeral) :
  numeral_ok nm = true -> parseFloat (render nm) = numeral_value nm.
Proof.
  intros Hok. unfold parseFloat.
  rewrite (trimStart_plain _ (render_plain nm Hok)).
  pose proof (scan_decimal_numeral nm [] Hok I) as S.
  rewrite app_nil_r in S. now rewrite S.
Qed.

(** ** Arithmetic on non-negative doubles *)

Lemma U_eq : U = 2 ^ 1074.
Proof. reflexivity. Qed.

Lemma OVF_eq : OVF = 2 ^ 1024 * U.
Proof. vm_compute. reflexivity. Qed.

Lemma U_pos : 0 < U.
Proof. rewrite U_eq. apply Z.pow_pos_nonneg; lia. Qed.

Lemma U_lt_OVF : 100 * U < OVF.
Proof. rewrite OVF_eq. pose proof U_pos. assert (100 < 2 ^ 1024) by (vm_compute; reflexivity). nia. Qed.

Lemma canon_0 : canon 0.
Proof. reflexivity. Qed.

Lemma canon_small_mul_U (k : Z) : 0 <= k <= 2 ^ 53 -> canon (k * U).
Proof. intros H. rewrite U_eq. apply canon_pow2_mul; lia. Qed.

Lemma canon_U : canon U.
Proof. rewrite <- (Z.mul_1_l U). apply canon_small_mul_U. lia. Qed.

Lemma canon_100U : canon (100 * U).
Proof. apply canon_small_mul_U. lia. Qed.

Global Opaque U OVF.

Lemma mk_fin (s : bool) (p q : Z) :
  round_mag p q < OVF -> mk s p q = Fin s (round_mag p q).
Proof. intros H. unfold mk. apply Z.ltb_lt in H. now rewrite H. Qed.

Lemma mk_inf (s : bool) (p q : Z) :
  OVF <= round_mag p q -> mk s p q = Inf s.
Proof. intros H. unfold mk. apply Z.ltb_ge in H. now rewrite H. Qed.

Lemma mk_cases (s : bool) (p q : Z) :
  0 <= p -> 0 < q ->
  mk s p q = Inf s
  \/ (mk s p q = Fin s (round_mag p q)
      /\ 0 <= round_mag p q < OVF /\ canon (round_mag p q)).
Proof.
  intros Hp Hq. destruct (Z_lt_le_dec (round_mag p q) OVF) as [H | H].
  - right. split; [now apply mk_fin|]. split.
    + split; [now apply round_mag_nonneg | assumption].
    + now apply round_mag_canon.
  - left. now apply mk_inf.
Qed.

Lemma mk_is_double (s : bool) (p q : Z) : 0 <= p -> 0 < q -> is_double (mk s p q).
Proof.
  intros Hp Hq. destruct (mk_cases s p q Hp Hq) as [-> | (-> & H1 & H2)]; simpl; auto.
Qed.

Lemma of_Z_small (k : Z) : 0 <= k <= 2 ^ 53 -> of_Z k = Fin false (k * U).
Proof.
  intros H. unfold of_Z.
  assert (E : (k <? 0) = false) by (apply Z.ltb_ge; lia). rewrite E.
  rewrite Z.abs_eq by lia.
  pose proof U_pos.
  assert (R : round_mag (k * U) 1 = k * U).
  { rewrite <- (Z.mul_1_r (k * U)) at 1.
    apply round_mag_exact; [nia | now apply canon_small_mul_U | lia]. }
  assert (B : k * U < OVF).
  { rewrite OVF_eq. assert (2 ^ 53 < 2 ^ 1024) by (vm_compute; reflexivity). nia. }
  rewrite mk_fin by (rewrite R; exact B). now rewrite R.
Qed.

Lemma of_Z_100 : of_Z 100 = Fin false (100 * U).
Proof. apply of_Z_small. lia. Qed.

Lemma of_Z_1 : of_Z 1 = Fin false U.
Proof. rewrite of_Z_small by lia. now rewrite Z.mul_1_l. Qed.

Lemma accum_zero : accum zero.
Proof. right. exists 0. split; [reflexivity | split; [lia | apply canon_0]]. Qed.

(** Adding a non-negative double to a running sum does not decrease it. *)
Lemma add_accum (c y : number) :
  accum c -> nonNegative y -> accum (add c y) /\ le c (add c y) = true.
Proof.
  intros Hc (Hd & Hf & Hy).
  destruct y as [| |s b]; try discriminate Hf.
  simpl in Hd. destruct Hd as [[Hb _] _].
  assert (Hsb : signed s b = b).
  { unfold le, zero, signed in Hy. apply Z.leb_le in Hy. destruct s; simpl in *; lia. }
  destruct Hc as [-> | (a & -> & Ha & Hca)].
  - simpl. split; [now left | reflexivity].
  - unfold add. rewrite Hsb. cbn [signed].
    destruct (a + b =? 0) eqn:E.
    + apply Z.eqb_eq in E. assert (a = 0) by lia. subst a. cbn [andb]. split.
      * apply accum_zero.
      * reflexivity.
    + apply Z.eqb_neq in E.
      assert (L : (a + b <? 0) = false) by (apply Z.ltb_ge; lia). rewrite L.
      rewrite Z.abs_eq by lia.
      assert (M : a <= round_mag (a + b) 1).
      { apply round_mag_ge; try lia. assumption. }
      destruct (mk_cases false (a + b) 1 ltac:(lia) ltac:(lia)) as [-> | (-> & H1 & H2)].
      * split; [now left | reflexivity].
      * split.
        -- right. eexists. split; [reflexivity | split; [lia | exact H2]].
        -- simpl. apply Z.leb_le. exact M.
Qed.

Lemma accum_nonNegative_or_inf (x : number) :
  accum x -> x = Inf false \/ exists m, x = Fin false m /\ 0 <= m.
Proof. intros [-> | (m & -> & H & _)]; [now left | right; eauto]. Qed.

(** Adding a running sum to a running sum. *)
Lemma add_accum_accum (c d : number) :
  accum c -> accum d -> accum (add c d) /\ le c (add c d) = true.
Proof.
  intros Hc [-> | (b & -> & Hb & Hcb)].
  - destruct Hc as [-> | (a & -> & _)]; simpl; split; try (now left); reflexivity.
  - destruct Hc as [-> | (a & -> & Ha & Hca)].
    + simpl. split; [now left | reflexivity].
    + unfold add. cbn [signed].
      destruct (a + b =? 0) eqn:E.
      * apply Z.eqb_eq in E. assert (a = 0) by lia. subst a. cbn [andb]. split.
        -- apply accum_zero.
        -- reflexivity.
      * apply Z.eqb_neq in E.
        assert (L : (a + b <? 0) = false) by (apply Z.ltb_ge; lia). rewrite L.
        rewrite Z.abs_eq by lia.
        assert (M : a <= round_mag (a + b) 1).
        { apply round_mag_ge; try lia. assumption. }
        destruct (mk_cases false (a + b) 1 ltac:(lia) ltac:(lia)) as [-> | (-> & H1 & H2)].
        -- split; [now left | reflexivity].
        -- split.
           ++ right. eexists. split; [reflexivity | split; [lia | exact H2]].
           ++ simpl. apply Z.leb_le. exact M.
Qed.

Lemma Map_set_Forall {V} (P : jsstring * V -> Prop) (k : jsstring) (v : V)
      (m : list (jsstring * V)) :
  (forall k', P (k', v)) -> Forall P m -> Forall P (Map_set k v m).
Proof.
  intros Hv H. induction H as [|[k' v'] m Hx H IH]; simpl.
  - constructor; [apply Hv | constructor].
  - destruct (str_eqb k' k); constructor; auto.
Qed.

Lemma Map_get_Forall {V} (P : jsstring * V -> Prop) (k : jsstring) (v : V)
      (m : list (jsstring * V)) :
  Forall P m -> Map_get k m = Some v -> exists k', P (k', v).
Proof.
  intros H. induction H as [|[k' v'] m Hx H IH]; simpl; [discriminate|].
  destruct (str_eqb k' k); [|exact IH].
  intros E. injection E as <-. now exists k'.
Qed.

(** The sums per group of non-negative amounts are running sums. *)
Lemma groupSum_accum (key : Row -> jsstring) (val : Row -> number) (rows : list Row) :
  (forall r, In r rows -> nonNegative (val r)) ->
  Forall (fun kv => accum (snd kv)) (groupSum key val rows).
Proof.
  unfold groupSum.
  assert (G : forall rs m,
             (forall r, In r rs -> nonNegative (val r)) ->
             Forall (fun kv => accum (snd kv)) m ->
             Forall (fun kv => accum (snd kv))
                    (fold_left (fun m r =>
                       Map_set (key r)
                         (add (match Map_get (key r) m with
                               | Some v => v
                               | None => zero
                               end) (val r)) m) rs m)).
  { induction rs as [|r rs IH]; intros m Hr Hm; simpl; [exact Hm|].
    apply IH; [intros r' Hr'; apply Hr; now right|].
    apply Map_set_Forall; [|exact Hm].
    intros k'. cbn [snd]. apply add_accum; [|apply Hr; now left].
    destruct (Map_get (key r) m) as [v|] eqn:E; [|apply accum_zero].
    destruct (Map_get_Forall _ _ _ _ Hm E) as (k0 & H0). exact H0. }
  intros H. apply G; [exact H | constructor].
Qed.

Lemma groupSum_nil (key : Row -> jsstring) (val : Row -> number) (rows : list Row) :
  groupSum key val rows = [] <-> rows = [].
Proof.
  split; [|intros ->; reflexivity].
  unfold groupSum.
  assert (G : forall rs (m : list (jsstring * number)),
             m <> [] ->
             fold_left (fun m r =>
                       Map_set (key r)
                         (add (match Map_get (key r) m with
                               | Some v => v
                               | None => zero
                               end) (val r)) m) rs m <> []).
  { induction rs as [|r rs IH]; intros m Hm; simpl; [exact Hm|].
    apply IH. destruct m as [|[k v] m]; simpl; [discriminate|].
    destruct (str_eqb k (key r)); discriminate. }
  destruct rows as [|r rows]; [reflexivity|]. simpl. intros H. exfalso.
  revert H. apply G. discriminate.
Qed.

(** ** One cumulative share *)

Lemma div_below (a t : Z) :
  0 <= a <= t -> 0 < t ->
  div (Fin false a) (Fin false t) = Fin false (round_mag (a * U) t)
  /\ 0 <= round_mag (a * U) t <= U.
Proof.
  intros Ha Ht. pose proof U_pos as HU.
  assert (B : 0 <= round_mag (a * U) t <= U).
  { split; [apply round_mag_nonneg; nia|].
    apply round_mag_le; [nia | lia | lia | apply canon_U | nia]. }
  split; [|exact B].
  unfold div. assert (E : (t =? 0) = false) by (apply Z.eqb_neq; lia). rewrite E.
  cbn [xorb]. apply mk_fin. pose proof U_lt_OVF. lia.
Qed.

Lemma mul_100_below (y : Z) :
  0 <= y <= U ->
  mul (Fin false y) (of_Z 100) = Fin false (round_mag (y * (100 * U)) U)
  /\ 0 <= round_mag (y * (100 * U)) U <= 100 * U.
Proof.
  intros Hy. pose proof U_pos as HU.
  assert (B : 0 <= round_mag (y * (100 * U)) U <= 100 * U).
  { split; [apply round_mag_nonneg; nia|].
    apply round_mag_le; [nia | lia | lia | apply canon_100U | nia]. }
  split; [|exact B].
  rewrite of_Z_100. unfold mul. cbn [xorb]. apply mk_fin.
  pose proof U_lt_OVF. lia.
Qed.

Lemma decimal_hundredths (n : Z) :
  0 <= n <= 10000 ->
  decimal false n (-2) = Fin false (round_mag (n * U) 100)
  /\ 0 <= round_mag (n * U) 100 <= 100 * U.
Proof.
  intros Hn. pose proof U_pos as HU.
  assert (B : 0 <= round_mag (n * U) 100 <= 100 * U).
  { split; [apply round_mag_nonneg; nia|].
    apply round_mag_le; [nia | lia | lia | apply canon_100U | nia]. }
  split; [|exact B].
  unfold decimal. change (0 <=? -2) with false. cbv iota.
  change (10 ^ (- -2)) with 100. apply mk_fin.
  pose proof U_lt_OVF. lia.
Qed.

Lemma forallb_repeat {A} (p : A -> bool) (x : A) (n : nat) :
  p x = true -> forallb p (repeat x n) = true.
Proof. intros H. induction n; simpl; [reflexivity | now rewrite H]. Qed.

(** Reading back what [toFixed(2)] printed: the double nearest to the
    printed hundredths. *)
Lemma toFixed2_read (w : Z) :
  0 <= w < 10 ^ 21 * U ->
  Number_of_string (toFixed 2 (Fin false w)) = decimal false (fixed_units 2 w) (-2).
Proof.
  intros Hw. pose proof U_pos as HU.
  unfold toFixed.
  assert (E : (10 ^ 21 * U <=? w) = false) by (apply Z.leb_gt; lia). rewrite E.
  cbn [andb app].
  assert (Hn : 0 <= fixed_units 2 w).
  { unfold fixed_units. apply Z.div_pos; [|lia].
    change (10 ^ Z.of_nat 2) with 100. lia. }
  destruct (digits_of_spec _ Hn) as (D1 & D2 & D3).
  set (ds := padStart0 (2 + 1) (digits_of (fixed_units 2 w))).
  assert (Hds : forallb is_digit ds = true).
  { unfold ds, padStart0. rewrite forallb_app, D1, andb_true_r.
    now apply forallb_repeat. }
  assert (Hv : digits_value ds = fixed_units 2 w).
  { unfold ds, padStart0. now rewrite digits_value_zeros. }
  assert (Hl : (3 <= length ds)%nat).
  { unfold ds, padStart0. rewrite length_app, repeat_length. lia. }
  set (k := (length ds - 2)%nat).
  pose proof (firstn_skipn k ds) as FS.
  assert (Hok : numeral_ok (Numeral false (firstn k ds) (Some (skipn k ds))) = true).
  { unfold numeral_ok. cbn [fraction]. rewrite FS.
    rewrite <- FS in Hds. rewrite forallb_app in Hds.
    apply andb_true_iff in Hds. destruct Hds as [-> ->]. cbn [andb].
    apply negb_true_iff, Nat.eqb_neq. lia. }
  replace (firstn k ds ++ c_dot :: skipn k ds)
    with (render (Numeral false (firstn k ds) (Some (skipn k ds))))
    by reflexivity.
  rewrite (Number_of_numeral _ Hok). cbn [numeral_value fraction].
  rewrite FS, Hv. f_equal.
  rewrite length_skipn. unfold k. lia.
Qed.

Lemma round_mag_0 (q : Z) : 0 < q -> round_mag 0 q = 0.
Proof.
  intros Hq. rewrite <- (Z.mul_0_l q) at 1.
  apply round_mag_exact; [lia | apply canon_0 | exact Hq].
Qed.

Lemma fixed_units_mono (f : nat) (m1 m2 : Z) :
  m1 <= m2 -> fixed_units f m1 <= fixed_units f m2.
Proof.
  intros H. unfold fixed_units. pose proof U_pos.
  apply Z.div_le_mono; [lia|].
  assert (0 < 10 ^ Z.of_nat f) by (apply Z.pow_pos_nonneg; lia). nia.
Qed.

Lemma fixed_units_100 : fixed_units 2 (100 * U) = 10000.
Proof.
  unfold fixed_units. pose proof U_pos. change (10 ^ Z.of_nat 2) with 100.
  replace (2 * (100 * U) * 100 + U) with (20001 * U) by ring.
  rewrite Z.div_mul_cancel_r by lia. reflexivity.
Qed.

Lemma fixed_units_0 : fixed_units 2 0 = 0.
Proof.
  unfold fixed_units. pose proof U_pos.
  replace (2 * 0 * 10 ^ Z.of_nat 2 + U) with (1 * U) by ring.
  rewrite Z.div_mul_cancel_r by lia. reflexivity.
Qed.

Lemma share_value (a t : Z) :
  0 <= a <= t -> 0 < t ->
  share (Fin false t) (Fin false a) = Fin false (share_units a t)
  /\ 0 <= share_units a t <= 100 * U.
Proof.
  intros Ha Ht. pose proof U_pos as HU. unfold share, share_units.
  destruct (div_below a t Ha Ht) as [-> By].
  destruct (mul_100_below _ By) as [-> Bw].
  rewrite toFixed2_read by lia.
  assert (Bn : 0 <= fixed_units 2 (round_mag (round_mag (a * U) t * (100 * U)) U)
               <= 10000).
  { rewrite <- fixed_units_100. rewrite <- fixed_units_0 at 1.
    split; apply fixed_units_mono; lia. }
  apply (decimal_hundredths _ Bn).
Qed.

(** A larger running sum has a larger (or the same) share. *)
Lemma share_mono (a1 a2 t : Z) :
  0 <= a1 <= a2 -> a2 <= t -> 0 < t ->
  le (share (Fin false t) (Fin false a1)) (share (Fin false t) (Fin false a2)) = true.
Proof.
  intros Ha H2 Ht. pose proof U_pos as HU.
  destruct (share_value a1 t ltac:(lia) Ht) as [-> _].
  destruct (share_value a2 t ltac:(lia) Ht) as [-> _].
  simpl. apply Z.leb_le. unfold share_units.
  destruct (div_below a1 t ltac:(lia) Ht) as [_ B1].
  destruct (div_below a2 t ltac:(lia) Ht) as [_ B2].
  destruct (mul_100_below _ B1) as [_ C1].
  assert (M1 : round_mag (a1 * U) t <= round_mag (a2 * U) t)
    by (apply round_mag_mono; nia).
  assert (M2 : round_mag (round_mag (a1 * U) t * (100 * U)) U
               <= round_mag (round_mag (a2 * U) t * (100 * U)) U)
    by (apply round_mag_mono; nia).
  pose proof (fixed_units_mono 2 _ _ M2) as M3.
  assert (0 <= fixed_units 2 (round_mag (round_mag (a1 * U) t * (100 * U)) U)).
  { rewrite <- fixed_units_0. apply fixed_units_mono. lia. }
  apply round_mag_mono; nia.
Qed.

(** The whole total has share 100, exactly. *)
Lemma share_whole (t : Z) :
  0 < t -> share (Fin false t) (Fin false t) = of_Z 100.
Proof.
  intros Ht. pose proof U_pos as HU.
  destruct (share_value t t ltac:(lia) Ht) as [-> _].
  rewrite of_Z_100. f_equal. unfold share_units.
  rewrite (Z.mul_comm t U), (round_mag_exact U t) by (try lia; apply canon_U).
  replace (U * (100 * U)) with (100 * U * U) by ring.
  rewrite (round_mag_exact (100 * U) U) by (try lia; apply canon_100U).
  rewrite fixed_units_100.
  replace (10000 * U) with (100 * U * 100) by ring.
  apply round_mag_exact; try lia. apply canon_100U.
Qed.

(** Nothing has share 0. *)
Lemma share_none (t : Z) :
  0 < t -> share (Fin false t) (Fin false 0) = zero.
Proof.
  intros Ht. pose proof U_pos as HU.
  destruct (share_value 0 t ltac:(lia) Ht) as [-> _].
  unfold zero. f_equal. unfold share_units.
  rewrite Z.mul_0_l, round_mag_0 by lia.
  rewrite Z.mul_0_l, round_mag_0 by lia.
  reflexivity.
Qed.

(** ** Aggregator: Pareto by merchant *)

Lemma paretoMap_share (total cum : number) (d : jsstring * number)
      (l : list (jsstring * number)) :
  map cumulativeSharePercent (paretoMap total cum (d :: l))
  = share total (add cum (snd d))
    :: map cumulativeSharePercent (paretoMap total (add cum (snd d)) l).
Proof. reflexivity. Qed.

Lemma paretoMap_length (total cum : number) (l : list (jsstring * number)) :
  length (paretoMap total cum l) = length l.
Proof.
  revert cum. induction l as [|d l IH]; intros cum; simpl; [reflexivity|].
  now rewrite IH.
Qed.

(** The last share is the share of the whole sum. *)
Lemma paretoMap_last (total cum : number) (l : list (jsstring * number)) :
  l <> [] ->
  last (map cumulativeSharePercent (paretoMap total cum l)) zero
  = share total (fold_left (fun s d => add s (snd d)) l cum).
Proof.
  revert cum. induction l as [|d l IH]; intros cum Hne; [congruence|].
  rewrite paretoMap_share. cbn [fold_left].
  destruct l as [|d' l]; [reflexivity|].
  rewrite <- IH by discriminate. reflexivity.
Qed.

Lemma fold_add_inf (l : list (jsstring * number)) :
  Forall (fun kv => accum (snd kv)) l ->
  fold_left (fun s d => add s (snd d)) l (Inf false) = Inf false.
Proof.
  induction 1 as [|d l Hd _ IH]; simpl; [reflexivity|].
  destruct Hd as [-> | (b & -> & _)]; simpl; exact IH.
Qed.

(** Along a finite sum of running sums the shares never go down, and every
    running sum stays between its start and the whole. *)
Lemma paretoMap_sorted (l : list (jsstring * number)) :
  Forall (fun kv => accum (snd kv)) l ->
  forall a s t : Z,
    0 <= a -> canon a ->
    fold_left (fun s d => add s (snd d)) l (Fin false a) = Fin false s ->
    s <= t -> 0 < t ->
    a <= s
    /\ nonDecreasing
         (share (Fin false t) (Fin false a)
          :: map cumulativeSharePercent (paretoMap (Fin false t) (Fin false a) l))
    /\ Forall (fun x => exists a', x = share (Fin false t) (Fin false a') /\ a <= a' <= s)
              (map cumulativeSharePercent (paretoMap (Fin false t) (Fin false a) l)).
Proof.
  induction 1 as [|d l Hd Hl IH]; intros a s t Ha Hca Hs Hst Ht.
  - simpl in Hs. injection Hs as <-. split; [lia|]. split; [|constructor].
    simpl. auto.
  - cbn [fold_left] in Hs.
    destruct (add_accum_accum (Fin false a) (snd d)) as [Hacc Hle];
      [right; exists a; auto | exact Hd |].
    destruct Hacc as [E | (a' & E & Ha' & Hca')].
    + rewrite E, fold_add_inf in Hs by assumption. discriminate Hs.
    + rewrite E in Hs, Hle. simpl in Hle. apply Z.leb_le in Hle.
      destruct (IH a' s t Ha' Hca' Hs Hst Ht) as (B & S & F).
      split; [lia|]. rewrite paretoMap_share, E. split.
      * split; [|exact S]. apply share_mono; lia.
      * constructor.
        -- exists a'. split; [reflexivity | lia].
        -- eapply Forall_impl; [|exact F]. intros x (a0 & -> & Hb).
           exists a0. split; [reflexivity | lia].
Qed.

Lemma nonDecreasing_tail (x : number) (l : list number) :
  nonDecreasing (x :: l) -> nonDecreasing l.
Proof. intros [_ H]. exact H. Qed.

Lemma paretoList_accum (rs : list Row) :
  (forall r, In r rs -> nonNegative (openAmount r)) ->
  Forall (fun kv => accum (snd kv)) (paretoList rs).
Proof.
  intros H. unfold paretoList.
  eapply Permutation_Forall; [symmetry; apply sortBy_perm|].
  now apply groupSum_accum.
Qed.

Lemma paretoList_nil (rs : list Row) : paretoList rs = [] <-> rs = [].
Proof. unfold paretoList. rewrite sortBy_nil. apply groupSum_nil. Qed.

Lemma near100_100 : near100 (of_Z 100).
Proof. split; vm_compute; reflexivity. Qed.

(** A sum is a number whose magnitude is not negative, whatever is added. *)
Lemma add_magnitude (x y : number) : wfn (add x y).
Proof.
  destruct x as [|a|a m], y as [|b|b n]; simpl; auto.
  - now destruct (Bool.eqb a b).
  - destruct (signed a m + signed b n =? 0); [simpl; lia|].
    unfold mk. destruct (_ <? OVF); [|exact I].
    simpl. apply round_mag_nonneg; lia.
Qed.

Lemma fold_add_magnitude (l : list (jsstring * number)) (c : number) :
  wfn c -> wfn (fold_left (fun s d => add s (snd d)) l c).
Proof.
  revert c. induction l as [|d l IH]; intros c Hc; [exact Hc|].
  cbn [fold_left]. apply IH, add_magnitude.
Qed.

(** A finite sum that is not 0 has share 100 of itself, whatever its sign. *)
Lemma share_self (sg : bool) (s : Z) :
  0 < s -> share (Fin sg s) (Fin sg s) = of_Z 100.
Proof.
  intros Hs. rewrite <- (share_whole s Hs). unfold share. do 3 f_equal.
  unfold div. destruct (s =? 0); now destruct sg.
Qed.

(** The share of a bar is the share of the sum of the bars up to it. *)
Lemma paretoMap_nth (total : number) (l : list (jsstring * number)) :
  forall (cum : number) (i : nat) (p : ParetoPoint),
    nth_error (paretoMap total cum l) i = Some p ->
    cumulativeSharePercent p
    = share total (fold_left (fun s d => add s (snd d)) (firstn (S i) l) cum).
Proof.
  induction l as [|d l IH]; intros cum i p H; [now destruct i|].
  destruct i as [|i].
  - cbn in H. injection H as <-. reflexivity.
  - cbn [paretoMap nth_error] in H. apply IH in H. exact H.
Qed.

(** C2, as the specification states it, fails: a single row whose open
    amount is 0 has the final share 0, not 100; with a negative open
    amount the shares go down (200, then 100); and with open amounts whose
    sum overflows the last share is NaN. *)
Lemma C2_pareto_counterexample :
  let r0 := mkRow (Some (lit "2025-07")) (lit "X") (lit "M1")
                  zero zero zero VUndefined VUndefined VUndefined VUndefined in
  let r1 := mkRow (Some (lit "2025-07")) (lit "X") (lit "M1")
                  (of_Z 10) zero zero VUndefined VUndefined VUndefined VUndefined in
  let r2 := mkRow (Some (lit "2025-07")) (lit "X") (lit "M2")
                  (of_Z (-5)) zero zero VUndefined VUndefined VUndefined VUndefined in
  let r3 := mkRow (Some (lit "2025-07")) (lit "X") (lit "M1")
                  (of_Z (10 ^ 308)) zero zero
                  VUndefined VUndefined VUndefined VUndefined in
  let r4 := mkRow (Some (lit "2025-07")) (lit "X") (lit "M2")
                  (of_Z (10 ^ 308)) zero zero
                  VUndefined VUndefined VUndefined VUndefined in
  (map cumulativeSharePercent (useParetoByMerchant [r0]) = [zero]
   /\ ~ near100 zero)
  /\ (map cumulativeSharePercent (useParetoByMerchant [r1; r2])
      = [of_Z 200; of_Z 100]
      /\ ~ nonDecreasing [of_Z 200; of_Z 100])
  /\ (map cumulativeSharePercent (useParetoByMerchant [r3; r4]) = [zero; NaN]
      /\ ~ near100 NaN /\ ~ nonDecreasing [zero; NaN]).
Proof.
  intros r0 r1 r2 r3 r4. split; [split | split; [split | split; [|split]]].
  - vm_compute. reflexivity.
  - intros [H _].
    assert (E : le (decimal false 9999 (-2)) zero = false) by (vm_compute; reflexivity).
    rewrite E in H. discriminate H.
  - vm_compute. reflexivity.
  - intros [H _].
    assert (E : le (of_Z 200) (of_Z 100) = false) by (vm_compute; reflexivity).
    rewrite E in H. discriminate H.
  - vm_compute. reflexivity.
  - intros [H _].
    assert (E : le (decimal false 9999 (-2)) NaN = false) by (vm_compute; reflexivity).
    rewrite E in H. discriminate H.
  - intros [H _].
    assert (E : le zero NaN = false) by (vm_compute; reflexivity).
    rewrite E in H. discriminate H.
Qed.

(** C2 (amended): the result is empty exactly for the empty set.  When the
    sum of the open amounts is finite and not 0, the final cumulative share
    is exactly 100.  When the sum is 0 (or is no number) the divisor is 1:
    the share of a bar is then the raw sum of the bars up to it, times 100
    and rounded to two decimals.  For rows whose open amounts are finite
    and not negative and whose sum stays finite, the cumulative shares
    never decrease, and all of them are 0 when the sum is 0. *)
Theorem C2_pareto_shares :
  forall rs : list Row,
    let shares := map cumulativeSharePercent (useParetoByMerchant rs) in
    (useParetoByMerchant rs = [] <-> rs = [])
    /\ (isFinite (paretoSum rs) = true -> truthy (paretoSum rs) = true ->
        rs <> []
        /\ paretoTotal (paretoList rs) = paretoSum rs
        /\ last shares zero = of_Z 100
        /\ near100 (last shares zero))
    /\ (truthy (paretoSum rs) = false ->
        paretoTotal (paretoList rs) = of_Z 1
        /\ forall (i : nat) (p : ParetoPoint),
             nth_error (useParetoByMerchant rs) i = Some p ->
             cumulativeSharePercent p
             = share (of_Z 1)
                     (fold_left (fun s d => add s (snd d))
                                (firstn (S i) (paretoList rs)) zero))
    /\ ((forall r, In r rs -> nonNegative (openAmount r)) ->
        isFinite (paretoSum rs) = true ->
        nonDecreasing shares
        /\ (truthy (paretoSum rs) = false -> Forall (fun x => x = zero) shares)).
Proof.
  intros rs shares.
  pose proof U_pos as HU.
  assert (Hnil : useParetoByMerchant rs = [] <-> rs = []).
  { unfold useParetoByMerchant. rewrite <- paretoList_nil. split.
    - intros H. apply length_zero_iff_nil.
      rewrite <- (paretoMap_length (paretoTotal (paretoList rs)) zero), H.
      reflexivity.
    - intros ->. reflexivity. }
  assert (Htot : paretoTotal (paretoList rs)
                 = if truthy (paretoSum rs) then paretoSum rs else of_Z 1)
    by reflexivity.
  split; [exact Hnil|]. split; [|split].
  - intros Hfin Htr. rewrite Htr in Htot.
    assert (Hne : rs <> []).
    { intros ->.
      assert (E : truthy (paretoSum []) = false) by (vm_compute; reflexivity).
      rewrite E in Htr. discriminate Htr. }
    assert (Hlast : last shares zero = of_Z 100).
    { unfold shares, useParetoByMerchant.
      rewrite paretoMap_last by (rewrite paretoList_nil; exact Hne).
      rewrite Htot. fold (paretoSum rs).
      assert (W : wfn (paretoSum rs)).
      { apply fold_add_magnitude. simpl. lia. }
      destruct (paretoSum rs) as [| |sg s]; try discriminate Hfin.
      cbn [truthy] in Htr. apply negb_true_iff, Z.eqb_neq in Htr.
      simpl in W. apply share_self. lia. }
    split; [exact Hne|]. split; [exact Htot|]. split; [exact Hlast|].
    rewrite Hlast. apply near100_100.
  - intros Htr. rewrite Htr in Htot. split; [exact Htot|].
    intros i p H. unfold useParetoByMerchant in H. cbv zeta in H.
    rewrite Htot in H. exact (paretoMap_nth _ _ _ _ _ H).
  - intros Hrows Hfin.
    pose proof (paretoList_accum rs Hrows) as Hacc.
    assert (Hsum : exists s, paretoSum rs = Fin false s /\ 0 <= s).
    { unfold paretoSum in *.
      destruct (fold_left _ (paretoList rs) zero) as [| |sg s] eqn:E;
        try discriminate Hfin.
      assert (A : accum (Fin sg s)).
      { rewrite <- E. clear E Hfin.
        assert (G : forall (l : list (jsstring * number)) c,
                    Forall (fun kv => accum (snd kv)) l -> accum c ->
                    accum (fold_left (fun s d => add s (snd d)) l c)).
        { induction l as [|d l IH]; intros c Hl Hc; simpl; [exact Hc|].
          inversion Hl; subst. apply IH; [assumption|].
          now apply add_accum_accum. }
        apply G; [exact Hacc | apply accum_zero]. }
      destruct A as [A | (m & A & Hm & _)]; [discriminate A|].
      injection A as -> ->. exists m. auto. }
    destruct Hsum as (s & Es & Hs).
    assert (Hshape : forall t, s <= t -> 0 < t ->
              nonDecreasing (map cumulativeSharePercent
                                  (paretoMap (Fin false t) zero (paretoList rs)))
              /\ Forall (fun x => exists a', x = share (Fin false t) (Fin false a')
                                             /\ 0 <= a' <= s)
                        (map cumulativeSharePercent
                             (paretoMap (Fin false t) zero (paretoList rs)))).
    { intros t Hst Ht.
      destruct (paretoMap_sorted _ Hacc 0 s t ltac:(lia) canon_0 Es Hst Ht)
        as (_ & S & F).
      split; [exact (nonDecreasing_tail _ _ S) | exact F]. }
    unfold shares, useParetoByMerchant. cbv zeta. rewrite Htot, Es.
    cbn [truthy]. destruct (s =? 0) eqn:Ez; cbn [negb].
    + apply Z.eqb_eq in Ez. subst s. rewrite of_Z_1.
      destruct (Hshape U ltac:(lia) HU) as [S F].
      split; [exact S|]. intros _.
      eapply Forall_impl; [|exact F]. intros x (a' & -> & Hb).
      assert (a' = 0) by lia. subst a'. now apply share_none.
    + apply Z.eqb_neq in Ez.
      destruct (Hshape s ltac:(lia) ltac:(lia)) as [S F].
      split; [exact S|]. discriminate.
Qed.

(** Witness of C2 on the demo dataset. *)
Lemma C2_pareto_shares_witness :
  (forall r, In r seed -> nonNegative (openAmount r))
  /\ isFinite (paretoSum seed) = true
  /\ nonDecreasing (map cumulativeSharePercent (useParetoByMerchant seed)).
Proof.
  assert (H1 : forall r, In r seed -> nonNegative (openAmount r)).
  { intros r [<- | [<- | [<- | [<- | [<- | []]]]]];
      vm_compute; repeat split; discriminate. }
  assert (H2 : isFinite (paretoSum seed) = true) by (vm_compute; reflexivity).
  split; [exact H1 | split; [exact H2 |]].
  exact (proj1 (proj2 (proj2 (proj2 (C2_pareto_shares seed))) H1 H2)).
Defined.

(** ** Arithmetic on signed doubles *)

Lemma is_double_wfn (x : number) : is_double x -> wfn x.
Proof. destruct x; simpl; tauto. Qed.

Lemma mk_wfn (s : bool) (p q : Z) : 0 <= p -> 0 < q -> wfn (mk s p q).
Proof. intros Hp Hq. apply is_double_wfn. now apply mk_is_double. Qed.

Lemma mk_not_NaN (s : bool) (p q : Z) : isNaN (mk s p q) = false.
Proof. unfold mk. now destruct (round_mag p q <? OVF). Qed.

Lemma add_wfn (x y : number) : wfn x -> wfn y -> wfn (add x y).
Proof.
  destruct x as [|a|a m], y as [|b|b n]; simpl; auto.
  - now destruct (Bool.eqb a b).
  - intros Hm Hn. destruct (signed a m + signed b n =? 0); [simpl; lia|].
    apply mk_wfn; lia.
Qed.

Lemma neg_wfn (x : number) : wfn x -> wfn (neg x).
Proof. destruct x; simpl; auto. Qed.

Lemma sub_wfn (x y : number) : wfn x -> wfn y -> wfn (sub x y).
Proof. intros Hx Hy. apply add_wfn; [assumption | now apply neg_wfn]. Qed.

Lemma div_wfn (x y : number) : wfn x -> wfn y -> wfn (div x y).
Proof.
  destruct x as [|a|a m], y as [|b|b n]; simpl; auto; try lia.
  intros Hm Hn. pose proof U_pos.
  destruct (n =? 0) eqn:E.
  - now destruct (m =? 0).
  - apply Z.eqb_neq in E. apply mk_wfn; nia.
Qed.

Lemma min2_cases (x y : number) :
  isNaN x = false -> isNaN y = false -> min2 x y = x \/ min2 x y = y.
Proof.
  intros Hx Hy. unfold min2. rewrite Hx, Hy. cbn [orb].
  destruct (lt x y); [now left|]. destruct (lt y x); [now right|].
  destruct (signbit x); auto.
Qed.

Lemma max2_cases (x y : number) :
  isNaN x = false -> isNaN y = false -> max2 x y = x \/ max2 x y = y.
Proof.
  intros Hx Hy. unfold max2. rewrite Hx, Hy. cbn [orb].
  destruct (lt x y); [now right|]. destruct (lt y x); [now left|].
  destruct (signbit x); auto.
Qed.

Lemma add_not_NaN_fin (x y : number) :
  isNaN x = false -> isFinite y = true -> isNaN (add x y) = false.
Proof.
  destruct x as [|a|a m], y as [|b|b n]; simpl; try discriminate; auto.
  intros _ _. destruct (signed a m + signed b n =? 0); [reflexivity|].
  apply mk_not_NaN.
Qed.

Lemma sub_not_NaN_fin (x y : number) :
  isNaN x = false -> isFinite y = true -> isNaN (sub x y) = false.
Proof.
  intros Hx Hy. apply add_not_NaN_fin; [assumption|]. now destruct y.
Qed.

Lemma div_not_NaN_pos (x : number) (t : Z) :
  isNaN x = false -> 0 < t -> isNaN (div x (Fin false t)) = false.
Proof.
  intros Hx Ht. destruct x as [|a|a m]; simpl; try discriminate; auto.
  assert (E : (t =? 0) = false) by (apply Z.eqb_neq; lia). rewrite E.
  apply mk_not_NaN.
Qed.

(** [Math.floor] gives an infinity or a whole number. *)
Lemma Math_floor_whole (w : number) :
  wfn w -> isNaN w = false ->
  (exists s, Math_floor w = Inf s)
  \/ (exists s k, Math_floor w = Fin s (k * U) /\ 0 <= k).
Proof.
  intros Hw Hn. pose proof U_pos as HU.
  destruct w as [|s|s m]; [discriminate | left; now exists s |].
  simpl in Hw. right. unfold Math_floor.
  destruct (m mod U =? 0) eqn:E.
  - apply Z.eqb_eq in E. exists s, (m / U). split.
    + f_equal. pose proof (Z.div_mod m U ltac:(lia)). lia.
    + apply Z.div_pos; lia.
  - assert (0 <= m / U) by (apply Z.div_pos; lia).
    destruct s; [exists true, (m / U + 1) | exists false, (m / U)]; split; auto; lia.
Qed.

(** Natural numbers up to 2^53 are doubles, and counting up by one is exact. *)
Lemma of_nat_small (n : nat) :
  Z.of_nat n <= 2 ^ 53 -> of_nat n = Fin false (Z.of_nat n * U).
Proof. intros H. unfold of_nat. apply of_Z_small. lia. Qed.

Lemma add_one_exact (n : nat) :
  Z.of_nat n < 2 ^ 53 -> add (of_nat n) (of_Z 1) = of_nat (S n).
Proof.
  intros H. pose proof U_pos as HU.
  rewrite !of_nat_small, of_Z_1 by lia.
  unfold add. cbn [signed andb].
  assert (E : (Z.of_nat n * U + U =? 0) = false) by (apply Z.eqb_neq; nia).
  rewrite E.
  assert (L : (Z.of_nat n * U + U <? 0) = false) by (apply Z.ltb_ge; nia).
  rewrite L, Z.abs_eq by nia.
  replace (Z.of_nat n * U + U) with (Z.of_nat (S n) * U)
    by (rewrite Nat2Z.inj_succ; unfold Z.succ; ring).
  fold (of_Z (Z.of_nat (S n))).
  pose proof (of_Z_small (Z.of_nat (S n)) ltac:(lia)) as O.
  unfold of_Z in O.
  assert (E2 : (Z.of_nat (S n) <? 0) = false) by (apply Z.ltb_ge; lia).
  rewrite E2, Z.abs_eq in O by lia. exact O.
Qed.

Lemma sub_one_exact (n : nat) :
  (1 <= n)%nat -> Z.of_nat n <= 2 ^ 53 ->
  sub (of_nat n) (of_Z 1) = Fin false (Z.of_nat (n - 1) * U).
Proof.
  intros H1 H. pose proof U_pos as HU.
  rewrite of_nat_small, of_Z_1 by lia.
  unfold sub, neg, add. cbn [signed andb negb].
  replace (Z.of_nat n * U + - U) with (Z.of_nat (n - 1) * U)
    by (rewrite Nat2Z.inj_sub by lia; change (Z.of_nat 1) with 1; ring).
  destruct (Z.of_nat (n - 1) * U =? 0) eqn:E.
  - apply Z.eqb_eq in E. now rewrite E.
  - apply Z.eqb_neq in E.
    assert (L : (Z.of_nat (n - 1) * U <? 0) = false) by (apply Z.ltb_ge; nia).
    rewrite L, Z.abs_eq by nia.
    pose proof (of_Z_small (Z.of_nat (n - 1)) ltac:(lia)) as O.
    unfold of_Z in O.
    assert (E2 : (Z.of_nat (n - 1) <? 0) = false) by (apply Z.ltb_ge; lia).
    rewrite E2, Z.abs_eq in O by lia. exact O.
Qed.

Lemma max2_zero_nonneg (m : Z) : 0 <= m -> max2 zero (Fin false m) = Fin false m.
Proof.
  intros Hm. unfold max2, zero. cbn [isNaN orb lt signed signbit].
  destruct (0 <? m) eqn:E; [reflexivity|].
  apply Z.ltb_ge in E. assert (m = 0) by lia. subst m.
  rewrite Z.ltb_irrefl. reflexivity.
Qed.

Lemma max2_zero_nonpos (s : bool) (m : Z) :
  signed s m <= 0 -> max2 zero (Fin s m) = zero.
Proof.
  intros Hm. unfold max2, zero. cbn [isNaN orb lt signed signbit].
  assert (E : (0 <? signed s m) = false) by (apply Z.ltb_ge; lia). rewrite E.
  now destruct (signed s m <? 0).
Qed.

(** The clamp [Math.max(0, Math.min(n - 1, v))] of a whole number or an
    infinity designates one of the [n] elements. *)
Lemma clamp_index (n1 : Z) (v : number) :
  0 <= n1 ->
  ((exists s, v = Inf s) \/ (exists s k, v = Fin s (k * U) /\ 0 <= k)) ->
  exists j, max2 zero (min2 (Fin false (n1 * U)) v) = Fin false (j * U)
            /\ 0 <= j <= n1.
Proof.
  intros Hn Hv. pose proof U_pos as HU.
  assert (Hb : max2 zero (Fin false (n1 * U)) = Fin false (n1 * U))
    by (apply max2_zero_nonneg; nia).
  destruct Hv as [(s & ->) | (s & k & -> & Hk)].
  - destruct s.
    + exists 0. split; [|lia]. reflexivity.
    + exists n1. split; [|lia]. exact Hb.
  - unfold min2. cbn [isNaN orb lt signed signbit].
    destruct (n1 * U <? signed s (k * U)) eqn:E1.
    + exists n1. split; [exact Hb | lia].
    + apply Z.ltb_ge in E1.
      assert (Hmin : (if signed s (k * U) <? n1 * U then Fin s (k * U) else Fin s (k * U))
                     = Fin s (k * U)) by (now destruct (_ <? _)).
      rewrite Hmin. clear Hmin.
      destruct (Z_lt_le_dec 0 (signed s (k * U))) as [P | P].
      * destruct s; cbn [signed] in *; [nia|].
        exists k. split; [apply max2_zero_nonneg; nia | nia].
      * exists 0. split; [|lia]. now apply max2_zero_nonpos.
Qed.

Lemma array_index_whole (j : Z) :
  0 <= j -> array_index (Fin false (j * U)) = Some (Z.to_nat j).
Proof.
  intros Hj. pose proof U_pos. unfold array_index.
  rewrite Z.mod_mul, Z.div_mul by lia. reflexivity.
Qed.

(** The subscript computed for a ratio that is not NaN designates a bin. *)
Lemma binIndex_valid (lo hi : number) (t : Z) (n : nat) (x0 : number) :
  (1 <= n)%nat -> Z.of_nat n <= 2 ^ 53 ->
  wfn lo -> isFinite lo = true ->
  wfn hi -> isNaN hi = false ->
  0 < t ->
  wfn x0 -> isNaN x0 = false ->
  exists i, array_index (binIndex lo hi (Fin false t) n x0) = Some i /\ (i < n)%nat.
Proof.
  intros Hn1 Hn Hlo Flo Hhi Nhi Ht Hx Nx.
  unfold binIndex. rewrite sub_one_exact by assumption.
  set (e := decimal false 1 (-12)).
  assert (He : wfn e /\ isFinite e = true).
  { unfold e. split; vm_compute; [discriminate | reflexivity]. }
  destruct He as [We Fe].
  assert (Wh : wfn (sub hi e)) by now apply sub_wfn.
  assert (Nh : isNaN (sub hi e) = false) by now apply sub_not_NaN_fin.
  set (x := min2 x0 (sub hi e)).
  assert (Wx : wfn x /\ isNaN x = false).
  { unfold x. destruct (min2_cases x0 (sub hi e) Nx Nh) as [-> | ->]; auto. }
  destruct Wx as [Wx Nx'].
  set (w := div (sub x lo) (Fin false t)).
  assert (Ww : wfn w).
  { unfold w. apply div_wfn; [now apply sub_wfn | simpl; lia]. }
  assert (Nw : isNaN w = false).
  { unfold w. apply div_not_NaN_pos; [now apply sub_not_NaN_fin | assumption]. }
  destruct (clamp_index (Z.of_nat (n - 1)) (Math_floor w) ltac:(lia)
                        (Math_floor_whole w Ww Nw)) as (j & -> & Hj).
  rewrite array_index_whole by lia.
  exists (Z.to_nat j). split; [reflexivity | lia].
Qed.

(** ** Aggregator: ratio histogram, the counting pass *)

Lemma zero_of_nat : zero = of_nat 0.
Proof. symmetry. apply (of_nat_small 0). simpl. lia. Qed.

Lemma incr_length (i : nat) (cs : list nat) : length (incr i cs) = length cs.
Proof.
  revert i. induction cs as [|c cs IH]; intros [|i]; simpl; auto.
Qed.

Lemma incr_nth (i j : nat) (cs : list nat) :
  (i < length cs)%nat ->
  nth j (incr i cs) 0%nat = (nth j cs 0 + if (i =? j)%nat then 1 else 0)%nat.
Proof.
  revert i j. induction cs as [|c cs IH]; intros [|i] [|j] H; simpl in *;
    try lia.
  apply IH. lia.
Qed.

Lemma incr_sum (i : nat) (cs : list nat) :
  (i < length cs)%nat -> list_sum (incr i cs) = S (list_sum cs).
Proof.
  revert i. induction cs as [|c cs IH]; intros [|i] H; simpl in *; try lia.
  rewrite IH by lia. lia.
Qed.

Lemma le_list_sum (c : nat) (cs : list nat) : In c cs -> (c <= list_sum cs)%nat.
Proof.
  induction cs as [|x cs IH]; simpl; [tauto|].
  intros [-> | H]; [lia | specialize (IH H); lia].
Qed.

(** [bins[i].數量++] on counts that are whole numbers. *)
Lemma bumpAt_counts (i : nat) (bins : list Bin) (cs : list nat) :
  map count bins = map of_nat cs ->
  (i < length bins)%nat ->
  Z.of_nat (list_sum cs) < 2 ^ 53 ->
  exists bins',
    bumpAt i bins = Some bins'
    /\ map layout bins' = map layout bins
    /\ map count bins' = map of_nat (incr i cs).
Proof.
  revert i cs. induction bins as [|b bins IH]; intros i cs Hc Hi Hs.
  - simpl in Hi. lia.
  - destruct cs as [|c cs]; [discriminate Hc|].
    simpl in Hc. injection Hc as Hb Hc.
    destruct i as [|i].
    + eexists. split; [reflexivity|]. split; [reflexivity|].
      simpl. rewrite Hb, Hc. f_equal. apply add_one_exact.
      simpl in Hs. lia.
    + destruct (IH i cs Hc ltac:(simpl in Hi; lia) ltac:(simpl in Hs; lia))
        as (bins' & E & L & C).
      exists (b :: bins'). simpl. rewrite E. split; [reflexivity|].
      split; [now rewrite L | now rewrite C, Hb].
Qed.

Lemma tally_cons (lo hi stp : number) (n : nat) (r : Row) (rs : list Row) (j : nat) :
  tally lo hi stp n (r :: rs) j
  = ((match binOf lo hi stp n r with
      | Some i => if (i =? j)%nat then 1 else 0
      | None => 0
      end) + tally lo hi stp n rs j)%nat.
Proof.
  unfold tally. simpl. destruct (binOf lo hi stp n r) as [i|]; [|reflexivity].
  destruct (i =? j)%nat; reflexivity.
Qed.

(** The counting pass goes through when every row has a bin, and then
    each bin has gained the number of rows that fall into it. *)
Lemma countRows_spec (lo hi stp : number) (rs : list Row) :
  forall (bins : list Bin) (cs : list nat),
    map count bins = map of_nat cs ->
    (forall r, In r rs ->
               exists i, binOf lo hi stp (length bins) r = Some i
                         /\ (i < length bins)%nat) ->
    Z.of_nat (list_sum cs + length rs) < 2 ^ 53 ->
    exists bins' cs',
      countRows lo hi stp bins rs = Ok bins'
      /\ map layout bins' = map layout bins
      /\ map count bins' = map of_nat cs'
      /\ (forall j, nth j cs' 0%nat
                    = (nth j cs 0 + tally lo hi stp (length bins) rs j)%nat)
      /\ list_sum cs' = (list_sum cs + length rs)%nat.
Proof.
  induction rs as [|r rs IH]; intros bins cs Hc Hr Hs.
  - exists bins, cs. simpl. repeat split; auto.
  - destruct (Hr r (or_introl eq_refl)) as (i & Ei & Hi).
    assert (Hlen : length bins = length cs).
    { rewrite <- (length_map count), Hc. apply length_map. }
    destruct (bumpAt_counts i bins cs Hc Hi ltac:(lia)) as (bins1 & E1 & L1 & C1).
    assert (Hlen1 : length bins1 = length bins).
    { rewrite <- (length_map layout bins1), L1. apply length_map. }
    destruct (IH bins1 (incr i cs) C1) as (bins' & cs' & E & L & C & T & S).
    + intros r' Hr'. rewrite Hlen1. apply Hr. now right.
    + rewrite incr_sum by lia. simpl in Hs. lia.
    + exists bins', cs'. cbn [countRows]. unfold countRow.
      unfold binOf in Ei. rewrite Ei, E1, E.
      split; [reflexivity|]. split; [now rewrite L, L1|]. split; [exact C|].
      split.
      * intros j. rewrite T, incr_nth by lia. rewrite Hlen1, tally_cons.
        unfold binOf. rewrite Ei. lia.
      * rewrite S, incr_sum by lia. simpl. lia.
Qed.

(** The bins the loop builds all start empty, and there are never more of
    them than an array can hold. *)
Lemma buildBins_fresh (fuel : nat) :
  forall (a hi stp : number) (acc bins : list Bin),
    buildBins fuel a hi stp acc = Ok bins ->
    Z.of_nat (length acc) <= maxArrayLength ->
    (exists fresh, bins = acc ++ fresh /\ Forall (fun b => count b = zero) fresh)
    /\ Z.of_nat (length bins) <= maxArrayLength.
Proof.
  induction fuel as [|f IH]; intros a hi stp acc bins H Hl.
  - simpl in H. destruct (lt a hi); [discriminate H|]. injection H as <-.
    split; [|exact Hl]. exists []. rewrite app_nil_r. split; [reflexivity | constructor].
  - cbn [buildBins] in H. destruct (lt a hi).
    + destruct (maxArrayLength <=? Z.of_nat (length acc)) eqn:G; [discriminate H|].
      apply Z.leb_gt in G.
      apply IH in H.
      * destruct H as [(fresh & -> & F) B]. split; [|exact B].
        eexists. rewrite <- app_assoc. split; [reflexivity|].
        constructor; [reflexivity | exact F].
      * rewrite length_app. simpl. lia.
    + injection H as <-. split; [|exact Hl].
      exists []. rewrite app_nil_r. split; [reflexivity | constructor].
Qed.

Lemma map_count_fresh (bins : list Bin) :
  Forall (fun b => count b = zero) bins ->
  map count bins = map of_nat (repeat 0%nat (length bins)).
Proof.
  induction 1 as [|b bins Hb _ IH]; simpl; [reflexivity|].
  now rewrite Hb, IH, zero_of_nat.
Qed.

Lemma list_sum_repeat_0 (n : nat) : list_sum (repeat 0%nat n) = 0%nat.
Proof. induction n; simpl; auto. Qed.

Lemma nth_repeat_0 (j n : nat) : nth j (repeat 0%nat n) 0%nat = 0%nat.
Proof.
  revert j. induction n as [|n IH]; intros [|j]; simpl; auto.
Qed.

(** ** Aggregator: ratio histogram, the loop that builds the bins *)

Lemma rne_error (p q : Z) :
  0 <= p -> 0 < q -> 2 * p - q <= 2 * (rne p q * q) <= 2 * p + q.
Proof.
  intros Hp Hq. unfold rne.
  pose proof (Z.div_mod p q ltac:(lia)) as D.
  pose proof (Z.mod_pos_bound p q Hq) as B.
  destruct (2 * (p mod q) <? q) eqn:E1; [apply Z.ltb_lt in E1; nia|].
  apply Z.ltb_ge in E1.
  destruct (q <? 2 * (p mod q)) eqn:E2; [apply Z.ltb_lt in E2; nia|].
  apply Z.ltb_ge in E2.
  destruct (Z.even (p / q)); nia.
Qed.

(** Rounding moves a magnitude by at most half a unit in its last place. *)
Lemma round_mag_error (p : Z) :
  0 <= p ->
  2 * p - 2 ^ shift_of p <= 2 * round_mag p 1 <= 2 * p + 2 ^ shift_of p.
Proof.
  intros Hp. rewrite round_mag_unfold, Z.div_1_r, Z.mul_1_l.
  pose proof (shift_of_nonneg p).
  apply rne_error; [assumption | apply Z.pow_pos_nonneg; lia].
Qed.

Lemma shift_of_big : shift_of (2 ^ 24 * U) = 1046.
Proof.
  rewrite U_eq, <- Z.pow_add_r by lia. unfold shift_of.
  rewrite Z.log2_pow2 by lia. reflexivity.
Qed.

Lemma canon_big : canon (2 ^ 24 * U).
Proof. apply canon_small_mul_U. split; [|apply Z.pow_le_mono_r]; lia. Qed.

Lemma big_lt_OVF : 2 ^ 24 * U < OVF.
Proof.
  rewrite OVF_eq. pose proof U_pos.
  assert (2 ^ 24 < 2 ^ 1024) by (apply Z.pow_lt_mono_r; lia). nia.
Qed.

(** One turn of the loop: adding a step of ordinary size to a number of
    ordinary size moves it up by the step, give or take 2^-29. *)
Lemma add_step (s : bool) (m t : Z) :
  0 <= m -> - (2 ^ 23 * U) <= signed s m <= 2 ^ 23 * U ->
  0 < t <= 2 ^ 23 * U ->
  exists s' m',
    add (Fin s m) (Fin false t) = Fin s' m'
    /\ 0 <= m'
    /\ 2 * (signed s m + t) - 2 ^ 1046 <= 2 * signed s' m'.
Proof.
  intros Hm Hb Ht. pose proof U_pos as HU.
  unfold add. change (signed false t) with t. set (z := signed s m + t).
  assert (Hz : Z.abs z <= 2 ^ 24 * U) by (unfold z; lia).
  destruct (z =? 0) eqn:E.
  - apply Z.eqb_eq in E. exists false, 0.
    split; [now rewrite andb_false_r|]. split; [lia|].
    assert (0 < 2 ^ 1046) by (apply Z.pow_pos_nonneg; lia).
    cbn [signed]. lia.
  - apply Z.eqb_neq in E.
    pose proof (round_mag_error (Z.abs z) ltac:(lia)) as R.
    assert (Hsh : 2 ^ shift_of (Z.abs z) <= 2 ^ 1046).
    { apply Z.pow_le_mono_r; [lia|]. rewrite <- shift_of_big.
      now apply shift_of_mono. }
    assert (Hr : round_mag (Z.abs z) 1 <= 2 ^ 24 * U).
    { apply round_mag_le; [lia | lia | nia | apply canon_big | lia]. }
    assert (Hr0 : 0 <= round_mag (Z.abs z) 1) by (apply round_mag_nonneg; lia).
    rewrite mk_fin by (pose proof big_lt_OVF; lia).
    exists (z <? 0), (round_mag (Z.abs z) 1).
    split; [reflexivity|]. split; [assumption|].
    destruct (z <? 0) eqn:L; cbn [signed].
    + apply Z.ltb_lt in L. lia.
    + apply Z.ltb_ge in L. lia.
Qed.

(** More fuel does not change what the loop has built. *)
Lemma buildBins_fuel_mono (f1 : nat) :
  forall (f2 : nat) (a hi stp : number) (acc bins : list Bin),
    (f1 <= f2)%nat ->
    buildBins f1 a hi stp acc = Ok bins ->
    buildBins f2 a hi stp acc = Ok bins.
Proof.
  induction f1 as [|f1 IH]; intros f2 a hi stp acc bins Hle H.
  - simpl in H. destruct (lt a hi) eqn:E; [discriminate H|].
    destruct f2; simpl; rewrite E; exact H.
  - destruct f2 as [|f2]; [lia|]. cbn [buildBins] in *.
    destruct (lt a hi); [|exact H].
    destruct (maxArrayLength <=? Z.of_nat (length acc)); [discriminate H|].
    apply IH; [lia | exact H].
Qed.

(** The loop ends: each turn takes the counter at least 2^-6 closer to
    the upper end. *)
Lemma buildBins_ends (sh : bool) (mh t : Z) :
  signed sh mh <= 2 ^ 23 * U ->
  2 ^ 1069 <= t <= 2 ^ 23 * U ->
  forall (k fuel : nat) (s : bool) (m : Z) (acc : list Bin),
    (k < fuel)%nat ->
    0 <= m -> - (2 ^ 23 * U) <= signed s m ->
    signed sh mh - signed s m <= Z.of_nat k * 2 ^ 1068 ->
    Z.of_nat (length acc) + Z.of_nat k < maxArrayLength ->
    exists bins, buildBins fuel (Fin s m) (Fin sh mh) (Fin false t) acc = Ok bins.
Proof.
  intros Hh Ht. pose proof U_pos as HU.
  assert (P68 : 0 < 2 ^ 1068) by (apply Z.pow_pos_nonneg; lia).
  assert (P69 : 2 ^ 1069 = 2 * 2 ^ 1068) by (rewrite <- Z.pow_succ_r by lia; reflexivity).
  assert (P46 : 2 ^ 1046 <= 2 ^ 1068) by (apply Z.pow_le_mono_r; lia).
  induction k as [|k IH]; intros fuel s m acc Hf Hm Hlo Hd Hlen.
  - destruct fuel as [|f]; [lia|]. cbn [buildBins lt].
    destruct (signed s m <? signed sh mh) eqn:E.
    + apply Z.ltb_lt in E. simpl in Hd. lia.
    + now exists acc.
  - destruct fuel as [|f]; [lia|]. cbn [buildBins lt].
    destruct (signed s m <? signed sh mh) eqn:E; [|now exists acc].
    apply Z.ltb_lt in E.
    assert (G : (maxArrayLength <=? Z.of_nat (length acc)) = false)
      by (apply Z.leb_gt; lia).
    rewrite G.
    destruct (add_step s m t Hm ltac:(lia) ltac:(lia)) as (s' & m' & -> & Hm' & Hstep).
    apply IH.
    + lia.
    + exact Hm'.
    + lia.
    + rewrite Nat2Z.inj_succ in Hd. lia.
    + rewrite length_app. simpl. lia.
Qed.

Lemma buildBins_nonempty (fuel : nat) (a hi stp : number) (bins : list Bin) :
  lt a hi = true -> buildBins fuel a hi stp [] = Ok bins -> bins <> [].
Proof.
  intros E H. destruct fuel as [|f]; cbn [buildBins] in H; rewrite E in H.
  - discriminate H.
  - destruct (maxArrayLength <=? Z.of_nat (length (@nil Bin))); [discriminate H|].
    apply buildBins_fresh in H.
    + destruct H as [(fresh & -> & _) _]. discriminate.
    + simpl. unfold maxArrayLength. lia.
Qed.

(** On a range of ordinary size, with a step between 1/32 and 2^23, the
    loop builds its bins, at least one, with fuel to spare. *)
Lemma buildBins_total (lo hi : number) (t : Z) :
  ordinaryRange lo hi ->
  2 ^ 1069 <= t <= 2 ^ 23 * U ->
  exists (fuel : nat) (bins : list Bin),
    (forall fuel', (fuel <= fuel')%nat ->
                   buildBins fuel' lo hi (Fin false t) [] = Ok bins)
    /\ bins <> []
    /\ Z.of_nat (length bins) <= maxArrayLength.
Proof.
  intros ((Dlo & Flo) & (Dhi & Fhi) & Hlt & Blo & Bhi) Ht.
  destruct lo as [| |s m]; try discriminate Flo.
  destruct hi as [| |sh mh]; try discriminate Fhi.
  cbn [is_double val] in Dlo, Dhi, Blo, Bhi. pose proof U_pos as HU.
  assert (P68 : 0 < 2 ^ 1068) by (apply Z.pow_pos_nonneg; lia).
  set (d := signed sh mh - signed s m).
  assert (Hd : 0 <= d <= 2 ^ 24 * U).
  { unfold d. cbn [lt] in Hlt. apply Z.ltb_lt in Hlt.
    replace (2 ^ 24) with (2 * 2 ^ 23) by reflexivity. lia. }
  set (k := Z.to_nat (d / 2 ^ 1068 + 1)).
  assert (Hk : d <= Z.of_nat k * 2 ^ 1068).
  { unfold k. rewrite Z2Nat.id by (pose proof (Z.div_pos d (2 ^ 1068)); lia).
    pose proof (Z.mul_succ_div_gt d (2 ^ 1068) P68). lia. }
  assert (Hk2 : Z.of_nat k <= 2 ^ 30 + 1).
  { unfold k. rewrite Z2Nat.id by (pose proof (Z.div_pos d (2 ^ 1068)); lia).
    assert (d / 2 ^ 1068 <= 2 ^ 30); [|lia].
    apply Z.div_le_upper_bound; [lia|].
    rewrite U_eq in Hd.
    replace (2 ^ 1068 * 2 ^ 30) with (2 ^ 24 * 2 ^ 1074)
      by (rewrite <- !Z.pow_add_r by lia; reflexivity).
    lia. }
  destruct (buildBins_ends sh mh t Bhi Ht k (S k) s m [] ltac:(lia) ltac:(lia) Blo Hk)
    as (bins & E).
  { simpl. unfold maxArrayLength.
    assert (2 ^ 30 + 1 < 2 ^ 32 - 1) by (vm_compute; reflexivity). lia. }
  exists (S k), bins. split; [|split].
  - intros fuel' Hf. now apply (buildBins_fuel_mono (S k)).
  - now apply (buildBins_nonempty (S k) (Fin s m) (Fin sh mh) (Fin false t)).
  - apply buildBins_fresh in E; [tauto|]. simpl. unfold maxArrayLength. lia.
Qed.

Lemma defaultStep_ordinary : ordinaryStep defaultStep.
Proof.
  eexists. split; [vm_compute; reflexivity|].
  split; apply Z.leb_le; vm_compute; reflexivity.
Qed.

(** C5 at a failing input: a single row whose ratio is 1e17 (ingested
    from a record whose ROI field reads "1e17") gives a range with
    [lo = hi]; no bin is built, the clamped index is 0, and counting the
    row in [bins[0]] throws: the row falls into no bin. *)
Lemma C5_histogram_throws :
  let r := toRow 2025 (lit "2025-07")
                 [(lit "代理商", VStr (lit "X")); (lit "商戶", VStr (lit "M1"));
                  (lit "開分量", VStr (lit "100")); (lit "營業額", VStr (lit "100"));
                  (lit "ROI", VStr (lit "1e17"))] in
  (ratio r = decimal false 1 17
   /\ histLo [r] defaultStep = histHi [r] defaultStep)
  /\ (forall fuel, useRatioHistogram fuel [r] defaultStep = Throws)
  /\ ~ (exists fuel bins, useRatioHistogram fuel [r] defaultStep = Ok bins).
Proof.
  intros r.
  assert (T : forall fuel, useRatioHistogram fuel [r] defaultStep = Throws).
  { intros [|f]; vm_compute; reflexivity. }
  split; [split; vm_compute; reflexivity|]. split; [exact T|].
  intros (fuel & bins & H). rewrite T in H. discriminate H.
Qed.

(** X1 (histogram coverage, the part of C5 that holds): an empty row
    set yields an empty bin list; for a non-empty row set (as many rows as an array can hold, none with a NaN
    ratio) whose binned range is non-empty and of ordinary size, with a bin
    width of ordinary size, the histogram is produced: there is at least
    one bin, every row is counted in exactly one bin, the one its ratio is
    subscripted to, and the counts are whole numbers that sum to the number
    of rows. *)
Theorem X1_histogram_coverage :
  (forall fuel stp, useRatioHistogram fuel [] stp = Ok [])
  /\ forall (rs : list Row) (stp : number),
      rs <> [] ->
      Z.of_nat (length rs) <= maxArrayLength ->
      (forall r, In r rs -> is_double (ratio r) /\ isNaN (ratio r) = false) ->
      ordinaryStep stp ->
      ordinaryRange (histLo rs stp) (histHi rs stp) ->
      exists (fuel : nat) (bins : list Bin),
        (forall fuel', (fuel <= fuel')%nat ->
                       useRatioHistogram fuel' rs stp = Ok bins)
        /\ bins <> []
        /\ (forall r, In r rs ->
              exists i, binOf (histLo rs stp) (histHi rs stp) stp (length bins) r
                        = Some i
                        /\ (i < length bins)%nat)
        /\ exists cs : list nat,
            map count bins = map of_nat cs
            /\ (forall j, nth j cs 0%nat
                          = tally (histLo rs stp) (histHi rs stp) stp
                                  (length bins) rs j)
            /\ list_sum cs = length rs.
Proof.
  split; [reflexivity|].
  intros rs stp Hne Hlen Hr (t & -> & Ht) Hrange.
  set (lo := histLo rs (Fin false t)) in *. set (hi := histHi rs (Fin false t)) in *.
  pose proof U_pos as HU.
  assert (Ht0 : 0 < t).
  { assert (0 < 2 ^ 1069) by (apply Z.pow_pos_nonneg; lia). lia. }
  destruct (buildBins_total lo hi t Hrange Ht) as (fuel & bins0 & E & Hb & Hmax).
  destruct (buildBins_fresh fuel lo hi (Fin false t) [] bins0 (E fuel (Nat.le_refl _)))
    as [(fresh & Ef & Hfresh) _]; [simpl; unfold maxArrayLength; lia|].
  simpl in Ef. subst fresh.
  pose proof (map_count_fresh bins0 Hfresh) as Hc.
  assert (Hn1 : (1 <= length bins0)%nat).
  { destruct bins0; [congruence | simpl; lia]. }
  assert (Hn53 : Z.of_nat (length bins0) <= 2 ^ 53).
  { unfold maxArrayLength in Hmax.
    assert (2 ^ 32 - 1 <= 2 ^ 53) by (vm_compute; discriminate). lia. }
  destruct Hrange as ((Dlo & Flo) & (Dhi & Fhi) & Hlt & _).
  assert (Hbin : forall r, In r rs ->
            exists i, binOf lo hi (Fin false t) (length bins0) r = Some i
                      /\ (i < length bins0)%nat).
  { intros r Hin. destruct (Hr r Hin) as [Dr Nr]. unfold binOf.
    apply binIndex_valid; auto using is_double_wfn.
    now destruct hi. }
  destruct (countRows_spec lo hi (Fin false t) rs bins0
                           (repeat 0%nat (length bins0)) Hc Hbin)
    as (bins & cs & Ec & L & C & T & S).
  { rewrite list_sum_repeat_0. simpl.
    unfold maxArrayLength in Hlen.
    assert (2 ^ 32 - 1 < 2 ^ 53) by (vm_compute; reflexivity). lia. }
  assert (Hl : length bins = length bins0).
  { rewrite <- (length_map layout bins), L. apply length_map. }
  exists fuel, bins. split; [|split; [|split]].
  - intros fuel' Hf. unfold useRatioHistogram.
    destruct rs as [|r rs']; [congruence|].
    fold lo hi. rewrite (E fuel' Hf). exact Ec.
  - intros ->. simpl in Hl. lia.
  - rewrite Hl. exact Hbin.
  - exists cs. split; [exact C|]. split.
    + intros j. rewrite T, nth_repeat_0, Hl. reflexivity.
    + rewrite S, list_sum_repeat_0. reflexivity.
Qed.

(** X1 on the demo dataset with the default bin width. *)
Lemma X1_histogram_coverage_witness :
  (seed <> []
   /\ Z.of_nat (length seed) <= maxArrayLength
   /\ (forall r, In r seed -> is_double (ratio r) /\ isNaN (ratio r) = false)
   /\ ordinaryStep defaultStep
   /\ ordinaryRange (histLo seed defaultStep) (histHi seed defaultStep))
  /\ exists (fuel : nat) (bins : list Bin),
      (forall fuel', (fuel <= fuel')%nat ->
                     useRatioHistogram fuel' seed defaultStep = Ok bins)
      /\ bins <> []
      /\ (forall r, In r seed ->
            exists i, binOf (histLo seed defaultStep) (histHi seed defaultStep)
                            defaultStep (length bins) r = Some i
                      /\ (i < length bins)%nat)
      /\ exists cs : list nat,
          map count bins = map of_nat cs
          /\ (forall j, nth j cs 0%nat
                        = tally (histLo seed defaultStep) (histHi seed defaultStep)
                                defaultStep (length bins) seed j)
          /\ list_sum cs = length seed.
Proof.
  assert (H1 : seed <> []) by discriminate.
  assert (H2 : Z.of_nat (length seed) <= maxArrayLength) by (vm_compute; discriminate).
  assert (H3 : forall r, In r seed -> is_double (ratio r) /\ isNaN (ratio r) = false).
  { intros r [<- | [<- | [<- | [<- | [<- | []]]]]];
      vm_compute; repeat split; discriminate. }
  assert (H5 : ordinaryRange (histLo seed defaultStep) (histHi seed defaultStep)).
  { vm_compute. repeat split; discriminate. }
  split; [exact (conj H1 (conj H2 (conj H3 (conj defaultStep_ordinary H5))))|].
  exact (proj2 X1_histogram_coverage seed defaultStep H1 H2 H3 defaultStep_ordinary H5).
Defined.

(** ** Field coercion *)

Lemma lit_wan : lit "萬" = [33836%N].
Proof. vm_compute. reflexivity. Qed.

Lemma lit_baiwan : lit "百萬" = [30334%N; 33836%N].
Proof. vm_compute. reflexivity. Qed.

Lemma lit_yi : lit "億" = [20740%N].
Proof. vm_compute. reflexivity. Qed.

Lemma plain_small (c : N) : plain_char c = true -> (c < 58)%N.
Proof.
  unfold plain_char, is_digit, c_dot, c_minus.
  rewrite !orb_true_iff, andb_true_iff, !N.eqb_eq, !N.leb_le. lia.
Qed.

Lemma plain_not_percent (c : N) : plain_char c = true -> c <> c_percent.
Proof.
  unfold plain_char, is_digit, c_dot, c_minus, c_percent.
  rewrite !orb_true_iff, andb_true_iff, !N.eqb_eq, !N.leb_le. lia.
Qed.

(** A string that does not hold the first code unit of [t] does not
    include [t]. *)
Lemma includes_absent (s : jsstring) (c : N) (t : jsstring) :
  ~ In c s -> includes s (c :: t) = false.
Proof.
  induction s as [|a s IH]; intros H; [reflexivity|].
  cbn [includes startsWith].
  assert (E : (a =? c)%N = false).
  { apply N.eqb_neq. intros ->. apply H. now left. }
  rewrite E. cbn [andb orb]. apply IH. intros Hin. apply H. now right.
Qed.

Lemma includes_suffix (a t : jsstring) : includes (a ++ t) t = true.
Proof. apply includes_substring. exists a, []. now rewrite app_nil_r. Qed.

Lemma endsWith_last (a : jsstring) (c d : N) :
  endsWith (a ++ [c]) [d] = (c =? d)%N.
Proof.
  unfold endsWith. rewrite rev_app_distr. cbn [rev app startsWith].
  apply andb_true_r.
Qed.

Lemma removeFirst_app (c : N) (a b : jsstring) :
  (forall x, In x a -> x <> c) -> removeFirst c (a ++ c :: b) = a ++ b.
Proof.
  induction a as [|x a IH]; intros H; cbn [app removeFirst].
  - now rewrite N.eqb_refl.
  - assert (E : (x =? c)%N = false) by (apply N.eqb_neq, H; now left).
    rewrite E. f_equal. apply IH. intros y Hy. apply H. now right.
Qed.

Lemma removeAll_none (p : N -> bool) (s : jsstring) :
  (forall c, In c s -> p c = false) -> removeAll p s = s.
Proof.
  unfold removeAll. induction s as [|a s IH]; intros H; [reflexivity|].
  cbn [filter]. rewrite (H a) by now left. cbn [negb]. f_equal.
  apply IH. intros c Hc. apply H. now right.
Qed.

Lemma removeAll_In (p : N -> bool) (s : jsstring) (c : N) :
  In c (removeAll p s) <-> In c s /\ p c = false.
Proof. unfold removeAll. rewrite filter_In, negb_true_iff. tauto. Qed.

Lemma removeAll_idempotent (p : N -> bool) (s : jsstring) :
  removeAll p (removeAll p s) = removeAll p s.
Proof.
  apply removeAll_none. intros c Hc. now apply removeAll_In in Hc.
Qed.

Lemma dropWhile_In {A} (p : A -> bool) (l : list A) (x : A) :
  In x (dropWhile p l) -> In x l.
Proof.
  induction l as [|a l IH]; [auto|]. cbn [dropWhile].
  destruct (p a); [|auto]. intros H. right. now apply IH.
Qed.

Lemma trim_In (s : jsstring) (c : N) : In c (trim s) -> In c s.
Proof.
  unfold trim, trimEnd, trimStart. intros H.
  apply in_rev, dropWhile_In, in_rev, dropWhile_In in H. exact H.
Qed.

Lemma cleaned_In (s : jsstring) (c : N) :
  In c (cleaned s) -> In c s /\ c <> c_comma.
Proof.
  unfold cleaned. intros H. apply trim_In, removeAll_In in H.
  destruct H as [H E]. split; [exact H|]. intros ->.
  rewrite N.eqb_refl in E. discriminate E.
Qed.

Lemma cleaned_idempotent (s : jsstring) : cleaned (cleaned s) = cleaned s.
Proof.
  unfold cleaned at 1. rewrite removeAll_none.
  - unfold cleaned. apply trim_idempotent.
  - intros c Hc. apply cleaned_In in Hc. destruct Hc as [_ Hc].
    apply N.eqb_neq. intros E. apply Hc. now symmetry.
Qed.

Lemma stripped_idempotent (s : jsstring) : stripped (stripped s) = stripped s.
Proof. apply removeAll_idempotent. Qed.

(** Nothing is read from a string of points and minus signs only. *)
Lemma scan_unsigned_no_digit (sg : bool) (s : jsstring) :
  (forall c, In c s -> plain_char c = true /\ is_digit c = false) ->
  scan_unsigned sg s = None.
Proof.
  intros H. unfold scan_unsigned.
  assert (Hi : startsWith s (lit "Infinity") = false).
  { rewrite lit_Infinity. destruct s as [|c s]; [reflexivity|].
    cbn [startsWith]. destruct (c =? 73)%N eqn:E; [|reflexivity].
    apply N.eqb_eq in E. subst c.
    destruct (H 73%N (or_introl eq_refl)) as [Hp _]. discriminate Hp. }
  rewrite Hi. destruct s as [|c s]; [reflexivity|].
  destruct (H c (or_introl eq_refl)) as [_ Hc].
  cbn [takeWhile dropWhile]. rewrite Hc. cbn [app].
  destruct (c =? c_dot)%N; [|reflexivity].
  destruct s as [|d s]; [reflexivity|].
  destruct (H d (or_intror (or_introl eq_refl))) as [_ Hd].
  cbn [takeWhile dropWhile]. rewrite Hd. reflexivity.
Qed.

Lemma parseFloat_no_digit (s : jsstring) :
  (forall c, In c s -> plain_char c = true /\ is_digit c = false) ->
  parseFloat s = NaN.
Proof.
  intros H. unfold parseFloat.
  assert (P : forallb plain_char s = true).
  { apply forallb_forall. intros c Hc. apply (H c Hc). }
  rewrite (trimStart_plain s P). unfold scan_decimal.
  destruct s as [|c s]; [reflexivity|].
  assert (T : scan_unsigned true s = None).
  { apply scan_unsigned_no_digit. intros d Hd. apply H. now right. }
  rewrite T, (scan_unsigned_no_digit false (c :: s) H).
  destruct (c =? c_minus)%N; [reflexivity|].
  destruct (c =? c_plus)%N eqn:E; [|reflexivity].
  apply N.eqb_eq in E. subst c.
  destruct (H c_plus (or_introl eq_refl)) as [Hp _]. discriminate Hp.
Qed.

(** The code units of the unit tokens are no part of a numeral, are not
    blank, and stop the scanner. *)
Lemma unitToken_chars (u : unit_token) (c : N) :
  In c (unitToken u) -> (c = 33836 \/ c = 30334 \/ c = 20740)%N.
Proof.
  destruct u; cbn [unitToken]; rewrite ?lit_wan, ?lit_baiwan, ?lit_yi;
    simpl; intuition.
Qed.

Lemma unitToken_not_plain (u : unit_token) (c : N) :
  In c (unitToken u) -> plain_char c = false.
Proof.
  intros H. apply unitToken_chars in H.
  destruct H as [-> | [-> | ->]]; reflexivity.
Qed.

Lemma unitToken_not_space (u : unit_token) (c : N) :
  In c (unitToken u) -> is_space c = false.
Proof.
  intros H. apply unitToken_chars in H.
  destruct H as [-> | [-> | ->]]; reflexivity.
Qed.

Lemma unitToken_stops (u : unit_token) : stops (unitToken u).
Proof.
  destruct u; cbn [unitToken]; rewrite ?lit_wan, ?lit_baiwan, ?lit_yi;
    cbn [stops]; [exact I | | | ];
    (split; [reflexivity | repeat split; discriminate]).
Qed.

Lemma render_In_plain (nm : numeral) (c : N) :
  numeral_ok nm = true -> In c (render nm) -> plain_char c = true.
Proof.
  intros Hok. pose proof (render_plain nm Hok) as H.
  rewrite forallb_forall in H. apply H.
Qed.

Lemma render_lacks (nm : numeral) (c : N) :
  numeral_ok nm = true -> plain_char c = false -> ~ In c (render nm).
Proof.
  intros Hok Hc Hin. rewrite (render_In_plain nm c Hok Hin) in Hc. discriminate.
Qed.

(** Deleting what is no digit, point or minus sign from a numeral and its
    unit leaves the numeral. *)
Lemma keep_plain_numeral (nm : numeral) (u : unit_token) :
  numeral_ok nm = true ->
  removeAll (fun c => negb (plain_char c)) (render nm ++ unitToken u) = render nm.
Proof.
  intros Hok. unfold removeAll. rewrite filter_app.
  fold (removeAll (fun c => negb (plain_char c)) (render nm)).
  rewrite removeAll_none.
  2:{ intros c Hc. now rewrite (render_In_plain nm c Hok Hc). }
  assert (E : filter (fun c => negb (negb (plain_char c))) (unitToken u) = []).
  { destruct u; cbn [unitToken]; rewrite ?lit_wan, ?lit_baiwan, ?lit_yi;
      reflexivity. }
  rewrite E. apply app_nil_r.
Qed.

(** The multiplier of a numeral followed by a unit. *)
Lemma unitMultiplier_numeral (nm : numeral) (u : unit_token) :
  numeral_ok nm = true ->
  unitMultiplier (render nm ++ unitToken u) = unitFactor u.
Proof.
  intros Hok. unfold unitMultiplier. rewrite lit_wan, lit_baiwan, lit_yi.
  assert (L : forall c t, plain_char c = false ->
                          includes (render nm) (c :: t) = false).
  { intros c t Hc. apply includes_absent. now apply render_lacks. }
  assert (L1 : forall c d t, plain_char c = false -> c <> d ->
                             includes (render nm ++ [d]) (c :: t) = false).
  { intros c d t Hc Hd. apply includes_absent. intros Hin.
    apply in_app_or in Hin. destruct Hin as [Hin | [Hin | []]].
    - now apply (render_lacks nm c Hok Hc).
    - now apply Hd. }
  destruct u; cbn [unitToken unitFactor]; rewrite ?lit_wan, ?lit_baiwan, ?lit_yi.
  - rewrite app_nil_r, !L by reflexivity. reflexivity.
  - rewrite !L1 by (reflexivity || discriminate).
    now rewrite includes_suffix.
  - assert (Y : includes (render nm ++ [30334; 33836]%N) [20740%N] = false).
    { apply includes_absent. intros Hin. apply in_app_or in Hin.
      destruct Hin as [Hin | Hin].
      - now apply (render_lacks nm 20740%N Hok eq_refl).
      - simpl in Hin. destruct Hin as [E | [E | []]]; discriminate E. }
    rewrite Y. now rewrite includes_suffix.
  - now rewrite includes_suffix.
Qed.

Lemma endsWith_percent_numeral (nm : numeral) (u : unit_token) :
  numeral_ok nm = true ->
  endsWith (render nm ++ unitToken u) [c_percent] = false.
Proof.
  intros Hok.
  assert (P : forall a c, c <> c_percent -> endsWith (a ++ [c]) [c_percent] = false).
  { intros a c Hc. rewrite endsWith_last. now apply N.eqb_neq. }
  destruct u; cbn [unitToken]; rewrite ?lit_wan, ?lit_baiwan, ?lit_yi.
  - rewrite app_nil_r. pose proof (render_nonempty nm Hok) as Hne.
    destruct (exists_last Hne) as (a & c & E). rewrite E. apply P.
    apply plain_not_percent, (render_In_plain nm c Hok).
    rewrite E. apply in_or_app. right. now left.
  - apply P. discriminate.
  - change [30334%N; 33836%N] with ([30334%N] ++ [33836%N]).
    rewrite app_assoc. apply P. discriminate.
  - apply P. discriminate.
Qed.

Lemma scan_radix_no_prefix (s : jsstring) :
  (forall c, In c s -> plain_char c = true \/ (128 <= c)%N) ->
  scan_radix s = None.
Proof.
  destruct s as [|a [|p [|d ds]]]; try reflexivity.
  intros H. unfold scan_radix.
  assert (E : forall k, (58 <= k < 128)%N -> (p =? k)%N = false).
  { intros k Hk. apply N.eqb_neq. intros ->.
    destruct (H k (or_intror (or_introl eq_refl))) as [Hp | Hp].
    - apply plain_small in Hp. lia.
    - lia. }
  rewrite !E by lia. cbn [orb]. change (0 =? 0) with true.
  now rewrite andb_false_r.
Qed.

(** [Number] does not read a numeral that a unit follows. *)
Lemma Number_of_numeral_unit (nm : numeral) (u : unit_token) :
  numeral_ok nm = true -> u <> NoUnit ->
  Number_of_string (render nm ++ unitToken u) = NaN.
Proof.
  intros Hok Hu. unfold Number_of_string.
  rewrite trim_no_space.
  2:{ apply forallb_forall. intros c Hc. apply negb_true_iff.
      apply in_app_or in Hc. destruct Hc as [Hc | Hc].
      - apply plain_not_space, (render_In_plain nm c Hok Hc).
      - apply (unitToken_not_space u c Hc). }
  pose proof (render_nonempty nm Hok) as Hne.
  destruct (render nm ++ unitToken u) as [|c s] eqn:E.
  { apply app_eq_nil in E. destruct E as [E _]. congruence. }
  rewrite <- E. rewrite scan_radix_no_prefix.
  2:{ intros d Hd. apply in_app_or in Hd. destruct Hd as [Hd | Hd].
      - left. apply (render_In_plain nm d Hok Hd).
      - right. apply unitToken_chars in Hd. lia. }
  rewrite (scan_decimal_numeral nm (unitToken u) Hok (unitToken_stops u)).
  destruct u; [congruence | | | ]; cbn [unitToken];
    rewrite ?lit_wan, ?lit_baiwan, ?lit_yi; reflexivity.
Qed.

(** The two coercions, on a string, in terms of what they convert. *)
Lemma num_stripped (s : jsstring) :
  num (VStr s)
  = if isFinite (Number_of_string (stripped s))
    then Number_of_string (stripped s) else zero.
Proof. destruct s; reflexivity. Qed.

Lemma coerceNumber_cleaned (s : jsstring) :
  coerceNumber (VStr s)
  = if endsWith (cleaned s) [c_percent]
    then div (parseFloat (removeFirst c_percent (cleaned s))) (of_Z 100)
    else if isFinite (parseFloat (removeAll (fun c => negb (plain_char c))
                                            (cleaned s)))
         then mul (parseFloat (removeAll (fun c => negb (plain_char c))
                                         (cleaned s)))
                  (unitMultiplier (cleaned s))
         else zero.
Proof. reflexivity. Qed.

Lemma finite_or_zero (n : number) :
  isFinite (if isFinite n then n else zero) = true.
Proof. destruct (isFinite n) eqn:E; [exact E | reflexivity]. Qed.

Lemma num_finite (v : value) : isFinite (num v) = true.
Proof.
  destruct v as [| | b | n | s]; try reflexivity.
  - unfold num. apply finite_or_zero.
  - unfold num. apply finite_or_zero.
  - rewrite num_stripped. apply finite_or_zero.
Qed.

(** C3, as stated, does not hold of the ingestor's coercion [num]: it
    reads ["50%"] as 50, not as 0.5; it reads ["5萬"] as 0, not as 50000;
    and it turns the number Infinity into 0. *)
Lemma C3_coercion_counterexample :
  num (VStr (lit "50%")) = of_Z 50
  /\ num (VStr (lit "50%")) <> div (parseFloat (lit "50")) (of_Z 100)
  /\ num (VStr (lit "5萬")) = zero
  /\ num (VStr (lit "5萬")) <> mul (parseFloat (lit "5")) (decimal false 1 4)
  /\ num (VNum (Inf false)) <> Inf false.
Proof.
  vm_compute. repeat split; discriminate.
Qed.

(** The percent branch of [coerceNumber] does not test its result. *)
Example coerceNumber_percent_unparsable :
  coerceNumber (VStr (lit "abc%")) = NaN.
Proof. vm_compute. reflexivity. Qed.

(** C3 (amended): what the two coercions do.  The accessor's
    [coerceNumber] returns a number unchanged and 0 for null and
    undefined; on a string it works on the string without commas and
    surrounding blanks: a numeral followed by a percent sign is its
    value divided by 100, a numeral followed by a unit (or by none) is
    its value times the unit's factor (0 when the value is not finite),
    and a string without a digit that does not end in a percent sign is
    0.  The ingestor's [num] is 0 for null, undefined and the empty
    string; on a string it converts the string without commas, blanks and
    percent signs: a numeral is its value (0 when not finite), a numeral
    followed by a unit is 0; its result is always finite. *)
Theorem C3_coercion_forms :
  (forall n, coerceNumber (VNum n) = n)
  /\ coerceNumber VNull = zero
  /\ coerceNumber VUndefined = zero
  /\ (forall s, coerceNumber (VStr s) = coerceNumber (VStr (cleaned s)))
  /\ (forall s nm,
         numeral_ok nm = true -> cleaned s = render nm ++ [c_percent] ->
         coerceNumber (VStr s) = div (numeral_value nm) (of_Z 100))
  /\ (forall s nm u,
         numeral_ok nm = true -> cleaned s = render nm ++ unitToken u ->
         coerceNumber (VStr s)
         = if isFinite (numeral_value nm)
           then mul (numeral_value nm) (unitFactor u) else zero)
  /\ (forall s,
         endsWith (cleaned s) [c_percent] = false ->
         (forall c, In c s -> is_digit c = false) ->
         coerceNumber (VStr s) = zero)
  /\ num VNull = zero
  /\ num VUndefined = zero
  /\ num (VStr []) = zero
  /\ (forall s, num (VStr s) = num (VStr (stripped s)))
  /\ (forall s nm,
         numeral_ok nm = true -> stripped s = render nm ->
         num (VStr s)
         = if isFinite (numeral_value nm) then numeral_value nm else zero)
  /\ (forall s nm u,
         numeral_ok nm = true -> u <> NoUnit ->
         stripped s = render nm ++ unitToken u ->
         num (VStr s) = zero)
  /\ (forall v, isFinite (num v) = true).
Proof.
  split; [reflexivity|]. split; [reflexivity|]. split; [reflexivity|].
  split.
  { intros s. rewrite !coerceNumber_cleaned. now rewrite cleaned_idempotent. }
  split.
  { intros s nm Hok E. rewrite coerceNumber_cleaned, E.
    rewrite endsWith_last. unfold c_percent at 1 2. rewrite N.eqb_refl.
    fold c_percent. rewrite removeFirst_app.
    - now rewrite app_nil_r, parseFloat_numeral.
    - intros x Hx. apply plain_not_percent, (render_In_plain nm x Hok Hx). }
  split.
  { intros s nm u Hok E. rewrite coerceNumber_cleaned, E.
    rewrite endsWith_percent_numeral, keep_plain_numeral by assumption.
    rewrite parseFloat_numeral, unitMultiplier_numeral by assumption.
    reflexivity. }
  split.
  { intros s He Hd. rewrite coerceNumber_cleaned, He.
    rewrite parseFloat_no_digit; [reflexivity|].
    intros c Hc. apply removeAll_In in Hc. destruct Hc as [Hc Hp].
    apply negb_false_iff in Hp. split; [exact Hp|].
    apply Hd. now apply cleaned_In in Hc. }
  split; [reflexivity|]. split; [reflexivity|]. split; [reflexivity|].
  split.
  { intros s. rewrite !num_stripped. now rewrite stripped_idempotent. }
  split.
  { intros s nm Hok E. rewrite num_stripped, E.
    now rewrite Number_of_numeral. }
  split.
  { intros s nm u Hok Hu E. rewrite num_stripped, E.
    now rewrite Number_of_numeral_unit. }
  exact num_finite.
Qed.

(** C3 at work: [" 1,234.5% "] is 1234.5 / 100 and ["1.2萬"] is 1.2 times
    10000 for the accessor; ["1,234.5"] is 1234.5 for the ingestor and
    ["1.2萬"] is 0. *)
Lemma C3_coercion_forms_witness :
  coerceNumber (VStr (lit " 1,234.5% "))
  = div (numeral_value (Numeral false (lit "1234") (Some (lit "5")))) (of_Z 100)
  /\ coerceNumber (VStr (lit "1.2萬"))
     = mul (numeral_value (Numeral false (lit "1") (Some (lit "2"))))
           (decimal false 1 4)
  /\ num (VStr (lit "1,234.5"))
     = numeral_value (Numeral false (lit "1234") (Some (lit "5")))
  /\ num (VStr (lit "1.2萬")) = zero.
Proof.
  destruct C3_coercion_forms
    as (_ & _ & _ & _ & Hpct & Hunit & _ & _ & _ & _ & _ & Hnum & Hnone & _).
  pose (a := Numeral false (lit "1234") (Some (lit "5"))).
  pose (b := Numeral false (lit "1") (Some (lit "2"))).
  assert (Ka : numeral_ok a = true) by (vm_compute; reflexivity).
  assert (Kb : numeral_ok b = true) by (vm_compute; reflexivity).
  assert (E1 : cleaned (lit " 1,234.5% ") = render a ++ [c_percent])
    by (vm_compute; reflexivity).
  assert (E2 : cleaned (lit "1.2萬") = render b ++ unitToken Wan)
    by (vm_compute; reflexivity).
  assert (E3 : stripped (lit "1,234.5") = render a) by (vm_compute; reflexivity).
  assert (E4 : stripped (lit "1.2萬") = render b ++ unitToken Wan)
    by (vm_compute; reflexivity).
  assert (Fa : isFinite (numeral_value a) = true) by (vm_compute; reflexivity).
  assert (Fb : isFinite (numeral_value b) = true) by (vm_compute; reflexivity).
  assert (Nu : Wan <> NoUnit) by discriminate.
  pose proof (Hpct _ a Ka E1) as R1.
  pose proof (Hunit _ b Wan Kb E2) as R2. rewrite Fb in R2.
  pose proof (Hnum _ a Ka E3) as R3. rewrite Fa in R3.
  pose proof (Hnone _ b Wan Kb Nu E4) as R4.
  exact (conj R1 (conj R2 (conj R3 R4))).
Defined.


(** ** The order of numbers *)

Ltac number_cases :=
  repeat match goal with
         | x : number |- _ => destruct x as [| [] | [] ?]
         end;
  cbn [lt le isNaN wfn signed negb andb orb] in *;
  try reflexivity; try discriminate; try tauto.

Lemma lt_asym (x y : number) : lt x y = true -> lt y x = false.
Proof.
  number_cases; rewrite ?Z.ltb_lt, ?Z.ltb_ge; lia.
Qed.

Lemma not_lt_le (x y : number) :
  isNaN x = false -> isNaN y = false -> lt x y = false -> le y x = true.
Proof.
  number_cases; rewrite ?Z.ltb_ge, ?Z.leb_le; lia.
Qed.

Lemma le_not_lt (x y : number) : le y x = true -> lt x y = false.
Proof.
  number_cases; rewrite ?Z.ltb_ge, ?Z.leb_le; lia.
Qed.

Lemma not_lt_trans (x y z : number) :
  isNaN y = false ->
  lt x y = false -> lt y z = false -> lt x z = false.
Proof.
  number_cases; rewrite ?Z.ltb_ge; lia.
Qed.

Lemma le_trans (x y z : number) :
  le x y = true -> le y z = true -> le x z = true.
Proof.
  number_cases; rewrite ?Z.leb_le; lia.
Qed.

Lemma canon_1 : canon 1.
Proof. reflexivity. Qed.

(** A difference [b - a] is positive exactly when [a < b]: no difference
    of two doubles rounds to zero. *)
Lemma sub_positive (a b : number) :
  wfn a -> wfn b -> lt zero (sub b a) = lt a b.
Proof.
  destruct a as [| sa | sa m], b as [| sb | sb n]; try reflexivity;
    try (destruct sa; reflexivity); try (destruct sb; reflexivity);
    try (destruct sa, sb; reflexivity).
  cbn [wfn]. intros Hm Hn. unfold sub, neg, add, zero.
  assert (E : signed sb n + signed (negb sa) m = signed sb n - signed sa m).
  { destruct sa, sb; cbn [signed negb]; lia. }
  rewrite E. clear E. cbn [lt].
  destruct (signed sb n - signed sa m =? 0) eqn:Ez.
  - apply Z.eqb_eq in Ez. cbn [lt signed].
    assert (S0 : forall s, signed s 0 = 0) by (intros []; reflexivity).
    rewrite S0. change (0 <? 0) with false. symmetry. apply Z.ltb_ge. lia.
  - apply Z.eqb_neq in Ez.
    set (z := signed sb n - signed sa m) in *.
    assert (Hr : 1 <= round_mag (Z.abs z) 1).
    { apply round_mag_ge; try lia. apply canon_1. }
    unfold mk. destruct (round_mag (Z.abs z) 1 <? OVF); cbn [lt signed].
    + destruct (z <? 0) eqn:Es; cbn [signed].
      * apply Z.ltb_lt in Es. symmetry.
        transitivity false; [apply Z.ltb_ge; lia | symmetry; apply Z.ltb_ge; lia].
      * apply Z.ltb_ge in Es. symmetry.
        transitivity true; [apply Z.ltb_lt; lia | symmetry; apply Z.ltb_lt; lia].
    + destruct (z <? 0) eqn:Es; cbn [negb].
      * apply Z.ltb_lt in Es. symmetry. apply Z.ltb_ge. lia.
      * apply Z.ltb_ge in Es. symmetry. apply Z.ltb_lt. lia.
Qed.

(** ** Sorting with a consistent comparator *)

Section SortFacts.
Context {V : Type}.
Variable after : V -> V -> bool.
Variable P : V -> Prop.
Hypothesis after_asym :
  forall x y, P x -> P y -> after x y = true -> after y x = false.
Hypothesis not_after_trans :
  forall x y z, P x -> P y -> P z ->
                after x y = false -> after y z = false -> after x z = false.

Lemma sort_insert_Forall (Q : V -> Prop) (x : V) (l : list V) :
  Q x -> Forall Q l -> Forall Q (sort_insert after x l).
Proof.
  intros Hx Hl. induction Hl as [|y l Hy Hl IH]; cbn [sort_insert].
  - constructor; [exact Hx | constructor].
  - destruct (after x y); constructor; auto.
Qed.

Lemma sort_insert_sorted (x : V) (l : list V) :
  P x -> Forall P l ->
  StronglySorted (fun a b => after a b = false) l ->
  StronglySorted (fun a b => after a b = false) (sort_insert after x l).
Proof.
  intros Hx Hl Hs. induction Hs as [|y l Hs IH Hy]; cbn [sort_insert].
  - constructor; constructor.
  - inversion Hl as [|? ? Py Pl]; subst.
    destruct (after x y) eqn:E.
    + constructor; [apply IH; assumption|].
      apply sort_insert_Forall; [|exact Hy].
      apply after_asym; assumption.
    + constructor; [constructor; assumption|].
      constructor; [exact E|].
      rewrite Forall_forall in *. intros z Hz.
      apply (not_after_trans x y z); auto.
Qed.

Lemma sortBy_Forall (Q : V -> Prop) (l : list V) :
  Forall Q l -> Forall Q (sortBy after l).
Proof.
  intros H. induction H as [|x l Hx Hl IH]; cbn [sortBy fold_right].
  - constructor.
  - apply sort_insert_Forall; assumption.
Qed.

(** On elements the comparator orders consistently, the result is in
    order: no element has to come after a later one. *)
Lemma sortBy_sorted (l : list V) :
  Forall P l -> StronglySorted (fun a b => after a b = false) (sortBy after l).
Proof.
  intros H. induction H as [|x l Hx Hl IH]; cbn [sortBy fold_right].
  - constructor.
  - apply sort_insert_sorted; [exact Hx | apply sortBy_Forall; exact Hl | exact IH].
Qed.

End SortFacts.

Lemma StronglySorted_impl {A} (R S : A -> A -> Prop) (Q : A -> Prop) (l : list A) :
  (forall a b, Q a -> Q b -> R a b -> S a b) ->
  Forall Q l -> StronglySorted R l -> StronglySorted S l.
Proof.
  intros H Hq Hs. induction Hs as [|x l Hs IH Hx]; constructor.
  - inversion Hq; subst. auto.
  - inversion Hq as [|? ? Qx Ql]; subst.
    rewrite Forall_forall in *. intros y Hy. apply H; auto.
Qed.

(** Sorting pairs by value, largest first. *)
Lemma sortBy_value_desc (l : list (jsstring * number)) :
  Forall (fun kv => wfn (snd kv) /\ isNaN (snd kv) = false) l ->
  StronglySorted (fun a b => le (snd b) (snd a) = true) (sortBy byOpenDesc l).
Proof.
  intros H.
  set (Q := fun kv : jsstring * number => wfn (snd kv) /\ isNaN (snd kv) = false).
  apply StronglySorted_impl
    with (R := fun a b => byOpenDesc a b = false) (Q := Q).
  - intros a b [Wa Na] [Wb Nb] E. unfold byOpenDesc in E.
    rewrite sub_positive in E by assumption.
    apply not_lt_le; assumption.
  - apply sortBy_Forall. exact H.
  - apply sortBy_sorted with (P := Q).
    + intros x y [Wx Nx] [Wy Ny]. unfold byOpenDesc.
      rewrite !sub_positive by assumption. apply lt_asym.
    + intros x y z [Wx Nx] [Wy Ny] [Wz Nz]. unfold byOpenDesc.
      rewrite !sub_positive by assumption.
      intros H1 H2. exact (not_lt_trans _ _ _ Ny H1 H2).
    + exact H.
Qed.

(** ** Grouped sums *)

Lemma groupSum_fold_keys (key : Row -> jsstring) (val : Row -> number)
      (rs : list Row) (m : list (jsstring * number)) :
  Map_keys
    (fold_left (fun m r =>
                  Map_set (key r)
                          (add (match Map_get (key r) m with
                                | Some v => v
                                | None => zero
                                end) (val r)) m) rs m)
  = fold_left (fun s k => Set_add k s) (map key rs) (Map_keys m).
Proof.
  revert m. induction rs as [|r rs IH]; intros m; [reflexivity|].
  cbn [fold_left map]. rewrite IH. now rewrite Map_keys_set_Set_add.
Qed.

(** The groups are the distinct keys, in the order of their first row. *)
Lemma groupSum_keys (key : Row -> jsstring) (val : Row -> number) (rs : list Row) :
  Map_keys (groupSum key val rs) = Set_of (map key rs).
Proof. unfold groupSum. now rewrite groupSum_fold_keys. Qed.

Lemma groupSum_fold_get (key : Row -> jsstring) (val : Row -> number)
      (k : jsstring) (rs : list Row) (m : list (jsstring * number)) :
  Map_get k
    (fold_left (fun m r =>
                  Map_set (key r)
                          (add (match Map_get (key r) m with
                                | Some v => v
                                | None => zero
                                end) (val r)) m) rs m)
  = match filter (fun r => str_eqb (key r) k) rs with
    | [] => Map_get k m
    | grp => Some (fold_left add (map val grp)
                             (match Map_get k m with
                              | Some v => v
                              | None => zero
                              end))
    end.
Proof.
  revert m. induction rs as [|r rs IH]; intros m; [reflexivity|].
  cbn [fold_left filter]. rewrite IH.
  destruct (str_eqb (key r) k) eqn:E.
  - apply str_eqb_eq in E. rewrite E, Map_get_set_same.
    cbn [map fold_left].
    destruct (filter (fun r0 => str_eqb (key r0) k) rs); reflexivity.
  - apply str_eqb_neq in E.
    rewrite Map_get_set_other by congruence. reflexivity.
Qed.

(** The value of a group is the sum of its rows' values, added in the
    order of the rows, starting from 0. *)
Lemma groupSum_get (key : Row -> jsstring) (val : Row -> number)
      (k : jsstring) (rs : list Row) :
  Map_get k (groupSum key val rs)
  = match filter (fun r => str_eqb (key r) k) rs with
    | [] => None
    | grp => Some (fold_left add (map val grp) zero)
    end.
Proof. unfold groupSum. now rewrite groupSum_fold_get. Qed.

Lemma Map_get_In {V} (m : list (jsstring * V)) (k : jsstring) (v : V) :
  NoDup (Map_keys m) -> In (k, v) m -> Map_get k m = Some v.
Proof.
  induction m as [|[k' v'] m IH]; intros Hnd Hin; [destruct Hin|].
  cbn [Map_keys map fst] in Hnd. inversion Hnd as [|? ? Hk Hm]; subst.
  cbn [Map_get]. destruct Hin as [E | Hin].
  - inversion E; subst. now rewrite str_eqb_refl.
  - destruct (str_eqb k' k) eqn:E.
    + apply str_eqb_eq in E. subst k'. exfalso. apply Hk.
      change k with (fst (k, v)). now apply in_map.
    + now apply IH.
Qed.

Lemma groupSum_NoDup (key : Row -> jsstring) (val : Row -> number) (rs : list Row) :
  NoDup (Map_keys (groupSum key val rs)).
Proof. rewrite groupSum_keys. apply Set_of_NoDup. Qed.

(** Every entry of a grouped sum is a group of rows and its sum. *)
Lemma groupSum_In (key : Row -> jsstring) (val : Row -> number)
      (rs : list Row) (k : jsstring) (v : number) :
  In (k, v) (groupSum key val rs) ->
  filter (fun r => str_eqb (key r) k) rs <> []
  /\ v = fold_left add (map val (filter (fun r => str_eqb (key r) k) rs)) zero.
Proof.
  intros Hin.
  pose proof (Map_get_In _ k v (groupSum_NoDup key val rs) Hin) as G.
  rewrite groupSum_get in G.
  destruct (filter (fun r => str_eqb (key r) k) rs) as [|r0 grp] eqn:E;
    [discriminate G|].
  split; [discriminate|]. now inversion G.
Qed.

Lemma nonNegative_wfn (x : number) :
  nonNegative x -> wfn x /\ isNaN x = false.
Proof.
  intros (D & F & _). destruct x; try discriminate F.
  split; [apply D | reflexivity].
Qed.

Lemma accum_wfn (x : number) : accum x -> wfn x /\ isNaN x = false.
Proof.
  intros [-> | (m & -> & H & _)]; split; cbn; auto.
Qed.

Lemma groupSum_values (key : Row -> jsstring) (val : Row -> number) (rs : list Row) :
  (forall r, In r rs -> nonNegative (val r)) ->
  Forall (fun kv => wfn (snd kv) /\ isNaN (snd kv) = false) (groupSum key val rs).
Proof.
  intros H. pose proof (groupSum_accum key val rs H) as A.
  rewrite Forall_forall in *. intros kv Hkv. apply accum_wfn, A, Hkv.
Qed.

(** ** Grouped, sorted aggregates *)

Section Grouped.
Variable key : Row -> jsstring.
Variable val : Row -> number.
Variable rs : list Row.

Lemma grouped_keys_perm :
  Permutation (map fst (sortBy byOpenDesc (groupSum key val rs))) (Set_of (map key rs)).
Proof.
  rewrite <- groupSum_keys with (val := val).
  unfold Map_keys. apply Permutation_map, sortBy_perm.
Qed.

Lemma grouped_NoDup : NoDup (map fst (sortBy byOpenDesc (groupSum key val rs))).
Proof.
  apply Permutation_NoDup with (l := Set_of (map key rs)).
  - symmetry. apply grouped_keys_perm.
  - apply Set_of_NoDup.
Qed.

Lemma grouped_In_key (k : jsstring) :
  In k (map fst (sortBy byOpenDesc (groupSum key val rs))) <-> exists r, In r rs /\ key r = k.
Proof.
  split.
  - intros H. apply (Permutation_in _ grouped_keys_perm) in H.
    apply Set_of_In, in_map_iff in H. destruct H as (r & E & Hr). eauto.
  - intros (r & Hr & E).
    apply (Permutation_in _ (Permutation_sym grouped_keys_perm)).
    apply Set_of_In, in_map_iff. eauto.
Qed.

Lemma grouped_length :
  length (sortBy byOpenDesc (groupSum key val rs)) = length (nodup jsstring_eq_dec (map key rs)).
Proof.
  rewrite <- Set_of_length, <- (length_map fst (sortBy byOpenDesc (groupSum key val rs))).
  apply Permutation_length, grouped_keys_perm.
Qed.

Lemma grouped_value (k : jsstring) (v : number) :
  In (k, v) (sortBy byOpenDesc (groupSum key val rs)) ->
  v = fold_left add (map val (filter (fun r => str_eqb (key r) k) rs)) zero.
Proof.
  rewrite sortBy_In. intros H.
  now apply groupSum_In in H.
Qed.

Lemma grouped_desc :
  (forall r, In r rs -> nonNegative (val r)) ->
  StronglySorted (fun a b => le (snd b) (snd a) = true) (sortBy byOpenDesc (groupSum key val rs)).
Proof.
  intros H. apply sortBy_value_desc, groupSum_values, H.
Qed.

End Grouped.

Lemma StronglySorted_app_inv {A} (R : A -> A -> Prop) (l1 l2 : list A) :
  StronglySorted R (l1 ++ l2) ->
  StronglySorted R l1 /\ StronglySorted R l2
  /\ forall x y, In x l1 -> In y l2 -> R x y.
Proof.
  induction l1 as [|a l1 IH]; cbn [app]; intros H.
  - split; [constructor | split; [exact H | intros x y []]].
  - inversion H as [|? ? Hs Ha]; subst.
    destruct (IH Hs) as (S1 & S2 & C).
    rewrite Forall_forall in Ha.
    split; [|split; [exact S2|]].
    + constructor; [exact S1|]. apply Forall_forall. intros x Hx.
      apply Ha, in_or_app. now left.
    + intros x y [<- | Hx] Hy.
      * apply Ha, in_or_app. now right.
      * now apply C.
Qed.

Lemma StronglySorted_snoc {A} (R : A -> A -> Prop) (l : list A) (a : A) :
  StronglySorted R l -> (forall x, In x l -> R x a) ->
  StronglySorted R (l ++ [a]).
Proof.
  induction 1 as [|b l Hs IH Hb]; intros Ha; cbn [app].
  - constructor; constructor.
  - constructor.
    + apply IH. intros x Hx. apply Ha. now right.
    + apply Forall_app. split; [exact Hb|].
      constructor; [|constructor]. apply Ha. now left.
Qed.

Lemma StronglySorted_rev {A} (R : A -> A -> Prop) (l : list A) :
  StronglySorted R l -> StronglySorted (fun a b => R b a) (rev l).
Proof.
  induction 1 as [|a l Hs IH Ha]; cbn [rev]; [constructor|].
  apply StronglySorted_snoc; [exact IH|].
  rewrite Forall_forall in Ha. intros x Hx. apply Ha. now apply in_rev.
Qed.

(** [l.slice(0, k)] for a count [k] is the first [k] elements. *)
Lemma slice_first {A} (l : list A) (k : nat) :
  Z.of_nat k <= 2 ^ 53 -> slice l zero (Some (of_nat k)) = firstn k l.
Proof.
  intros Hk. unfold slice. rewrite (of_nat_small k Hk).
  cbn [ToIntegerOrInfinity zero signed].
  pose proof U_pos as HU.
  rewrite Z.div_0_l by lia. rewrite Z.div_mul by lia.
  cbn [relativeIndex]. change (0 <? 0) with false.
  assert (E : (Z.of_nat k <? 0) = false) by (apply Z.ltb_ge; lia).
  rewrite E, Nat2Z.id. change (Z.to_nat 0) with 0%nat.
  cbn [Nat.min skipn]. rewrite Nat.sub_0_r.
  destruct (Nat.le_ge_cases k (length l)) as [H | H].
  - now rewrite Nat.min_l.
  - rewrite Nat.min_r by exact H. now rewrite !firstn_all2 by lia.
Qed.

(** [l.slice(-k)] for a count [k] that is not 0 is the last [k] elements
    ([l.slice(-0)] is the whole of [l]). *)
Lemma slice_last {A} (l : list A) (k : nat) :
  (0 < k)%nat -> Z.of_nat k <= 2 ^ 53 ->
  slice l (neg (of_nat k)) None = skipn (length l - k) l.
Proof.
  intros Hp Hk. unfold slice. rewrite (of_nat_small k Hk).
  cbn [neg negb ToIntegerOrInfinity signed].
  pose proof U_pos as HU. rewrite Z.div_mul by lia.
  cbn [relativeIndex].
  assert (E : (- Z.of_nat k <? 0) = true) by (apply Z.ltb_lt; lia).
  rewrite E.
  assert (F : Z.to_nat (Z.max (Z.of_nat (length l) + - Z.of_nat k) 0)
              = (length l - k)%nat) by lia.
  rewrite F. apply firstn_all2. rewrite length_skipn. lia.
Qed.

Lemma slice_minus_zero {A} (l : list A) : slice l (neg zero) None = l.
Proof.
  unfold slice. cbn [neg zero negb ToIntegerOrInfinity signed].
  pose proof U_pos as HU. rewrite Z.div_0_l by lia.
  cbn [relativeIndex]. change (- 0 <? 0) with false.
  change (Z.to_nat (- 0)) with 0%nat. cbn [Nat.min skipn].
  rewrite Nat.sub_0_r. apply firstn_all.
Qed.

Lemma seed_amounts (r : Row) :
  In r seed ->
  nonNegative (openAmount r) /\ nonNegative (revenueAmount r)
  /\ nonNegative (ratio r).
Proof.
  intros [<- | [<- | [<- | [<- | [<- | []]]]]];
    vm_compute; repeat split; discriminate.
Qed.

(** X2 (revenue share by agent): the pie has one slice per distinct agent
    of the rows; a slice's value is the sum of the revenue of the agent's
    rows, added in the order of the rows; and, for revenues that are
    finite and not negative, the slices come largest first. *)
Theorem X2_revenue_share_by_agent :
  forall rows : list Row,
    NoDup (map fst (useRevenueShareByAgent rows))
    /\ (forall a, In a (map fst (useRevenueShareByAgent rows))
                  <-> exists r, In r rows /\ agent r = a)
    /\ length (useRevenueShareByAgent rows)
       = length (nodup jsstring_eq_dec (map agent rows))
    /\ (forall a v,
           In (a, v) (useRevenueShareByAgent rows) ->
           v = fold_left add
                         (map revenueAmount
                              (filter (fun r => str_eqb (agent r) a) rows))
                         zero)
    /\ ((forall r, In r rows -> nonNegative (revenueAmount r)) ->
        StronglySorted (fun x y => le (snd y) (snd x) = true)
                       (useRevenueShareByAgent rows)).
Proof.
  intros rows. unfold useRevenueShareByAgent.
  change byValueDesc with byOpenDesc.
  split; [apply grouped_NoDup|].
  split; [intros a; apply grouped_In_key|].
  split; [apply grouped_length|].
  split; [intros a v; apply grouped_value|].
  apply grouped_desc.
Qed.

(** X2 on the demo dataset. *)
Lemma X2_revenue_share_by_agent_witness :
  (forall r, In r seed -> nonNegative (revenueAmount r))
  /\ StronglySorted (fun x y => le (snd y) (snd x) = true)
                    (useRevenueShareByAgent seed).
Proof.
  assert (H : forall r, In r seed -> nonNegative (revenueAmount r)).
  { intros r Hr. apply (seed_amounts r Hr). }
  split; [exact H|].
  exact (proj2 (proj2 (proj2 (proj2 (X2_revenue_share_by_agent seed)))) H).
Defined.

(** The bars of the Pareto chart are the sorted grouped sums. *)
Lemma paretoMap_bars (total cum : number) (l : list (jsstring * number)) :
  map (fun p => (p_merchant p, p_open p)) (paretoMap total cum l) = l.
Proof.
  revert cum. induction l as [|[k v] l IH]; intros cum; [reflexivity|].
  cbn [paretoMap map p_merchant p_open fst snd]. now rewrite IH.
Qed.

(** X3 (Pareto bars): the chart has one bar per distinct merchant of the
    rows; a bar's amount is the sum of the open amounts of the merchant's
    rows, added in the order of the rows; and, for open amounts that are
    finite and not negative, the bars come largest first. *)
Theorem X3_pareto_bars :
  forall rows : list Row,
    let bars := map (fun p => (p_merchant p, p_open p))
                    (useParetoByMerchant rows) in
    NoDup (map fst bars)
    /\ (forall m, In m (map fst bars) <-> exists r, In r rows /\ merchant r = m)
    /\ length (useParetoByMerchant rows)
       = length (nodup jsstring_eq_dec (map merchant rows))
    /\ (forall m v,
           In (m, v) bars ->
           v = fold_left add
                         (map openAmount
                              (filter (fun r => str_eqb (merchant r) m) rows))
                         zero)
    /\ ((forall r, In r rows -> nonNegative (openAmount r)) ->
        StronglySorted (fun x y => le (snd y) (snd x) = true) bars).
Proof.
  intros rows bars.
  assert (E : bars = sortBy byOpenDesc (groupSum merchant openAmount rows)).
  { unfold bars, useParetoByMerchant. apply paretoMap_bars. }
  assert (L : length (useParetoByMerchant rows) = length bars).
  { unfold bars. now rewrite length_map. }
  rewrite L, E.
  split; [apply grouped_NoDup|].
  split; [intros m; apply grouped_In_key|].
  split; [apply grouped_length|].
  split; [intros m v; apply grouped_value|].
  apply grouped_desc.
Qed.

(** X3 on the demo dataset. *)
Lemma X3_pareto_bars_witness :
  (forall r, In r seed -> nonNegative (openAmount r))
  /\ StronglySorted (fun x y => le (snd y) (snd x) = true)
                    (map (fun p => (p_merchant p, p_open p))
                         (useParetoByMerchant seed)).
Proof.
  assert (H : forall r, In r seed -> nonNegative (openAmount r)).
  { intros r Hr. apply (seed_amounts r Hr). }
  split; [exact H|].
  exact (proj2 (proj2 (proj2 (proj2 (X3_pareto_bars seed)))) H).
Defined.

(** X4 (top merchants by open amount): for a count [k], the chart shows
    [min k (distinct merchants)] bars, one merchant each, a bar's amount
    being the sum of the merchant's rows; and, for open amounts that are
    finite and not negative, the bars come smallest first and no merchant
    left out has a larger amount than one shown. *)
Theorem X4_top_open_by_merchant :
  forall (rows : list Row) (k : nat),
    Z.of_nat k <= 2 ^ 53 ->
    let top := useTopOpenByMerchant rows (of_nat k) in
    length top = Nat.min k (length (nodup jsstring_eq_dec (map merchant rows)))
    /\ NoDup (map fst top)
    /\ (forall m v,
           In (m, v) top ->
           v = fold_left add
                         (map openAmount
                              (filter (fun r => str_eqb (merchant r) m) rows))
                         zero)
    /\ ((forall r, In r rows -> nonNegative (openAmount r)) ->
        StronglySorted (fun x y => le (snd x) (snd y) = true) top
        /\ forall x y,
            In x top ->
            In y (groupSum merchant openAmount rows) -> ~ In y top ->
            le (snd y) (snd x) = true).
Proof.
  intros rows k Hk top.
  set (l := sortBy byOpenDesc (groupSum merchant openAmount rows)).
  assert (E : top = rev (firstn k l)).
  { unfold top, useTopOpenByMerchant. now rewrite slice_first. }
  rewrite E. clear E top.
  split.
  { rewrite length_rev, length_firstn. unfold l. now rewrite grouped_length. }
  split.
  { rewrite map_rev. apply NoDup_rev.
    pose proof (grouped_NoDup merchant openAmount rows) as N. fold l in N.
    rewrite <- (firstn_skipn k l), map_app in N.
    now apply NoDup_app_remove_r in N. }
  split.
  { intros m v Hin. apply in_rev in Hin.
    apply (grouped_value merchant openAmount rows). fold l.
    rewrite <- (firstn_skipn k l). apply in_or_app. now left. }
  intros Hnn.
  pose proof (grouped_desc merchant openAmount rows Hnn) as S. fold l in S.
  rewrite <- (firstn_skipn k l) in S.
  apply StronglySorted_app_inv in S. destruct S as (S1 & _ & C).
  split.
  - apply (StronglySorted_rev _ _ S1).
  - intros x y Hx Hy Hn. apply in_rev in Hx.
    apply C; [exact Hx|].
    assert (Hl : In y l) by (unfold l; now apply sortBy_In).
    rewrite <- (firstn_skipn k l) in Hl. apply in_app_or in Hl.
    destruct Hl as [Hl | Hl]; [|exact Hl].
    exfalso. apply Hn. now apply in_rev in Hl.
Qed.

(** X4 on the demo dataset, for the three largest merchants. *)
Lemma X4_top_open_by_merchant_witness :
  Z.of_nat 3 <= 2 ^ 53
  /\ length (useTopOpenByMerchant seed (of_nat 3)) = 3%nat.
Proof.
  assert (H : Z.of_nat 3 <= 2 ^ 53) by (vm_compute; discriminate).
  split; [exact H|].
  exact (proj1 (X4_top_open_by_merchant seed 3 H)).
Defined.

(** Sorting by a numeric field, largest first. *)
Lemma sortBy_desc {V} (f : V -> number) (after : V -> V -> bool) (l : list V) :
  (forall a b, after a b = lt zero (sub (f b) (f a))) ->
  Forall (fun x => wfn (f x) /\ isNaN (f x) = false) l ->
  StronglySorted (fun a b => le (f b) (f a) = true) (sortBy after l).
Proof.
  intros Ha H.
  set (Q := fun x : V => wfn (f x) /\ isNaN (f x) = false).
  apply StronglySorted_impl with (R := fun a b => after a b = false) (Q := Q).
  - intros a b [Wa Na] [Wb Nb] E. rewrite Ha, sub_positive in E by assumption.
    apply not_lt_le; assumption.
  - apply sortBy_Forall. exact H.
  - apply sortBy_sorted with (P := Q).
    + intros x y [Wx Nx] [Wy Ny]. rewrite !Ha, !sub_positive by assumption.
      apply lt_asym.
    + intros x y z [Wx Nx] [Wy Ny] [Wz Nz].
      rewrite !Ha, !sub_positive by assumption.
      intros H1 H2. exact (not_lt_trans _ _ _ Ny H1 H2).
    + exact H.
Qed.

Lemma keyMap_get_In (kj : KeyJoin) (l : list Row) (k : jsstring) (r : Row) :
  Map_get k (keyMap kj l) = Some r -> In r l /\ keyFn kj r = k.
Proof.
  rewrite keyMap_last. intros H. apply find_some in H.
  destruct H as [Hin E]. apply in_rev in Hin. apply str_eqb_eq in E. auto.
Qed.

Lemma compareKey_delta_ok (kj : KeyJoin) (A B : list Row) (k : jsstring) :
  (forall r, In r A -> is_double (revenueAmount r)
                       /\ isFinite (revenueAmount r) = true) ->
  (forall r, In r B -> is_double (revenueAmount r)
                       /\ isFinite (revenueAmount r) = true) ->
  wfn (deltaRevenue (compareKey (keyMap kj A) (keyMap kj B) k))
  /\ isNaN (deltaRevenue (compareKey (keyMap kj A) (keyMap kj B) k)) = false.
Proof.
  intros HA HB. cbn [compareKey deltaRevenue].
  assert (F : forall l, (forall r, In r l -> is_double (revenueAmount r)
                                              /\ isFinite (revenueAmount r) = true) ->
                        wfn (field revenueAmount (Map_get k (keyMap kj l)) zero)
                        /\ isFinite (field revenueAmount (Map_get k (keyMap kj l)) zero)
                           = true).
  { intros l Hl. destruct (Map_get k (keyMap kj l)) as [r|] eqn:G; cbn [field].
    - apply keyMap_get_In in G. destruct (Hl r (proj1 G)) as [D Fi].
      split; [now apply is_double_wfn | exact Fi].
    - split; [cbn; lia | reflexivity]. }
  destruct (F A HA) as [WA FA]. destruct (F B HB) as [WB FB].
  split.
  - apply sub_wfn; assumption.
  - apply sub_not_NaN_fin; [|exact FA].
    destruct (field revenueAmount (Map_get k (keyMap kj B)) zero);
      [discriminate FB | reflexivity | reflexivity].
Qed.

(** X5 (order of the comparison): when the revenues of the rows are
    finite, the comparison rows come by revenue delta, largest first. *)
Theorem X5_compare_sorted_by_delta :
  forall (base : list Row) (mA mB : option jsstring) (kj : KeyJoin),
    (forall r, In r base -> is_double (revenueAmount r)
                            /\ isFinite (revenueAmount r) = true) ->
    StronglySorted (fun a b => le (deltaRevenue b) (deltaRevenue a) = true)
                   (compareRows base mA mB kj).
Proof.
  intros base mA mB kj H.
  destruct mA as [[|a mA]|]; try constructor.
  destruct mB as [[|b mB]|]; try constructor.
  rewrite compareRows_selected by discriminate.
  apply sortBy_desc; [reflexivity|].
  apply Forall_forall. intros c Hc. apply in_map_iff in Hc.
  destruct Hc as (k & <- & _).
  apply compareKey_delta_ok; intros r Hr; apply filter_In in Hr; apply H, Hr.
Qed.

(** X5 on the demo dataset, July against August. *)
Lemma X5_compare_sorted_by_delta_witness :
  (forall r, In r seed -> is_double (revenueAmount r)
                          /\ isFinite (revenueAmount r) = true)
  /\ StronglySorted (fun a b => le (deltaRevenue b) (deltaRevenue a) = true)
                    (compareRows seed (Some (lit "2025-07")) (Some (lit "2025-08"))
                                 AgentAndMerchant).
Proof.
  assert (H : forall r, In r seed -> is_double (revenueAmount r)
                                     /\ isFinite (revenueAmount r) = true).
  { intros r Hr. destruct (seed_amounts r Hr) as (_ & (D & F & _) & _). auto. }
  split; [exact H|].
  exact (X5_compare_sorted_by_delta seed _ _ AgentAndMerchant H).
Defined.

(** ** Uploads and the comparison periods *)

Lemma normalizeMonth_nonempty (thisYear : Z) (v : value) (m : jsstring) :
  normalizeMonth thisYear v = Some m -> m <> [].
Proof.
  unfold normalizeMonth. destruct (negb (value_truthy v)); [discriminate|].
  destruct (find_match match_year_month _) as [[y g]|].
  - intros E. inversion E. intros N. apply app_eq_nil in N.
    destruct N as [_ N]. discriminate N.
  - destruct (find_match match_month _); [|discriminate].
    intros E. inversion E. intros N. apply app_eq_nil in N.
    destruct N as [_ N]. discriminate N.
Qed.

Lemma lit_unspecified : lit "未指定" <> [].
Proof. vm_compute. discriminate. Qed.

(** Every row an upload contributes carries a month, and not the empty
    one. *)
Lemma uploaded_month (thisYear : Z) (st : AppState) (files : list File) (r : Row) :
  In r (uploaded thisYear st files) -> exists m, month r = Some m /\ m <> [].
Proof.
  unfold uploaded, merged. intros H. apply in_map_iff in H.
  destruct H as (r0 & <- & H0).
  apply in_concat in H0. destruct H0 as (b & Hb & Hr0).
  apply in_map_iff in Hb. destruct Hb as (f & <- & _).
  unfold parseOne in Hr0. apply filter_In in Hr0. destruct Hr0 as [Hr0 _].
  apply in_map_iff in Hr0. destruct Hr0 as (rec & <- & _).
  unfold backfill. cbn [month].
  destruct (month (toRow thisYear (batchMonth st) rec)) as [m|] eqn:E.
  - exists m. split; [reflexivity|].
    unfold toRow in E. cbn [month] in E.
    now apply normalizeMonth_nonempty in E.
  - destruct (normalizeMonth thisYear (VStr (batchMonth st))) as [m|] eqn:E2.
    + exists m. split; [reflexivity | now apply normalizeMonth_nonempty in E2].
    + exists (lit "未指定"). split; [reflexivity | apply lit_unspecified].
Qed.

Lemma monthsOf_In (rs : list Row) (m : jsstring) :
  In m (monthsOf rs) <-> exists r, In r rs /\ month r = Some m.
Proof.
  unfold monthsOf. rewrite Set_of_In, in_flat_map. split.
  - intros (r & Hr & Hm). exists r. split; [exact Hr|].
    destruct (month r) as [m'|]; [|destruct Hm].
    destruct Hm as [-> | []]. reflexivity.
  - intros (r & Hr & E). exists r. split; [exact Hr|]. rewrite E. now left.
Qed.

Lemma onFiles_periods (thisYear : Z) (st : AppState) (files : list File) :
  files <> [] ->
  let months := filter (fun m => value_truthy (VStr m))
                       (monthsOf (uploaded thisYear st files)) in
  monthA (onFiles thisYear st files)
  = match months with
    | [] => monthA st
    | m0 :: _ => Some m0
    end
  /\ monthB (onFiles thisYear st files)
     = match months with
       | [] => monthB st
       | m0 :: _ => match nth_error months 1 with
                    | Some m1 => Some m1
                    | None => Some m0
                    end
       end.
Proof.
  intros Hf months. destruct files as [|f fs]; [congruence|].
  unfold onFiles. fold (uploaded thisYear st (f :: fs)).
  fold (monthsOf (uploaded thisYear st (f :: fs))). fold months.
  destruct months as [|m0 ms]; split; reflexivity.
Qed.

Lemma filter_truthy_all (l : list jsstring) :
  (forall m, In m l -> m <> []) ->
  filter (fun m => value_truthy (VStr m)) l = l.
Proof.
  induction l as [|m l IH]; intros H; [reflexivity|].
  cbn [filter]. destruct m as [|c m]; [exfalso; apply (H []); [now left | reflexivity]|].
  cbn [value_truthy]. f_equal. apply IH. intros x Hx. apply H. now right.
Qed.

Lemma baseRowsForCompare_all (rs : list Row) : baseRowsForCompare rs [] = rs.
Proof.
  unfold baseRowsForCompare. induction rs as [|r rs IH]; [reflexivity|].
  cbn [filter]. unfold passExclude at 1. cbn [length Nat.eqb orb].
  now rewrite IH.
Qed.

Lemma compareRows_populated (base : list Row) (mA mB : jsstring) (kj : KeyJoin) (r : Row) :
  mA <> [] -> mB <> [] -> In r base -> month r = Some mA ->
  compareRows base (Some mA) (Some mB) kj <> [].
Proof.
  intros HA HB Hr Hm. rewrite compareRows_selected by assumption.
  intros E. apply sortBy_nil, map_eq_nil, joinKeys_nil in E.
  destruct E as [E _].
  assert (Hin : In r (filter (inMonth mA) base)).
  { apply filter_In. split; [exact Hr|]. unfold inMonth. rewrite Hm.
    apply str_eqb_refl. }
  rewrite E in Hin. destruct Hin.
Qed.

(** X6 (an upload selects the comparison periods): when an upload
    contributes at least one row, both comparison periods are set to
    months of the uploaded rows (the first, and the second if there is
    one), those months have rows in the dataset whether the upload appends
    or replaces, and the comparison without exclusion is not empty. *)
Theorem X6_upload_selects_periods :
  forall (thisYear : Z) (st : AppState) (files : list File),
    uploaded thisYear st files <> [] ->
    let st' := onFiles thisYear st files in
    exists mA mB,
      monthA st' = Some mA /\ monthB st' = Some mB
      /\ mA <> [] /\ mB <> []
      /\ nth_error (monthsOf (uploaded thisYear st files)) 0 = Some mA
      /\ (nth_error (monthsOf (uploaded thisYear st files)) 1 = Some mB
          \/ (nth_error (monthsOf (uploaded thisYear st files)) 1 = None
              /\ mB = mA))
      /\ (exists r, In r (uploaded thisYear st files) /\ In r (rows st')
                    /\ month r = Some mA)
      /\ (exists r, In r (uploaded thisYear st files) /\ In r (rows st')
                    /\ month r = Some mB)
      /\ forall kj,
          compareRows (baseRowsForCompare (rows st') [])
                      (monthA st') (monthB st') kj <> [].
Proof.
  intros thisYear st files Hne st'.
  set (up := uploaded thisYear st files) in *.
  assert (Hf : files <> []).
  { intros ->. apply Hne. reflexivity. }
  assert (Hm : forall m, In m (monthsOf up) -> m <> []).
  { intros m Hin. apply monthsOf_In in Hin. destruct Hin as (r & Hr & E).
    destruct (uploaded_month thisYear st files r Hr) as (m' & E' & Hm').
    congruence. }
  destruct (onFiles_periods thisYear st files Hf) as [PA PB].
  fold up in PA, PB. rewrite (filter_truthy_all _ Hm) in PA, PB.
  fold st' in PA, PB.
  assert (Hrows : forall r, In r up -> In r (rows st')).
  { intros r Hr. unfold st'. rewrite onFiles_rows by exact Hf.
    fold (uploaded thisYear st files). fold up. unfold merge.
    destruct (appendMode st); [apply in_or_app; now right | exact Hr]. }
  assert (Hrow : forall m, In m (monthsOf up) ->
                           exists r, In r up /\ In r (rows st') /\ month r = Some m).
  { intros m Hin. apply monthsOf_In in Hin. destruct Hin as (r & Hr & E).
    exists r. auto. }
  destruct (monthsOf up) as [|m0 ms] eqn:EM.
  { exfalso. destruct up as [|r0 up'] eqn:EU; [now apply Hne|].
    destruct (uploaded_month thisYear st files r0) as (m & E & _).
    { fold up. rewrite EU. now left. }
    assert (Hin : In m (monthsOf (r0 :: up'))).
    { apply monthsOf_In. exists r0. split; [now left | exact E]. }
    rewrite EM in Hin. destruct Hin. }
  assert (H0 : In m0 (m0 :: ms)) by now left.
  destruct ms as [|m1 ms].
  - exists m0, m0. cbn [nth_error] in *.
    split; [exact PA|]. split; [exact PB|].
    split; [now apply Hm|]. split; [now apply Hm|].
    split; [reflexivity|]. split; [right; split; reflexivity|].
    split; [now apply Hrow|]. split; [now apply Hrow|].
    intros kj. rewrite PA, PB, baseRowsForCompare_all.
    destruct (Hrow m0 H0) as (r & _ & Hr & E).
    apply (compareRows_populated _ m0 m0 kj r); auto.
  - assert (H1 : In m1 (m0 :: m1 :: ms)) by (right; now left).
    exists m0, m1. cbn [nth_error] in *.
    split; [exact PA|]. split; [exact PB|].
    split; [now apply Hm|]. split; [now apply Hm|].
    split; [reflexivity|]. split; [left; reflexivity|].
    split; [now apply Hrow|]. split; [now apply Hrow|].
    intros kj. rewrite PA, PB, baseRowsForCompare_all.
    destruct (Hrow m0 H0) as (r & _ & Hr & E).
    apply (compareRows_populated _ m0 m1 kj r); auto.
Qed.

(** X6 on one uploaded sheet with a row for June 2025. *)
Lemma X6_upload_selects_periods_witness :
  let f := mkFile (lit "june.csv")
                  [[(lit "代理商", VStr (lit "X")); (lit "商戶", VStr (lit "M1"));
                    (lit "月份", VStr (lit "2025-06"));
                    (lit "開分量", VStr (lit "100"));
                    (lit "營業額", VStr (lit "30"))]] in
  uploaded 2025 initialState [f] <> []
  /\ exists mA mB,
      monthA (onFiles 2025 initialState [f]) = Some mA
      /\ monthB (onFiles 2025 initialState [f]) = Some mB
      /\ mA <> [] /\ mB <> [].
Proof.
  intros f.
  assert (H : uploaded 2025 initialState [f] <> []) by (vm_compute; discriminate).
  split; [exact H|].
  destruct (X6_upload_selects_periods 2025 initialState [f] H)
    as (mA & mB & EA & EB & NA & NB & _).
  exists mA, mB. exact (conj EA (conj EB (conj NA NB))).
Defined.

(** ** The order of strings *)

Lemma str_ltb_asym (a b : jsstring) : str_ltb a b = true -> str_ltb b a = false.
Proof.
  revert b. induction a as [|x a IH]; intros [|y b]; cbn [str_ltb]; try congruence.
  rewrite orb_true_iff, andb_true_iff, orb_false_iff, andb_false_iff,
    N.ltb_lt, N.eqb_eq, N.ltb_ge, N.eqb_neq.
  intros [H | [E H]].
  - split; [lia | left; lia].
  - subst y. split; [lia | right; now apply IH].
Qed.

Lemma str_ltb_total (a b : jsstring) :
  str_ltb a b = false -> str_ltb b a = false -> a = b.
Proof.
  revert b. induction a as [|x a IH]; intros [|y b]; cbn [str_ltb];
    try congruence.
  rewrite !orb_false_iff, !andb_false_iff, !N.ltb_ge, !N.eqb_neq.
  intros [H1 H2] [H3 H4].
  assert (E : x = y) by lia. subst y. f_equal. apply IH.
  - destruct H2; [congruence | assumption].
  - destruct H4; [congruence | assumption].
Qed.

Lemma str_not_ltb_trans (a b c : jsstring) :
  str_ltb a b = false -> str_ltb b c = false -> str_ltb a c = false.
Proof.
  revert b c. induction a as [|x a IH]; intros [|y b] [|z c]; cbn [str_ltb];
    try congruence.
  rewrite !orb_false_iff, !andb_false_iff, !N.ltb_ge, !N.eqb_neq.
  intros [H1 H2] [H3 H4]. split; [lia|].
  destruct (N.eq_dec x z) as [E | E]; [right | now left].
  subst z. assert (E : x = y) by lia. subst y.
  apply (IH b c).
  - destruct H2; [congruence | assumption].
  - destruct H4; [congruence | assumption].
Qed.

Lemma str_ltb_irrefl (a : jsstring) : str_ltb a a = false.
Proof.
  induction a as [|x a IH]; [reflexivity|]. cbn [str_ltb].
  now rewrite N.ltb_irrefl, N.eqb_refl, IH.
Qed.

(** A sorted list without duplicates is strictly sorted. *)
Lemma StronglySorted_strict {A} (R S : A -> A -> Prop) (l : list A) :
  (forall a b, R a b -> a <> b -> S a b) ->
  NoDup l -> StronglySorted R l -> StronglySorted S l.
Proof.
  intros H N Hs. induction Hs as [|x l Hs IH Hx]; constructor.
  - inversion N; subst. auto.
  - inversion N as [|? ? Nx Nl]; subst.
    rewrite Forall_forall in *. intros y Hy. apply H; [now apply Hx|].
    intros ->. contradiction.
Qed.

(** [sort()] on strings: the result is in ascending code-unit order. *)
Lemma sortStrings_sorted (l : list jsstring) :
  StronglySorted (fun a b => str_ltb b a = false) (sortStrings l).
Proof.
  unfold sortStrings.
  apply (sortBy_sorted (fun a b => str_ltb b a) (fun _ => True)).
  - intros x y _ _. apply str_ltb_asym.
  - intros x y z _ _ _ H1 H2. exact (str_not_ltb_trans _ _ _ H2 H1).
  - apply Forall_forall. auto.
Qed.

Lemma sortStrings_strict (l : list jsstring) :
  NoDup l -> StronglySorted (fun a b => str_ltb a b = true) (sortStrings l).
Proof.
  intros N.
  apply StronglySorted_strict with (R := fun a b => str_ltb b a = false).
  - intros a b H Hab. destruct (str_ltb a b) eqn:E; [reflexivity|].
    exfalso. apply Hab. now apply str_ltb_total.
  - apply (Permutation_NoDup (l := l)); [|exact N].
    symmetry. apply sortBy_perm.
  - apply sortStrings_sorted.
Qed.

(** A strictly sorted list of strings is what sorting gives: the sort
    leaves it as it is. *)
Lemma sort_insert_head (x : jsstring) (l : list jsstring) :
  Forall (fun y => str_ltb x y = true) l ->
  sort_insert (fun a b => str_ltb b a) x l = x :: l.
Proof.
  destruct l as [|y l]; [reflexivity|]. intros H. inversion H; subst.
  cbn [sort_insert]. now rewrite (str_ltb_asym x y).
Qed.

Lemma sortStrings_fixed (l : list jsstring) :
  StronglySorted (fun a b => str_ltb a b = true) l -> sortStrings l = l.
Proof.
  unfold sortStrings. induction 1 as [|x l Hs IH Hx]; [reflexivity|].
  cbn [sortBy fold_right]. fold (sortBy (fun a b => str_ltb b a) l).
  rewrite IH. now apply sort_insert_head.
Qed.

(** ** The sortable table *)

Lemma value_lt_asym (a b : value) : value_lt a b = true -> value_lt b a = false.
Proof.
  destruct a, b; cbn [value_lt]; try apply lt_asym. apply str_ltb_asym.
Qed.

Lemma getSortValue_kind (k : SortKey) :
  (forall r, exists s, getSortValue r k = VStr s)
  \/ (forall r, exists n, getSortValue r k = VNum n).
Proof.
  destruct k; cbn [getSortValue];
    [left | left | left | right | right | right]; intros r; eauto.
  destruct (month r); eauto.
Qed.

Lemma sortCompare_positive (s : Sorter) (a b : Row) :
  (0 <? sortCompare s a b)
  = match sortDir s with
    | Desc => value_lt (getSortValue a (sortKey s)) (getSortValue b (sortKey s))
    | Asc => value_lt (getSortValue b (sortKey s)) (getSortValue a (sortKey s))
    end.
Proof.
  unfold sortCompare.
  set (av := getSortValue a (sortKey s)). set (bv := getSortValue b (sortKey s)).
  assert (Na : nullish av = false).
  { unfold av. destruct (sortKey s); cbn [getSortValue]; try reflexivity.
    now destruct (month a). }
  assert (Nb : nullish bv = false).
  { unfold bv. destruct (sortKey s); cbn [getSortValue]; try reflexivity.
    now destruct (month b). }
  rewrite Na, Nb. cbn [andb].
  pose proof (value_lt_asym av bv) as A1. pose proof (value_lt_asym bv av) as A2.
  destruct (sortDir s), (value_lt bv av), (value_lt av bv);
    try reflexivity; try (specialize (A1 eq_refl); discriminate A1).
Qed.

Lemma sortValue_not_after_trans (k : SortKey) (x y z : Row) :
  getSortValue y k <> VNum NaN ->
  value_lt (getSortValue x k) (getSortValue y k) = false ->
  value_lt (getSortValue y k) (getSortValue z k) = false ->
  value_lt (getSortValue x k) (getSortValue z k) = false.
Proof.
  intros Hy. destruct (getSortValue_kind k) as [K | K].
  - destruct (K x) as [sx ->], (K y) as [sy ->], (K z) as [sz ->].
    cbn [value_lt]. apply str_not_ltb_trans.
  - destruct (K x) as [nx ->], (K y) as [ny Ey], (K z) as [nz ->].
    rewrite Ey in *. cbn [value_lt ToNumber]. apply not_lt_trans.
    destruct ny; [congruence | reflexivity | reflexivity].
Qed.

Lemma SortKey_eqb_eq (a b : SortKey) : SortKey_eqb a b = true <-> a = b.
Proof. destruct a, b; cbn; split; congruence. Qed.

(** X7 (the sortable table): sorting keeps every row, each as often as it
    occurs; when no sort value is NaN the rows are in the order of the
    sorter (descending: no row is followed by one with a larger value;
    ascending: by one with a smaller value), so the table starts by
    revenue, largest first; a click on a column header makes it the sort
    column, descending if it was not, and a second click on the sort
    column restores the sorter. *)
Theorem X7_sorted_rows :
  forall (filtered : list Row) (s : Sorter),
    Permutation (sortedRows filtered s) filtered
    /\ ((forall r, In r filtered -> getSortValue r (sortKey s) <> VNum NaN) ->
        StronglySorted
          (fun a b =>
             match sortDir s with
             | Desc => value_lt (getSortValue a (sortKey s))
                                (getSortValue b (sortKey s)) = false
             | Asc => value_lt (getSortValue b (sortKey s))
                               (getSortValue a (sortKey s)) = false
             end)
          (sortedRows filtered s))
    /\ ((forall r, In r filtered -> isNaN (revenueAmount r) = false) ->
        StronglySorted (fun a b => le (revenueAmount b) (revenueAmount a) = true)
                       (sortedRows filtered defaultSorter))
    /\ (forall k, sortKey (toggleSort s k) = k)
    /\ (forall k, sortKey s <> k -> sortDir (toggleSort s k) = Desc)
    /\ (forall k, sortKey s = k -> toggleSort (toggleSort s k) k = s).
Proof.
  intros filtered s.
  assert (Sorted_gen : forall s0,
    (forall r, In r filtered -> getSortValue r (sortKey s0) <> VNum NaN) ->
    StronglySorted
      (fun a b => (0 <? sortCompare s0 a b) = false) (sortedRows filtered s0)).
  { intros s0 H. unfold sortedRows.
    apply sortBy_sorted
      with (P := fun r => getSortValue r (sortKey s0) <> VNum NaN).
    - intros x y _ _. rewrite !sortCompare_positive.
      destruct (sortDir s0); apply value_lt_asym.
    - intros x y z Hx Hy Hz. rewrite !sortCompare_positive.
      destruct (sortDir s0); intros H1 H2.
      + exact (sortValue_not_after_trans _ z y x Hy H2 H1).
      + exact (sortValue_not_after_trans _ x y z Hy H1 H2).
    - apply Forall_forall. exact H. }
  split; [apply sortBy_perm|].
  split.
  { intros H. specialize (Sorted_gen s H).
    apply StronglySorted_impl
      with (R := fun a b => (0 <? sortCompare s a b) = false) (Q := fun _ => True).
    - intros a b _ _. rewrite sortCompare_positive. now destruct (sortDir s).
    - apply Forall_forall. auto.
    - exact Sorted_gen. }
  split.
  { intros H.
    assert (H' : forall r, In r filtered ->
                           getSortValue r (sortKey defaultSorter) <> VNum NaN).
    { intros r Hr E. cbn [getSortValue defaultSorter sortKey coerceNumber] in E.
      inversion E as [E']. specialize (H r Hr). rewrite E' in H. discriminate H. }
    specialize (Sorted_gen defaultSorter H').
    apply StronglySorted_impl
      with (R := fun a b => (0 <? sortCompare defaultSorter a b) = false)
           (Q := fun r => isNaN (revenueAmount r) = false).
    - intros a b Na Nb. rewrite sortCompare_positive.
      cbn [defaultSorter sortDir sortKey getSortValue coerceNumber value_lt ToNumber].
      now apply not_lt_le.
    - apply Forall_forall. intros r Hr. apply H.
      unfold sortedRows in Hr. now apply sortBy_In in Hr.
    - exact Sorted_gen. }
  split.
  { intros k. unfold toggleSort. now destruct (SortKey_eqb (sortKey s) k). }
  split.
  { intros k Hk. unfold toggleSort.
    destruct (SortKey_eqb (sortKey s) k) eqn:E; [|reflexivity].
    apply SortKey_eqb_eq in E. contradiction. }
  intros k Hk. destruct s as [k0 d]. cbn [sortKey] in Hk. subst k0.
  unfold toggleSort. cbn [sortKey sortDir].
  assert (E : SortKey_eqb k k = true) by now apply SortKey_eqb_eq.
  rewrite E. cbn [sortKey sortDir]. rewrite E. now destruct d.
Qed.

(** X7 on the demo dataset. *)
Lemma X7_sorted_rows_witness :
  (forall r, In r seed -> isNaN (revenueAmount r) = false)
  /\ StronglySorted (fun a b => le (revenueAmount b) (revenueAmount a) = true)
                    (sortedRows seed defaultSorter).
Proof.
  assert (H : forall r, In r seed -> isNaN (revenueAmount r) = false).
  { intros r [<- | [<- | [<- | [<- | [<- | []]]]]]; vm_compute; reflexivity. }
  split; [exact H|].
  exact (proj1 (proj2 (proj2 (X7_sorted_rows seed defaultSorter))) H).
Defined.

(** ** The month normaliser *)

Lemma digits_value_nonneg (ds : jsstring) :
  forallb is_digit ds = true -> 0 <= digits_value ds.
Proof.
  induction ds as [|c ds IH] using rev_ind; intros H; [now cbv|].
  rewrite forallb_app in H. apply andb_true_iff in H. destruct H as [H1 H2].
  rewrite digits_value_snoc. specialize (IH H1).
  cbn [forallb] in H2. rewrite andb_true_r in H2. unfold is_digit in H2.
  rewrite andb_true_iff, !N.leb_le in H2. unfold digit_val. lia.
Qed.

(** ** Printing whole numbers *)

Lemma decimalOf_length (d : nat) (k : Z) : length (decimalOf d k) = d.
Proof.
  revert k. induction d as [|d IH]; intros k; [reflexivity|].
  cbn [decimalOf]. rewrite length_app, IH. cbn. lia.
Qed.

Lemma decimalOf_digits (d : nat) (k : Z) : forallb is_digit (decimalOf d k) = true.
Proof.
  revert k. induction d as [|d IH]; intros k; [reflexivity|].
  cbn [decimalOf]. rewrite forallb_app, IH. cbn [forallb andb].
  rewrite digit_char_is_digit; [reflexivity|]. apply Z.mod_pos_bound. lia.
Qed.

Lemma digits_go_S (f : nat) (n : Z) (acc : jsstring) :
  digits_go (S f) n acc
  = if n <? 10 then digit_char (n mod 10) :: acc
    else digits_go f (n / 10) (digit_char (n mod 10) :: acc).
Proof. reflexivity. Qed.

(** [digits_go] writes the digits of a number of [d] digits. *)
Lemma digits_go_decimal (d : nat) :
  forall (fuel : nat) (n : Z) (acc : jsstring),
    (d <= fuel)%nat -> 0 <= n < 10 ^ Z.of_nat (S d) ->
    (d = 0%nat \/ 10 ^ Z.of_nat d <= n) ->
    digits_go (S fuel) n acc = decimalOf (S d) n ++ acc.
Proof.
  induction d as [|d IH]; intros fuel n acc Hf Hn Hlow.
  - change (10 ^ Z.of_nat 1) with 10 in Hn. rewrite digits_go_S.
    assert (E : (n <? 10) = true) by (apply Z.ltb_lt; lia).
    now rewrite E.
  - destruct Hlow as [Hlow | Hlow]; [discriminate|].
    destruct fuel as [|fuel]; [lia|].
    assert (P : 10 ^ Z.of_nat (S d) = 10 * 10 ^ Z.of_nat d).
    { rewrite Nat2Z.inj_succ, Z.pow_succ_r by lia. reflexivity. }
    assert (P2 : 10 ^ Z.of_nat (S (S d)) = 10 * 10 ^ Z.of_nat (S d)).
    { rewrite (Nat2Z.inj_succ (S d)), Z.pow_succ_r by lia. reflexivity. }
    assert (Hp : 0 < 10 ^ Z.of_nat d) by (apply Z.pow_pos_nonneg; lia).
    rewrite digits_go_S.
    assert (E : (n <? 10) = false) by (apply Z.ltb_ge; lia).
    rewrite E. rewrite (IH fuel (n / 10)).
    + cbn [decimalOf]. now rewrite <- !app_assoc.
    + lia.
    + split; [apply Z.div_pos; lia|].
      apply Z.div_lt_upper_bound; lia.
    + right. apply Z.div_le_lower_bound; lia.
Qed.

(** A number of [d] digits, [d] at least 1. *)
Lemma digits_of_decimal (d : nat) (k : Z) :
  0 <= k < 10 ^ Z.of_nat (S d) ->
  (d = 0%nat \/ 10 ^ Z.of_nat d <= k) ->
  digits_of k = decimalOf (S d) k.
Proof.
  intros Hk Hlow. unfold digits_of.
  rewrite (digits_go_decimal d); [apply app_nil_r | | exact Hk | exact Hlow].
  destruct Hlow as [-> | Hlow]; [lia|].
  assert (L : Z.of_nat d <= Z.log2 k).
  { apply Z.log2_le_pow2; [lia|].
    assert (2 ^ Z.of_nat d <= 10 ^ Z.of_nat d) by (apply Z.pow_le_mono_l; lia).
    lia. }
  lia.
Qed.

Lemma decimalOf_shift (e d : nat) (a : Z) :
  0 <= a ->
  decimalOf (d + e) (a * 10 ^ Z.of_nat e) = decimalOf d a ++ repeat c_zero e.
Proof.
  intros Ha. induction e as [|e IH].
  - rewrite Nat.add_0_r. change (10 ^ Z.of_nat 0) with 1.
    now rewrite Z.mul_1_r, app_nil_r.
  - rewrite Nat.add_succ_r. cbn [decimalOf].
    assert (P : a * 10 ^ Z.of_nat (S e) = a * 10 ^ Z.of_nat e * 10).
    { rewrite Nat2Z.inj_succ, Z.pow_succ_r by lia. ring. }
    rewrite P, Z.div_mul by lia. rewrite Z.mod_mul by lia. rewrite IH.
    change (digit_char 0) with c_zero.
    rewrite <- app_assoc. f_equal.
    change [c_zero] with (repeat c_zero 1). rewrite <- repeat_app.
    now rewrite Nat.add_1_r.
Qed.

Lemma strip_zeros_keep (ds : jsstring) (c : N) :
  c <> c_zero -> strip_zeros (ds ++ [c]) = ds ++ [c].
Proof.
  intros H. unfold strip_zeros. rewrite rev_app_distr. cbn [rev app dropWhile].
  assert (E : (c_zero =? c)%N = false) by (apply N.eqb_neq; congruence).
  rewrite E. cbn [rev]. now rewrite rev_involutive.
Qed.

Lemma digit_char_nonzero (x : Z) : 0 < x < 10 -> digit_char x <> c_zero.
Proof. intros H. unfold digit_char, c_zero. lia. Qed.

Lemma mk_whole (x : Z) : 0 <= x <= 2 ^ 53 -> mk false (x * U) 1 = Fin false (x * U).
Proof.
  intros H. pose proof (of_Z_small x H) as O. unfold of_Z in O.
  assert (E : (x <? 0) = false) by (apply Z.ltb_ge; lia).
  rewrite E, Z.abs_eq in O by lia. exact O.
Qed.

Lemma mk_above (k x r : Z) :
  0 <= k < 2 ^ 53 -> k + 1 <= x ->
  mk false (x * U) 1 = Fin false r -> r <> k * U.
Proof.
  intros Hk Hx E. pose proof U_pos as HU.
  assert (G : (k + 1) * U <= round_mag (x * U) 1).
  { apply round_mag_ge; try nia. apply canon_small_mul_U. lia. }
  unfold mk in E. destruct (round_mag (x * U) 1 <? OVF); [|discriminate E].
  inversion E. nia.
Qed.

Lemma shortest_S (f : nat) (m n0 k : Z) :
  shortest (S f) m n0 k
  = let e := n0 - k in
    let lo := scaled_floor m e in
    let oklo := match decimal false lo e with Fin _ r => r =? m | _ => false end in
    let okhi := match decimal false (lo + 1) e with Fin _ r => r =? m | _ => false end in
    if oklo && okhi then (if nearer_low m e lo then (lo, e) else (lo + 1, e))
    else if oklo then (lo, e)
    else if okhi then (lo + 1, e)
    else shortest f m n0 (k + 1).
Proof. reflexivity. Qed.

(** One turn of the search for the shortest digits of the whole number
    [k], at the exponent [e]. *)
Lemma shortest_turn (k : Z) (e : nat) :
  1 <= k < 2 ^ 53 ->
  let lo := k / 10 ^ Z.of_nat e in
  scaled_floor (k * U) (Z.of_nat e) = lo
  /\ match decimal false lo (Z.of_nat e) with
     | Fin _ r => r =? k * U
     | _ => false
     end = (k mod 10 ^ Z.of_nat e =? 0)
  /\ match decimal false (lo + 1) (Z.of_nat e) with
     | Fin _ r => r =? k * U
     | _ => false
     end = false.
Proof.
  intros Hk lo. pose proof U_pos as HU.
  assert (Hp : 0 < 10 ^ Z.of_nat e) by (apply Z.pow_pos_nonneg; lia).
  assert (E0 : (0 <=? Z.of_nat e) = true) by (apply Z.leb_le; lia).
  pose proof (Z.div_mod k (10 ^ Z.of_nat e) ltac:(lia)) as DM.
  pose proof (Z.mod_pos_bound k (10 ^ Z.of_nat e) Hp) as MB.
  fold lo in DM.
  assert (Hlo : 0 <= lo) by (apply Z.div_pos; lia).
  split; [|split].
  - unfold scaled_floor. rewrite E0. unfold lo.
    rewrite (Z.mul_comm k U). apply Z.div_mul_cancel_l; lia.
  - unfold decimal. rewrite E0.
    rewrite (mk_whole (lo * 10 ^ Z.of_nat e)) by nia.
    destruct (k mod 10 ^ Z.of_nat e =? 0) eqn:Ed.
    + apply Z.eqb_eq in Ed. apply Z.eqb_eq. nia.
    + apply Z.eqb_neq in Ed. apply Z.eqb_neq. nia.
  - unfold decimal. rewrite E0.
    destruct (mk false ((lo + 1) * 10 ^ Z.of_nat e * U) 1) as [| |s r] eqn:Em;
      try reflexivity.
    assert (Es : s = false).
    { unfold mk in Em. destruct (round_mag _ _ <? OVF); inversion Em; reflexivity. }
    subst s. apply Z.eqb_neq.
    apply (mk_above k ((lo + 1) * 10 ^ Z.of_nat e) r); [lia | nia | exact Em].
Qed.

Lemma shortest_whole (k : Z) (d : nat) :
  1 <= k < 2 ^ 53 ->
  10 ^ Z.of_nat d <= k < 10 ^ Z.of_nat (S d) ->
  forall (e fuel : nat),
    (e <= d)%nat -> (e < fuel)%nat ->
    (e = d \/ k mod 10 ^ Z.of_nat (S e) <> 0) ->
    exists (sd : Z) (e' : nat),
      shortest fuel (k * U) (Z.of_nat (S d)) (Z.of_nat (S d) - Z.of_nat e)
      = (sd, Z.of_nat e')
      /\ (e' <= e)%nat /\ sd * 10 ^ Z.of_nat e' = k /\ sd mod 10 <> 0.
Proof.
  intros Hk Hd. induction e as [|e IH]; intros fuel He Hf Hinv.
  - destruct fuel as [|f]; [lia|]. rewrite shortest_S. cbv zeta.
    replace (Z.of_nat (S d) - (Z.of_nat (S d) - Z.of_nat 0)) with (Z.of_nat 0) by lia.
    destruct (shortest_turn k 0 Hk) as (F & L & H). cbv zeta in F, L, H.
    rewrite F, L, H. change (10 ^ Z.of_nat 0) with 1 in *.
    rewrite Z.mod_1_r, Z.div_1_r. cbn [Z.eqb andb].
    exists k, 0%nat. split; [reflexivity|]. split; [lia|].
    split; [change (10 ^ Z.of_nat 0) with 1; lia|].
    destruct Hinv as [<- | Hinv].
    + change (10 ^ Z.of_nat 0) with 1 in Hd. change (10 ^ Z.of_nat 1) with 10 in Hd.
      rewrite Z.mod_small; lia.
    + change (10 ^ Z.of_nat 1) with 10 in Hinv. exact Hinv.
  - destruct fuel as [|f]; [lia|]. rewrite shortest_S. cbv zeta.
    replace (Z.of_nat (S d) - (Z.of_nat (S d) - Z.of_nat (S e)))
      with (Z.of_nat (S e)) by lia.
    destruct (shortest_turn k (S e) Hk) as (F & L & H). cbv zeta in F, L, H.
    rewrite F, L, H.
    assert (Hp : 0 < 10 ^ Z.of_nat (S e)) by (apply Z.pow_pos_nonneg; lia).
    destruct (k mod 10 ^ Z.of_nat (S e) =? 0) eqn:Ed; cbn [andb].
    + apply Z.eqb_eq in Ed.
      pose proof (Z.div_mod k (10 ^ Z.of_nat (S e)) ltac:(lia)) as DM.
      set (lo := k / 10 ^ Z.of_nat (S e)) in *.
      exists lo, (S e). split; [reflexivity|]. split; [lia|].
      split; [nia|].
      destruct Hinv as [E | Hinv].
      * subst d.
        assert (P2 : 10 ^ Z.of_nat (S (S e)) = 10 * 10 ^ Z.of_nat (S e)).
        { rewrite (Nat2Z.inj_succ (S e)), Z.pow_succ_r by lia. reflexivity. }
        assert (1 <= lo < 10) by nia. rewrite Z.mod_small; lia.
      * intros M. apply Hinv.
        assert (P2 : 10 ^ Z.of_nat (S (S e)) = 10 * 10 ^ Z.of_nat (S e)).
        { rewrite (Nat2Z.inj_succ (S e)), Z.pow_succ_r by lia. reflexivity. }
        pose proof (Z.div_mod lo 10 ltac:(lia)) as DL. rewrite M in DL.
        rewrite P2.
        replace k with (lo / 10 * (10 * 10 ^ Z.of_nat (S e))) by nia.
        apply Z.mod_mul. lia.
    + apply Z.eqb_neq in Ed.
      replace (Z.of_nat (S d) - Z.of_nat (S e) + 1)
        with (Z.of_nat (S d) - Z.of_nat e) by lia.
      destruct (IH f) as (sd & e' & E1 & E2 & E3 & E4); [lia | lia | now right|].
      exists sd, e'. repeat split; auto.
Qed.

Lemma digits_count (n : nat) (k : Z) :
  1 <= k < 10 ^ Z.of_nat n ->
  exists d, (d < n)%nat /\ 10 ^ Z.of_nat d <= k < 10 ^ Z.of_nat (S d).
Proof.
  induction n as [|n IH]; intros Hk.
  - change (10 ^ Z.of_nat 0) with 1 in Hk. lia.
  - destruct (Z_lt_le_dec k (10 ^ Z.of_nat n)) as [L | L].
    + destruct (IH ltac:(lia)) as (d & Hd & B). exists d. split; [lia | exact B].
    + exists n. split; [lia | lia].
Qed.

Lemma numberToString_Fin (s : bool) (m sd e : Z) :
  m <> 0 ->
  shortest 20 m (dec_exponent m) 1 = (sd, e) ->
  numberToString (Fin s m)
  = (if s then [c_minus] else [])
    ++ (let ds0 := digits_of sd in
        let n := e + Z.of_nat (length ds0) in
        let ds := strip_zeros ds0 in
        let k := Z.of_nat (length ds) in
        if (k <=? n) && (n <=? 21) then ds ++ repeat c_zero (Z.to_nat (n - k))
        else if (0 <? n) && (n <=? 21)
        then firstn (Z.to_nat n) ds ++ [c_dot] ++ skipn (Z.to_nat n) ds
        else if (-6 <? n) && (n <=? 0)
        then [c_zero; c_dot] ++ repeat c_zero (Z.to_nat (- n)) ++ ds
        else
          let ex := [101%N] ++ [if n - 1 <? 0 then c_minus else c_plus]
                    ++ digits_of (Z.abs (n - 1)) in
          match ds with
          | [d] => [d] ++ ex
          | d :: ds' => [d; c_dot] ++ ds' ++ ex
          | [] => ex
          end).
Proof.
  intros Hm E. unfold numberToString. apply Z.eqb_neq in Hm. rewrite Hm, E.
  reflexivity.
Qed.

(** [String(k)] for a whole number [k] from 1 below 2^53 is its decimal
    digits. *)
Lemma numberToString_whole (k : Z) :
  1 <= k < 2 ^ 53 -> numberToString (Fin false (k * U)) = digits_of k.
Proof.
  intros Hk. pose proof U_pos as HU.
  assert (H16 : 2 ^ 53 < 10 ^ Z.of_nat 16) by (vm_compute; reflexivity).
  destruct (digits_count 16 k ltac:(lia)) as (d & Hd & B).
  assert (Dk : digits_of k = decimalOf (S d) k).
  { apply digits_of_decimal; [lia|]. right. lia. }
  assert (DE : dec_exponent (k * U) = Z.of_nat (S d)).
  { unfold dec_exponent.
    assert (E : (U <=? k * U) = true) by (apply Z.leb_le; nia).
    rewrite E, Z.div_mul by lia. now rewrite Dk, decimalOf_length. }
  destruct (shortest_whole k d Hk B d 20 ltac:(lia) ltac:(lia) (or_introl eq_refl))
    as (sd & e' & Es & He & Hsd & Hmod).
  replace (Z.of_nat (S d) - Z.of_nat d) with 1 in Es by lia.
  rewrite <- DE in Es.
  rewrite (numberToString_Fin false (k * U) sd (Z.of_nat e')); [|nia | exact Es].
  cbn [app]. cbv zeta.
  assert (Hp : 0 < 10 ^ Z.of_nat e') by (apply Z.pow_pos_nonneg; lia).
  assert (Hsd0 : 1 <= sd) by nia.
  (* the digits of [sd] *)
  assert (Px : 10 ^ Z.of_nat (S d) = 10 ^ Z.of_nat (S (d - e')) * 10 ^ Z.of_nat e').
  { rewrite <- Z.pow_add_r by lia. f_equal. lia. }
  assert (Py : 10 ^ Z.of_nat d = 10 ^ Z.of_nat (d - e') * 10 ^ Z.of_nat e').
  { rewrite <- Z.pow_add_r by lia. f_equal. lia. }
  assert (Bs : 10 ^ Z.of_nat (d - e') <= sd < 10 ^ Z.of_nat (S (d - e'))).
  { assert (0 < 10 ^ Z.of_nat (d - e')) by (apply Z.pow_pos_nonneg; lia).
    assert (0 < 10 ^ Z.of_nat (S (d - e'))) by (apply Z.pow_pos_nonneg; lia).
    split; nia. }
  assert (Ds : digits_of sd = decimalOf (S (d - e')) sd).
  { apply digits_of_decimal; [lia|]. right. lia. }
  rewrite Ds.
  assert (St : strip_zeros (decimalOf (S (d - e')) sd) = decimalOf (S (d - e')) sd).
  { cbn [decimalOf]. apply strip_zeros_keep, digit_char_nonzero.
    pose proof (Z.mod_pos_bound sd 10 ltac:(lia)). lia. }
  rewrite St, decimalOf_length.
  assert (C1 : (Z.of_nat (S (d - e')) <=? Z.of_nat e' + Z.of_nat (S (d - e'))) = true)
    by (apply Z.leb_le; lia).
  assert (C2 : (Z.of_nat e' + Z.of_nat (S (d - e')) <=? 21) = true)
    by (apply Z.leb_le; lia).
  rewrite C1, C2. cbn [andb].
  replace (Z.to_nat (Z.of_nat e' + Z.of_nat (S (d - e')) - Z.of_nat (S (d - e'))))
    with e' by lia.
  rewrite <- decimalOf_shift by lia. rewrite Hsd, Dk. f_equal. lia.
Qed.

Lemma numberToString_zero : numberToString (Fin false 0) = [c_zero].
Proof. reflexivity. Qed.

Lemma digit_char_of_val (c : N) : is_digit c = true -> digit_char (digit_val c) = c.
Proof.
  unfold is_digit, digit_char, digit_val. rewrite andb_true_iff, !N.leb_le. lia.
Qed.

Lemma digit_val_bounds (c : N) : is_digit c = true -> 0 <= digit_val c < 10.
Proof.
  unfold is_digit, digit_val. rewrite andb_true_iff, !N.leb_le. lia.
Qed.

(** [String(Number(g))] for a group of digits that denotes a number below
    2^53. *)
Lemma numberToString_digits (g : jsstring) :
  g <> [] -> forallb is_digit g = true -> digits_value g < 2 ^ 53 ->
  numberToString (Number_of_string g)
  = if digits_value g =? 0 then [c_zero] else digits_of (digits_value g).
Proof.
  intros Hne Hg Hv.
  pose proof (digits_value_nonneg g Hg) as H0.
  assert (Ok : numeral_ok (Numeral false g None) = true).
  { cbn [numeral_ok fraction]. rewrite app_nil_r, Hg. cbn [forallb andb].
    destruct g; [congruence | reflexivity]. }
  pose proof (Number_of_numeral _ Ok) as N.
  cbn [render numeral_value fraction app length] in N. rewrite !app_nil_r in N.
  rewrite N. change (- Z.of_nat 0) with 0. unfold decimal.
  change (0 <=? 0) with true. cbv iota. change (10 ^ 0) with 1.
  rewrite Z.mul_1_r, mk_whole by lia.
  destruct (digits_value g =? 0) eqn:E.
  - apply Z.eqb_eq in E. rewrite E. reflexivity.
  - apply Z.eqb_neq in E. apply numberToString_whole. lia.
Qed.

Lemma two_digits_one_eq (a : N) : is_digit a = true -> two_digits [a] = [c_zero; a].
Proof.
  intros Ha. unfold two_digits.
  pose proof (digit_val_bounds a Ha) as B.
  assert (V : digits_value [a] = digit_val a) by (unfold digits_value; cbn; lia).
  rewrite numberToString_digits; [|discriminate | cbn; now rewrite Ha |].
  2:{ rewrite V. assert (10 < 2 ^ 53) by (vm_compute; reflexivity). lia. }
  rewrite V. destruct (digit_val a =? 0) eqn:E.
  - apply Z.eqb_eq in E. rewrite <- (digit_char_of_val a Ha), E. reflexivity.
  - apply Z.eqb_neq in E.
    rewrite (digits_of_decimal 0); [|change (10 ^ Z.of_nat 1) with 10; lia | now left].
    cbn [decimalOf app]. rewrite Z.mod_small by lia.
    rewrite (digit_char_of_val a Ha). reflexivity.
Qed.

Lemma two_digits_one (a : N) :
  is_digit a = true ->
  exists x y, two_digits [a] = [x; y] /\ is_digit x = true /\ is_digit y = true.
Proof.
  intros Ha. exists c_zero, a. split; [now apply two_digits_one_eq | auto].
Qed.

Lemma two_digits_two (a b : N) :
  is_digit a = true -> is_digit b = true -> two_digits [a; b] = [a; b].
Proof.
  intros Ha Hb. unfold two_digits.
  pose proof (digit_val_bounds a Ha) as Ba. pose proof (digit_val_bounds b Hb) as Bb.
  assert (V : digits_value [a; b] = digit_val a * 10 + digit_val b)
    by (unfold digits_value; cbn; lia).
  rewrite numberToString_digits; [|discriminate | cbn; now rewrite Ha, Hb |].
  2:{ rewrite V. assert (100 < 2 ^ 53) by (vm_compute; reflexivity). lia. }
  rewrite V. set (M := digit_val a * 10 + digit_val b).
  destruct (M =? 0) eqn:E.
  - apply Z.eqb_eq in E. assert (digit_val a = 0 /\ digit_val b = 0) as [Ea Eb] by lia.
    rewrite <- (digit_char_of_val a Ha), <- (digit_char_of_val b Hb), Ea, Eb.
    reflexivity.
  - apply Z.eqb_neq in E. destruct (Z.eq_dec (digit_val a) 0) as [Ea | Ea].
    + rewrite (digits_of_decimal 0);
        [|change (10 ^ Z.of_nat 1) with 10; lia | now left].
      cbn [decimalOf app]. rewrite Z.mod_small by lia.
      replace M with (digit_val b) by lia.
      rewrite (digit_char_of_val b Hb), <- (digit_char_of_val a Ha), Ea.
      reflexivity.
    + rewrite (digits_of_decimal 1);
        [|change (10 ^ Z.of_nat 2) with 100; lia
         |right; change (10 ^ Z.of_nat 1) with 10; lia].
      cbn [decimalOf app].
      assert (D : M / 10 = digit_val a) by (unfold M; Z.div_mod_to_equations; lia).
      assert (R : M mod 10 = digit_val b) by (unfold M; Z.div_mod_to_equations; lia).
      rewrite D, R, (Z.mod_small (digit_val a) 10) by lia.
      rewrite (digit_char_of_val a Ha), (digit_char_of_val b Hb). reflexivity.
Qed.

Lemma year_string (y : Z) :
  2000 <= y <= 2099 ->
  exists d1 d2, numberToString (of_Z y) = [50; 48; d1; d2]%N
                /\ is_digit d1 = true /\ is_digit d2 = true.
Proof.
  intros Hy.
  assert (B : 2099 < 2 ^ 53) by (vm_compute; reflexivity).
  rewrite of_Z_small by lia. rewrite numberToString_whole by lia.
  rewrite (digits_of_decimal 3);
    [|change (10 ^ Z.of_nat 4) with 10000; lia
     |right; change (10 ^ Z.of_nat 3) with 1000; lia].
  cbn [decimalOf app].
  assert (E1 : (y / 10 / 10 / 10) mod 10 = 2) by (Z.div_mod_to_equations; lia).
  assert (E2 : (y / 10 / 10) mod 10 = 0) by (Z.div_mod_to_equations; lia).
  rewrite E1, E2.
  exists (digit_char ((y / 10) mod 10)), (digit_char (y mod 10)).
  split; [reflexivity|].
  split; apply digit_char_is_digit; apply Z.mod_pos_bound; lia.
Qed.

Lemma find_match_Some {A} (f : jsstring -> option A) (s : jsstring) (a : A) :
  find_match f s = Some a -> exists pre s', s = pre ++ s' /\ f s' = Some a.
Proof.
  induction s as [|c s IH]; cbn [find_match].
  - destruct (f []) eqn:E; [|discriminate]. intros H. inversion H; subst.
    exists [], []. auto.
  - destruct (f (c :: s)) eqn:E.
    + intros H. inversion H; subst. exists [], (c :: s). auto.
    + intros H. destruct (IH H) as (pre & s' & -> & Hs).
      exists (c :: pre), s'. auto.
Qed.

Lemma find_match_head {A} (f : jsstring -> option A) (s : jsstring) (a : A) :
  f s = Some a -> find_match f s = Some a.
Proof. intros H. destruct s; cbn [find_match]; now rewrite H. Qed.

Lemma lit_month_seps : lit "-/.年" = [45; 47; 46; 24180]%N.
Proof. vm_compute. reflexivity. Qed.

Lemma match_year_month_eq (c1 c2 d1 d2 : N) (r : jsstring) :
  match_year_month (c1 :: c2 :: d1 :: d2 :: r)
  = if (c1 =? 50)%N && (c2 =? 48)%N then
      if is_digit d1 && is_digit d2 then
        let r' :=
          match r with
          | c :: r1 => if existsb (N.eqb c) (lit "-/.年") then r1 else r
          | [] => r
          end in
        match r' with
        | e1 :: r2 =>
          if is_digit e1 then
            match r2 with
            | e2 :: _ =>
              if is_digit e2 then Some ([50; 48; d1; d2]%N, [e1; e2])
              else Some ([50; 48; d1; d2]%N, [e1])
            | [] => Some ([50; 48; d1; d2]%N, [e1])
            end
          else None
        | [] => None
        end
      else None
    else None.
Proof.
  destruct (N.eqb_spec c1 50) as [-> | N1].
  - destruct (N.eqb_spec c2 48) as [-> | N2]; [reflexivity|].
    cbn [andb]. unfold match_year_month.
    destruct c2 as [|p]; [reflexivity|].
    do 6 (try (destruct p as [p|p|]; try reflexivity)); congruence.
  - cbn [andb]. unfold match_year_month.
    destruct c1 as [|p]; [reflexivity|].
    do 6 (try (destruct p as [p|p|]; try reflexivity)); congruence.
Qed.

Lemma match_year_month_inv (s y g : jsstring) :
  match_year_month s = Some (y, g) ->
  exists d1 d2,
    y = [50; 48; d1; d2]%N /\ is_digit d1 = true /\ is_digit d2 = true
    /\ ((exists e1, g = [e1] /\ is_digit e1 = true)
        \/ (exists e1 e2, g = [e1; e2] /\ is_digit e1 = true
                          /\ is_digit e2 = true)).
Proof.
  destruct s as [|c1 [|c2 [|d1 [|d2 r]]]];
    try (unfold match_year_month;
         repeat match goal with
                | |- context [match ?x with N0 => _ | Npos _ => _ end] => destruct x
                | |- context [match ?p with xI _ => _ | xO _ => _ | xH => _ end] =>
                  destruct p
                end; discriminate).
  rewrite match_year_month_eq.
  destruct ((c1 =? 50)%N && (c2 =? 48)%N); [|discriminate].
  destruct (is_digit d1) eqn:H1; [|discriminate].
  destruct (is_digit d2) eqn:H2; [|discriminate].
  cbn [andb].
  cbv zeta.
  assert (G : forall r' : jsstring,
             match r' with
             | e1 :: r2 =>
               if is_digit e1 then
                 match r2 with
                 | e2 :: _ =>
                   if is_digit e2 then Some ([50; 48; d1; d2]%N, [e1; e2])
                   else Some ([50; 48; d1; d2]%N, [e1])
                 | [] => Some ([50; 48; d1; d2]%N, [e1])
                 end
               else None
             | [] => None
             end = Some (y, g) ->
             exists d1 d2,
               y = [50; 48; d1; d2]%N /\ is_digit d1 = true /\ is_digit d2 = true
               /\ ((exists e1, g = [e1] /\ is_digit e1 = true)
                   \/ (exists e1 e2, g = [e1; e2] /\ is_digit e1 = true
                                     /\ is_digit e2 = true))).
  { intros [|e1 r2]; [discriminate|].
    destruct (is_digit e1) eqn:H3; [|discriminate].
    destruct r2 as [|e2 r3].
    - intros E. inversion E; subst. exists d1, d2. repeat split; auto.
      left. eauto.
    - destruct (is_digit e2) eqn:H4; intros E; inversion E; subst;
        exists d1, d2; repeat split; auto; [right | left]; eauto. }
  apply G.
Qed.

Lemma match_month_inv (s g : jsstring) :
  match_month s = Some g ->
  (exists e1, g = [e1] /\ is_digit e1 = true)
  \/ (exists e1 e2, g = [e1; e2] /\ is_digit e1 = true /\ is_digit e2 = true).
Proof.
  unfold match_month. destruct s as [|d1 r]; [discriminate|].
  destruct (is_digit d1) eqn:H1; [|discriminate].
  destruct r as [|d2 r2]; [discriminate|].
  destruct (is_digit d2) eqn:H2.
  - destruct (startsWith _ _); [|discriminate].
    intros E. inversion E. right. eauto.
  - destruct (startsWith _ _); [|discriminate].
    intros E. inversion E. left. eauto.
Qed.

Lemma two_digits_group (g : jsstring) :
  (exists e1, g = [e1] /\ is_digit e1 = true)
  \/ (exists e1 e2, g = [e1; e2] /\ is_digit e1 = true /\ is_digit e2 = true) ->
  exists a b, two_digits g = [a; b] /\ is_digit a = true /\ is_digit b = true.
Proof.
  intros [(e1 & -> & H1) | (e1 & e2 & -> & H1 & H2)].
  - now apply two_digits_one.
  - exists e1, e2. split; [now apply two_digits_two | auto].
Qed.

Lemma digit_plain (c : N) : is_digit c = true -> plain_char c = true.
Proof. intros H. unfold plain_char. now rewrite H. Qed.

Lemma digit_not_minus (c : N) : is_digit c = true -> (c =? c_minus)%N = false.
Proof.
  intros H. apply N.eqb_neq. intros ->. discriminate H.
Qed.

(** A month in canonical form is what both normalisers return for it. *)
Lemma canonicalMonth_fixed (thisYear : Z) (m : jsstring) :
  canonicalMonth m ->
  normalizeMonth thisYear (VStr m) = Some m /\ normMonth (Some m) = m.
Proof.
  intros (d1 & d2 & a & b & -> & H1 & H2 & Ha & Hb).
  assert (T : trim [50; 48; d1; d2; 45; a; b]%N = [50; 48; d1; d2; 45; a; b]%N).
  { apply trim_plain. cbn [forallb].
    rewrite (digit_plain d1 H1), (digit_plain d2 H2), (digit_plain a Ha),
      (digit_plain b Hb). reflexivity. }
  split.
  - unfold normalizeMonth. cbn [value_truthy negb String_]. rewrite T.
    rewrite (find_match_head _ _ ([50; 48; d1; d2]%N, [a; b])).
    + now rewrite (two_digits_two a b Ha Hb).
    + rewrite match_year_month_eq. cbn [N.eqb Pos.eqb andb].
      rewrite H1, H2. cbn [andb]. rewrite lit_month_seps.
      cbn [existsb N.eqb Pos.eqb orb]. cbv zeta. now rewrite Ha, Hb.
  - unfold normMonth. rewrite T.
    pose proof (digit_not_minus d1 H1) as M1.
    pose proof (digit_not_minus d2 H2) as M2.
    pose proof (digit_not_minus a Ha) as Ma.
    pose proof (digit_not_minus b Hb) as Mb.
    cbn [split_char]. rewrite M1, M2, Ma, Mb.
    change ((50 =? c_minus)%N) with false. change ((48 =? c_minus)%N) with false.
    change ((45 =? c_minus)%N) with true. cbn [rev app].
    reflexivity.
Qed.

(** X8 (month normaliser): in a year from 2000 to 2099, whatever
    [normalizeMonth] returns is in canonical form (20, two digits, a
    hyphen, two digits); a canonical month is returned as it is by
    [normalizeMonth] and by [normMonth], whatever its two month digits
    are; and an empty or missing month gives none. *)
Theorem X8_normalizeMonth_canonical :
  forall (thisYear : Z) (v : value) (m : jsstring),
    2000 <= thisYear <= 2099 ->
    normalizeMonth thisYear v = Some m ->
    canonicalMonth m
    /\ normalizeMonth thisYear (VStr m) = Some m
    /\ normMonth (Some m) = m
    /\ (forall m', canonicalMonth m' ->
                   normalizeMonth thisYear (VStr m') = Some m'
                   /\ normMonth (Some m') = m')
    /\ normalizeMonth thisYear (VStr []) = None
    /\ normalizeMonth thisYear VUndefined = None
    /\ normalizeMonth thisYear VNull = None.
Proof.
  intros thisYear v m Hy H.
  assert (C : canonicalMonth m).
  { unfold normalizeMonth in H.
    destruct (negb (value_truthy v)); [discriminate|].
    destruct (find_match match_year_month (trim (String_ v))) as [[y g]|] eqn:E1.
    - apply find_match_Some in E1. destruct E1 as (pre & s' & _ & E1).
      apply match_year_month_inv in E1.
      destruct E1 as (d1 & d2 & -> & H1 & H2 & G).
      destruct (two_digits_group g G) as (a & b & Eg & Ha & Hb).
      rewrite Eg in H. inversion H. exists d1, d2, a, b. auto.
    - destruct (find_match match_month (trim (String_ v))) as [g|] eqn:E2;
        [|discriminate].
      apply find_match_Some in E2. destruct E2 as (pre & s' & _ & E2).
      apply match_month_inv in E2.
      destruct (two_digits_group g E2) as (a & b & Eg & Ha & Hb).
      destruct (year_string thisYear Hy) as (d1 & d2 & Ey & H1 & H2).
      rewrite Eg, Ey in H. inversion H. exists d1, d2, a, b. auto. }
  split; [exact C|].
  destruct (canonicalMonth_fixed thisYear m C) as [F1 F2].
  split; [exact F1|]. split; [exact F2|].
  split; [intros m'; apply canonicalMonth_fixed|].
  split; [reflexivity|]. split; reflexivity.
Qed.

(** X8 on a month written with its Chinese suffix. *)
Lemma X8_normalizeMonth_canonical_witness :
  2000 <= 2025 <= 2099
  /\ normalizeMonth 2025 (VStr (lit "7月")) = Some (lit "2025-07")
  /\ canonicalMonth (lit "2025-07").
Proof.
  assert (Hy : 2000 <= 2025 <= 2099) by lia.
  assert (E : normalizeMonth 2025 (VStr (lit "7月")) = Some (lit "2025-07"))
    by (vm_compute; reflexivity).
  split; [exact Hy|]. split; [exact E|].
  exact (proj1 (X8_normalizeMonth_canonical 2025 _ _ Hy E)).
Defined.

(** ** Months of the data and their selection *)

Lemma allMonths_In (rows : list Row) (m : jsstring) :
  In m (allMonths rows) <-> exists r, In r rows /\ normMonth (month r) = m.
Proof.
  unfold allMonths. rewrite sortBy_In, Set_of_In, in_map_iff. split.
  - intros (r & E & Hr). eauto.
  - intros (r & Hr & E). eauto.
Qed.

Lemma allMonths_sorted (rows : list Row) :
  StronglySorted (fun a b => str_ltb a b = true) (allMonths rows).
Proof. apply sortStrings_strict, Set_of_NoDup. Qed.

Lemma strict_NoDup (l : list jsstring) :
  StronglySorted (fun a b => str_ltb a b = true) l -> NoDup l.
Proof.
  induction 1 as [|x l Hs IH Hx]; constructor; [|exact IH].
  intros Hin. rewrite Forall_forall in Hx. specialize (Hx x Hin).
  rewrite str_ltb_irrefl in Hx. discriminate Hx.
Qed.

(** Two strictly ascending lists with the same elements are equal. *)
Lemma strict_unique (l1 l2 : list jsstring) :
  StronglySorted (fun a b => str_ltb a b = true) l1 ->
  StronglySorted (fun a b => str_ltb a b = true) l2 ->
  (forall x, In x l1 <-> In x l2) -> l1 = l2.
Proof.
  intros S1. revert l2. induction S1 as [|x l1 S1 IH Hx]; intros l2 S2 E.
  - destruct l2 as [|y l2]; [reflexivity|].
    exfalso. apply (proj2 (E y)). now left.
  - destruct S2 as [|y l2 S2 Hy].
    + exfalso. apply (proj1 (E x)). now left.
    + rewrite Forall_forall in Hx, Hy.
      assert (Exy : x = y).
      { destruct (proj1 (E x) (or_introl eq_refl)) as [-> | Hin]; [reflexivity|].
        destruct (proj2 (E y) (or_introl eq_refl)) as [-> | Hin']; [reflexivity|].
        pose proof (Hy x Hin) as A. pose proof (Hx y Hin') as B.
        apply str_ltb_asym in A. congruence. }
      subst y. f_equal. apply IH; [exact S2|].
      intros z. split; intros Hz.
      * destruct (proj1 (E z) (or_intror Hz)) as [<- | H]; [|exact H].
        specialize (Hx x Hz). rewrite str_ltb_irrefl in Hx. discriminate Hx.
      * destruct (proj2 (E z) (or_intror Hz)) as [<- | H]; [|exact H].
        specialize (Hy x Hz). rewrite str_ltb_irrefl in Hy. discriminate Hy.
Qed.

Lemma strict_filter (p : jsstring -> bool) (l : list jsstring) :
  StronglySorted (fun a b => str_ltb a b = true) l ->
  StronglySorted (fun a b => str_ltb a b = true) (filter p l).
Proof.
  induction 1 as [|x l Hs IH Hx]; cbn [filter]; [constructor|].
  destruct (p x); [|exact IH]. constructor; [exact IH|].
  rewrite Forall_forall in *. intros y Hy. apply Hx.
  now apply filter_In in Hy.
Qed.

Lemma strict_skipn (k : nat) (l : list jsstring) :
  StronglySorted (fun a b => str_ltb a b = true) l ->
  StronglySorted (fun a b => str_ltb a b = true) (skipn k l).
Proof.
  intros H. rewrite <- (firstn_skipn k l) in H.
  now apply StronglySorted_app_inv in H.
Qed.

Lemma toggleMonth_In (sel : list jsstring) (m x : jsstring) :
  In x (toggleMonth sel m)
  <-> (In m sel /\ In x sel /\ x <> m) \/ (~ In m sel /\ (In x sel \/ x = m)).
Proof.
  unfold toggleMonth. destruct (existsb (str_eqb m) sel) eqn:E.
  - apply existsb_str_eqb in E. rewrite filter_In, negb_true_iff, str_eqb_neq.
    tauto.
  - assert (N : ~ In m sel).
    { intros H. apply existsb_str_eqb in H. congruence. }
    unfold sortStrings. rewrite sortBy_In, in_app_iff. simpl. intuition.
Qed.

Lemma toggleMonth_sorted (sel : list jsstring) (m : jsstring) :
  StronglySorted (fun a b => str_ltb a b = true) sel ->
  StronglySorted (fun a b => str_ltb a b = true) (toggleMonth sel m).
Proof.
  intros S. unfold toggleMonth. destruct (existsb (str_eqb m) sel) eqn:E.
  - now apply strict_filter.
  - apply sortStrings_strict.
    assert (N : ~ In m sel).
    { intros H. apply existsb_str_eqb in H. congruence. }
    apply NoDup_app; [now apply strict_NoDup | repeat constructor; auto |].
    intros x Hx [<- | []]. contradiction.
Qed.

(** X9 (months and their selection): the months offered are the
    normalised months of the rows, in strictly ascending order; every
    control of the month lock (all, the last [k], one month, a Ctrl-click
    on a month, the default of the empty selection) leaves a selection in
    ascending order made of months of the data; a second Ctrl-click on the
    same month restores the selection; and clearing the selection selects
    every month as soon as there is one. *)
Theorem X9_month_selection :
  forall rows : list Row,
    let all := allMonths rows in
    StronglySorted (fun a b => str_ltb a b = true) all
    /\ (forall m, In m all <-> exists r, In r rows /\ normMonth (month r) = m)
    /\ selection all (pickAll all)
    /\ (forall k, (0 < k)%nat -> Z.of_nat k <= 2 ^ 53 ->
                  quickPick all (of_nat k) = skipn (length all - k) all
                  /\ selection all (quickPick all (of_nat k)))
    /\ (forall m, In m all -> selection all (pickOnly m))
    /\ (forall sel m,
           selection all sel -> In m all ->
           selection all (toggleMonth sel m)
           /\ toggleMonth (toggleMonth sel m) m = sel)
    /\ (forall sel, selection all sel -> selection all (selectDefault all sel))
    /\ (all <> [] -> selectDefault all clearAll = all).
Proof.
  intros rows all.
  pose proof (allMonths_sorted rows) as SA. fold all in SA.
  split; [exact SA|].
  split; [intros m; apply allMonths_In|].
  split; [split; [exact SA | apply incl_refl]|].
  split.
  { intros k Hp Hk. unfold quickPick. rewrite slice_last by assumption.
    split; [reflexivity|]. split; [now apply strict_skipn|].
    intros x Hx. rewrite <- (firstn_skipn (length all - k) all).
    apply in_or_app. now right. }
  split.
  { intros m Hm. split.
    - unfold pickOnly. repeat constructor.
    - intros x [<- | []]. exact Hm. }
  split.
  { intros sel m [S I] Hm. split.
    - split; [now apply toggleMonth_sorted|].
      intros x Hx. apply toggleMonth_In in Hx.
      destruct Hx as [(_ & Hx & _) | (_ & [Hx | ->])]; auto.
    - apply strict_unique; [|exact S|].
      + now apply toggleMonth_sorted, toggleMonth_sorted.
      + intros x. rewrite !toggleMonth_In.
        destruct (in_dec jsstring_eq_dec m sel) as [Hin | Hin];
          destruct (jsstring_eq_dec x m) as [-> | Hne]; tauto. }
  split.
  { intros sel [S I]. unfold selectDefault.
    destruct (negb (length all =? 0)%nat && (length sel =? 0)%nat).
    - split; [exact SA | apply incl_refl].
    - split; assumption. }
  intros Hne. unfold selectDefault, clearAll.
  destruct all; [congruence | reflexivity].
Qed.

(** X9 on the demo dataset: the last month. *)
Lemma X9_month_selection_witness :
  (0 < 1)%nat /\ Z.of_nat 1 <= 2 ^ 53
  /\ quickPick (allMonths seed) (of_nat 1)
     = skipn (length (allMonths seed) - 1) (allMonths seed).
Proof.
  assert (H1 : (0 < 1)%nat) by lia.
  assert (H2 : Z.of_nat 1 <= 2 ^ 53) by (vm_compute; discriminate).
  split; [exact H1|]. split; [exact H2|].
  exact (proj1 (proj1 (proj2 (proj2 (proj2 (X9_month_selection seed))))
                      1%nat H1 H2)).
Defined.

(** ** The filter pipeline *)

Lemma filter_twice {A} (p q : A -> bool) (l : list A) :
  filter p (filter q l) = filter (fun x => q x && p x) l.
Proof.
  induction l as [|x l IH]; [reflexivity|]. cbn [filter].
  destruct (q x); cbn [filter andb]; [destruct (p x)|]; now rewrite IH.
Qed.

Lemma filter_all {A} (p : A -> bool) (l : list A) :
  (forall x, In x l -> p x = true) -> filter p l = l.
Proof.
  induction l as [|x l IH]; intros H; [reflexivity|]. cbn [filter].
  rewrite (H x) by now left. f_equal. apply IH. intros y Hy. apply H. now right.
Qed.

Lemma filter_none {A} (p : A -> bool) (l : list A) :
  (forall x, In x l -> p x = false) -> filter p l = [].
Proof.
  induction l as [|x l IH]; intros H; [reflexivity|]. cbn [filter].
  rewrite (H x) by now left. apply IH. intros y Hy. apply H. now right.
Qed.

Lemma filtered_unfold (lower : jsstring -> jsstring) (rows : list Row) (c : Criteria) :
  filtered lower rows c
  = afterMonths lower c
      (if negb (length (selectedMonths c) =? 0)%nat
          && negb (length (selectedMonths c) =? length (allMonths rows))%nat
       then filter (monthIn (selectedMonths c)) rows else rows).
Proof. reflexivity. Qed.

(** What the stages after the month lock keep. *)
Lemma afterMonths_filter (lower : jsstring -> jsstring) (c : Criteria) :
  exists keep,
    (forall d, afterMonths lower c d = filter keep d)
    /\ (forall r, keep r = true ->
                  (agentFilter c <> lit "ALL" -> agent r = agentFilter c)
                  /\ (merchantFilter c <> lit "ALL" -> merchant r = merchantFilter c)
                  /\ passExclude (excludeTokens (excludeAgent c)) r = true).
Proof.
  set (ka := fun r : Row => if negb (str_eqb (agentFilter c) (lit "ALL"))
                            then str_eqb (agent r) (agentFilter c) else true).
  set (km := fun r : Row => if negb (str_eqb (merchantFilter c) (lit "ALL"))
                            then str_eqb (merchant r) (merchantFilter c) else true).
  set (ke := fun r : Row => if negb (length (excludeTokens (excludeAgent c)) =? 0)%nat
                            then passExclude (excludeTokens (excludeAgent c)) r
                            else true).
  set (kq := fun r : Row =>
               match trim (q c) with
               | [] => true
               | x :: t => includes (lower (agent r)) (lower (x :: t))
                           || includes (lower (merchant r)) (lower (x :: t))
               end).
  exists (fun r => ka r && km r && ke r && kq r). split.
  - intros d. unfold afterMonths. cbv zeta.
    assert (Sa : (if negb (str_eqb (agentFilter c) (lit "ALL"))
                  then filter (fun r => str_eqb (agent r) (agentFilter c)) d else d)
                 = filter ka d).
    { unfold ka. destruct (negb (str_eqb (agentFilter c) (lit "ALL")));
        [reflexivity | symmetry; now apply filter_all]. }
    rewrite Sa.
    assert (Sm : forall d', (if negb (str_eqb (merchantFilter c) (lit "ALL"))
                   then filter (fun r => str_eqb (merchant r) (merchantFilter c)) d'
                   else d') = filter km d').
    { intros d'. unfold km. destruct (negb (str_eqb (merchantFilter c) (lit "ALL")));
        [reflexivity | symmetry; now apply filter_all]. }
    rewrite Sm.
    assert (Se : forall d', (if negb (length (excludeTokens (excludeAgent c)) =? 0)%nat
                   then filter (passExclude (excludeTokens (excludeAgent c))) d'
                   else d') = filter ke d').
    { intros d'. unfold ke.
      destruct (negb (length (excludeTokens (excludeAgent c)) =? 0)%nat);
        [reflexivity | symmetry; now apply filter_all]. }
    rewrite Se.
    assert (Sq : forall d', match trim (q c) with
                            | [] => d'
                            | x :: t =>
                              filter (fun r => includes (lower (agent r)) (lower (x :: t))
                                               || includes (lower (merchant r))
                                                           (lower (x :: t))) d'
                            end = filter kq d').
    { intros d'. unfold kq. destruct (trim (q c));
        [symmetry; now apply filter_all | reflexivity]. }
    rewrite Sq, !filter_twice. apply filter_ext. intros r.
    destruct (ka r), (km r), (ke r), (kq r); reflexivity.
  - intros r H. rewrite !andb_true_iff in H. destruct H as [[[Ha Hm] He] _].
    split; [|split].
    + intros N. unfold ka in Ha. apply str_eqb_neq in N. rewrite N in Ha.
      now apply str_eqb_eq in Ha.
    + intros N. unfold km in Hm. apply str_eqb_neq in N. rewrite N in Hm.
      now apply str_eqb_eq in Hm.
    + unfold ke in He.
      destruct (length (excludeTokens (excludeAgent c)) =? 0)%nat eqn:E;
        [|exact He].
      unfold passExclude. now rewrite E.
Qed.

Lemma monthIn_In (sel : list jsstring) (r : Row) :
  monthIn sel r = true <-> In (normMonth (month r)) sel.
Proof. unfold monthIn. now rewrite existsb_str_eqb, Set_of_In. Qed.

(** X10 (the month lock): with no month selected nothing is locked; a
    selection without duplicates of months of the data keeps exactly the
    rows of the selected months; a selection of as many months as the data
    has is taken for all of them, whatever it holds; and a selection of
    another size none of whose months is in the data hides every row. *)
Theorem X10_month_lock :
  forall (lower : jsstring -> jsstring) (rows : list Row) (c : Criteria),
    let sel := selectedMonths c in
    (sel = [] -> filtered lower rows c = afterMonths lower c rows)
    /\ (sel <> [] -> NoDup sel -> incl sel (allMonths rows) ->
        filtered lower rows c = afterMonths lower c (filter (monthIn sel) rows)
        /\ forall r, In r (filtered lower rows c) ->
                     In (normMonth (month r)) sel)
    /\ (length sel = length (allMonths rows) ->
        filtered lower rows c = afterMonths lower c rows)
    /\ (sel <> [] -> length sel <> length (allMonths rows) ->
        (forall m, In m sel -> ~ In m (allMonths rows)) ->
        filtered lower rows c = []).
Proof.
  intros lower rows c sel. rewrite filtered_unfold. fold sel.
  destruct (afterMonths_filter lower c) as (keep & K & _).
  split; [intros ->; reflexivity|].
  split.
  { intros Hne Hnd Hin.
    assert (E : (if negb (length sel =? 0)%nat
                    && negb (length sel =? length (allMonths rows))%nat
                 then filter (monthIn sel) rows else rows)
                = filter (monthIn sel) rows).
    { destruct (length sel =? length (allMonths rows))%nat eqn:El.
      - rewrite andb_false_r. symmetry. apply filter_all. intros r Hr.
        apply monthIn_In. apply Nat.eqb_eq in El.
        assert (I : incl (allMonths rows) sel).
        { apply NoDup_length_incl; [exact Hnd | lia | exact Hin]. }
        apply I, allMonths_In. eauto.
      - destruct sel; [congruence | reflexivity]. }
    rewrite E. split; [reflexivity|].
    intros r Hr. rewrite K in Hr. apply filter_In in Hr. destruct Hr as [Hr _].
    apply filter_In in Hr. now apply monthIn_In. }
  split.
  { intros El. apply Nat.eqb_eq in El. rewrite El. now rewrite andb_false_r. }
  intros Hne Hl Hout.
  apply Nat.eqb_neq in Hl. rewrite Hl.
  destruct sel as [|m0 sel0] eqn:Es; [congruence|].
  cbn [length Nat.eqb negb andb]. rewrite <- Es in *.
  rewrite (filter_none (monthIn sel) rows).
  - rewrite K. reflexivity.
  - intros r Hr. apply not_true_is_false. intros H. apply monthIn_In in H.
    apply (Hout _ H). apply allMonths_In. eauto.
Qed.

(** X10 on the demo dataset, locked to August 2025. *)
Lemma X10_month_lock_witness :
  let c := mkCriteria [lit "2025-08"] (lit "ALL") (lit "ALL") [] [] in
  (selectedMonths c <> [] /\ NoDup (selectedMonths c)
   /\ incl (selectedMonths c) (allMonths seed))
  /\ forall r, In r (filtered (fun s => s) seed c) ->
               In (normMonth (month r)) (selectedMonths c).
Proof.
  intros c.
  assert (H1 : selectedMonths c <> []) by discriminate.
  assert (H2 : NoDup (selectedMonths c)) by (repeat constructor; intros []).
  assert (H3 : incl (selectedMonths c) (allMonths seed)).
  { intros m [<- | []]. vm_compute. right. left. reflexivity. }
  split; [exact (conj H1 (conj H2 H3))|].
  exact (proj2 (proj1 (proj2 (X10_month_lock (fun s => s) seed c)) H1 H2 H3)).
Defined.

(** X11 (the filter pipeline): the rows shown are the rows of the dataset
    that pass one test, in their order; each passes the exclusion rule,
    so it is a row of the comparison's base, and is of the chosen agent
    and merchant when one is chosen; with no criteria every row is
    shown. *)
Theorem X11_filter_pipeline :
  forall (lower : jsstring -> jsstring) (rows : list Row) (c : Criteria),
    (exists keep, filtered lower rows c = filter keep rows)
    /\ incl (filtered lower rows c)
            (baseRowsForCompare rows (excludeTokens (excludeAgent c)))
    /\ (forall r, In r (filtered lower rows c) ->
          (agentFilter c <> lit "ALL" -> agent r = agentFilter c)
          /\ (merchantFilter c <> lit "ALL" -> merchant r = merchantFilter c))
    /\ filtered lower rows noCriteria = rows.
Proof.
  intros lower rows c. rewrite filtered_unfold.
  destruct (afterMonths_filter lower c) as (keep & K & P).
  set (d := if negb (length (selectedMonths c) =? 0)%nat
               && negb (length (selectedMonths c) =? length (allMonths rows))%nat
            then filter (monthIn (selectedMonths c)) rows else rows).
  assert (D : exists km, d = filter km rows).
  { unfold d. destruct (_ && _).
    - now exists (monthIn (selectedMonths c)).
    - exists (fun _ => true). symmetry. now apply filter_all. }
  destruct D as (km & D).
  assert (In_rows : forall r, In r (afterMonths lower c d) ->
                              In r rows /\ keep r = true).
  { intros r Hr. rewrite K, D in Hr. apply filter_In in Hr.
    destruct Hr as [Hr Hk]. apply filter_In in Hr. tauto. }
  split.
  { exists (fun r => km r && keep r). now rewrite K, D, filter_twice. }
  split.
  { intros r Hr. destruct (In_rows r Hr) as [Hin Hk].
    unfold baseRowsForCompare. apply filter_In. split; [exact Hin|].
    apply (P r Hk). }
  split.
  { intros r Hr. destruct (In_rows r Hr) as [_ Hk].
    destruct (P r Hk) as (A & M & _). auto. }
  reflexivity.
Qed.

(** ** The numbers of ingested rows *)

Lemma decimal_is_double (s : bool) (M E : Z) : 0 <= M -> is_double (decimal s M E).
Proof.
  intros HM. unfold decimal. pose proof U_pos as HU.
  destruct (0 <=? E) eqn:HE.
  - apply Z.leb_le in HE. apply mk_is_double; [|lia].
    assert (0 < 10 ^ E) by (apply Z.pow_pos_nonneg; lia). nia.
  - apply Z.leb_gt in HE. apply mk_is_double; [nia|].
    apply Z.pow_pos_nonneg; lia.
Qed.

Lemma of_Z_is_double (z : Z) : is_double (of_Z z).
Proof. unfold of_Z. pose proof U_pos. apply mk_is_double; [nia | lia]. Qed.

Lemma zero_is_double : is_double zero.
Proof.
  unfold zero. cbn [is_double]. pose proof U_pos. pose proof U_lt_OVF.
  split; [lia | apply canon_0].
Qed.

Lemma scan_unsigned_is_double (sg : bool) (s : jsstring) (n : number) (r : jsstring) :
  scan_unsigned sg s = Some (n, r) -> is_double n.
Proof.
  unfold scan_unsigned.
  destruct (startsWith s (lit "Infinity")).
  { intros E. inversion E. exact I. }
  set (ip := takeWhile is_digit s).
  destruct (match dropWhile is_digit s with
            | [] => ([], dropWhile is_digit s)
            | c :: r2 =>
              if (c =? c_dot)%N then (takeWhile is_digit r2, dropWhile is_digit r2)
              else ([], dropWhile is_digit s)
            end) as [fp r3] eqn:Ef.
  assert (Hf : forallb is_digit fp = true).
  { destruct (dropWhile is_digit s) as [|c r2].
    - inversion Ef. reflexivity.
    - destruct (c =? c_dot)%N; inversion Ef; [apply takeWhile_all | reflexivity]. }
  assert (Hd : 0 <= digits_value (ip ++ fp)).
  { apply digits_value_nonneg. rewrite forallb_app, Hf, andb_true_r.
    apply takeWhile_all. }
  destruct (ip ++ fp) as [|d ds] eqn:Eds; [discriminate|].
  destruct (scan_exponent r3) as [e r4].
  intros E. inversion E. now apply decimal_is_double.
Qed.

Lemma scan_decimal_is_double (s : jsstring) (n : number) (r : jsstring) :
  scan_decimal s = Some (n, r) -> is_double n.
Proof.
  unfold scan_decimal. destruct s as [|c s']; [discriminate|].
  destruct (c =? c_minus)%N; [apply scan_unsigned_is_double|].
  destruct (c =? c_plus)%N; apply scan_unsigned_is_double.
Qed.

Lemma Number_of_string_is_double (s : jsstring) : is_double (Number_of_string s).
Proof.
  unfold Number_of_string. destruct (trim s) as [|c t] eqn:Et;
    [apply zero_is_double|].
  destruct (scan_radix (c :: t)) as [n|] eqn:Er.
  - unfold scan_radix in Er. destruct t as [|p [|d ds]]; try discriminate Er.
    destruct (_ && _); [|discriminate Er].
    destruct (radix_value _ _ _); [|discriminate Er].
    inversion Er. apply of_Z_is_double.
  - destruct (scan_decimal (c :: t)) as [[n r]|] eqn:Ed; [|exact I].
    destruct r; [|exact I]. now apply scan_decimal_is_double in Ed.
Qed.

Lemma num_is_double (v : value) : is_double (num v) /\ isFinite (num v) = true.
Proof.
  split; [|apply num_finite].
  assert (F : forall n, is_double n -> is_double (if isFinite n then n else zero)).
  { intros n Hn. destruct (isFinite n); [exact Hn | apply zero_is_double]. }
  destruct v as [| | b | n | s]; try apply zero_is_double.
  - unfold num. apply F, Number_of_string_is_double.
  - unfold num. apply F, Number_of_string_is_double.
  - rewrite num_stripped. apply F, Number_of_string_is_double.
Qed.

Lemma div_is_double (x y : number) :
  is_double x -> is_double y -> is_double (div x y).
Proof.
  destruct x as [|a|a m], y as [|b|b n]; cbn [div is_double]; auto.
  - intros _ _. apply zero_is_double.
  - intros [[Hm _] _] [[Hn _] _]. pose proof U_pos.
    destruct (n =? 0) eqn:E; [now destruct (m =? 0)|].
    apply Z.eqb_neq in E. apply mk_is_double; nia.
Qed.

Lemma div_finite_not_NaN (x y : number) :
  isFinite x = true -> isFinite y = true -> truthy y = true ->
  isNaN (div x y) = false.
Proof.
  destruct x as [| |a m], y as [| |b n]; try discriminate.
  intros _ _ T. cbn [truthy] in T. apply negb_true_iff in T.
  cbn [div]. rewrite T. apply mk_not_NaN.
Qed.

Lemma finite_not_NaN (x : number) : isFinite x = true -> isNaN x = false.
Proof. destruct x; [discriminate | reflexivity | reflexivity]. Qed.

Lemma lt_zero_truthy (x : number) : lt zero x = true -> truthy x = true.
Proof.
  destruct x as [| [] | b n]; cbn [lt zero truthy]; try discriminate; auto.
  intros H. apply Z.ltb_lt in H. apply negb_true_iff, Z.eqb_neq.
  intros ->. destruct b; cbn in H; lia.
Qed.

(** What the ingestor makes of a record is measured. *)
Lemma toRow_measured (thisYear : Z) (bm : jsstring) (rec : record) :
  measured (toRow thisYear bm rec).
Proof.
  unfold measured, toRow. cbn [openAmount revenueAmount ratio].
  split; [apply num_is_double|]. split; [apply num_is_double|].
  destruct (num_is_double (openSrc rec)) as [Do Fo].
  destruct (num_is_double (revenueSrc rec)) as [Dr Fr].
  destruct (String_ (ratioSrc rec)) as [|c raw] eqn:Eraw.
  - destruct (lt zero (num (openSrc rec))) eqn:L.
    + split; [now apply div_is_double|].
      apply div_finite_not_NaN; auto. now apply lt_zero_truthy.
    + split; [apply zero_is_double | reflexivity].
  - destruct (num_is_double (VStr (c :: raw))) as [Dn Fn].
    destruct (includes (c :: raw) [c_percent]).
    + split; [apply div_is_double; [exact Dn | apply of_Z_is_double]|].
      apply div_finite_not_NaN; [exact Fn | |]; rewrite of_Z_100; [reflexivity|].
      cbn [truthy]. apply negb_true_iff, Z.eqb_neq. pose proof U_pos. lia.
    + split; [exact Dn | now apply finite_not_NaN].
Qed.

Lemma ingest_measured (thisYear : Z) (bm : jsstring) (data : list record) :
  Forall measured (filter hasIdentity (map (toRow thisYear bm) data)).
Proof.
  apply Forall_forall. intros r Hr. apply filter_In in Hr.
  destruct Hr as [Hr _]. apply in_map_iff in Hr.
  destruct Hr as (rec & <- & _). apply toRow_measured.
Qed.

Lemma uploaded_measured (thisYear : Z) (st : AppState) (files : list File) :
  Forall measured (uploaded thisYear st files).
Proof.
  unfold uploaded, merged. apply Forall_forall. intros r Hr.
  apply in_map_iff in Hr. destruct Hr as (r0 & <- & H0).
  apply in_concat in H0. destruct H0 as (b & Hb & Hr0).
  apply in_map_iff in Hb. destruct Hb as (f & <- & _).
  pose proof (ingest_measured thisYear (batchMonth st) (fileData f)) as M.
  rewrite Forall_forall in M. exact (M r0 Hr0).
Qed.

Lemma seed_measured : Forall measured seed.
Proof.
  apply Forall_forall. intros r Hr.
  destruct (seed_amounts r Hr) as ((Do & Fo & _) & (Dr & Fr & _) & (Dq & Fq & _)).
  repeat split; auto. now apply finite_not_NaN.
Qed.

Lemma step_measured (thisYear : Z) (st : AppState) (e : event) :
  Forall measured (rows st) -> Forall measured (rows (step thisYear st e)).
Proof.
  intros H. destruct e as [c d | fs | b | s | m | m |]; cbn [step rows];
    try exact H.
  - unfold onMount.
    assert (L : Forall measured (if c then loadFromCsvUrl thisYear d []
                                 else loadFromJsonUrl thisYear d [])).
    { destruct c; apply ingest_measured. }
    destruct (if c then loadFromCsvUrl thisYear d [] else loadFromJsonUrl thisYear d []);
      [exact H | exact L].
  - destruct fs as [|f fs]; [exact H|].
    rewrite onFiles_rows by discriminate.
    fold (uploaded thisYear st (f :: fs)). unfold merge.
    destruct (appendMode st); [apply Forall_app; split; [exact H|]|];
      apply uploaded_measured.
  - constructor.
Qed.

(** X12 (the numbers of the dataset): whatever record the ingestor reads,
    the open amount and the revenue of the row are finite doubles and its
    ratio is a double that is not NaN; and this holds of every row of the
    dataset in every state the page reaches from the demo data by loads,
    uploads, settings and clears. *)
Theorem X12_measured_invariant :
  forall thisYear : Z,
    (forall bm rec, measured (toRow thisYear bm rec))
    /\ (forall st files, Forall measured (uploaded thisYear st files))
    /\ (forall es, Forall measured (rows (run thisYear initialState es))).
Proof.
  intros thisYear.
  split; [intros bm rec; apply toRow_measured|].
  split; [intros st files; apply uploaded_measured|].
  intros es.
  assert (G : forall st, Forall measured (rows st) ->
                         Forall measured (rows (run thisYear st es))).
  { induction es as [|e es IH]; intros st H; cbn [run fold_left]; [exact H|].
    apply IH, step_measured, H. }
  apply G. exact seed_measured.
Qed.

(** X13 (an explicit ratio): when the ratio field of a record is a
    string that, without commas, blanks and percent signs, is a numeral,
    the ratio of the row is the numeral's value (0 when it is not finite),
    divided by 100 when the string holds a percent sign; the quotient of
    revenue and open amount is not used. *)
Theorem X13_explicit_ratio :
  forall (thisYear : Z) (bm : jsstring) (rec : record) (s : jsstring) (nm : numeral),
    ratioSrc rec = VStr s ->
    numeral_ok nm = true ->
    stripped s = render nm ->
    ratio (toRow thisYear bm rec)
    = if includes s [c_percent]
      then div (if isFinite (numeral_value nm) then numeral_value nm else zero)
               (of_Z 100)
      else if isFinite (numeral_value nm) then numeral_value nm else zero.
Proof.
  intros thisYear bm rec s nm Hs Hok Hst.
  unfold toRow. cbn [ratio]. rewrite Hs. cbn [String_].
  assert (N : num (VStr s)
              = if isFinite (numeral_value nm) then numeral_value nm else zero).
  { rewrite num_stripped, Hst. now rewrite Number_of_numeral. }
  destruct s as [|c s'].
  - exfalso. cbn in Hst. symmetry in Hst. now apply render_nonempty in Hst.
  - now rewrite N.
Qed.

(** X13 on a record whose ROI field reads "25%". *)
Lemma X13_explicit_ratio_witness :
  let rec := [(lit "代理商", VStr (lit "X")); (lit "商戶", VStr (lit "M1"));
              (lit "開分量", VStr (lit "100")); (lit "營業額", VStr (lit "90"));
              (lit "ROI", VStr (lit "25%"))] in
  let nm := Numeral false (lit "25") None in
  (ratioSrc rec = VStr (lit "25%") /\ numeral_ok nm = true
   /\ stripped (lit "25%") = render nm)
  /\ ratio (toRow 2025 [] rec) = div (numeral_value nm) (of_Z 100).
Proof.
  intros rec nm.
  assert (H1 : ratioSrc rec = VStr (lit "25%")) by (vm_compute; reflexivity).
  assert (H2 : numeral_ok nm = true) by (vm_compute; reflexivity).
  assert (H3 : stripped (lit "25%") = render nm) by (vm_compute; reflexivity).
  assert (P : includes (lit "25%") [c_percent] = true) by (vm_compute; reflexivity).
  assert (F : isFinite (numeral_value nm) = true) by (vm_compute; reflexivity).
  split; [exact (conj H1 (conj H2 H3))|].
  pose proof (X13_explicit_ratio 2025 [] rec _ nm H1 H2 H3) as R.
  rewrite P, F in R. exact R.
Defined.

(** ** The batch month of an upload *)

Lemma batchMonth_fold_set (thisYear : Z) (files : list File) (v : jsstring) :
  v <> [] ->
  fold_left (fun v f =>
               match v, normalizeMonth thisYear (VStr (fileName f)) with
               | [], Some fromName => fromName
               | _, _ => v
               end) files v = v.
Proof.
  revert v. induction files as [|f fs IH]; intros v Hv; [reflexivity|].
  cbn [fold_left]. destruct v as [|c v]; [congruence|]. now apply IH.
Qed.

Lemma batchMonth_fold (thisYear : Z) (files : list File) :
  fold_left (fun v f =>
               match v, normalizeMonth thisYear (VStr (fileName f)) with
               | [], Some fromName => fromName
               | _, _ => v
               end) files [] = nameMonth thisYear files.
Proof.
  unfold nameMonth. induction files as [|f fs IH]; [reflexivity|].
  cbn [fold_left flat_map].
  destruct (normalizeMonth thisYear (VStr (fileName f))) as [m|] eqn:E.
  - cbn [app]. apply batchMonth_fold_set.
    now apply normalizeMonth_nonempty in E.
  - cbn [app]. exact IH.
Qed.

Lemma onFiles_batchMonth (thisYear : Z) (st : AppState) (files : list File) :
  files <> [] ->
  batchMonth (onFiles thisYear st files)
  = match batchMonth st with
    | [] =>
      fold_left (fun v f =>
                   match v, normalizeMonth thisYear (VStr (fileName f)) with
                   | [], Some fromName => fromName
                   | _, _ => v
                   end) files []
    | v => v
    end.
Proof.
  intros Hf. destruct files as [|f fs]; [congruence|]. unfold onFiles.
  match goal with
  | |- context [match ?m with [] => (monthA st, monthB st) | _ :: _ => _ end] =>
    destruct m
  end; reflexivity.
Qed.

(** X14 (the batch month of an upload): a batch month that is set is
    kept; when none is set, the first month that a file name gives
    becomes the batch month, but the rows of that upload were parsed
    without it: a row takes its month from its record, and is marked
    unspecified when the record has none. *)
Theorem X14_upload_batch_month :
  forall (thisYear : Z) (st : AppState) (files : list File),
    files <> [] ->
    (batchMonth st <> [] ->
     batchMonth (onFiles thisYear st files) = batchMonth st)
    /\ (batchMonth st = [] ->
        batchMonth (onFiles thisYear st files) = nameMonth thisYear files
        /\ forall r, In r (uploaded thisYear st files) ->
             exists f rec,
               In f files /\ In rec (fileData f)
               /\ month r = match month (toRow thisYear [] rec) with
                            | Some m => Some m
                            | None => Some (lit "未指定")
                            end).
Proof.
  intros thisYear st files Hf.
  pose proof (onFiles_batchMonth thisYear st files Hf) as B.
  split.
  - intros Hb. rewrite B.
    destruct (batchMonth st) as [|c v]; [congruence | reflexivity].
  - intros Hb. split.
    + rewrite B, Hb. apply batchMonth_fold.
    + intros r Hr. unfold uploaded, merged in Hr. rewrite Hb in Hr.
      apply in_map_iff in Hr. destruct Hr as (r0 & <- & H0).
      apply in_concat in H0. destruct H0 as (b & Hbt & Hr0).
      apply in_map_iff in Hbt. destruct Hbt as (f & <- & Hfin).
      unfold parseOne in Hr0. apply filter_In in Hr0. destruct Hr0 as [Hr0 _].
      apply in_map_iff in Hr0. destruct Hr0 as (rec & <- & Hrec).
      exists f, rec. split; [exact Hfin|]. split; [exact Hrec|].
      unfold backfill. cbn [month].
      destruct (month (toRow thisYear [] rec)); reflexivity.
Qed.

(** X14 on one sheet named after July 2025 whose row has no month. *)
Lemma X14_upload_batch_month_witness :
  let f := mkFile (lit "2025-07.csv")
                  [[(lit "代理商", VStr (lit "X")); (lit "商戶", VStr (lit "M1"));
                    (lit "開分量", VStr (lit "100"));
                    (lit "營業額", VStr (lit "30"))]] in
  ([f] <> [] /\ batchMonth initialState = [])
  /\ batchMonth (onFiles 2025 initialState [f]) = lit "2025-07"
  /\ map month (uploaded 2025 initialState [f]) = [Some (lit "未指定")].
Proof.
  intros f.
  assert (H1 : [f] <> []) by discriminate.
  assert (H2 : batchMonth initialState = []) by reflexivity.
  assert (N : nameMonth 2025 [f] = lit "2025-07") by (vm_compute; reflexivity).
  assert (M : map month (uploaded 2025 initialState [f]) = [Some (lit "未指定")])
    by (vm_compute; reflexivity).
  split; [exact (conj H1 H2)|]. split; [|exact M].
  rewrite <- N.
  exact (proj1 (proj2 (X14_upload_batch_month 2025 initialState [f] H1) H2)).
Defined.

(** ** Totals of whole amounts *)

Lemma wholeOf_of_Z (k : Z) : 0 <= k <= 2 ^ 53 -> wholeOf (of_Z k) = k.
Proof.
  intros H. rewrite of_Z_small by exact H. unfold wholeOf. cbn [val signed].
  pose proof U_pos. apply Z.div_mul. lia.
Qed.

Lemma wholeAmount_bounds (x : number) :
  wholeAmount x -> 0 <= wholeOf x <= 2 ^ 53 /\ x = of_Z (wholeOf x).
Proof.
  intros (k & Hk & ->). rewrite wholeOf_of_Z by exact Hk. auto.
Qed.

Lemma add_whole (a b : Z) :
  0 <= a -> 0 <= b -> a + b <= 2 ^ 53 -> add (of_Z a) (of_Z b) = of_Z (a + b).
Proof.
  intros Ha Hb Hs. pose proof U_pos as HU.
  rewrite !of_Z_small by lia. unfold add. cbn [signed andb].
  destruct (a * U + b * U =? 0) eqn:E.
  - apply Z.eqb_eq in E. assert (a + b = 0) by nia.
    replace ((a + b) * U) with 0 by nia. reflexivity.
  - apply Z.eqb_neq in E.
    assert (L : (a * U + b * U <? 0) = false) by (apply Z.ltb_ge; nia).
    rewrite L, Z.abs_eq by nia.
    replace (a * U + b * U) with ((a + b) * U) by ring.
    pose proof (of_Z_small (a + b) ltac:(lia)) as O. unfold of_Z in O.
    assert (E2 : (a + b <? 0) = false) by (apply Z.ltb_ge; lia).
    rewrite E2, Z.abs_eq in O by lia. exact O.
Qed.

Lemma sumWhole_nonneg (l : list number) :
  Forall wholeAmount l -> 0 <= sumWhole l.
Proof.
  induction 1 as [|x l Hx Hl IH]; cbn [sumWhole fold_right]; [lia|].
  apply wholeAmount_bounds in Hx. fold (sumWhole l). lia.
Qed.

(** Adding up whole amounts is exact while the total stays within 2^53. *)
Lemma fold_add_whole (l : list number) (a : Z) :
  Forall wholeAmount l -> 0 <= a -> a + sumWhole l <= 2 ^ 53 ->
  fold_left add l (of_Z a) = of_Z (a + sumWhole l).
Proof.
  intros H. revert a. induction H as [|x l Hx Hl IH]; intros a Ha Hs.
  - cbn. now rewrite Z.add_0_r.
  - cbn [fold_left sumWhole fold_right] in *. fold (sumWhole l) in *.
    pose proof (sumWhole_nonneg l Hl) as Hn.
    destruct (wholeAmount_bounds x Hx) as [Bx Ex].
    rewrite Ex at 1. rewrite add_whole by lia.
    rewrite IH by lia. f_equal. lia.
Qed.

Lemma sumWhole_perm (l1 l2 : list number) :
  Permutation l1 l2 -> sumWhole l1 = sumWhole l2.
Proof.
  induction 1 as [|x l l' P IH|x y l|l l' l'' P1 IH1 P2 IH2].
  - reflexivity.
  - cbn [sumWhole fold_right]. fold (sumWhole l). fold (sumWhole l'). lia.
  - cbn [sumWhole fold_right]. fold (sumWhole l). lia.
  - lia.
Qed.

Lemma Map_set_sum (k : jsstring) (x : number) (m : list (jsstring * number)) :
  sumWhole (map snd (Map_set k x m))
  = sumWhole (map snd m)
    - wholeOf (match Map_get k m with Some v => v | None => zero end)
    + wholeOf x.
Proof.
  induction m as [|[k' v'] m IH]; cbn [Map_set Map_get map snd sumWhole fold_right].
  - change (wholeOf zero) with 0. lia.
  - destruct (str_eqb k' k); cbn [map snd sumWhole fold_right].
    + fold (sumWhole (map snd m)). lia.
    + fold (sumWhole (map snd m)). fold (sumWhole (map snd (Map_set k x m))).
      rewrite IH. lia.
Qed.

Lemma Map_get_whole (k : jsstring) (m : list (jsstring * number)) :
  Forall (fun kv => wholeAmount (snd kv)) m ->
  wholeAmount (match Map_get k m with Some v => v | None => zero end)
  /\ wholeOf (match Map_get k m with Some v => v | None => zero end)
     <= sumWhole (map snd m).
Proof.
  induction 1 as [|[k' v'] m Hx Hm IH]; cbn [Map_get map snd sumWhole fold_right].
  - split; [exists 0; split; [lia | reflexivity] | change (wholeOf zero) with 0; lia].
  - fold (sumWhole (map snd m)).
    assert (N : 0 <= sumWhole (map snd m)).
    { apply sumWhole_nonneg. apply Forall_map. exact Hm. }
    cbn [snd] in Hx. pose proof (wholeAmount_bounds _ Hx) as Bx.
    destruct (str_eqb k' k); [split; [exact Hx | lia]|].
    destruct IH as [W L]. split; [exact W | lia].
Qed.

Lemma groupSum_fold_total (key : Row -> jsstring) (f : Row -> number)
      (rows : list Row) (m : list (jsstring * number)) :
  Forall (fun kv => wholeAmount (snd kv)) m ->
  (forall r, In r rows -> wholeAmount (f r)) ->
  sumWhole (map snd m) + totalWhole f rows <= 2 ^ 53 ->
  let m' := fold_left (fun m r =>
                         Map_set (key r)
                                 (add (match Map_get (key r) m with
                                       | Some v => v
                                       | None => zero
                                       end) (f r)) m) rows m in
  Forall (fun kv => wholeAmount (snd kv)) m'
  /\ sumWhole (map snd m') = sumWhole (map snd m) + totalWhole f rows.
Proof.
  revert m. induction rows as [|r rows IH]; intros m Hm Hr Hs; cbv zeta.
  - cbn [fold_left]. unfold totalWhole. cbn. split; [exact Hm | lia].
  - cbn [fold_left]. unfold totalWhole in *.
    cbn [map sumWhole fold_right] in Hs |- *. fold (sumWhole (map f rows)) in *.
    destruct (Map_get_whole (key r) m Hm) as [Wo Lo].
    set (old := match Map_get (key r) m with Some v => v | None => zero end) in *.
    destruct (wholeAmount_bounds old Wo) as [Bo Eo].
    destruct (wholeAmount_bounds (f r) (Hr r (or_introl eq_refl))) as [Bv Ev].
    assert (Nr : 0 <= sumWhole (map f rows)).
    { apply sumWhole_nonneg, Forall_map, Forall_forall.
      intros x Hx. apply Hr. now right. }
    assert (A : add old (f r) = of_Z (wholeOf old + wholeOf (f r))).
    { rewrite Eo at 1. rewrite Ev at 1. apply add_whole; lia. }
    assert (WA : wholeAmount (add old (f r))).
    { rewrite A. exists (wholeOf old + wholeOf (f r)). split; [lia | reflexivity]. }
    assert (S1 : sumWhole (map snd (Map_set (key r) (add old (f r)) m))
                 = sumWhole (map snd m) + wholeOf (f r)).
    { rewrite Map_set_sum. fold old. rewrite A, wholeOf_of_Z by lia. lia. }
    destruct (IH (Map_set (key r) (add old (f r)) m)) as [F S2].
    + apply Map_set_Forall; [intros k'; exact WA | exact Hm].
    + intros x Hx. apply Hr. now right.
    + rewrite S1. lia.
    + split; [exact F|]. rewrite S2, S1. lia.
Qed.

Lemma fold_left_snd (l : list (jsstring * number)) (a : number) :
  fold_left (fun s d => add s (snd d)) l a = fold_left add (map snd l) a.
Proof. revert a. induction l as [|d l IH]; intros a; cbn; auto. Qed.

Lemma zero_of_Z : zero = of_Z 0.
Proof. symmetry. rewrite of_Z_small by lia. reflexivity. Qed.

(** A sum of whole amounts, taken row by row. *)
Lemma reduceSum_whole (f : Row -> number) (rows : list Row) :
  (forall r, In r rows -> wholeAmount (f r)) ->
  totalWhole f rows <= 2 ^ 53 ->
  reduceSum f rows = of_Z (totalWhole f rows).
Proof.
  intros H Ht. unfold reduceSum.
  assert (E : fold_left (fun s r => add s (f r)) rows zero
              = fold_left add (map f rows) zero).
  { generalize zero. induction rows as [|r rows IH]; intros a; cbn; auto.
    apply IH. intros x Hx. apply H. now right.
    unfold totalWhole in *. cbn [map sumWhole fold_right] in Ht.
    fold (sumWhole (map f rows)) in Ht.
    destruct (wholeAmount_bounds _ (H r (or_introl eq_refl))). lia. }
  rewrite E, zero_of_Z. rewrite fold_add_whole; [reflexivity | | lia | exact Ht].
  apply Forall_map, Forall_forall. exact H.
Qed.

(** The same sum, taken group by group and then over the sorted groups. *)
Lemma grouped_whole (key : Row -> jsstring) (f : Row -> number) (rows : list Row) :
  (forall r, In r rows -> wholeAmount (f r)) ->
  totalWhole f rows <= 2 ^ 53 ->
  Forall (fun kv => wholeAmount (snd kv)) (sortBy byOpenDesc (groupSum key f rows))
  /\ sumWhole (map snd (sortBy byOpenDesc (groupSum key f rows)))
     = totalWhole f rows.
Proof.
  intros H Ht.
  destruct (groupSum_fold_total key f rows [] (Forall_nil _) H) as [F S].
  { cbn. exact Ht. }
  fold (groupSum key f rows) in F, S. cbn in S.
  split.
  - apply sortBy_Forall. exact F.
  - rewrite <- S. apply sumWhole_perm, Permutation_map, sortBy_perm.
Qed.

Lemma whole_truthy_or_zero (v : number) :
  wholeAmount v -> (if truthy v then v else zero) = v.
Proof.
  intros (k & Hk & ->). rewrite of_Z_small by exact Hk. cbn [truthy].
  destruct (k * U =? 0) eqn:E; cbn [negb]; [|reflexivity].
  apply Z.eqb_eq in E. now rewrite E.
Qed.

Lemma shareTotal_whole (share : list (jsstring * number)) :
  Forall (fun kv => wholeAmount (snd kv)) share ->
  shareTotal share = fold_left (fun s d => add s (snd d)) share zero.
Proof.
  intros H. unfold shareTotal.
  assert (G : forall a,
             fold_left (fun s d => add s (if truthy (snd d) then snd d else zero))
                       share a
             = fold_left (fun s d => add s (snd d)) share a).
  { induction H as [|d l Hd Hl IH]; intros a; [reflexivity|].
    cbn [fold_left]. rewrite (whole_truthy_or_zero _ Hd). apply IH. }
  apply G.
Qed.

(** X15 (totals agree): when the amounts of the rows are whole numbers
    whose total is at most 2^53, every sum is exact: the KPI total of the
    open amounts is the total, and so is the sum the Pareto shares are
    taken of; the KPI total of the revenues is the total, and so is the
    sum the pie's percentages are taken of.  Grouping and sorting do not
    change a total. *)
Theorem X15_totals_agree :
  forall rows : list Row,
    ((forall r, In r rows -> wholeAmount (openAmount r)) ->
     totalWhole openAmount rows <= 2 ^ 53 ->
     kpiOpen (kpi rows) = of_Z (totalWhole openAmount rows)
     /\ paretoSum rows = kpiOpen (kpi rows))
    /\ ((forall r, In r rows -> wholeAmount (revenueAmount r)) ->
        totalWhole revenueAmount rows <= 2 ^ 53 ->
        kpiRev (kpi rows) = of_Z (totalWhole revenueAmount rows)
        /\ shareTotal (useRevenueShareByAgent rows) = kpiRev (kpi rows)).
Proof.
  intros rows. split; intros H Ht.
  - cbn [kpi kpiOpen]. rewrite (reduceSum_whole openAmount rows H Ht).
    split; [reflexivity|].
    destruct (grouped_whole merchant openAmount rows H Ht) as [F S].
    unfold paretoSum, paretoList. rewrite fold_left_snd, zero_of_Z.
    rewrite fold_add_whole; [now rewrite S | | lia | rewrite S; exact Ht].
    apply Forall_map. exact F.
  - cbn [kpi kpiRev]. rewrite (reduceSum_whole revenueAmount rows H Ht).
    split; [reflexivity|].
    destruct (grouped_whole agent revenueAmount rows H Ht) as [F S].
    unfold useRevenueShareByAgent. change byValueDesc with byOpenDesc.
    rewrite (shareTotal_whole _ F), fold_left_snd, zero_of_Z.
    rewrite fold_add_whole; [now rewrite S | | lia | rewrite S; exact Ht].
    apply Forall_map. exact F.
Qed.

Lemma seed_whole (r : Row) :
  In r seed -> wholeAmount (openAmount r) /\ wholeAmount (revenueAmount r).
Proof.
  assert (B : forall k, 0 <= k <= 1200000 -> 0 <= k <= 2 ^ 53).
  { intros k Hk. assert (1200000 <= 2 ^ 53) by (vm_compute; discriminate). lia. }
  intros [<- | [<- | [<- | [<- | [<- | []]]]]]; cbn [seedRow openAmount revenueAmount];
    split; eexists; (split; [apply B | reflexivity]); lia.
Qed.

(** X15 on the demo dataset. *)
Lemma X15_totals_agree_witness :
  ((forall r, In r seed -> wholeAmount (openAmount r))
   /\ totalWhole openAmount seed <= 2 ^ 53)
  /\ paretoSum seed = kpiOpen (kpi seed).
Proof.
  assert (H : forall r, In r seed -> wholeAmount (openAmount r)).
  { intros r Hr. apply (seed_whole r Hr). }
  assert (Ht : totalWhole openAmount seed <= 2 ^ 53) by (vm_compute; discriminate).
  split; [exact (conj H Ht)|].
  exact (proj2 (proj1 (X15_totals_agree seed) H Ht)).
Defined.

(** ** The select menus *)

Lemma lit_ALL : lit "ALL" = [65; 76; 76]%N.
Proof. vm_compute. reflexivity. Qed.

Lemma excludeTokens_empty : excludeTokens [] = [].
Proof. reflexivity. Qed.

Lemma filtered_menu (lower : jsstring -> jsstring) (rows : list Row) (a m : jsstring) :
  filtered lower rows (mkCriteria [] a m [] [])
  = (if negb (str_eqb m (lit "ALL"))
     then filter (fun r => str_eqb (merchant r) m) else fun d => d)
      ((if negb (str_eqb a (lit "ALL"))
        then filter (fun r => str_eqb (agent r) a) else fun d => d) rows).
Proof.
  rewrite filtered_unfold. unfold afterMonths.
  cbn [selectedMonths agentFilter merchantFilter excludeAgent q length Nat.eqb
       negb andb trim trimStart trimEnd dropWhile rev app].
  rewrite excludeTokens_empty. cbn [length Nat.eqb negb].
  destruct (negb (str_eqb a (lit "ALL"))), (negb (str_eqb m (lit "ALL")));
    reflexivity.
Qed.

(** X16 (the select menus): the agent menu lists every agent of the
    dataset once; the merchant menu lists once every merchant that has a
    row with the chosen agent (with any agent when all are chosen); and
    no choice the menus offer is empty: an agent of the menu and then a
    merchant of its menu always show at least one row, every row shown
    being of that agent and merchant unless the name is the word ALL, which
    means all. *)
Theorem X16_select_menus :
  forall (lower : jsstring -> jsstring) (rows : list Row),
    NoDup (agents rows)
    /\ (forall a, In a (agents rows) <-> exists r, In r rows /\ agent r = a)
    /\ (forall a, NoDup (merchants rows a))
    /\ (forall a m, a <> lit "ALL" ->
          (In m (merchants rows a)
           <-> exists r, In r rows /\ agent r = a /\ merchant r = m))
    /\ (forall m, In m (merchants rows (lit "ALL"))
                  <-> exists r, In r rows /\ merchant r = m)
    /\ (forall a m,
          In a (agents rows) -> In m (merchants rows a) ->
          filtered lower rows (mkCriteria [] a m [] []) <> []).
Proof.
  intros lower rows.
  assert (MA : forall m, In m (merchants rows (lit "ALL"))
                         <-> exists r, In r rows /\ merchant r = m).
  { intros m. unfold merchants. rewrite str_eqb_refl, Set_of_In, in_map_iff.
    split; intros (r & H1 & H2); eauto. }
  assert (MO : forall a m, a <> lit "ALL" ->
                 (In m (merchants rows a)
                  <-> exists r, In r rows /\ agent r = a /\ merchant r = m)).
  { intros a m Ha. unfold merchants. apply str_eqb_neq in Ha. rewrite Ha.
    rewrite Set_of_In, in_map_iff. split.
    - intros (r & E & Hr). apply filter_In in Hr. destruct Hr as [Hr Er].
      apply str_eqb_eq in Er. eauto.
    - intros (r & Hr & Ea & Em). exists r. split; [exact Em|].
      apply filter_In. split; [exact Hr | now apply str_eqb_eq]. }
  split; [apply Set_of_NoDup|].
  split.
  { intros a. unfold agents. rewrite Set_of_In, in_map_iff.
    split; intros (r & H1 & H2); eauto. }
  split; [intros a; apply Set_of_NoDup|].
  split; [exact MO|]. split; [exact MA|].
  intros a m Ha Hm. rewrite filtered_menu.
  assert (R : exists r, In r rows
                        /\ (str_eqb a (lit "ALL") = false -> agent r = a)
                        /\ merchant r = m).
  { destruct (str_eqb a (lit "ALL")) eqn:E.
    - apply str_eqb_eq in E. subst a. apply MA in Hm.
      destruct Hm as (r & Hr & Em). exists r. repeat split; auto. discriminate.
    - apply str_eqb_neq in E. apply (MO a m E) in Hm.
      destruct Hm as (r & Hr & Ea & Em). exists r. auto. }
  destruct R as (r & Hr & Ea & Em).
  assert (I1 : In r ((if negb (str_eqb a (lit "ALL"))
                      then filter (fun r => str_eqb (agent r) a)
                      else fun d => d) rows)).
  { destruct (str_eqb a (lit "ALL")) eqn:E; cbn [negb]; [exact Hr|].
    apply filter_In. split; [exact Hr|]. apply str_eqb_eq. now apply Ea. }
  set (d := (if negb (str_eqb a (lit "ALL"))
             then filter (fun r => str_eqb (agent r) a)
             else fun d => d) rows) in *.
  assert (I2 : In r ((if negb (str_eqb m (lit "ALL"))
                      then filter (fun r => str_eqb (merchant r) m)
                      else fun d => d) d)).
  { destruct (str_eqb m (lit "ALL")); cbn [negb]; [exact I1|].
    apply filter_In. split; [exact I1 | now apply str_eqb_eq]. }
  intros E. rewrite E in I2. destruct I2.
Qed.

(** X16 on the demo dataset. *)
Lemma X16_select_menus_witness :
  (In (lit "阿峰") (agents seed) /\ In (lit "千弈") (merchants seed (lit "阿峰")))
  /\ filtered (fun s => s) seed (mkCriteria [] (lit "阿峰") (lit "千弈") [] []) <> [].
Proof.
  assert (H1 : In (lit "阿峰") (agents seed)).
  { vm_compute. right. left. reflexivity. }
  assert (H2 : In (lit "千弈") (merchants seed (lit "阿峰"))).
  { vm_compute. left. reflexivity. }
  split; [exact (conj H1 H2)|].
  exact (proj2 (proj2 (proj2 (proj2 (proj2
           (X16_select_menus (fun s => s) seed))))) _ _ H1 H2).
Defined.

(** ** Stability of the sort *)

Lemma before_cons {A} (a b x : A) (l : list A) :
  before a b l -> before a b (x :: l).
Proof. intros (p & q & r & ->). now exists (x :: p), q, r. Qed.

Lemma before_head {A} (a b : A) (l : list A) : In b l -> before a b (a :: l).
Proof.
  intros H. apply in_split in H. destruct H as (q & r & ->).
  now exists [], q, r.
Qed.

Lemma before_insert {A} (a b x : A) (u v : list A) :
  before a b (u ++ v) -> before a b (u ++ x :: v).
Proof.
  revert v. induction u as [|y u IH]; intros v H; cbn [app] in *.
  - now apply before_cons.
  - destruct H as (p & q & r & E). destruct p as [|z p]; cbn [app] in E.
    + inversion E as [[Ey Er]]. apply before_head.
      assert (Hb : In b (u ++ v)).
      { rewrite Er. apply in_or_app. right. now left. }
      apply in_app_or in Hb. apply in_or_app.
      destruct Hb as [Hb | Hb]; [now left | right; now right].
    + inversion E as [[Ey Er]]. apply before_cons, IH. now exists p, q, r.
Qed.

Section Stable.
Context {V : Type}.
Variable after : V -> V -> bool.

Lemma sort_insert_split (x : V) (l : list V) :
  exists p q, sort_insert after x l = p ++ x :: q /\ l = p ++ q
              /\ Forall (fun y => after x y = true) p.
Proof.
  induction l as [|y l IH]; cbn [sort_insert].
  - exists [], []. repeat split. constructor.
  - destruct (after x y) eqn:E.
    + destruct IH as (p & q & E1 & E2 & F). exists (y :: p), q.
      rewrite E1, E2. repeat split. now constructor.
    + exists [], (y :: l). repeat split. constructor.
Qed.

Lemma sort_insert_before (a b x : V) (l : list V) :
  before a b l -> before a b (sort_insert after x l).
Proof.
  intros H. destruct (sort_insert_split x l) as (p & q & -> & -> & _).
  now apply before_insert.
Qed.

(** Two elements that the comparator does not put in the other order keep
    their order. *)
Lemma sortBy_stable (l1 l2 l3 : list V) (a b : V) :
  after a b = false ->
  before a b (sortBy after (l1 ++ a :: l2 ++ b :: l3)).
Proof.
  intros H. induction l1 as [|x l1 IH]; cbn [app sortBy fold_right].
  - fold (sortBy after (l2 ++ b :: l3)).
    destruct (sort_insert_split a (sortBy after (l2 ++ b :: l3)))
      as (p & q & -> & E & F).
    assert (Hb : In b (p ++ q)).
    { rewrite <- E. apply sortBy_In, in_or_app. right. now left. }
    apply in_app_or in Hb. destruct Hb as [Hb | Hb].
    + rewrite Forall_forall in F. rewrite (F b Hb) in H. discriminate H.
    + apply in_split in Hb. destruct Hb as (q1 & q2 & ->). now exists p, q1, q2.
  - fold (sortBy after (l1 ++ a :: l2 ++ b :: l3)).
    now apply sort_insert_before.
Qed.

End Stable.

(** X17 (the table sort is stable): when no sort value is NaN, two rows
    that the sorter does not put in the other order, in particular two
    rows with the same sort value, keep the order they have among the
    filtered rows. *)
Theorem X17_sort_stable :
  forall (filtered l1 l2 l3 : list Row) (a b : Row) (s : Sorter),
    (forall r, In r filtered -> getSortValue r (sortKey s) <> VNum NaN) ->
    filtered = l1 ++ a :: l2 ++ b :: l3 ->
    sortCompare s a b <= 0 ->
    before a b (sortedRows filtered s).
Proof.
  intros filtered l1 l2 l3 a b s _ -> H. unfold sortedRows.
  apply sortBy_stable. now apply Z.ltb_ge.
Qed.

(** X17 on the demo dataset sorted by month: the two rows of July keep
    their order. *)
Lemma X17_sort_stable_witness :
  let s := mkSorter KMonth Asc in
  let r1 := seedRow "2025-07" "金傑克" "萬豪" 1200000 300000 in
  let r2 := seedRow "2025-07" "金傑克" "新吉星" 900000 210000 in
  ((forall r, In r seed -> getSortValue r (sortKey s) <> VNum NaN)
   /\ sortCompare s r1 r2 <= 0)
  /\ before r1 r2 (sortedRows seed s).
Proof.
  intros s r1 r2.
  assert (H1 : forall r, In r seed -> getSortValue r (sortKey s) <> VNum NaN).
  { intros r _. cbn [s sortKey getSortValue]. destruct (month r); discriminate. }
  assert (H2 : sortCompare s r1 r2 <= 0) by (vm_compute; discriminate).
  split; [exact (conj H1 H2)|].
  exact (X17_sort_stable seed [] [] (skipn 2 seed) r1 r2 s H1 eq_refl H2).
Defined.

(** ** The cleared dataset *)

Lemma afterMonths_nil (lower : jsstring -> jsstring) (c : Criteria) :
  afterMonths lower c [] = [].
Proof.
  destruct (afterMonths_filter lower c) as (keep & K & _). now rewrite K.
Qed.

Lemma slice_nil {A} (start : number) (end_ : option number) :
  slice (@nil A) start end_ = [].
Proof. unfold slice. cbn [length skipn]. now rewrite skipn_nil, firstn_nil. Qed.

(** X18 (the clear button): clearing leaves no row and no comparison
    period, whatever the state was; and on no rows every view is empty
    rather than an error: the table for any criteria, the comparison, the
    Pareto chart, the histogram, the pie, the top merchants and the month
    chips, and the three KPI are 0. *)
Theorem X18_clear_empties_views :
  forall (st : AppState),
    rows (onClear st) = []
    /\ monthA (onClear st) = None /\ monthB (onClear st) = None
    /\ appendMode (onClear st) = appendMode st
    /\ batchMonth (onClear st) = batchMonth st
    /\ (forall lower c, filtered lower (rows (onClear st)) c = [])
    /\ (forall tokens mA mB kj,
           compareRows (baseRowsForCompare (rows (onClear st)) tokens) mA mB kj = [])
    /\ useParetoByMerchant (rows (onClear st)) = []
    /\ (forall fuel stp, useRatioHistogram fuel (rows (onClear st)) stp = Ok [])
    /\ useRevenueShareByAgent (rows (onClear st)) = []
    /\ (forall n, useTopOpenByMerchant (rows (onClear st)) n = [])
    /\ allMonths (rows (onClear st)) = []
    /\ kpi (rows (onClear st)) = mkKpi zero zero zero.
Proof.
  intros st. cbn [onClear rows monthA monthB appendMode batchMonth].
  repeat (split; [reflexivity|]).
  split.
  { intros lower c. rewrite filtered_unfold.
    destruct (_ && _); apply afterMonths_nil. }
  split.
  { intros tokens mA mB kj. cbn [baseRowsForCompare filter].
    destruct mA as [[|a mA]|]; try reflexivity.
    destruct mB as [[|b mB]|]; reflexivity. }
  split; [reflexivity|].
  split; [reflexivity|].
  split; [reflexivity|].
  split.
  { intros n. unfold useTopOpenByMerchant. cbn [groupSum fold_left sortBy fold_right].
    now rewrite slice_nil. }
  split; reflexivity.
Qed.

(** ** Whole numbers through the coercions *)

Lemma digits_stripped (ds : jsstring) :
  forallb is_digit ds = true -> stripped ds = ds.
Proof.
  intros H. unfold stripped. apply removeAll_none. intros c Hc.
  rewrite forallb_forall in H. specialize (H c Hc).
  rewrite (plain_not_space c (digit_plain c H)).
  unfold is_digit in H. rewrite andb_true_iff, !N.leb_le in H.
  assert (E1 : (c =? c_comma)%N = false) by (apply N.eqb_neq; unfold c_comma; lia).
  assert (E2 : (c =? c_percent)%N = false) by (apply N.eqb_neq; unfold c_percent; lia).
  now rewrite E1, E2.
Qed.

Lemma Number_of_digits (k : Z) :
  0 <= k < 2 ^ 53 -> Number_of_string (digits_of k) = of_Z k.
Proof.
  intros Hk. destruct (digits_of_spec k ltac:(lia)) as (Hd & Hv & Hl).
  assert (Ok : numeral_ok (Numeral false (digits_of k) None) = true).
  { cbn [numeral_ok fraction]. rewrite app_nil_r, Hd. cbn [forallb andb].
    destruct (digits_of k); [cbn in Hl; lia | reflexivity]. }
  pose proof (Number_of_numeral _ Ok) as N.
  cbn [render numeral_value fraction app length] in N. rewrite !app_nil_r in N.
  rewrite N, Hv. change (- Z.of_nat 0) with 0. unfold decimal.
  change (0 <=? 0) with true. cbv iota. change (10 ^ 0) with 1.
  rewrite Z.mul_1_r, mk_whole by lia. symmetry. apply of_Z_small. lia.
Qed.

Lemma String_whole (k : Z) :
  0 <= k < 2 ^ 53 -> numberToString (of_Z k) = digits_of k.
Proof.
  intros Hk. rewrite of_Z_small by lia.
  destruct (Z.eq_dec k 0) as [-> | Hne]; [reflexivity|].
  apply numberToString_whole. lia.
Qed.

Lemma num_whole (k : Z) : 0 <= k < 2 ^ 53 -> num (VNum (of_Z k)) = of_Z k.
Proof.
  intros Hk. unfold num. cbn [String_]. rewrite (String_whole k Hk).
  destruct (digits_of_spec k ltac:(lia)) as (Hd & _ & _).
  fold (stripped (digits_of k)). rewrite (digits_stripped _ Hd).
  rewrite (Number_of_digits k Hk). rewrite of_Z_small by lia. reflexivity.
Qed.

(** X19 (whole numbers): for a whole number [k] from 0 below 2^53,
    [String(k)] is the decimal digits of [k] and reading them back gives
    [k]; so the ingestor's [num] returns a numeric cell that holds [k]
    unchanged, and reads the digits of [k] as [k]; a record of a feed
    whose open amount and revenue are such numbers is ingested with
    exactly these amounts. *)
Theorem X19_whole_numbers :
  forall k : Z,
    0 <= k < 2 ^ 53 ->
    String_ (VNum (of_Z k)) = digits_of k
    /\ Number_of_string (digits_of k) = of_Z k
    /\ num (VNum (of_Z k)) = of_Z k
    /\ num (VStr (digits_of k)) = of_Z k
    /\ (forall thisYear bm rec j,
           0 <= j < 2 ^ 53 ->
           openSrc rec = VNum (of_Z k) -> revenueSrc rec = VNum (of_Z j) ->
           openAmount (toRow thisYear bm rec) = of_Z k
           /\ revenueAmount (toRow thisYear bm rec) = of_Z j).
Proof.
  intros k Hk.
  split; [apply (String_whole k Hk)|].
  split; [apply (Number_of_digits k Hk)|].
  split; [apply (num_whole k Hk)|].
  split.
  - destruct (digits_of_spec k ltac:(lia)) as (Hd & _ & _).
    rewrite num_stripped, (digits_stripped _ Hd), (Number_of_digits k Hk).
    rewrite of_Z_small by lia. reflexivity.
  - intros thisYear bm rec j Hj Eo Er. unfold toRow.
    cbn [openAmount revenueAmount]. rewrite Eo, Er.
    split; [apply (num_whole k Hk) | apply (num_whole j Hj)].
Qed.

(** X19 on a feed record with numeric amounts. *)
Lemma X19_whole_numbers_witness :
  0 <= 1200000 < 2 ^ 53
  /\ String_ (VNum (of_Z 1200000)) = digits_of 1200000
  /\ num (VNum (of_Z 1200000)) = of_Z 1200000.
Proof.
  assert (H : 0 <= 1200000 < 2 ^ 53) by (split; [lia | vm_compute; reflexivity]).
  split; [exact H|].
  split; [exact (proj1 (X19_whole_numbers 1200000 H))|].
  exact (proj1 (proj2 (proj2 (X19_whole_numbers 1200000 H)))).
Defined.

(** ** The characters of a printed number *)

Lemma scaled_floor_nonneg (m e : Z) : 0 <= m -> 0 <= scaled_floor m e.
Proof.
  intros Hm. unfold scaled_floor. pose proof U_pos as HU.
  destruct (0 <=? e) eqn:E.
  - apply Z.leb_le in E. apply Z.div_pos; [lia|].
    assert (0 < 10 ^ e) by (apply Z.pow_pos_nonneg; lia). nia.
  - apply Z.leb_gt in E. apply Z.div_pos; [|lia].
    assert (0 < 10 ^ (- e)) by (apply Z.pow_pos_nonneg; lia). nia.
Qed.

Lemma shortest_nonneg (fuel : nat) (m n0 k : Z) :
  0 <= m -> 0 <= fst (shortest fuel m n0 k).
Proof.
  intros Hm. revert k. induction fuel as [|f IH]; intros k.
  - cbn [shortest fst]. now apply scaled_floor_nonneg.
  - rewrite shortest_S. cbv zeta.
    pose proof (scaled_floor_nonneg m (n0 - k) Hm) as L.
    repeat match goal with
           | |- context [if ?b then _ else _] => destruct b
           end; cbn [fst]; try lia; apply IH.
Qed.

Lemma digit_numberChar (c : N) : is_digit c = true -> numberChar c.
Proof.
  unfold is_digit, numberChar. rewrite andb_true_iff, !N.leb_le. lia.
Qed.

Lemma digits_of_numberChar (n : Z) (c : N) :
  0 <= n -> In c (digits_of n) -> numberChar c.
Proof.
  intros Hn Hc. destruct (digits_of_spec n Hn) as (Hd & _ & _).
  rewrite forallb_forall in Hd. apply digit_numberChar, Hd, Hc.
Qed.

Lemma lit_NaN : lit "NaN" = [78; 97; 78]%N.
Proof. vm_compute. reflexivity. Qed.

Lemma strip_zeros_In (ds : jsstring) (c : N) : In c (strip_zeros ds) -> In c ds.
Proof.
  unfold strip_zeros. intros H. apply in_rev, dropWhile_In in H. now apply in_rev.
Qed.

Lemma firstn_In_list {A} (n : nat) (l : list A) (x : A) : In x (firstn n l) -> In x l.
Proof.
  intros H. rewrite <- (firstn_skipn n l). apply in_or_app. now left.
Qed.

Lemma skipn_In_list {A} (n : nat) (l : list A) (x : A) : In x (skipn n l) -> In x l.
Proof.
  intros H. rewrite <- (firstn_skipn n l). apply in_or_app. now right.
Qed.

(** Every code unit of [String(x)] is one of a number. *)
Lemma numberToString_chars (x : number) (c : N) :
  wfn x -> In c (numberToString x) -> numberChar c.
Proof.
  destruct x as [|s|s m].
  - intros _. cbn [numberToString]. rewrite lit_NaN. unfold numberChar.
    intros [<- | [<- | [<- | []]]]; lia.
  - intros _. cbn [numberToString]. rewrite lit_Infinity. unfold numberChar, c_minus.
    intros H. apply in_app_or in H. destruct H as [H | H].
    + destruct s; [destruct H as [<- | []]; lia | destruct H].
    + repeat (destruct H as [<- | H]; [lia|]). destruct H.
  - cbn [wfn]. intros Hm.
    destruct (Z.eq_dec m 0) as [-> | Hne].
    { cbn. unfold numberChar, c_zero. intros [<- | []]. lia. }
    destruct (shortest 20 m (dec_exponent m) 1) as [sd e] eqn:E.
    rewrite (numberToString_Fin s m sd e Hne E).
    assert (Hsd : 0 <= sd).
    { pose proof (shortest_nonneg 20 m (dec_exponent m) 1 Hm) as P.
      now rewrite E in P. }
    assert (D0 : forall x, In x (digits_of sd) -> numberChar x).
    { intros x. now apply digits_of_numberChar. }
    assert (D : forall x, In x (strip_zeros (digits_of sd)) -> numberChar x).
    { intros x Hx. apply D0. now apply strip_zeros_In. }
    assert (Z0 : forall n x, In x (repeat c_zero n) -> numberChar x).
    { intros n x Hx. apply repeat_spec in Hx. subst x. unfold numberChar, c_zero. lia. }
    assert (Cd : numberChar c_dot) by (unfold numberChar, c_dot; lia).
    assert (Cz : numberChar c_zero) by (unfold numberChar, c_zero; lia).
    assert (Cm : numberChar c_minus) by (unfold numberChar, c_minus; lia).
    assert (Cp : numberChar c_plus) by (unfold numberChar, c_plus; lia).
    assert (Ce : numberChar 101%N) by (unfold numberChar; lia).
    cbv zeta. set (ds := strip_zeros (digits_of sd)) in *.
    set (n := e + Z.of_nat (length (digits_of sd))).
    assert (Ex : forall x,
               In x ([101%N] ++ [if n - 1 <? 0 then c_minus else c_plus]
                     ++ digits_of (Z.abs (n - 1))) -> numberChar x).
    { intros x Hx. cbn [app] in Hx. destruct Hx as [<- | [<- | Hx]].
      - exact Ce.
      - now destruct (n - 1 <? 0).
      - apply (digits_of_numberChar (Z.abs (n - 1))); [lia | exact Hx]. }
    intros H. apply in_app_or in H. destruct H as [H | H].
    { destruct s; [destruct H as [<- | []]; exact Cm | destruct H]. }
    destruct ((Z.of_nat (length ds) <=? n) && (n <=? 21)).
    { apply in_app_or in H. destruct H as [H | H]; [now apply D | exact (Z0 _ c H)]. }
    destruct ((0 <? n) && (n <=? 21)).
    { apply in_app_or in H. destruct H as [H | H].
      - apply D. now apply firstn_In_list in H.
      - cbn [app] in H. destruct H as [<- | H]; [exact Cd|].
        apply D. now apply skipn_In_list in H. }
    destruct ((-6 <? n) && (n <=? 0)).
    { cbn [app] in H. destruct H as [<- | [<- | H]]; [exact Cz | exact Cd |].
      apply in_app_or in H. destruct H as [H | H]; [exact (Z0 _ c H) | now apply D]. }
    cbv zeta in H.
    destruct ds as [|d0 [|d1 ds']] eqn:Eds.
    + now apply Ex.
    + apply in_app_or in H. destruct H as [[<- | []] | H].
      * apply D. now left.
      * now apply Ex.
    + cbn [app] in H. destruct H as [<- | [<- | [<- | H]]].
      * apply D. now left.
      * exact Cd.
      * apply D. right. now left.
      * apply in_app_or in H. destruct H as [H | H]; [|now apply Ex].
        apply D. right. right. exact H.
Qed.

(** ** The comparison copied as TSV *)

Lemma tabs_app (a b : jsstring) : tabs (a ++ b) = (tabs a + tabs b)%nat.
Proof. apply count_occ_app. Qed.

Lemma lineFeeds_app (a b : jsstring) :
  lineFeeds (a ++ b) = (lineFeeds a + lineFeeds b)%nat.
Proof. apply count_occ_app. Qed.

Lemma join_tabs (cells : list jsstring) :
  Forall (fun c => tabs c = 0%nat) cells ->
  tabs (join [c_tab] cells) = (length cells - 1)%nat.
Proof.
  induction 1 as [|x l Hx Hl IH]; [reflexivity|].
  cbn [join]. destruct l as [|y l]; [cbn; lia|].
  rewrite !tabs_app, Hx, IH. cbn [length].
  replace (tabs [c_tab]) with 1%nat by reflexivity. lia.
Qed.

(** Joining with tabs brings in no line feed, and joining with line feeds
    brings in one between two lines. *)
Lemma join_tab_lineFeeds (cells : list jsstring) :
  Forall (fun c => lineFeeds c = 0%nat) cells ->
  lineFeeds (join [c_tab] cells) = 0%nat.
Proof.
  induction 1 as [|x l Hx Hl IH]; [reflexivity|].
  cbn [join]. destruct l as [|y l]; [exact Hx|].
  rewrite !lineFeeds_app, Hx, IH. reflexivity.
Qed.

Lemma join_lineFeeds (ls : list jsstring) :
  Forall (fun l => lineFeeds l = 0%nat) ls ->
  lineFeeds (join [c_newline] ls) = (length ls - 1)%nat.
Proof.
  induction 1 as [|x l Hx Hl IH]; [reflexivity|].
  cbn [join]. destruct l as [|y l]; [cbn; lia|].
  rewrite !lineFeeds_app, Hx, IH. cbn [length].
  replace (lineFeeds [c_newline]) with 1%nat by reflexivity. lia.
Qed.

Lemma cellText_lineFeeds (v : option cell) :
  (forall n, v = Some (CellNum n) -> wfn n) ->
  (forall s, v = Some (CellStr s) -> lineFeeds s = 0%nat) ->
  lineFeeds (cellText v) = 0%nat.
Proof.
  intros H Hs. unfold lineFeeds. apply count_occ_not_In.
  destruct v as [[s | n]|]; cbn [cellText]; [| |intros []].
  - intros Hin. apply in_map_iff in Hin. destruct Hin as (ch & E & Hch).
    specialize (Hs s eq_refl). unfold lineFeeds in Hs.
    apply count_occ_not_In in Hs.
    destruct (ch =? c_tab)%N eqn:Et; [discriminate E|]. congruence.
  - intros Hin. apply numberToString_chars in Hin; [|now apply H].
    unfold numberChar, c_newline in Hin. lia.
Qed.

Lemma cellText_tabs (v : option cell) :
  (forall n, v = Some (CellNum n) -> wfn n) -> tabs (cellText v) = 0%nat.
Proof.
  intros H. unfold tabs. apply count_occ_not_In.
  destruct v as [[s | n]|]; cbn [cellText]; [| |intros []].
  - intros Hin. apply in_map_iff in Hin. destruct Hin as (ch & E & _).
    destruct (ch =? c_tab)%N eqn:Et; [discriminate E|].
    apply N.eqb_neq in Et. congruence.
  - intros Hin. apply numberToString_chars in Hin; [|now apply H].
    unfold numberChar, c_tab in Hin. lia.
Qed.

Lemma object_keys (mA mB : jsstring) (c : ComparisonRow) :
  tsvColumns mA mB c = Set_of (map fst (comparisonEntries mA mB c)).
Proof.
  unfold tsvColumns, comparisonObject, Set_of.
  generalize (comparisonEntries mA mB c). intros l.
  assert (G : forall o : list (jsstring * cell),
             Map_keys (fold_left (fun o kv => Map_set (fst kv) (snd kv) o) l o)
             = fold_left (fun s k => Set_add k s) (map fst l) (Map_keys o)).
  { induction l as [|kv l IH]; intros o; [reflexivity|].
    cbn [fold_left map]. rewrite IH. now rewrite Map_keys_set_Set_add. }
  exact (G []).
Qed.

Lemma object_values (mA mB : jsstring) (c : ComparisonRow) (k : jsstring) (n : number) :
  printable c ->
  Map_get k (comparisonObject mA mB c) = Some (CellNum n) -> wfn n.
Proof.
  intros ((A1 & A2 & A3) & (B1 & B2 & B3) & (C1 & C2 & C3)) G.
  set (P := fun kv : jsstring * cell =>
              match snd kv with CellNum x => wfn x | CellStr _ => True end).
  assert (F : Forall P (comparisonObject mA mB c)).
  { unfold comparisonObject.
    assert (E : Forall P (comparisonEntries mA mB c)).
    { unfold comparisonEntries, P. repeat constructor; assumption. }
    assert (G0 : Forall P (@nil (jsstring * cell))) by constructor.
    revert G0. generalize (@nil (jsstring * cell)).
    induction E as [|kv l Hkv Hl IH]; intros o Ho; [exact Ho|].
    cbn [fold_left]. apply IH. apply Map_set_Forall; [|exact Ho].
    intros k'. exact Hkv. }
  destruct (Map_get_Forall P k _ _ F G) as (k' & Hk). exact Hk.
Qed.

Lemma object_labels (mA mB : jsstring) (c : ComparisonRow) (k s : jsstring) :
  lineFeeds (c_agent c) = 0%nat -> lineFeeds (c_merchant c) = 0%nat ->
  Map_get k (comparisonObject mA mB c) = Some (CellStr s) -> lineFeeds s = 0%nat.
Proof.
  intros La Lm G.
  set (P := fun kv : jsstring * cell =>
              match snd kv with
              | CellNum _ => True
              | CellStr x => lineFeeds x = 0%nat
              end).
  assert (F : Forall P (comparisonObject mA mB c)).
  { unfold comparisonObject.
    assert (E : Forall P (comparisonEntries mA mB c)).
    { unfold comparisonEntries, P. repeat constructor; assumption. }
    assert (G0 : Forall P (@nil (jsstring * cell))) by constructor.
    revert G0. generalize (@nil (jsstring * cell)).
    induction E as [|kv l Hkv Hl IH]; intros o Ho; [exact Ho|].
    cbn [fold_left]. apply IH. apply Map_set_Forall; [|exact Ho].
    intros k'. exact Hkv. }
  destruct (Map_get_Forall P k _ _ F G) as (k' & Hk). exact Hk.
Qed.

Lemma tsvLine_tabs (mA mB : jsstring) (cols : list jsstring) (r : ComparisonRow) :
  printable r -> tabs (tsvLine mA mB cols r) = (length cols - 1)%nat.
Proof.
  intros Hr. unfold tsvLine. rewrite join_tabs, length_map; [reflexivity|].
  apply Forall_map, Forall_forall. intros c _. apply cellText_tabs.
  intros n E. exact (object_values mA mB r c n Hr E).
Qed.

Lemma tsvLine_lineFeeds (mA mB : jsstring) (cols : list jsstring) (r : ComparisonRow) :
  printable r ->
  lineFeeds (c_agent r) = 0%nat -> lineFeeds (c_merchant r) = 0%nat ->
  lineFeeds (tsvLine mA mB cols r) = 0%nat.
Proof.
  intros Hr La Lm. unfold tsvLine. apply join_tab_lineFeeds.
  apply Forall_map, Forall_forall. intros c _. apply cellText_lineFeeds.
  - intros n E. exact (object_values mA mB r c n Hr E).
  - intros s E. exact (object_labels mA mB r c s La Lm E).
Qed.

Lemma lit_key_agent : lit "代理商" = [20195; 29702; 21830]%N.
Proof. vm_compute. reflexivity. Qed.
Lemma lit_key_merchant : lit "商戶" = [21830; 25142]%N.
Proof. vm_compute. reflexivity. Qed.
Lemma lit_key_open : lit "開分量@" = [38283; 20998; 37327; 64]%N.
Proof. vm_compute. reflexivity. Qed.
Lemma lit_key_dopen : lit "Δ開分量" = [916; 38283; 20998; 37327]%N.
Proof. vm_compute. reflexivity. Qed.
Lemma lit_key_rev : lit "營業額@" = [29151; 26989; 38989; 64]%N.
Proof. vm_compute. reflexivity. Qed.
Lemma lit_key_drev : lit "Δ營業額" = [916; 29151; 26989; 38989]%N.
Proof. vm_compute. reflexivity. Qed.
Lemma lit_key_ratio : lit "比率@" = [27604; 29575; 64]%N.
Proof. vm_compute. reflexivity. Qed.
Lemma lit_key_dratio : lit "Δ比率" = [916; 27604; 29575]%N.
Proof. vm_compute. reflexivity. Qed.

Ltac key_lits :=
  rewrite ?lit_key_agent, ?lit_key_merchant, ?lit_key_open, ?lit_key_dopen,
    ?lit_key_rev, ?lit_key_drev, ?lit_key_ratio, ?lit_key_dratio;
  cbn [app].

Ltac keys_differ :=
  repeat match goal with
         | |- NoDup [] => constructor
         | |- NoDup (_ :: _) => constructor
         | |- ~ In _ _ => cbn [In]; intros H
         | H : _ \/ _ |- _ => destruct H as [H | H]
         | H : False |- _ => destruct H
         | H : _ :: _ = _ :: _ |- _ => injection H as H; try discriminate; try congruence
         end.

Lemma tsv_columns_count (mA mB : jsstring) (c : ComparisonRow) :
  length (tsvColumns mA mB c) = if str_eqb mA mB then 8%nat else 11%nat.
Proof.
  rewrite object_keys.
  set (keys := map fst (comparisonEntries mA mB c)).
  assert (L : forall l2, NoDup l2 -> (forall x, In x keys <-> In x l2) ->
                         length (Set_of keys) = length l2).
  { intros l2 N2 E. apply Permutation_length, NoDup_Permutation;
      [apply Set_of_NoDup | exact N2|].
    intros x. rewrite Set_of_In. apply E. }
  destruct (str_eqb mA mB) eqn:E.
  - apply str_eqb_eq in E. subst mB.
    rewrite (L [lit "代理商"; lit "商戶"; lit "開分量@" ++ mA; lit "Δ開分量";
                lit "營業額@" ++ mA; lit "Δ營業額"; lit "比率@" ++ mA; lit "Δ比率"]).
    + reflexivity.
    + key_lits. keys_differ.
    + intros x. unfold keys. cbn [comparisonEntries map fst In]. tauto.
  - apply str_eqb_neq in E. rewrite (L keys).
    + reflexivity.
    + unfold keys. cbn [comparisonEntries map fst]. key_lits. keys_differ.
    + tauto.
Qed.

Lemma measured_wfn (r : Row) :
  measured r -> wfn (openAmount r) /\ wfn (revenueAmount r) /\ wfn (ratio r).
Proof.
  intros ((A & _) & (B & _) & (C & _)).
  repeat split; now apply is_double_wfn.
Qed.

Lemma field_wfn (f : Row -> number) (l : list Row) (kj : KeyJoin) (k : jsstring) :
  Forall (fun r => wfn (f r)) l -> wfn (field f (Map_get k (keyMap kj l)) zero).
Proof.
  intros F. destruct (Map_get k (keyMap kj l)) as [r|] eqn:E; cbn [field].
  - apply keyMap_get_In in E. destruct E as [Hin _].
    rewrite Forall_forall in F. now apply F.
  - vm_compute. discriminate.
Qed.

Lemma compareRows_printable (base : list Row) (mA mB : option jsstring) (kj : KeyJoin) :
  Forall measured base -> Forall printable (compareRows base mA mB kj).
Proof.
  intros F. apply Forall_forall. intros c Hc.
  unfold compareRows in Hc.
  destruct mA as [[|a mA]|]; [destruct Hc| |destruct Hc].
  destruct mB as [[|b mB]|]; [destruct Hc| |destruct Hc].
  cbv zeta in Hc. apply sortBy_In, in_map_iff in Hc.
  destruct Hc as (k & <- & _).
  assert (W : forall (f : Row -> number) (m : jsstring),
             (forall r, measured r -> wfn (f r)) ->
             wfn (field f (Map_get k (keyMap kj (filter (inMonth m) base))) zero)).
  { intros f m Hf. apply field_wfn, Forall_forall. intros r Hr.
    apply filter_In in Hr. destruct Hr as [Hr _].
    rewrite Forall_forall in F. apply Hf, F, Hr. }
  assert (Wo := fun m => W openAmount m (fun r H => proj1 (measured_wfn r H))).
  assert (Wv := fun m => W revenueAmount m
                          (fun r H => proj1 (proj2 (measured_wfn r H)))).
  assert (Wr := fun m => W ratio m (fun r H => proj2 (proj2 (measured_wfn r H)))).
  unfold printable, compareKey. cbn.
  repeat split; try apply sub_wfn; auto.
Qed.

Lemma compareRows_oneLine (base : list Row) (mA mB : option jsstring) (kj : KeyJoin) :
  Forall oneLine base ->
  Forall (fun c => lineFeeds (c_agent c) = 0%nat /\ lineFeeds (c_merchant c) = 0%nat)
         (compareRows base mA mB kj).
Proof.
  intros F. apply Forall_forall. intros c Hc.
  unfold compareRows in Hc.
  destruct mA as [[|a mA]|]; [destruct Hc| |destruct Hc].
  destruct mB as [[|b mB]|]; [destruct Hc| |destruct Hc].
  cbv zeta in Hc. apply sortBy_In, in_map_iff in Hc.
  destruct Hc as (k & <- & _).
  assert (W : forall (m : jsstring) (r : Row),
             Map_get k (keyMap kj (filter (inMonth m) base)) = Some r -> oneLine r).
  { intros m r E. apply keyMap_get_In in E. destruct E as [Hin _].
    apply filter_In in Hin. destruct Hin as [Hin _].
    rewrite Forall_forall in F. now apply F. }
  unfold compareKey. cbn.
  destruct (Map_get k (keyMap kj (filter (inMonth (a :: mA)) base))) as [ra|] eqn:Ea;
    cbn [field]; [exact (W _ _ Ea)|].
  destruct (Map_get k (keyMap kj (filter (inMonth (b :: mB)) base))) as [rb|] eqn:Eb;
    cbn [field]; [exact (W _ _ Eb)|].
  split; reflexivity.
Qed.

Lemma tsv_header_lineFeeds (mA mB : jsstring) (c0 : ComparisonRow) :
  lineFeeds mA = 0%nat -> lineFeeds mB = 0%nat ->
  lineFeeds (join [c_tab] (tsvColumns mA mB c0)) = 0%nat.
Proof.
  intros HA HB. apply join_tab_lineFeeds, Forall_forall. intros k Hk.
  rewrite object_keys in Hk. apply (proj1 (Set_of_In _ _)) in Hk.
  cbn [comparisonEntries map fst In] in Hk.
  repeat match type of Hk with
         | _ \/ _ => destruct Hk as [<- | Hk]
         | False => destruct Hk
         end; rewrite ?lineFeeds_app, ?HA, ?HB; reflexivity.
Qed.

Lemma tsv_header_tabs (mA mB : jsstring) (c0 : ComparisonRow) :
  tabs mA = 0%nat -> tabs mB = 0%nat ->
  tabs (join [c_tab] (tsvColumns mA mB c0)) = (length (tsvColumns mA mB c0) - 1)%nat.
Proof.
  intros HA HB. apply join_tabs, Forall_forall. intros k Hk.
  rewrite object_keys in Hk. apply (proj1 (Set_of_In _ _)) in Hk.
  cbn [comparisonEntries map fst In] in Hk.
  repeat match type of Hk with
         | _ \/ _ => destruct Hk as [<- | Hk]
         | False => destruct Hk
         end; rewrite ?tabs_app, ?HA, ?HB; reflexivity.
Qed.

(** X20 (copyTSV, with the object literal of compareRows).  The text that the
    copy button writes is a rectangular table, as long as no label and no
    period holds a line feed (the code replaces tabs only).  With no
    comparison row nothing is written.  Otherwise the text is the header
    and one line for every comparison row, joined by line feeds: no line
    holds a line feed of its own, so the text has as many line feeds as
    there are comparison rows; the header has eight fields when the two
    periods are the same and eleven when they differ, and every data line
    has exactly as many tab-separated fields as the header. *)
Theorem X20_copy_tsv :
  forall (base : list Row) (mA mB : jsstring) (kj : KeyJoin),
    Forall measured base -> Forall oneLine base ->
    tabs mA = 0%nat -> tabs mB = 0%nat ->
    lineFeeds mA = 0%nat -> lineFeeds mB = 0%nat ->
    let cmp := compareRows base (Some mA) (Some mB) kj in
    let width := if str_eqb mA mB then 8%nat else 11%nat in
    (cmp = [] -> copyTSV cmp mA mB = None)
    /\ (cmp <> [] ->
        exists header lines,
          copyTSV cmp mA mB = Some (join [c_newline] (header :: lines))
          /\ length lines = length cmp
          /\ Forall (fun l => lineFeeds l = 0%nat /\ S (tabs l) = width)
                    (header :: lines)
          /\ lineFeeds (join [c_newline] (header :: lines)) = length cmp).
Proof.
  intros base mA mB kj F FL HA HB LA LB cmp width.
  assert (P : Forall printable cmp) by now apply compareRows_printable.
  assert (PL : Forall (fun c => lineFeeds (c_agent c) = 0%nat
                               /\ lineFeeds (c_merchant c) = 0%nat) cmp)
    by now apply compareRows_oneLine.
  split; [intros ->; reflexivity|].
  intros Hne. destruct cmp as [|c0 rest] eqn:E; [congruence|].
  exists (join [c_tab] (tsvColumns mA mB c0)),
         (map (tsvLine mA mB (tsvColumns mA mB c0)) (c0 :: rest)).
  split; [reflexivity|].
  split; [apply length_map|].
  assert (Wd : S (length (tsvColumns mA mB c0) - 1) = width).
  { rewrite tsv_columns_count. unfold width. now destruct (str_eqb mA mB). }
  assert (L : Forall (fun l => lineFeeds l = 0%nat /\ S (tabs l) = width)
                     (join [c_tab] (tsvColumns mA mB c0)
                      :: map (tsvLine mA mB (tsvColumns mA mB c0)) (c0 :: rest))).
  { constructor.
    - split; [now apply tsv_header_lineFeeds | now rewrite tsv_header_tabs].
    - apply Forall_map, Forall_forall. intros r Hr.
      rewrite Forall_forall in P, PL.
      destruct (PL r Hr) as [La Lm]. split.
      + apply tsvLine_lineFeeds; auto.
      + rewrite tsvLine_tabs by auto. exact Wd. }
  split; [exact L|].
  rewrite join_lineFeeds.
  - cbn [length]. rewrite length_map. cbn [length]. lia.
  - eapply Forall_impl; [|exact L]. intros l [H _]. exact H.
Qed.

Lemma X20_copy_tsv_witness :
  let cmp := compareRows seed (Some (lit "2025-07")) (Some (lit "2025-08"))
                         AgentAndMerchant in
  cmp <> []
  /\ exists header lines,
      copyTSV cmp (lit "2025-07") (lit "2025-08")
      = Some (join [c_newline] (header :: lines))
      /\ length lines = length cmp
      /\ Forall (fun l => lineFeeds l = 0%nat /\ S (tabs l) = 11%nat)
                (header :: lines)
      /\ lineFeeds (join [c_newline] (header :: lines)) = length cmp.
Proof.
  intros cmp.
  assert (H : cmp <> []) by (vm_compute; discriminate).
  assert (L : Forall oneLine seed)
    by (repeat constructor; vm_compute; reflexivity).
  split; [exact H|].
  exact (proj2 (X20_copy_tsv seed (lit "2025-07") (lit "2025-08") AgentAndMerchant
                             seed_measured L eq_refl eq_refl eq_refl eq_refl) H).
Defined.
